(** * Monte Carlo dynamics of the 2-D Ising model: a shallow embedding

    The five JavaScript programs of the repository (Metro vs. Glauber,
    Mix and Match, Visitation Variations, Boundaries, the MCMC Microscope)
    share one engine: a square lattice of spins, the energy change
    [calcDeltaE], an acceptance rule, a visitation sequence, and, in
    Program 4, a halo of border cells.  Each part is embedded here as a
    Rocq function that follows the JavaScript text; global variables
    become explicit arguments and results, [Math.random] becomes an
    explicit stream of draws. *)

From Stdlib Require Import Reals Lra Lia ZArith Permutation.
From stdpp Require Import base list sets strings.

(* ===================================================================== *)
(** * JavaScript numbers *)
(* ===================================================================== *)

(** A JavaScript Number is an IEEE-754 double.  The embedding keeps the
    special values that the programs can produce ([NaN] and the two
    infinities) and what happens at the top of the range: an exact result
    of magnitude 2^1024 - 2^970 or more becomes an infinity, one between
    [Number.MAX_VALUE] and that bound becomes [MAX_VALUE], as rounding to
    nearest does.  Inside the range a finite value is carried as the real
    number it stands for: rounding there, underflow and the sign of zero
    are not represented. *)

Module JS.

Inductive number : Type :=
  | NaN
  | NegInf
  | Fin (r : R)
  | PosInf.

(** [Number.MAX_VALUE] = (2 - 2^-52) * 2^1023. *)
Definition MAX_VALUE : R := ((2 - / 2 ^ 52) * 2 ^ 1023)%R.

(** Exact results from here on round to an infinity: 2^1024 - 2^970. *)
Definition OVERFLOW : R := ((2 - / 2 ^ 53) * 2 ^ 1023)%R.

(** The result of an arithmetic operation whose exact value is [r]. *)
Definition overflow (r : R) : number :=
  if Rle_dec OVERFLOW r then PosInf
  else if Rle_dec r (- OVERFLOW) then NegInf
  else if Rlt_dec MAX_VALUE r then Fin MAX_VALUE
  else if Rlt_dec r (- MAX_VALUE) then Fin (- MAX_VALUE)
  else Fin r.

Definition of_Z (z : Z) : number := Fin (IZR z).
Definition of_nat (n : nat) : number := Fin (INR n).

(** Unary minus. *)
Definition neg (a : number) : number :=
  match a with
  | NaN => NaN
  | NegInf => PosInf
  | Fin r => Fin (- r)
  | PosInf => NegInf
  end.

(** [a + b]. *)
Definition add (a b : number) : number :=
  match a, b with
  | NaN, _ | _, NaN => NaN
  | PosInf, NegInf | NegInf, PosInf => NaN
  | PosInf, _ | _, PosInf => PosInf
  | NegInf, _ | _, NegInf => NegInf
  | Fin x, Fin y => overflow (x + y)
  end.

(** [a - b]. *)
Definition sub (a b : number) : number := add a (neg b).

(** The infinity that has the sign of [r] times the sign of the infinity
    [pos] (true for +Infinity); a zero [r] gives NaN. *)
Definition inf_times (pos : bool) (r : R) : number :=
  if Req_dec_T r 0 then NaN
  else if Rlt_dec 0 r then (if pos then PosInf else NegInf)
  else (if pos then NegInf else PosInf).

(** [a * b]. *)
Definition mul (a b : number) : number :=
  match a, b with
  | NaN, _ | _, NaN => NaN
  | PosInf, PosInf | NegInf, NegInf => PosInf
  | PosInf, NegInf | NegInf, PosInf => NegInf
  | PosInf, Fin r | Fin r, PosInf => inf_times true r
  | NegInf, Fin r | Fin r, NegInf => inf_times false r
  | Fin x, Fin y => overflow (x * y)
  end.

(** [a / b].  A finite non-zero value over zero is an infinity, zero over
    zero is NaN, a finite value over an infinity is zero. *)
Definition div (a b : number) : number :=
  match a, b with
  | NaN, _ | _, NaN => NaN
  | (PosInf | NegInf), (PosInf | NegInf) => NaN
  | Fin _, (PosInf | NegInf) => Fin 0
  | PosInf, Fin y => if Rlt_dec y 0 then NegInf else PosInf
  | NegInf, Fin y => if Rlt_dec y 0 then PosInf else NegInf
  | Fin x, Fin y =>
      if Req_dec_T y 0 then
        (if Req_dec_T x 0 then NaN
         else if Rlt_dec 0 x then PosInf else NegInf)
      else overflow (x / y)
  end.

(** [a < b]: false as soon as one side is NaN. *)
Definition lt (a b : number) : bool :=
  match a, b with
  | NaN, _ | _, NaN => false
  | _, NegInf => false
  | NegInf, _ => true
  | PosInf, _ => false
  | Fin _, PosInf => true
  | Fin x, Fin y => if Rlt_dec x y then true else false
  end.

(** [a <= b]. *)
Definition le (a b : number) : bool :=
  match a, b with
  | NaN, _ | _, NaN => false
  | NegInf, _ => true
  | _, PosInf => true
  | _, NegInf => false
  | PosInf, _ => false
  | Fin x, Fin y => if Rle_dec x y then true else false
  end.

(** [Math.abs]. *)
Definition Math_abs (a : number) : number :=
  match a with
  | NaN => NaN
  | NegInf | PosInf => PosInf
  | Fin r => Fin (Rabs r)
  end.

(** [Math.sqrt]: NaN below zero. *)
Definition Math_sqrt (a : number) : number :=
  match a with
  | NaN | NegInf => NaN
  | PosInf => PosInf
  | Fin r => if Rlt_dec r 0 then NaN else Fin (sqrt r)
  end.

(** [Math.exp]: exp(-Infinity) is 0, exp(+Infinity) is +Infinity, and a
    finite argument whose exponential exceeds [MAX_VALUE] overflows. *)
Definition Math_exp (a : number) : number :=
  match a with
  | NaN => NaN
  | NegInf => Fin 0
  | PosInf => PosInf
  | Fin r => overflow (exp r)
  end.

(** [Math.min] of two numbers: NaN if either is NaN. *)
Definition Math_min (a b : number) : number :=
  match a, b with
  | NaN, _ | _, NaN => NaN
  | NegInf, _ | _, NegInf => NegInf
  | PosInf, c | c, PosInf => c
  | Fin x, Fin y => Fin (Rmin x y)
  end.

(** [Math.floor] of a finite value, as an integer. *)
Definition Math_floor (r : R) : Z := Int_part r.

(** A number that is neither NaN nor an infinity. *)
Definition finite (a : number) : Prop := exists r, a = Fin r.

(** A positive number: [0 < a] holds in JavaScript. *)
Definition positive (a : number) : Prop := lt (Fin 0) a = true.

End JS.

(* ===================================================================== *)
(** * The random source *)
(* ===================================================================== *)

(** [Math.random()] returns a value in [0, 1) and advances a hidden
    generator.  The generator is made explicit as the infinite sequence of
    values still to be drawn; the bound is part of its type. *)

Record rng : Type := mk_rng {
  draw : nat -> R;
  draw_range : forall n, (0 <= draw n < 1)%R
}.

(** The generator after one draw. *)
Definition rng_tail (g : rng) : rng :=
  {| draw := fun n => draw g (S n);
     draw_range := fun n => draw_range g (S n) |}.

(** [Math.random()]. *)
Definition Math_random (g : rng) : R * rng := (draw g 0, rng_tail g).

(** [Math.random() < 0.5]. *)
Definition coinFlip (g : rng) : bool * rng :=
  let (u, g') := Math_random g in
  (JS.lt (JS.Fin u) (JS.Fin (1 / 2)), g').

(** [Math.floor(Math.random() * n)], an index. *)
Definition random_index (n : nat) (g : rng) : nat * rng :=
  let (u, g') := Math_random g in
  (Z.to_nat (JS.Math_floor (u * INR n)), g').

(* ===================================================================== *)
(** * Errors and results of console-invoked routines *)
(* ===================================================================== *)

(** The exceptions the modelled code can raise. *)
Inductive error : Type :=
  | ReferenceError (name : string)   (* an identifier that is not defined *)
  | TypeError                        (* a property of undefined was read *)
  | RangeError.                      (* invalid array length *)

Inductive result (A : Type) : Type :=
  | Ok (a : A)
  | Throw (e : error).
Arguments Ok {A} a.
Arguments Throw {A} e.

(** [new Array(n).fill(0)]: the length must be below 2^32. *)
Definition new_Array_fill0 (n : nat) : result (list JS.number) :=
  if (Z.of_nat n <? 2 ^ 32)%Z then Ok (replicate n (JS.Fin 0)) else Throw RangeError.

(** [a[i] += v] on an array of numbers, for an index inside the array. *)
Definition add_at (a : list JS.number) (i : nat) (v : JS.number) : list JS.number :=
  match a !! i with
  | Some old => <[i := JS.add old v]> a
  | None => a
  end.

(** [a.reduce((acc, x) => acc + x, 0)]. *)
Definition reduce_add0 (a : list JS.number) : JS.number :=
  foldl JS.add (JS.Fin 0) a.

(** [a.reduce((sum, x) => sum + x)], with no initial value: a TypeError on
    the empty array. *)
Definition reduce_add (a : list JS.number) : result JS.number :=
  match a with
  | [] => Throw TypeError
  | x :: rest => Ok (foldl JS.add x rest)
  end.

Definition square (x : JS.number) : JS.number := JS.mul x x.

(* ===================================================================== *)
(** * The lattice store *)
(* ===================================================================== *)

(** [lattice] is an array of columns: [lattice[x][y]].  Every read and
    write the programs perform is inside the arrays when the coordinates
    handed to them are (shown below for each routine), and the theorems are
    stated for such coordinates; outside, JavaScript would read
    [undefined], which this model does not represent. *)

Abbreviation lattice := (list (list Z)) (only parsing).

(** [lattice[x][y]]. *)
Definition get (lat : lattice) (x y : nat) : Z := (lat !!! x) !!! y.

(** [lattice[x][y] = v]. *)
Definition put (lat : lattice) (x y : nat) (v : Z) : lattice :=
  alter (fun col => <[y := v]> col) x lat.

(** [lattice[x][y] *= -1]. *)
Definition flip (lat : lattice) (x y : nat) : lattice :=
  put lat x y (get lat x y * -1).

(** The arrays as allocated: [side] columns of [side] cells each. *)
Definition dims (side : nat) (lat : lattice) : Prop :=
  length lat = side /\ Forall (fun col => length col = side) lat.

(** Same, as a test. *)
Definition dimsb (side : nat) (lat : lattice) : bool :=
  (length lat =? side) && forallb (fun col => length col =? side) lat.

Abbreviation coord := (nat * nat)%type (only parsing).

(** Boolean grids of the Microscope ([visitedArray], [toBeFlippedArray]). *)
Abbreviation flags := (list (list bool)) (only parsing).
Definition flag (f : flags) (x y : nat) : bool := (f !!! x) !!! y.
Definition set_flag (f : flags) (x y : nat) (b : bool) : flags :=
  alter (fun col => <[y := b]> col) x f.

(* ===================================================================== *)
(** * The toroidal engine (Programs 1, 2, 3 and 5) *)
(* ===================================================================== *)

Section Toroidal.

Variable gridSize : nat.

Definition N : nat := gridSize * gridSize.
Definition gridEdge : nat := gridSize - 1.

(** Energy change if the spin at [(x, y)] were to flip; neighbour indices
    wrap around the lattice edge. *)
Definition calcDeltaE (lat : lattice) (x y : nat) : Z :=
  let north := get lat x (if 0 <? y then y - 1 else gridEdge) in
  let south := get lat x (if y <? gridEdge then y + 1 else 0) in
  let east := get lat (if 0 <? x then x - 1 else gridEdge) y in
  let west := get lat (if x <? gridEdge then x + 1 else 0) y in
  (2 * get lat x y * (north + south + east + west))%Z.

(** [Math.min(Math.exp(-deltaE/temperature), Number.MAX_VALUE)]. *)
Definition boltzmann_weight (deltaE : Z) (temperature : JS.number) : JS.number :=
  JS.Math_min (JS.Math_exp (JS.div (JS.neg (JS.of_Z deltaE)) temperature))
              (JS.Fin JS.MAX_VALUE).

(** Sum of all spins, the loop of [magnetization]. *)
Definition spin_sum (lat : lattice) : Z :=
  foldl (fun M x => foldl (fun M y => (M + get lat x y)%Z) M (seq 0 gridSize))
        0%Z (seq 0 gridSize).

(** [magnetization()]: [M / N]. *)
Definition magnetization (lat : lattice) : JS.number :=
  JS.div (JS.of_Z (spin_sum lat)) (JS.of_nat N).

(** [local_correlations()]: the sum of [calcDeltaE(x, y) / 8], over [N]. *)
Definition local_correlations (lat : lattice) : JS.number :=
  let R :=
    foldl (fun R x =>
             foldl (fun R y => JS.add R (JS.div (JS.of_Z (calcDeltaE lat x y)) (JS.Fin 8)))
                   R (seq 0 gridSize))
          (JS.Fin 0) (seq 0 gridSize) in
  JS.div R (JS.of_nat N).

(** [calc_lattice_energy()] of Program 1: -1 for each like pair, +1 for
    each unlike pair, over the east and south bonds of every site. *)
Definition calc_lattice_energy (lat : lattice) : Z :=
  foldl (fun s y =>
    foldl (fun s x =>
      let here := get lat x y in
      let east := get lat (if 0 <? x then x - 1 else gridEdge) y in
      let south := get lat x (if y <? gridEdge then y + 1 else 0) in
      let s := if (here =? east)%Z then (s - 1)%Z else (s + 1)%Z in
      if (here =? south)%Z then (s - 1)%Z else (s + 1)%Z)
      s (seq 0 gridSize))
    0%Z (seq 0 gridSize).

(** The three fill loops of [init]: [lattice[i][j] = v] for all [i], [j]. *)
Definition fill_lattice (v : Z) (lat : lattice) : lattice :=
  foldl (fun lat i => foldl (fun lat j => put lat i j v) lat (seq 0 gridSize))
        lat (seq 0 gridSize).

(** The 'scrambled' loop with [i] outermost (Programs 1 and 2):
    [lattice[i][j] = coinFlip() ? 1 : -1]. *)
Definition scramble_ij (st : lattice * rng) : lattice * rng :=
  foldl (fun st i =>
    foldl (fun (st : lattice * rng) j =>
      let (b, g) := coinFlip st.2 in
      (put st.1 i j (if b then 1 else -1)%Z, g))
      st (seq 0 gridSize))
    st (seq 0 gridSize).

(** The same loop with [y] outermost (Programs 3 and 5):
    [lattice[x][y] = coinFlip() ? 1 : -1]. *)
Definition scramble_yx (st : lattice * rng) : lattice * rng :=
  foldl (fun st y =>
    foldl (fun (st : lattice * rng) x =>
      let (b, g) := coinFlip st.2 in
      (put st.1 x y (if b then 1 else -1)%Z, g))
      st (seq 0 gridSize))
    st (seq 0 gridSize).

(** ** Acceptance rules on a toroidal lattice *)

(** The M-rule as an in-place update (Program 1's [runMetro] body,
    Program 3's [updateSpin]):
    [if ((deltaE <= 0) || (Math.random() < boltzmann)) lattice[x][y] *= -1]. *)
Definition metropolis_update (temperature : JS.number) (st : lattice * rng) (x y : nat)
  : lattice * rng :=
  let (lat, g) := st in
  let deltaE := calcDeltaE lat x y in
  let boltzmann := boltzmann_weight deltaE temperature in
  if (deltaE <=? 0)%Z then (flip lat x y, g)
  else
    let (u, g') := Math_random g in
    if JS.lt (JS.Fin u) boltzmann then (flip lat x y, g') else (lat, g').

(** The G-rule as an in-place update (the body of [runGlauber]):
    [if (Math.random() < (boltzmann / (1 + boltzmann))) lattice[x][y] *= -1]. *)
Definition glauber_update (temperature : JS.number) (st : lattice * rng) (x y : nat)
  : lattice * rng :=
  let (lat, g) := st in
  let deltaE := calcDeltaE lat x y in
  let boltzmann := boltzmann_weight deltaE temperature in
  let (u, g') := Math_random g in
  if JS.lt (JS.Fin u) (JS.div boltzmann (JS.add (JS.Fin 1) boltzmann))
  then (flip lat x y, g') else (lat, g').

(** A sweep over a list of coordinates with a given microstep. *)
Definition sweep (step : lattice * rng -> nat -> nat -> lattice * rng)
    (cs : list coord) (st : lattice * rng) : lattice * rng :=
  foldl (fun st c => step st c.1 c.2) st cs.

(** [N] random sites: [x = floor(random() * gridSize)], then [y]. *)
Definition random_sweep (step : lattice * rng -> nat -> nat -> lattice * rng)
    (st : lattice * rng) : lattice * rng :=
  foldl (fun (st : lattice * rng) (_ : nat) =>
           let (x, g1) := random_index gridSize st.2 in
           let (y, g2) := random_index gridSize g1 in
           step (st.1, g2) x y)
        st (seq 0 N).

(** The nested loops [for y ... for x ...] (typewriter order). *)
Definition typewriter_sweep (step : lattice * rng -> nat -> nat -> lattice * rng)
    (st : lattice * rng) : lattice * rng :=
  foldl (fun st y => foldl (fun st x => step st x y) st (seq 0 gridSize))
        st (seq 0 gridSize).

End Toroidal.

(** [decimate_array(arr, glom_size)]: averages of consecutive blocks.  The
    outer loop advances by [glom_size], so it is run on fuel: [None] means
    the fuel ran out.  A read past the end of [arr] is [undefined], and
    adding it gives NaN. *)
Definition block_sum (arr : list JS.number) (outer glom_size : nat) : JS.number :=
  foldl (fun sum inner =>
           match arr !! (outer + inner) with
           | Some v => JS.add sum v
           | None => JS.NaN
           end)
        (JS.Fin 0) (seq 0 glom_size).

Fixpoint decimate_loop (fuel : nat) (arr : list JS.number) (glom_size outer : nat)
    (shortArray : list JS.number) : option (list JS.number) :=
  match fuel with
  | O => None
  | S fuel' =>
      if outer <? length arr then
        decimate_loop fuel' arr glom_size (outer + glom_size)
          (shortArray ++ [JS.div (block_sum arr outer glom_size) (JS.of_nat glom_size)])
      else Some shortArray
  end.

Definition decimate_array (fuel : nat) (arr : list JS.number) (glom_size : nat)
  : option (list JS.number) :=
  decimate_loop fuel arr glom_size 0 [].

(** What a routine leaves in the output element: labelled lists of
    numbers.  The text formatting of the numbers is not modelled, and a
    list that the source sorts before printing is kept in recording
    order. *)
Abbreviation paragraph := (string * list JS.number)%type (only parsing).

(* ===================================================================== *)
(** * Program 1: Metro vs. Glauber *)
(* ===================================================================== *)

Module MetroVGlauber.

Section Program.

Variable gridSize : nat.   (* 100 in the source *)

(** The global variables of the script that the engine reads or writes. *)
Record world : Type := mk_world {
  lat : lattice;
  temperature : JS.number;
  state : string;
  rand : rng;
  console : list string;        (* lines written by console.log *)
  outputDiv : list paragraph    (* content of the stats-output element *)
}.

Definition with_lat_rand (w : world) (st : lattice * rng) : world :=
  mk_world st.1 (temperature w) (state w) st.2 (console w) (outputDiv w).
Definition with_temperature (w : world) (T : JS.number) : world :=
  mk_world (lat w) T (state w) (rand w) (console w) (outputDiv w).
Definition with_state (w : world) (s : string) : world :=
  mk_world (lat w) (temperature w) s (rand w) (console w) (outputDiv w).
Definition console_log (w : world) (line : string) : world :=
  mk_world (lat w) (temperature w) (state w) (rand w) (console w ++ [line]) (outputDiv w).
Definition with_outputDiv (w : world) (out : list paragraph) : world :=
  mk_world (lat w) (temperature w) (state w) (rand w) (console w) out.

(** Every identifier the script binds at top level, by declaration or by
    assignment without declaration. *)
Definition global_names : list string :=
  ["theViz"; "theCanvas"; "ctx"; "Mreadout"; "Rreadout"; "theRunButton";
   "theStepButton"; "theResetButton"; "theTemperatureSlider";
   "temperatureReadout"; "radioButtons"; "rb"; "outputDiv"; "gridSize"; "N";
   "gridEdge"; "cellSize"; "upColor"; "downColor"; "temperature"; "timer";
   "algorithm"; "state"; "lattice"; "drawLattice"; "magnetization";
   "local_correlations"; "formatReadout"; "sign"; "coinFlip"; "square";
   "init"; "calcDeltaE"; "runMetro"; "runGlauber"; "doRunButton";
   "doStepButton"; "doResetButton"; "adjustTemperature"; "chooseAlgorithm";
   "calc_lattice_energy"; "here"; "random_state_energy_distribution"; "i";
   "highlightNeutralSites"; "recolorByLocalCorrelation"; "pointless";
   "equilibriumProperties"; "temperatureStep"; "decimate_array"; "outer";
   "inner"; "showSaveLink"; "saveCanvas"; "canvasData"; "hitOrMiss"; "wt";
   "j"; "convergence_time_histogram"; "stepcount"; "makeCircle"].

(** Reading an identifier: a ReferenceError unless it is bound. *)
Definition resolve (name : string) : result unit :=
  if bool_decide (name ∈ global_names) then Ok tt else Throw (ReferenceError name).

(** [init(pattern)].  The final [drawLattice()] only paints. *)
Definition init (pattern : string) (w : world) : world :=
  let w := with_state w "scrambled" in
  if String.eqb pattern "scrambled" then
    with_lat_rand w (scramble_ij gridSize (lat w, rand w))
  else if String.eqb pattern "plus" then
    with_lat_rand w (fill_lattice gridSize 1 (lat w), rand w)
  else if String.eqb pattern "minus" then
    with_lat_rand w (fill_lattice gridSize (-1) (lat w), rand w)
  else
    console_log w ("Unknown initState " ++ pattern).

(** [runMetro()]: one typewriter sweep with the M-rule. *)
Definition runMetro (w : world) : world :=
  with_lat_rand w
    (typewriter_sweep gridSize (metropolis_update gridSize (temperature w)) (lat w, rand w)).

(** [runGlauber()]: [N] random sites with the G-rule. *)
Definition runGlauber (w : world) : world :=
  with_lat_rand w
    (random_sweep gridSize (glauber_update gridSize (temperature w)) (lat w, rand w)).

(** [(algo === "metro") ? runMetro : runGlauber]. *)
Definition select_fn (algo : string) : world -> world :=
  if String.eqb algo "metro" then runMetro else runGlauber.

(** The accumulators of [equilibriumProperties]. *)
Record series : Type := mk_series {
  Es : list JS.number;
  Rs : list JS.number;
  Ms : list JS.number
}.

(** The body of the recording loop: [fn(); Es[j] += ...; Rs[j] += ...;
    Ms[j] += Math.abs(magnetization())]. *)
Definition record_step (fn : world -> world) (st : world * series) (j : nat)
  : world * series :=
  let w := fn st.1 in
  (w, mk_series
        (add_at (Es st.2) j (JS.of_Z (calc_lattice_energy gridSize (lat w))))
        (add_at (Rs st.2) j (local_correlations gridSize (lat w)))
        (add_at (Ms st.2) j (JS.Math_abs (magnetization gridSize (lat w))))).

(** One repetition of the main loop of [equilibriumProperties]. *)
Definition equilibrium_rep (fn : world -> world) (initState : string)
    (burnin steps : nat) (st : world * series) : world * series :=
  let w := init initState st.1 in
  let w := Nat.iter burnin fn w in
  foldl (record_step fn) (w, st.2) (seq 0 steps).

Record stats : Type := mk_stats {
  R_mean : JS.number;
  R_sdev : JS.number;
  M_mean : JS.number;
  M_sdev : JS.number
}.

(** The statistics at the end of [equilibriumProperties]: for a list of
    per-sweep results, [mean = results.reduce(+, 0) / steps] and
    [sdev = Math.sqrt(deviates.reduce(+) / (steps - 1))]. *)
Definition mean_of (results : list JS.number) (steps : nat) : JS.number :=
  JS.div (reduce_add0 results) (JS.of_nat steps).

Definition sdev_of (results : list JS.number) (steps : nat) : result JS.number :=
  let mean := mean_of results steps in
  let deviates := map (fun x => square (JS.sub x mean)) results in
  match reduce_add deviates with
  | Throw e => Throw e
  | Ok total => Ok (JS.Math_sqrt (JS.div total (JS.sub (JS.of_nat steps) (JS.Fin 1))))
  end.

(** The per-sweep means [Ms.map(x => x / reps)] of a run. *)
Definition per_sweep_means (acc : list JS.number) (reps : nat) : list JS.number :=
  map (fun x => JS.div x (JS.of_nat reps)) acc.

(** The three accumulators after the main loop of [equilibriumProperties]. *)
Definition equilibrium_run (algo initState : string) (T : JS.number)
    (burnin steps reps : nat) (w : world) (zeros : list JS.number) : world * series :=
  Nat.iter reps (equilibrium_rep (select_fn algo) initState burnin steps)
           (with_temperature w T, mk_series zeros zeros zeros).

(** [equilibriumProperties(algo, initState, T, burnin, steps, reps)]. *)
Definition equilibriumProperties (algo initState : string) (T : JS.number)
    (burnin steps reps : nat) (w : world) : world * result stats :=
  match new_Array_fill0 steps with
  | Throw e => (w, Throw e)
  | Ok zeros =>
      let (w, acc) := equilibrium_run algo initState T burnin steps reps w zeros in
      let E_results := per_sweep_means (Es acc) reps in
      let R_results := per_sweep_means (Rs acc) reps in
      let M_results := per_sweep_means (Ms acc) reps in
      (* E_results[E_results.length - 1].toString() *)
      match last E_results with
      | None => (w, Throw TypeError)
      | Some _ =>
          let w := with_outputDiv w [("E"%string, E_results)] in
          match sdev_of R_results steps, sdev_of M_results steps with
          | Ok Rsd, Ok Msd =>
              let Rm := mean_of R_results steps in
              let Mm := mean_of M_results steps in
              (with_outputDiv w
                 (outputDiv w ++ [("R"%string, [Rm; Rsd]); ("M"%string, [Mm; Msd])]),
               Ok (mk_stats Rm Rsd Mm Msd))
          | Throw e, _ | _, Throw e => (w, Throw e)
          end
      end
  end.

(** The accumulators of [temperatureStep], with the two recording loops. *)
Definition step_record (fn : world -> world) (offset : nat)
    (st : world * (list JS.number * list JS.number)) (j : nat)
  : world * (list JS.number * list JS.number) :=
  let w := fn st.1 in
  (w, (add_at st.2.1 (offset + j) (local_correlations gridSize (lat w)),
       add_at st.2.2 (offset + j) (JS.Math_abs (magnetization gridSize (lat w))))).

Definition temperatureStep_rep (fn : world -> world) (initState : string)
    (T1 T2 : JS.number) (T1_steps T2_steps burnin : nat)
    (st : world * (list JS.number * list JS.number))
  : world * (list JS.number * list JS.number) :=
  let w := init initState st.1 in
  let w := with_temperature w T1 in
  let w := Nat.iter burnin fn w in
  let st := foldl (step_record fn 0) (w, st.2) (seq 0 T1_steps) in
  let st := (with_temperature st.1 T2, st.2) in
  foldl (step_record fn T1_steps) st (seq 0 T2_steps).

(** [temperatureStep(algo, initState, T1, T2, T1_steps, T2_steps, glom,
    burnin, reps)].  [None]: the fuel of a [decimate_array] loop ran out. *)
Definition temperatureStep (fuel : nat) (algo initState : string) (T1 T2 : JS.number)
    (T1_steps T2_steps glom burnin reps : nat) (w : world)
  : option (world * result unit) :=
  match new_Array_fill0 (T1_steps + T2_steps) with
  | Throw e => Some (w, Throw e)
  | Ok zeros =>
      let (w, acc) :=
        Nat.iter reps
          (temperatureStep_rep (select_fn algo) initState T1 T2 T1_steps T2_steps burnin)
          (w, (zeros, zeros)) in
      let R_results := per_sweep_means acc.1 reps in
      let M_results := per_sweep_means acc.2 reps in
      match decimate_array fuel R_results glom with
      | None => None
      | Some R_short =>
      match decimate_array fuel M_results glom with
      | None => None
      | Some M_short =>
          (* R_str += R_short[R_short.length - 1].toFixed(4) + ... *)
          match last R_short with
          | None => Some (w, Throw TypeError)
          | Some _ =>
              (* outputDiv.innerHTML = R-str; *)
              match resolve "R", resolve "str" with
              | Throw e, _ | Ok _, Throw e => Some (w, Throw e)
              | Ok _, Ok _ =>
                  let w := with_outputDiv w [("R"%string, [JS.NaN])] in
                  match last M_short with
                  | None => Some (w, Throw TypeError)
                  | Some _ =>
                      (* outputDiv.innerHTML = M-str; *)
                      match resolve "M", resolve "str" with
                      | Throw e, _ | Ok _, Throw e => Some (w, Throw e)
                      | Ok _, Ok _ =>
                          Some (with_outputDiv w [("M"%string, [JS.NaN])], Ok tt)
                      end
                  end
              end
          end
      end
      end
  end.

End Program.

End MetroVGlauber.

(* ===================================================================== *)
(** * Program 2: Mix and Match *)
(* ===================================================================== *)

Module MixAndMatch.

Section Program.

Variable gridSize : nat.   (* 100 in the source *)

(** [updateSpin(x, y)]: the three acceptance rules in one function,
    selected by the global [acceptanceFn]; a flip negates the spin in
    place.  A name that is none of the three changes nothing. *)
Definition updateSpin (acceptanceFn : string) (temperature : JS.number)
    (st : lattice * rng) (x y : nat) : lattice * rng :=
  let (lat, g) := st in
  let deltaE := calcDeltaE gridSize lat x y in
  let boltzmann := boltzmann_weight deltaE temperature in
  if String.eqb acceptanceFn "M_rule" then
    if (deltaE <=? 0)%Z then (flip lat x y, g)
    else
      let (u, g') := Math_random g in
      if JS.lt (JS.Fin u) boltzmann then (flip lat x y, g') else (lat, g')
  else if String.eqb acceptanceFn "G_rule" then
    let (u, g') := Math_random g in
    if JS.lt (JS.Fin u) (JS.div boltzmann (JS.add (JS.Fin 1) boltzmann))
    then (flip lat x y, g') else (lat, g')
  else if String.eqb acceptanceFn "M_star_rule" then
    if (deltaE <? 0)%Z then (flip lat x y, g)
    else if (deltaE =? 0)%Z then
      let (b, g') := coinFlip g in
      if b then (flip lat x y, g') else (lat, g')
    else
      let (u, g') := Math_random g in
      if JS.lt (JS.Fin u) boltzmann then (flip lat x y, g') else (lat, g')
  else (lat, g).

(** [runBatch()]: one macrostep in deterministic or random order. *)
Definition runBatch (visitationFn acceptanceFn : string) (temperature : JS.number)
    (st : lattice * rng) : lattice * rng :=
  if String.eqb visitationFn "deterministic" then
    typewriter_sweep gridSize (updateSpin acceptanceFn temperature) st
  else if String.eqb visitationFn "random" then
    random_sweep gridSize (updateSpin acceptanceFn temperature) st
  else st.

End Program.

End MixAndMatch.

(* ===================================================================== *)
(** * Visitation sequences (Programs 3 and 5) *)
(* ===================================================================== *)

(** A generator is embedded as the finite list of the values it yields
    when run to completion. *)

Section Sequences.

Variable gridSize : nat.

(** [typewriterGen(xInit, yInit)]: rows top to bottom, each left to right. *)
Definition typewriterGen (xInit yInit : nat) : list coord :=
  y ← seq yInit (gridSize - yInit);
  x ← seq xInit (gridSize - xInit);
  [(x, y)].

(** [simultaneousGen]: the same loops. *)
Definition simultaneousGen (xInit yInit : nat) : list coord :=
  y ← seq yInit (gridSize - yInit);
  x ← seq xInit (gridSize - xInit);
  [(x, y)].

(** The loop [for (let x = start; x < gridSize; x += 2)]: the values of
    [x], at most [fuel] of them. *)
Fixpoint every_other (fuel : nat) (x : nat) : list nat :=
  match fuel with
  | O => []
  | S fuel' => if x <? gridSize then x :: every_other fuel' (x + 2) else []
  end.

(** [checkerboardGen]: in each row the cells of one colour, then in each
    row the cells of the other colour. *)
Definition checkerboardGen : list coord :=
  (y ← seq 0 gridSize; x ← every_other gridSize (y mod 2); [(x, y)])
  ++ (y ← seq 0 gridSize; x ← every_other gridSize ((y + 1) mod 2); [(x, y)]).

(** One turn of the loop of [diagonalGen] after the yield: the next cell. *)
Definition diagonal_next (c : coord) : coord :=
  let (x, y) := c in
  if x =? gridEdge gridSize then (y + 1, gridEdge gridSize)
  else if y =? 0 then (0, x + 1)
  else (x + 1, y - 1).

(** [while (count < N) { yield {x, y}; count++; ... }], with [N - count]
    turns left. *)
Fixpoint diagonal_loop (turns : nat) (c : coord) : list coord :=
  match turns with
  | O => []
  | S turns' => c :: diagonal_loop turns' (diagonal_next c)
  end.

(** [diagonalGen] (Program 5) and [diagonalCoords] (Program 3). *)
Definition diagonalGen : list coord := diagonal_loop (N gridSize) (0, 0).
Definition diagonalCoords : list coord := diagonal_loop (N gridSize) (0, 0).

(** One turn of the loop of [boustrophedonCoords] after the yield. *)
Definition boustrophedon_next (c : coord) : coord :=
  let (x, y) := c in
  if Nat.even y then
    (if x <? gridEdge gridSize then (x + 1, y) else (x, y + 1))
  else
    (if 0 <? x then (x - 1, y) else (x, y + 1)).

(** [while (y < gridSize) { yield {x, y}; ... }] on fuel: [None] when the
    fuel runs out before the loop condition fails. *)
Fixpoint boustrophedon_loop (fuel : nat) (c : coord) : option (list coord) :=
  match fuel with
  | O => None
  | S fuel' =>
      if c.2 <? gridSize then
        match boustrophedon_loop fuel' (boustrophedon_next c) with
        | Some rest => Some (c :: rest)
        | None => None
        end
      else Some []
  end.

Definition boustrophedonCoords (fuel : nat) : option (list coord) :=
  boustrophedon_loop fuel (0, 0).

(** [temp = p[j]; p[j] = p[i]; p[i] = temp]. *)
Definition swap_entries (p : list nat) (i j : nat) : list nat :=
  let temp := p !!! j in
  let p := <[j := p !!! i]> p in
  <[i := temp]> p.

(** [for (let i = n-1; i > 1; i--) { j = floor(random() * n); swap }]. *)
Fixpoint shuffle_from (n i : nat) (st : list nat * rng) : list nat * rng :=
  match i with
  | O => st
  | S i' =>
      if 1 <? S i' then
        let (j, g) := random_index n st.2 in
        shuffle_from n i' (swap_entries st.1 (S i') j, g)
      else st
  end.

(** [randomPermutation(n)]. *)
Definition randomPermutation (n : nat) (g : rng) : list nat * rng :=
  shuffle_from n (n - 1) (seq 0 n, g).

(** [x = Math.floor(r / gridSize); y = Math.floor(r % gridSize)]. *)
Definition coord_of (r : nat) : coord := (r / gridSize, r mod gridSize).

(** [permutedGen]: the coordinates of [thePermutation], in its order. *)
Definition permutedGen (thePermutation : list nat) : list coord :=
  map coord_of thePermutation.

(** [re_permutedGen]: a fresh permutation first. *)
Definition re_permutedGen (g : rng) : list coord * rng :=
  let (p, g') := randomPermutation (N gridSize) g in
  (map coord_of p, g').

(** [randomGen]: [N] pairs of independent draws, [x] before [y]. *)
Fixpoint random_coords (n : nat) (g : rng) : list coord * rng :=
  match n with
  | O => ([], g)
  | S n' =>
      let (x, g1) := random_index gridSize g in
      let (y, g2) := random_index gridSize g1 in
      let (rest, g3) := random_coords n' g2 in
      ((x, y) :: rest, g3)
  end.

Definition randomGen (g : rng) : list coord * rng := random_coords (N gridSize) g.

(** The interior sites, each once: what a sweep has to cover. *)
Definition covers_once (cs : list coord) : Prop :=
  length cs = N gridSize /\ NoDup cs /\
  forall x y, (x, y) ∈ cs <-> x < gridSize /\ y < gridSize.

End Sequences.

(* ===================================================================== *)
(** * Program 3: Visitation Variations *)
(* ===================================================================== *)

Module Visitation.

Section Program.

Variable gridSize : nat.   (* 100 in the source *)

Record world : Type := mk_world {
  lat : lattice;
  shadowLattice : lattice;
  temperature : JS.number;
  thePermutation : list nat;
  algorithm : string;
  state : string;
  timer : option (string * nat);   (* the running interval: algorithm, period *)
  runButton : string;              (* label of the Run/Stop button *)
  rand : rng
}.

Definition with_lat_rand (w : world) (st : lattice * rng) : world :=
  mk_world st.1 (shadowLattice w) (temperature w) (thePermutation w) (algorithm w)
           (state w) (timer w) (runButton w) st.2.
Definition with_shadow (w : world) (s : lattice) : world :=
  mk_world (lat w) s (temperature w) (thePermutation w) (algorithm w)
           (state w) (timer w) (runButton w) (rand w).
Definition with_lat (w : world) (l : lattice) : world :=
  mk_world l (shadowLattice w) (temperature w) (thePermutation w) (algorithm w)
           (state w) (timer w) (runButton w) (rand w).
Definition with_rand (w : world) (g : rng) : world :=
  mk_world (lat w) (shadowLattice w) (temperature w) (thePermutation w) (algorithm w)
           (state w) (timer w) (runButton w) g.
Definition with_temperature (w : world) (T : JS.number) : world :=
  mk_world (lat w) (shadowLattice w) T (thePermutation w) (algorithm w)
           (state w) (timer w) (runButton w) (rand w).
Definition with_permutation (w : world) (pg : list nat * rng) : world :=
  mk_world (lat w) (shadowLattice w) (temperature w) pg.1 (algorithm w)
           (state w) (timer w) (runButton w) pg.2.
Definition with_state (w : world) (s : string) : world :=
  mk_world (lat w) (shadowLattice w) (temperature w) (thePermutation w) (algorithm w)
           s (timer w) (runButton w) (rand w).
Definition with_timer (w : world) (t : option (string * nat)) : world :=
  mk_world (lat w) (shadowLattice w) (temperature w) (thePermutation w) (algorithm w)
           (state w) t (runButton w) (rand w).
Definition with_runButton (w : world) (label : string) : world :=
  mk_world (lat w) (shadowLattice w) (temperature w) (thePermutation w) (algorithm w)
           (state w) (timer w) label (rand w).

(** [updateSpin(x, y)]: the M-rule. *)
Definition updateSpin (w : world) (c : coord) : world :=
  with_lat_rand w (metropolis_update gridSize (temperature w) (lat w, rand w) c.1 c.2).

(** [init()]. *)
Definition init (w : world) : world :=
  let w := with_state w "scrambled" in
  let w := with_permutation w (randomPermutation (N gridSize) (rand w)) in
  with_lat_rand w (scramble_yx gridSize (lat w, rand w)).

Definition runMetro_typewriter (w : world) : world :=
  foldl (fun w y => foldl (fun w x => updateSpin w (x, y)) w (seq 0 gridSize))
        w (seq 0 gridSize).

(** Here [x] is the outer loop and [y] steps by two. *)
Definition runMetro_checkerboard (w : world) : world :=
  let w :=
    foldl (fun w x =>
             foldl (fun w y => updateSpin w (x, y)) w (every_other gridSize gridSize (x mod 2)))
          w (seq 0 gridSize) in
  foldl (fun w x =>
           foldl (fun w y => updateSpin w (x, y)) w
                 (every_other gridSize gridSize ((x + 1) mod 2)))
        w (seq 0 gridSize).

Definition runMetro_diagonal (w : world) : world :=
  foldl updateSpin w (diagonalCoords gridSize).

(** The generator's loop stops after [N] cells (shown below), so [N + 1]
    turns of fuel let it finish. *)
Definition runMetro_boustrophedon (w : world) : world :=
  match boustrophedonCoords gridSize (S (N gridSize)) with
  | Some cs => foldl updateSpin w cs
  | None => w
  end.

(** The body of the first loop of [runMetro_simultaneous], at [(x, y)]:
    copy the cell to the shadow lattice, decide by the M-rule on
    [lattice], and negate the shadow cell on acceptance. *)
Definition stage (w : world) (c : coord) : world :=
  let (x, y) := c in
  let w := with_shadow w (put (shadowLattice w) x y (get (lat w) x y)) in
  let deltaE := calcDeltaE gridSize (lat w) x y in
  let boltzmann := boltzmann_weight deltaE (temperature w) in
  if (deltaE <=? 0)%Z then with_shadow w (flip (shadowLattice w) x y)
  else
    let (u, g') := Math_random (rand w) in
    let w := with_rand w g' in
    if JS.lt (JS.Fin u) boltzmann then with_shadow w (flip (shadowLattice w) x y) else w.

(** The body of the second loop: [lattice[x][y] = shadowLattice[x][y]]. *)
Definition commit (w : world) (c : coord) : world :=
  with_lat w (put (lat w) c.1 c.2 (get (shadowLattice w) c.1 c.2)).

(** The order of both loops: [x] outermost, [y] innermost. *)
Definition column_major : list coord :=
  x ← seq 0 gridSize; y ← seq 0 gridSize; [(x, y)].

Definition runMetro_simultaneous (w : world) : world :=
  foldl commit (foldl stage w column_major) column_major.

Definition runMetro_random (w : world) : world :=
  with_lat_rand w
    (random_sweep gridSize (metropolis_update gridSize (temperature w)) (lat w, rand w)).

Definition runMetro_permuted (w : world) : world :=
  foldl updateSpin w (permutedGen gridSize (thePermutation w)).

Definition runMetro_re_permuted (w : world) : world :=
  let (p, g) := randomPermutation (N gridSize) (rand w) in
  foldl updateSpin (with_rand w g) (map (coord_of gridSize) p).

(** [algoList]: the function and the timer period behind each name;
    [None] is the [undefined] of a name that is no property. *)
Definition algoList (name : string) : option ((world -> world) * nat) :=
  if String.eqb name "typewriter" then Some (runMetro_typewriter, 30)
  else if String.eqb name "checkerboard" then Some (runMetro_checkerboard, 30)
  else if String.eqb name "diagonal" then Some (runMetro_diagonal, 30)
  else if String.eqb name "boustrophedon" then Some (runMetro_boustrophedon, 30)
  else if String.eqb name "permuted" then Some (runMetro_permuted, 30)
  else if String.eqb name "repermuted" then Some (runMetro_re_permuted, 30)
  else if String.eqb name "random" then Some (runMetro_random, 30)
  else if String.eqb name "simultaneous" then Some (runMetro_simultaneous, 200)
  else None.

(** [doRunButton(e)], as the handler of the Run/Stop button. *)
Definition doRunButton (w : world) : world * result unit :=
  if String.eqb (state w) "running" then
    let w := with_state w "paused" in
    let w := with_timer w None in
    (with_runButton w "Run", Ok tt)
  else
    let w := with_state w "running" in
    let w := with_runButton w "Stop" in
    match algoList (algorithm w) with
    | None => (w, Throw TypeError)            (* alg.fn with alg undefined *)
    | Some (_, speed) => (with_timer w (Some (algorithm w, speed)), Ok tt)
    end.

(** The two accumulators of [stepResponse] and its recording loops. *)
Definition step_record (fn : world -> world) (offset : nat)
    (st : world * (list JS.number * list JS.number)) (j : nat)
  : world * (list JS.number * list JS.number) :=
  let w := fn st.1 in
  (w, (add_at st.2.1 (offset + j) (local_correlations gridSize (lat w)),
       add_at st.2.2 (offset + j) (JS.Math_abs (magnetization gridSize (lat w))))).

Definition stepResponse_rep (fn : world -> world) (T1 T2 : JS.number)
    (T1_steps T2_steps burnin : nat) (st : world * (list JS.number * list JS.number))
  : world * (list JS.number * list JS.number) :=
  let w := with_temperature st.1 T1 in
  let w := Nat.iter burnin fn w in
  let st := foldl (step_record fn 0) (w, st.2) (seq 0 T1_steps) in
  let st := (with_temperature st.1 T2, st.2) in
  foldl (step_record fn T1_steps) st (seq 0 T2_steps).

(** [stepResponse(algo, T1, T2, T1_steps, T2_steps, burnin, reps)]: the
    per-sweep values [x / reps] of local correlation and of magnetization
    that the routine formats and prints. *)
Definition stepResponse (algo : string) (T1 T2 : JS.number)
    (T1_steps T2_steps burnin reps : nat) (w : world)
  : world * result (list JS.number * list JS.number) :=
  match new_Array_fill0 (T1_steps + T2_steps) with
  | Throw e => (w, Throw e)
  | Ok zeros =>
      match algoList algo with
      | None => (w, Throw TypeError)
      | Some (fn, _) =>
          let w := init w in
          let (w, acc) :=
            Nat.iter reps (stepResponse_rep fn T1 T2 T1_steps T2_steps burnin)
                     (w, (zeros, zeros)) in
          let r_results := map (fun x => JS.div x (JS.of_nat reps)) acc.1 in
          let H_results := map (fun x => JS.div x (JS.of_nat reps)) acc.2 in
          (* r_results[r_results.length - 1] is only concatenated to a
             string, so an empty list prints "undefined" and raises nothing *)
          (w, Ok (r_results, H_results))
      end
  end.

End Program.

End Visitation.

(* ===================================================================== *)
(** * Program 4: Boundaries *)
(* ===================================================================== *)

Module Boundaries.

Section Program.

Variable gridSize : nat.   (* 102 in the source: two extra cells for the halo *)

Definition gridSide : nat := gridSize - 1.
Definition gridTop : nat := 0.
Definition gridLeft : nat := 0.
Definition gridBottom : nat := gridSide.
Definition gridRight : nat := gridSide.

Definition activeSize : nat := gridSize - 2.
Definition activeTop : nat := gridTop + 1.
Definition activeLeft : nat := gridLeft + 1.
Definition activeBottom : nat := gridBottom - 1.
Definition activeRight : nat := gridRight - 1.

Definition N : nat := activeSize * activeSize.

(** The loops [for (v = activeTop; v <= activeBottom; v++)]. *)
Definition active_range : list nat := seq activeTop activeSize.

(** An interior (active) site. *)
Definition interior (x y : nat) : Prop :=
  activeLeft <= x <= activeRight /\ activeTop <= y <= activeBottom.

(** One turn of the loop of [genBorderXYs] after [count++]. *)
Definition border_next (count : nat) (c : coord) : coord :=
  let (x, y) := c in
  if count <? activeSize then (x + 1, y)
  else if count <? 2 * activeSize then (gridRight, y + 1)
  else if count <? 3 * activeSize then (x - 1, gridBottom)
  else (gridLeft, y - 1).

(** [while (count < perimeter) { yield {x, y}; count++; ... }]. *)
Fixpoint border_loop (turns count : nat) (c : coord) : list coord :=
  match turns with
  | O => []
  | S turns' => c :: border_loop turns' (S count) (border_next (S count) c)
  end.

(** [genBorderXYs]: the border cells clockwise from the top, corners
    left out. *)
Definition genBorderXYs : list coord :=
  border_loop (4 * activeSize) 0 (activeLeft, gridTop).

(** [makeZeroCorners()]. *)
Definition makeZeroCorners (lat : lattice) : lattice :=
  foldl (fun lat x => foldl (fun lat y => put lat x y 0) lat [gridTop; gridBottom])
        lat [gridLeft; gridRight].

Definition makeZeroBorder (st : lattice * rng) : lattice * rng :=
  (foldl (fun lat (xy : coord) => put lat xy.1 xy.2 0) st.1 genBorderXYs, st.2).

Definition makeUpBorder (st : lattice * rng) : lattice * rng :=
  (foldl (fun lat (xy : coord) => put lat xy.1 xy.2 1) st.1 genBorderXYs, st.2).

Definition makeDownBorder (st : lattice * rng) : lattice * rng :=
  (foldl (fun lat (xy : coord) => put lat xy.1 xy.2 (-1)) st.1 genBorderXYs, st.2).

Definition makeRandomBorder (st : lattice * rng) : lattice * rng :=
  foldl (fun (st : lattice * rng) (xy : coord) =>
           let (b, g) := coinFlip st.2 in
           (put st.1 xy.1 xy.2 (if b then 1 else -1)%Z, g))
        st genBorderXYs.

(** [1 + Math.floor(Math.random() * activeSize)]. *)
Definition random_active (g : rng) : nat * rng :=
  let (k, g') := random_index activeSize g in (1 + k, g').

Definition makeSampledBorder (st : lattice * rng) : lattice * rng :=
  foldl (fun (st : lattice * rng) (xy : coord) =>
           let (xSource, g1) := random_active st.2 in
           let (ySource, g2) := random_active g1 in
           (put st.1 xy.1 xy.2 (get st.1 xSource ySource), g2))
        st genBorderXYs.

Definition makeUnderdogBorder (st : lattice * rng) : lattice * rng :=
  foldl (fun (st : lattice * rng) (xy : coord) =>
           let (xSource, g1) := random_active st.2 in
           let (ySource, g2) := random_active g1 in
           (put st.1 xy.1 xy.2 (- get st.1 xSource ySource)%Z, g2))
        st genBorderXYs.

(** The body of the loop of [makeWraparoundBorder]: four tests in a row. *)
Definition wraparound_cell (lat : lattice) (xy : coord) : lattice :=
  let (x, y) := xy in
  let lat := if y =? gridTop then put lat x y (get lat x activeBottom) else lat in
  let lat := if x =? gridRight then put lat x y (get lat activeLeft y) else lat in
  let lat := if y =? gridBottom then put lat x y (get lat x activeTop) else lat in
  if x =? gridLeft then put lat x y (get lat activeRight y) else lat.

Definition makeWraparoundBorder (st : lattice * rng) : lattice * rng :=
  (foldl wraparound_cell st.1 genBorderXYs, st.2).

(** The body of the loop of [makeTwistedBorder]. *)
Definition twisted_cell (lat : lattice) (xy : coord) : lattice :=
  let (x, y) := xy in
  let lat := if y =? gridTop then put lat x y (get lat x activeBottom) else lat in
  let lat := if x =? gridRight then put lat x y (get lat activeLeft (gridBottom - y)) else lat in
  let lat := if y =? gridBottom then put lat x y (get lat x activeTop) else lat in
  if x =? gridLeft then put lat x y (get lat activeRight (gridBottom - y)) else lat.

Definition makeTwistedBorder (st : lattice * rng) : lattice * rng :=
  (foldl twisted_cell st.1 genBorderXYs, st.2).

(** [boundaryList]: the constructor behind each label. *)
Definition boundaryList (rule : string) : option (lattice * rng -> lattice * rng) :=
  if String.eqb rule "wraparound" then Some makeWraparoundBorder
  else if String.eqb rule "underdog" then Some makeUnderdogBorder
  else if String.eqb rule "twisted" then Some makeTwistedBorder
  else if String.eqb rule "up" then Some makeUpBorder
  else if String.eqb rule "down" then Some makeDownBorder
  else if String.eqb rule "random" then Some makeRandomBorder
  else if String.eqb rule "zero" then Some makeZeroBorder
  else if String.eqb rule "sampled" then Some makeSampledBorder
  else None.

(** [updateBorderMacrostep()]: rebuild the border after a sweep. *)
Definition updateBorderMacrostep (boundaryRule : string) (st : lattice * rng)
  : lattice * rng :=
  if String.eqb boundaryRule "sampled" then makeSampledBorder st
  else if String.eqb boundaryRule "underdog" then makeUnderdogBorder st
  else if String.eqb boundaryRule "random" then makeRandomBorder st
  else st.

(** [updateBorderMicrostep(x, y)]: after a flip at [(x, y)]. *)
Definition updateBorderMicrostep (boundaryRule : string) (lat : lattice) (x y : nat)
  : lattice :=
  if String.eqb boundaryRule "wraparound" then
    if x =? activeLeft then put lat gridRight y (get lat x y)
    else if x =? activeRight then put lat gridLeft y (get lat x y)
    else if y =? activeTop then put lat x gridBottom (get lat x y)
    else if y =? activeBottom then put lat x gridTop (get lat x y)
    else lat
  else if String.eqb boundaryRule "twisted" then
    if x =? activeLeft then put lat gridRight (gridBottom - y) (get lat x y)
    else if x =? activeRight then put lat gridLeft (gridBottom - y) (get lat x y)
    else if y =? activeTop then put lat x gridBottom (get lat x y)
    else if y =? activeBottom then put lat x gridTop (get lat x y)
    else lat
  else lat.

(** [calcDeltaE(x, y)] on the haloed lattice: no wraparound. *)
Definition calcDeltaE (lat : lattice) (x y : nat) : Z :=
  let north := get lat x (y - 1) in
  let south := get lat x (y + 1) in
  let east := get lat (x + 1) y in
  let west := get lat (x - 1) y in
  (2 * get lat x y * (north + south + east + west))%Z.

(** A committed flip: [lattice[x][y] *= -1; updateBorderMicrostep(x, y)]. *)
Definition commit_flip (boundaryRule : string) (lat : lattice) (x y : nat) : lattice :=
  updateBorderMicrostep boundaryRule (flip lat x y) x y.

(** One microstep of [runMetro] at [(x, y)]. *)
Definition metro_microstep (boundaryRule : string) (temperature : JS.number)
    (st : lattice * rng) (x y : nat) : lattice * rng :=
  let (lat, g) := st in
  let deltaE := calcDeltaE lat x y in
  let boltzmann := boltzmann_weight deltaE temperature in
  if (deltaE <=? 0)%Z then (commit_flip boundaryRule lat x y, g)
  else
    let (u, g') := Math_random g in
    if JS.lt (JS.Fin u) boltzmann then (commit_flip boundaryRule lat x y, g')
    else (lat, g').

(** One microstep of [runGlauber] at [(x, y)]. *)
Definition glauber_microstep (boundaryRule : string) (temperature : JS.number)
    (st : lattice * rng) (x y : nat) : lattice * rng :=
  let (lat, g) := st in
  let deltaE := calcDeltaE lat x y in
  let boltzmann := boltzmann_weight deltaE temperature in
  let (u, g') := Math_random g in
  if JS.lt (JS.Fin u) (JS.div boltzmann (JS.add (JS.Fin 1) boltzmann))
  then (commit_flip boundaryRule lat x y, g') else (lat, g').

Record world : Type := mk_world {
  lat : lattice;
  temperature : JS.number;
  boundaryRule : string;
  algorithm : string;
  rand : rng
}.

Definition with_lat_rand (w : world) (st : lattice * rng) : world :=
  mk_world st.1 (temperature w) (boundaryRule w) (algorithm w) st.2.
Definition with_temperature (w : world) (T : JS.number) : world :=
  mk_world (lat w) T (boundaryRule w) (algorithm w) (rand w).
Definition with_boundaryRule (w : world) (rule : string) : world :=
  mk_world (lat w) (temperature w) rule (algorithm w) (rand w).

(** [runMetro()]: typewriter sweep of the interior, then the border. *)
Definition runMetro (w : world) : world :=
  let st :=
    foldl (fun st y =>
             foldl (fun st x => metro_microstep (boundaryRule w) (temperature w) st x y)
                   st active_range)
          (lat w, rand w) active_range in
  with_lat_rand w (updateBorderMacrostep (boundaryRule w) st).

(** [runGlauber()]: [N] random interior sites, then the border. *)
Definition runGlauber (w : world) : world :=
  let st :=
    foldl (fun (st : lattice * rng) (_ : nat) =>
             let (x, g1) := random_active st.2 in
             let (y, g2) := random_active g1 in
             glauber_microstep (boundaryRule w) (temperature w) (st.1, g2) x y)
          (lat w, rand w) (seq 0 N) in
  with_lat_rand w (updateBorderMacrostep (boundaryRule w) st).

(** The interior loop of [init]: [y] outermost. *)
Definition scramble_interior (st : lattice * rng) : lattice * rng :=
  foldl (fun st y =>
    foldl (fun (st : lattice * rng) x =>
      let (b, g) := coinFlip st.2 in
      (put st.1 x y (if b then 1 else -1)%Z, g))
      st active_range)
    st active_range.

(** [boundaryList[rule]()]: a TypeError when the label names nothing. *)
Definition build_border (rule : string) (w : world) : world * result unit :=
  match boundaryList rule with
  | None => (w, Throw TypeError)
  | Some make => (with_lat_rand w (make (lat w, rand w)), Ok tt)
  end.

(** [init()]. *)
Definition init (w : world) : world * result unit :=
  let w := with_lat_rand w (scramble_interior (lat w, rand w)) in
  match build_border (boundaryRule w) w with
  | (w, Throw e) => (w, Throw e)
  | (w, Ok _) => (with_lat_rand w (makeZeroCorners (lat w), rand w), Ok tt)
  end.

(** [chooseBoundary(e)], for the value [rule] of the radio button. *)
Definition chooseBoundary (rule : string) (w : world) : world * result unit :=
  build_border rule (with_boundaryRule w rule).

(** [magnetization()] and [local_correlations()] over the interior. *)
Definition spin_sum (lat : lattice) : Z :=
  foldl (fun M x => foldl (fun M y => (M + get lat x y)%Z) M active_range)
        0%Z active_range.

Definition magnetization (lat : lattice) : JS.number :=
  JS.div (JS.of_Z (spin_sum lat)) (JS.of_nat N).

Definition local_correlations (lat : lattice) : JS.number :=
  let R :=
    foldl (fun R x =>
             foldl (fun R y => JS.add R (JS.div (JS.of_Z (calcDeltaE lat x y)) (JS.Fin 8)))
                   R active_range)
          (JS.Fin 0) active_range in
  JS.div R (JS.of_nat N).

(** The recording loops of [stepResponse]. *)
Definition step_record (fn : world -> world) (offset : nat)
    (st : world * (list JS.number * list JS.number)) (j : nat)
  : world * (list JS.number * list JS.number) :=
  let w := fn st.1 in
  (w, (add_at st.2.1 (offset + j) (local_correlations (lat w)),
       add_at st.2.2 (offset + j) (JS.Math_abs (magnetization (lat w))))).

(** One repetition; an exception ends the run. *)
Definition stepResponse_rep (fn : world -> world) (boundary : string) (T1 T2 : JS.number)
    (T1_steps T2_steps burnin : nat)
    (st : result (world * (list JS.number * list JS.number)))
  : result (world * (list JS.number * list JS.number)) :=
  match st with
  | Throw e => Throw e
  | Ok st =>
      match build_border boundary (with_boundaryRule st.1 boundary) with
      | (_, Throw e) => Throw e
      | (w, Ok _) =>
          let w := with_temperature w T1 in
          let w := Nat.iter burnin fn w in
          let st := foldl (step_record fn 0) (w, st.2) (seq 0 T1_steps) in
          let st := (with_temperature st.1 T2, st.2) in
          Ok (foldl (step_record fn T1_steps) st (seq 0 T2_steps))
      end
  end.

(** [stepResponse(algo, boundary, T1, T2, T1_steps, T2_steps, burnin,
    reps)]: the per-sweep values [x / reps] that are formatted and printed.
    The sweep function is chosen by the global [algorithm], not by [algo]. *)
Definition stepResponse (algo boundary : string) (T1 T2 : JS.number)
    (T1_steps T2_steps burnin reps : nat) (w : world)
  : result (list JS.number * list JS.number) :=
  match new_Array_fill0 (T1_steps + T2_steps) with
  | Throw e => Throw e
  | Ok zeros =>
      let fn := if String.eqb (algorithm w) "metropolis" then runMetro else runGlauber in
      match init w with
      | (_, Throw e) => Throw e
      | (w, Ok _) =>
          match Nat.iter reps (stepResponse_rep fn boundary T1 T2 T1_steps T2_steps burnin)
                         (Ok (w, (zeros, zeros))) with
          | Throw e => Throw e
          | Ok (_, acc) =>
              Ok (map (fun x => JS.div x (JS.of_nat reps)) acc.1,
                  map (fun x => JS.div x (JS.of_nat reps)) acc.2)
          end
      end
  end.

End Program.

End Boundaries.

(* ===================================================================== *)
(** * Program 5: the MCMC Microscope *)
(* ===================================================================== *)

Module Microscope.

Section Program.

Variable gridSize : nat.   (* 20 in the source *)

(** ** Acceptance functions: each returns true (flip) or false *)

Definition MRuleFn (lat : lattice) (temperature : JS.number) (x y : nat) (g : rng)
  : bool * rng :=
  let deltaE := calcDeltaE gridSize lat x y in
  let boltzmann := boltzmann_weight deltaE temperature in
  if (deltaE <=? 0)%Z then (true, g)
  else
    let (u, g') := Math_random g in
    if JS.lt (JS.Fin u) boltzmann then (true, g') else (false, g').

Definition GRuleFn (lat : lattice) (temperature : JS.number) (x y : nat) (g : rng)
  : bool * rng :=
  let deltaE := calcDeltaE gridSize lat x y in
  let boltzmann := boltzmann_weight deltaE temperature in
  let (u, g') := Math_random g in
  if JS.lt (JS.Fin u) (JS.div boltzmann (JS.add (JS.Fin 1) boltzmann))
  then (true, g') else (false, g').

Definition MstarRuleFn (lat : lattice) (temperature : JS.number) (x y : nat) (g : rng)
  : bool * rng :=
  let deltaE := calcDeltaE gridSize lat x y in
  let boltzmann := boltzmann_weight deltaE temperature in
  if (deltaE <? 0)%Z then (true, g)
  else if (deltaE =? 0)%Z then coinFlip g
  else
    let (u, g') := Math_random g in
    if JS.lt (JS.Fin u) boltzmann then (true, g') else (false, g').

(** The function values held by [acceptor]. *)
Inductive rule : Type := M_rule | G_rule | M_star_rule.

Definition acceptanceFunctions (name : string) : option rule :=
  if String.eqb name "M_rule" then Some M_rule
  else if String.eqb name "G_rule" then Some G_rule
  else if String.eqb name "M_star_rule" then Some M_star_rule
  else None.

Definition apply_rule (r : rule) : lattice -> JS.number -> nat -> nat -> rng -> bool * rng :=
  match r with
  | M_rule => MRuleFn
  | G_rule => GRuleFn
  | M_star_rule => MstarRuleFn
  end.

(** ** Generators and iterators *)

(** The function values held by [nextXYgen]. *)
Inductive generator : Type :=
  | GenTypewriter | GenCheckerboard | GenDiagonal | GenPermuted
  | GenRepermuted | GenRandom | GenSimultaneous.

Definition visitSeqGenerators (name : string) : option generator :=
  if String.eqb name "typewriter" then Some GenTypewriter
  else if String.eqb name "checkerboard" then Some GenCheckerboard
  else if String.eqb name "diagonal" then Some GenDiagonal
  else if String.eqb name "permuted" then Some GenPermuted
  else if String.eqb name "repermuted" then Some GenRepermuted
  else if String.eqb name "random" then Some GenRandom
  else if String.eqb name "simultaneous" then Some GenSimultaneous
  else None.

(** A generator object.  Its body starts running at the first [next()];
    after that it holds the coordinates still to be yielded, or, for
    [randomGen], the number of turns left. *)
Inductive iterator : Type :=
  | NotStarted (gen : generator)
  | Remaining (cs : list coord)
  | RandomLeft (turns : nat).

(** [XYiterator.next()]: the value ([None] when done), the iterator and
    the random source afterwards. *)
Definition iterator_next (thePermutation : list nat) (it : iterator) (g : rng)
  : option coord * iterator * rng :=
  let started : iterator * rng :=
    match it with
    | NotStarted GenTypewriter => (Remaining (typewriterGen gridSize 0 0), g)
    | NotStarted GenSimultaneous => (Remaining (simultaneousGen gridSize 0 0), g)
    | NotStarted GenCheckerboard => (Remaining (checkerboardGen gridSize), g)
    | NotStarted GenDiagonal => (Remaining (diagonalGen gridSize), g)
    | NotStarted GenPermuted => (Remaining (permutedGen gridSize thePermutation), g)
    | NotStarted GenRepermuted =>
        let (cs, g') := re_permutedGen gridSize g in (Remaining cs, g')
    | NotStarted GenRandom => (RandomLeft (N gridSize), g)
    | _ => (it, g)
    end in
  match started with
  | (Remaining [], g) => (None, Remaining [], g)
  | (Remaining (c :: cs), g) => (Some c, Remaining cs, g)
  | (RandomLeft O, g) => (None, RandomLeft O, g)
  | (RandomLeft (S n), g) =>
      let (x, g1) := random_index gridSize g in
      let (y, g2) := random_index gridSize g1 in
      (Some (x, y), RandomLeft n, g2)
  | (NotStarted _, g) => (None, it, g)
  end.

(** ** The state of the page *)

Record world : Type := mk_world {
  lat : lattice;
  visitedArray : flags;
  toBeFlippedArray : flags;
  temperature : JS.number;
  visitSeq : string;
  nextXYgen : generator;
  XYiterator : iterator;
  acceptor : rule;
  thePermutation : list nat;
  state : string;
  macrostepTimer : bool;      (* whether the macrostep interval is running *)
  rand : rng
}.

Definition with_lat (w : world) (l : lattice) : world :=
  mk_world l (visitedArray w) (toBeFlippedArray w) (temperature w) (visitSeq w)
           (nextXYgen w) (XYiterator w) (acceptor w) (thePermutation w) (state w)
           (macrostepTimer w) (rand w).
Definition with_visited (w : world) (v : flags) : world :=
  mk_world (lat w) v (toBeFlippedArray w) (temperature w) (visitSeq w)
           (nextXYgen w) (XYiterator w) (acceptor w) (thePermutation w) (state w)
           (macrostepTimer w) (rand w).
Definition with_toBeFlipped (w : world) (f : flags) : world :=
  mk_world (lat w) (visitedArray w) f (temperature w) (visitSeq w)
           (nextXYgen w) (XYiterator w) (acceptor w) (thePermutation w) (state w)
           (macrostepTimer w) (rand w).
Definition with_iterator (w : world) (it : iterator) : world :=
  mk_world (lat w) (visitedArray w) (toBeFlippedArray w) (temperature w) (visitSeq w)
           (nextXYgen w) it (acceptor w) (thePermutation w) (state w)
           (macrostepTimer w) (rand w).
Definition with_rand (w : world) (g : rng) : world :=
  mk_world (lat w) (visitedArray w) (toBeFlippedArray w) (temperature w) (visitSeq w)
           (nextXYgen w) (XYiterator w) (acceptor w) (thePermutation w) (state w)
           (macrostepTimer w) g.
Definition with_idle (w : world) : world :=
  mk_world (lat w) (visitedArray w) (toBeFlippedArray w) (temperature w) (visitSeq w)
           (nextXYgen w) (XYiterator w) (acceptor w) (thePermutation w) "idle"
           false (rand w).

(** [clearLattice(grid, fillValue)] on a grid of flags. *)
Definition clearLattice (f : flags) (fillValue : bool) : flags :=
  foldl (fun f y => foldl (fun f x => set_flag f x y fillValue) f (seq 0 gridSize))
        f (seq 0 gridSize).

(** [updateSpin(x, y)]: mark the site visited, ask the acceptor, and flip
    the spin, or, in the 'simultaneous' sequence, only flag it. *)
Definition updateSpin (w : world) (x y : nat) : world :=
  let w := with_visited w (set_flag (visitedArray w) x y true) in
  let (flipSpin, g) := apply_rule (acceptor w) (lat w) (temperature w) x y (rand w) in
  let w := with_rand w g in
  if flipSpin then
    if String.eqb (visitSeq w) "simultaneous" then
      with_toBeFlipped w (set_flag (toBeFlippedArray w) x y true)
    else with_lat w (flip (lat w) x y)
  else w.

(** [simultaneousUpdate()]: flip every flagged spin, clear the flags. *)
Definition simultaneousUpdate (w : world) : world :=
  let l :=
    foldl (fun l y =>
             foldl (fun l x => if flag (toBeFlippedArray w) x y then flip l x y else l)
                   l (seq 0 gridSize))
          (lat w) (seq 0 gridSize) in
  with_toBeFlipped (with_lat w l) (clearLattice (toBeFlippedArray w) false).

(** [macrostep()]: one tick of the macrostep timer. *)
Definition macrostep (w : world) : world :=
  let '(nextCoords, it, g) := iterator_next (thePermutation w) (XYiterator w) (rand w) in
  let w := with_rand (with_iterator w it) g in
  match nextCoords with
  | None =>
      let w := with_idle w in
      let w := with_iterator w (NotStarted (nextXYgen w)) in
      let w := with_visited w (clearLattice (visitedArray w) false) in
      if String.eqb (visitSeq w) "simultaneous" then simultaneousUpdate w else w
  | Some (x, y) => updateSpin w x y
  end.

End Program.

End Microscope.

(* ===================================================================== *)
(** * Facts about JavaScript numbers *)
(* ===================================================================== *)

Module JSFacts.
Import JS.

Lemma MAX_VALUE_pos : (1 < MAX_VALUE)%R.
Proof.
  unfold MAX_VALUE.
  assert (Hinv : (/ 2 ^ 52 <= 1)%R).
  { rewrite <- Rinv_1. apply Rinv_le_contravar; [lra|]. apply pow_R1_Rle; lra. }
  assert (H2 : (2 <= 2 ^ 1023)%R).
  { change 1023 with (S 1022). simpl pow.
    assert (1 <= 2 ^ 1022)%R by (apply pow_R1_Rle; lra). lra. }
  nra.
Qed.

Lemma MAX_VALUE_lt_OVERFLOW : (MAX_VALUE < OVERFLOW)%R.
Proof.
  unfold MAX_VALUE, OVERFLOW.
  assert (H : (0 < 2 ^ 1023)%R) by (apply pow_lt; lra).
  assert (H' : (/ 2 ^ 53 < / 2 ^ 52)%R).
  { apply Rinv_lt_contravar.
    - apply Rmult_lt_0_compat; apply pow_lt; lra.
    - change 53 with (S 52). simpl pow.
      assert (0 < 2 ^ 52)%R by (apply pow_lt; lra). lra. }
  nra.
Qed.

Lemma OVERFLOW_lt_pow : (OVERFLOW < 2 ^ 1024)%R.
Proof.
  unfold OVERFLOW. change 1024 with (S 1023). simpl pow.
  assert (0 < 2 ^ 1023)%R by (apply pow_lt; lra).
  assert (0 < / 2 ^ 53)%R by (apply Rinv_0_lt_compat, pow_lt; lra). nra.
Qed.

Lemma lt_Fin (a b : R) : lt (Fin a) (Fin b) = true <-> (a < b)%R.
Proof. simpl. destruct (Rlt_dec a b); split; intros; auto; discriminate. Qed.

Lemma le_Fin (a b : R) : le (Fin a) (Fin b) = true <-> (a <= b)%R.
Proof. simpl. destruct (Rle_dec a b); split; intros; auto; discriminate. Qed.

Lemma overflow_in_range (r : R) :
  (- MAX_VALUE <= r <= MAX_VALUE)%R -> overflow r = Fin r.
Proof.
  intros [Hlo Hhi]. pose proof MAX_VALUE_lt_OVERFLOW. unfold overflow.
  destruct (Rle_dec OVERFLOW r); [lra|].
  destruct (Rle_dec r (- OVERFLOW)); [lra|].
  destruct (Rlt_dec MAX_VALUE r); [lra|].
  destruct (Rlt_dec r (- MAX_VALUE)); [lra|]. reflexivity.
Qed.

(** The possible results of rounding at the top of the range. *)
Lemma overflow_cases (r : R) :
  (overflow r = PosInf /\ (MAX_VALUE < r)%R)
  \/ (overflow r = NegInf /\ (r < - MAX_VALUE)%R)
  \/ (exists r', overflow r = Fin r' /\ (- MAX_VALUE <= r' <= MAX_VALUE)%R
                 /\ ((0 <= r)%R -> (0 <= r' <= r)%R)
                 /\ ((r <= 0)%R -> (r <= r' <= 0)%R)).
Proof.
  pose proof MAX_VALUE_lt_OVERFLOW. pose proof MAX_VALUE_pos. unfold overflow.
  destruct (Rle_dec OVERFLOW r); [left; split; [reflexivity|lra]|].
  destruct (Rle_dec r (- OVERFLOW)); [right; left; split; [reflexivity|lra]|].
  right; right.
  destruct (Rlt_dec MAX_VALUE r); [exists MAX_VALUE; repeat split; lra|].
  destruct (Rlt_dec r (- MAX_VALUE)); [exists (- MAX_VALUE)%R; repeat split; lra|].
  exists r; repeat split; lra.
Qed.

Lemma positive_cases (T : number) :
  positive T <-> T = PosInf \/ exists t, T = Fin t /\ (0 < t)%R.
Proof.
  unfold positive. destruct T as [| |t|]; simpl.
  - split; [discriminate|]. intros [H|(t & H & _)]; discriminate.
  - split; [discriminate|]. intros [H|(t & H & _)]; discriminate.
  - destruct (Rlt_dec 0 t); split; intros H; auto; try discriminate.
    + right. exists t. auto.
    + destruct H as [H|(t' & H & Ht)]; [discriminate|]. injection H as ->. lra.
  - split; auto.
Qed.

(** [Math.exp] never answers NaN, nor anything below zero, on a number
    that is not NaN. *)
Lemma Math_exp_cases (a : number) :
  a <> NaN -> Math_exp a = PosInf \/ exists r, Math_exp a = Fin r /\ (0 <= r <= MAX_VALUE)%R.
Proof.
  intros Ha. pose proof MAX_VALUE_pos as HM. destruct a as [| |r|]; simpl.
  - congruence.
  - right. exists 0%R. split; [reflexivity|lra].
  - pose proof (exp_pos r) as Hexp.
    destruct (overflow_cases (exp r)) as [[-> _]|[[_ H]|(r' & -> & Hr & Hp & _)]].
    + left; reflexivity.
    + lra.
    + right. exists r'. split; [reflexivity|]. specialize (Hp ltac:(lra)). lra.
  - left; reflexivity.
Qed.

(** Dividing an integer by a positive number never gives NaN. *)
Lemma div_by_positive (z : Z) (T : number) :
  positive T -> div (neg (of_Z z)) T <> NaN.
Proof.
  intros HT. apply positive_cases in HT as [->|(t & -> & Ht)]; simpl.
  - discriminate.
  - destruct (Req_dec_T t 0); [lra|].
    destruct (overflow_cases (- IZR z / t)) as [[-> _]|[[-> _]|(r' & -> & _)]];
      discriminate.
Qed.

Lemma Math_min_MAX (a : number) :
  (a = PosInf \/ exists r, a = Fin r /\ (0 <= r <= MAX_VALUE)%R) ->
  exists w, Math_min a (Fin MAX_VALUE) = Fin w /\ (0 <= w <= MAX_VALUE)%R.
Proof.
  pose proof MAX_VALUE_pos as HM.
  intros [->|(r & -> & Hr)]; simpl.
  - exists MAX_VALUE. split; [reflexivity|lra].
  - exists r. split; [|lra]. f_equal. apply Rmin_left. lra.
Qed.







(** The threshold of the G-rule, [w / (1 + w)], for a weight in range: an
    ordinary number between 0 and 1. *)
Lemma glauber_threshold (w : R) :
  (0 <= w <= MAX_VALUE)%R ->
  exists q, div (Fin w) (add (Fin 1) (Fin w)) = Fin q /\ (0 <= q <= 1)%R.
Proof.
  intros Hw. pose proof MAX_VALUE_pos as HM. simpl add.
  assert (Hs : exists s, overflow (1 + w) = Fin s /\ (1 <= s)%R /\ (w <= s \/ s = MAX_VALUE)%R).
  { pose proof MAX_VALUE_lt_OVERFLOW. unfold overflow.
    destruct (Rle_dec OVERFLOW (1 + w)).
    - exfalso. assert (2 <= OVERFLOW - MAX_VALUE)%R; [|lra].
      unfold OVERFLOW, MAX_VALUE.
      assert (H53 : (/ 2 ^ 52 = 2 * / 2 ^ 53)%R).
      { change 53 with (S 52). simpl pow. field. }
      rewrite H53.
      assert (H1023 : (2 ^ 1023 = 2 ^ 54 * 2 ^ 969)%R).
      { rewrite <- pow_add. reflexivity. }
      assert (H54 : (2 ^ 54 * / 2 ^ 53 = 2)%R).
      { change 54 with (S 53). simpl pow. field. }
      assert (H969 : (1 <= 2 ^ 969)%R) by (apply pow_R1_Rle; lra).
      replace ((2 - / 2 ^ 53) * 2 ^ 1023 - (2 - 2 * / 2 ^ 53) * 2 ^ 1023)%R
        with ((2 ^ 54 * / 2 ^ 53) * 2 ^ 969)%R by (rewrite H1023; ring).
      rewrite H54. lra.
    - destruct (Rle_dec (1 + w) (- OVERFLOW)); [lra|].
      destruct (Rlt_dec MAX_VALUE (1 + w)).
      + exists MAX_VALUE. repeat split; lra.
      + destruct (Rlt_dec (1 + w) (- MAX_VALUE)); [lra|].
        exists (1 + w)%R. repeat split; lra. }
  destruct Hs as (s & -> & Hs1 & Hs2). simpl.
  destruct (Req_dec_T s 0); [lra|].
  assert (Hq : (0 <= w / s <= 1)%R).
  { split.
    - apply Rle_mult_inv_pos; lra.
    - apply (Rmult_le_reg_r s); [lra|].
      unfold Rdiv. rewrite Rmult_assoc, Rinv_l; lra. }
  exists (w / s)%R. split; [|exact Hq].
  apply overflow_in_range. lra.
Qed.

End JSFacts.

(** From here on the operations on numbers are used through their lemmas. *)
Arguments JS.add : simpl never.
Arguments JS.sub : simpl never.
Arguments JS.mul : simpl never.
Arguments JS.div : simpl never.
Arguments JS.lt : simpl never.
Arguments JS.le : simpl never.
Arguments JS.Math_abs : simpl never.
Arguments JS.Math_sqrt : simpl never.
Arguments JS.Math_exp : simpl never.
Arguments JS.Math_min : simpl never.
Arguments JS.overflow : simpl never.
Arguments boltzmann_weight : simpl never.

(* ===================================================================== *)
(** * The Boltzmann weight *)
(* ===================================================================== *)

(** For a positive temperature the clamped weight is an ordinary number
    between 0 and [MAX_VALUE]. *)
Lemma boltzmann_weight_finite (deltaE : Z) (T : JS.number) :
  JS.positive T ->
  exists w, boltzmann_weight deltaE T = JS.Fin w /\ (0 <= w <= JS.MAX_VALUE)%R.
Proof.
  intros HT. unfold boltzmann_weight.
  apply JSFacts.Math_min_MAX, JSFacts.Math_exp_cases, JSFacts.div_by_positive, HT.
Qed.

(** Without the clamp the raw exponential does overflow: at [deltaE = -8]
    and [T = 0.004], [exp(2000)] is beyond the range. *)
Lemma raw_exponential_overflows :
  JS.Math_exp (JS.div (JS.neg (JS.of_Z (-8))) (JS.Fin (1 / 250))) = JS.PosInf.
Proof.
  assert (Hexp : forall n : nat, (2 ^ n <= exp (INR n))%R).
  { induction n as [|n IH].
    - simpl. rewrite exp_0. lra.
    - rewrite S_INR, exp_plus. simpl pow.
      pose proof (exp_ineq1 1 ltac:(lra)). pose proof (exp_pos (INR n)).
      assert (0 < 2 ^ n)%R by (apply pow_lt; lra). nra. }
  pose proof JSFacts.OVERFLOW_lt_pow as HM.
  pose proof JSFacts.MAX_VALUE_lt_OVERFLOW as HMO.
  assert (H2000 : (2 ^ 1024 <= 2 ^ 2000)%R) by (apply Rle_pow; [lra|lia]).
  assert (Hq : (- IZR (-8) / (1 / 250) = INR 2000)%R).
  { rewrite <- opp_IZR. change (- -8)%Z with 8%Z. rewrite INR_IZR_INZ.
    change (Z.of_nat 2000) with (8 * 250)%Z. rewrite mult_IZR. field. }
  pose proof (Hexp 2000%nat) as H.
  assert (Hbig : (JS.OVERFLOW < exp (INR 2000))%R) by lra.
  assert (Hin : (- JS.MAX_VALUE <= INR 2000 <= JS.MAX_VALUE)%R).
  { rewrite INR_IZR_INZ. change (Z.of_nat 2000) with 2000%Z.
    assert (H11 : (2 ^ 11 <= 2 ^ 1023)%R) by (apply Rle_pow; [lra|lia]).
    assert (Hinv : (/ 2 ^ 52 <= 1)%R).
    { rewrite <- Rinv_1. apply Rinv_le_contravar; [lra|]. apply pow_R1_Rle; lra. }
    assert (H2048 : (2 ^ 11 = 2048)%R) by (simpl; lra).
    unfold JS.MAX_VALUE. nra. }
  clear Hexp H H2000 HM. remember (INR 2000) as q eqn:Eq. clear Eq.
  unfold JS.div, JS.neg, JS.of_Z.
  destruct (Req_dec_T (1 / 250) 0) as [E|_]; [lra|].
  rewrite Hq, (JSFacts.overflow_in_range q Hin).
  unfold JS.Math_exp, JS.overflow.
  destruct (Rle_dec JS.OVERFLOW (exp q)); [reflexivity|lra].
Qed.

(* ===================================================================== *)
(** * Facts about the lattice store *)
(* ===================================================================== *)

Lemma get_put (lat : lattice) (x y x' y' : nat) (v : Z) :
  get (put lat x y v) x' y' =
    if decide (x = x' /\ x < length lat /\ y = y' /\ y < length (lat !!! x))
    then v else get lat x' y'.
Proof.
  unfold get, put. rewrite list_lookup_total_alter.
  destruct (decide (x = x' /\ x < length lat)) as [[-> Hx]|Hn].
  - rewrite list_lookup_total_insert.
    repeat case_decide; try reflexivity; exfalso; tauto.
  - case_decide; [exfalso; tauto|reflexivity].
Qed.

Lemma dims_lookup (side : nat) (lat : lattice) (x : nat) :
  dims side lat -> x < side -> length (lat !!! x) = side.
Proof.
  intros [Hlen Hall] Hx.
  apply (Forall_lookup_total_1 (fun col => length col = side)); [assumption|lia].
Qed.

Lemma get_put_same (side : nat) (lat : lattice) (x y : nat) (v : Z) :
  dims side lat -> x < side -> y < side -> get (put lat x y v) x y = v.
Proof.
  intros Hd Hx Hy. rewrite get_put.
  pose proof (dims_lookup side lat x Hd Hx). destruct Hd as [Hlen _].
  case_decide; [reflexivity|exfalso; intuition lia].
Qed.

Lemma get_put_other (lat : lattice) (x y x' y' : nat) (v : Z) :
  (x, y) <> (x', y') -> get (put lat x y v) x' y' = get lat x' y'.
Proof.
  intros Hne. rewrite get_put.
  case_decide as H; [|reflexivity].
  destruct H as (-> & _ & -> & _). congruence.
Qed.

Lemma dims_put (side : nat) (lat : lattice) (x y : nat) (v : Z) :
  dims side lat -> dims side (put lat x y v).
Proof.
  intros [Hlen Hall]. split.
  - unfold put. rewrite length_alter. exact Hlen.
  - unfold put. apply Forall_alter; [assumption|].
    intros col _ Hc. rewrite length_insert. exact Hc.
Qed.

Lemma dims_flip (side : nat) (lat : lattice) (x y : nat) :
  dims side lat -> dims side (flip lat x y).
Proof. apply dims_put. Qed.

(** A flip negates the cell and leaves every other cell alone. *)
Lemma get_flip_same (side : nat) (lat : lattice) (x y : nat) :
  dims side lat -> x < side -> y < side ->
  get (flip lat x y) x y = (- get lat x y)%Z.
Proof.
  intros Hd Hx Hy. unfold flip. rewrite (get_put_same side); auto. lia.
Qed.

Lemma get_flip_other (lat : lattice) (x y x' y' : nat) :
  (x, y) <> (x', y') -> get (flip lat x y) x' y' = get lat x' y'.
Proof. apply get_put_other. Qed.

Lemma dimsb_spec (side : nat) (lat : lattice) :
  dimsb side lat = true <-> dims side lat.
Proof.
  unfold dimsb, dims. rewrite andb_true_iff, Nat.eqb_eq, forallb_forall.
  rewrite Forall_forall. split; intros [H1 H2]; split; auto; intros col Hc.
  - apply Nat.eqb_eq, H2. by apply list_elem_of_In.
  - apply Nat.eqb_eq, H2. by apply list_elem_of_In.
Qed.

(* ===================================================================== *)
(** * C1: what the acceptance rules decide *)
(* ===================================================================== *)

(** Case analysis on the comparison [a < b] that decides a flip. *)
Ltac case_lt :=
  match goal with
  | |- context [JS.lt ?a ?b] => destruct (JS.lt a b)
  end.

Section AcceptanceRules.

Variable gridSize : nat.

(** The decision of the M-rule, from [deltaE], the weight and the draw. *)
Definition M_decision (deltaE : Z) (w : JS.number) (u : R) : bool :=
  (deltaE <=? 0)%Z || JS.lt (JS.Fin u) w.

(** The decision of the G-rule. *)
Definition G_decision (w : JS.number) (u : R) : bool :=
  JS.lt (JS.Fin u) (JS.div w (JS.add (JS.Fin 1) w)).

(** The decision of the M*-rule. *)
Definition Mstar_decision (deltaE : Z) (w : JS.number) (u : R) : bool :=
  if (deltaE <? 0)%Z then true
  else if (deltaE =? 0)%Z then JS.lt (JS.Fin u) (JS.Fin (1 / 2))
  else JS.lt (JS.Fin u) w.

Lemma MRuleFn_decision (lat : lattice) (T : JS.number) (x y : nat) (g : rng) :
  (Microscope.MRuleFn gridSize lat T x y g).1 =
  M_decision (calcDeltaE gridSize lat x y)
             (boltzmann_weight (calcDeltaE gridSize lat x y) T) (draw g 0).
Proof.
  unfold Microscope.MRuleFn, M_decision, Math_random.
  destruct (calcDeltaE gridSize lat x y <=? 0)%Z; [reflexivity|].
  case_lt; reflexivity.
Qed.

Lemma GRuleFn_decision (lat : lattice) (T : JS.number) (x y : nat) (g : rng) :
  (Microscope.GRuleFn gridSize lat T x y g).1 =
  G_decision (boltzmann_weight (calcDeltaE gridSize lat x y) T) (draw g 0).
Proof.
  unfold Microscope.GRuleFn, G_decision, Math_random.
  case_lt; reflexivity.
Qed.

Lemma MstarRuleFn_decision (lat : lattice) (T : JS.number) (x y : nat) (g : rng) :
  (Microscope.MstarRuleFn gridSize lat T x y g).1 =
  Mstar_decision (calcDeltaE gridSize lat x y)
                 (boltzmann_weight (calcDeltaE gridSize lat x y) T) (draw g 0).
Proof.
  unfold Microscope.MstarRuleFn, Mstar_decision, coinFlip, Math_random.
  destruct (calcDeltaE gridSize lat x y <? 0)%Z; [reflexivity|].
  destruct (calcDeltaE gridSize lat x y =? 0)%Z; [reflexivity|].
  case_lt; reflexivity.
Qed.

Lemma updateSpin_M_rule (lat : lattice) (T : JS.number) (x y : nat) (g : rng) :
  (MixAndMatch.updateSpin gridSize "M_rule" T (lat, g) x y).1 =
  if M_decision (calcDeltaE gridSize lat x y)
                (boltzmann_weight (calcDeltaE gridSize lat x y) T) (draw g 0)
  then flip lat x y else lat.
Proof.
  unfold MixAndMatch.updateSpin, M_decision, Math_random.
  change (String.eqb "M_rule" "M_rule") with true. cbv iota.
  destruct (calcDeltaE gridSize lat x y <=? 0)%Z; [reflexivity|].
  case_lt; reflexivity.
Qed.

Lemma updateSpin_G_rule (lat : lattice) (T : JS.number) (x y : nat) (g : rng) :
  (MixAndMatch.updateSpin gridSize "G_rule" T (lat, g) x y).1 =
  if G_decision (boltzmann_weight (calcDeltaE gridSize lat x y) T) (draw g 0)
  then flip lat x y else lat.
Proof.
  unfold MixAndMatch.updateSpin, G_decision, Math_random.
  change (String.eqb "G_rule" "M_rule") with false.
  change (String.eqb "G_rule" "G_rule") with true. cbv iota.
  case_lt; reflexivity.
Qed.

Lemma updateSpin_M_star_rule (lat : lattice) (T : JS.number) (x y : nat) (g : rng) :
  (MixAndMatch.updateSpin gridSize "M_star_rule" T (lat, g) x y).1 =
  if Mstar_decision (calcDeltaE gridSize lat x y)
                    (boltzmann_weight (calcDeltaE gridSize lat x y) T) (draw g 0)
  then flip lat x y else lat.
Proof.
  unfold MixAndMatch.updateSpin, Mstar_decision, coinFlip, Math_random.
  change (String.eqb "M_star_rule" "M_rule") with false.
  change (String.eqb "M_star_rule" "G_rule") with false.
  change (String.eqb "M_star_rule" "M_star_rule") with true. cbv iota.
  destruct (calcDeltaE gridSize lat x y <? 0)%Z; [reflexivity|].
  destruct (calcDeltaE gridSize lat x y =? 0)%Z.
  - case_lt; reflexivity.
  - case_lt; reflexivity.
Qed.

(** The M-rule of Programs 1 and 3, and the G-rule of Program 1. *)
Lemma metropolis_update_decision (lat : lattice) (T : JS.number) (x y : nat) (g : rng) :
  (metropolis_update gridSize T (lat, g) x y).1 =
  if M_decision (calcDeltaE gridSize lat x y)
                (boltzmann_weight (calcDeltaE gridSize lat x y) T) (draw g 0)
  then flip lat x y else lat.
Proof.
  unfold metropolis_update, M_decision, Math_random.
  destruct (calcDeltaE gridSize lat x y <=? 0)%Z; [reflexivity|].
  case_lt; reflexivity.
Qed.

Lemma glauber_update_decision (lat : lattice) (T : JS.number) (x y : nat) (g : rng) :
  (glauber_update gridSize T (lat, g) x y).1 =
  if G_decision (boltzmann_weight (calcDeltaE gridSize lat x y) T) (draw g 0)
  then flip lat x y else lat.
Proof.
  unfold glauber_update, G_decision, Math_random.
  case_lt; reflexivity.
Qed.

(** The two decisions, case by case. *)
Lemma M_decision_cases (deltaE : Z) (w : JS.number) (u : R) :
  ((deltaE <= 0)%Z -> M_decision deltaE w u = true) /\
  ((0 < deltaE)%Z -> M_decision deltaE w u = JS.lt (JS.Fin u) w).
Proof.
  unfold M_decision. split; intros H.
  - apply Z.leb_le in H. rewrite H. reflexivity.
  - apply Z.leb_gt in H. rewrite H. reflexivity.
Qed.

Lemma Mstar_decision_cases (deltaE : Z) (w : JS.number) (u : R) :
  ((deltaE < 0)%Z -> Mstar_decision deltaE w u = true) /\
  (deltaE = 0%Z -> (Mstar_decision deltaE w u = true <-> (u < 1 / 2)%R)) /\
  ((0 < deltaE)%Z -> Mstar_decision deltaE w u = M_decision deltaE w u).
Proof.
  unfold Mstar_decision, M_decision. repeat split.
  - intros H. apply Z.ltb_lt in H. rewrite H. reflexivity.
  - subst. simpl. apply JSFacts.lt_Fin.
  - subst. simpl. apply JSFacts.lt_Fin.
  - intros H.
    assert (H1 : (deltaE <? 0)%Z = false) by (apply Z.ltb_ge; lia).
    assert (H2 : (deltaE =? 0)%Z = false) by (apply Z.eqb_neq; lia).
    assert (H3 : (deltaE <=? 0)%Z = false) by (apply Z.leb_gt; lia).
    rewrite H1, H2, H3. reflexivity.
Qed.

(** C1.  At every site, for every temperature (the positive ones among
    them) and every draw of the random source:
    - the M-rule ([MRuleFn] of the Microscope, and [updateSpin] of Mix and
      Match under "M_rule") flips whenever [deltaE <= 0], and otherwise
      flips exactly when the draw is below the Boltzmann weight;
    - the M*-rule flips whenever [deltaE < 0], decides [deltaE = 0] by the
      coin flip [draw < 1/2], which a uniform draw from [0, 1) passes with
      probability one half, and for [deltaE > 0] decides as the M-rule. *)
Theorem acceptance_rules_decide
    (lat : lattice) (T : JS.number) (x y : nat) (g : rng) :
  let deltaE := calcDeltaE gridSize lat x y in
  let w := boltzmann_weight deltaE T in
  let u := draw g 0 in
  let M := (Microscope.MRuleFn gridSize lat T x y g).1 in
  let Mstar := (Microscope.MstarRuleFn gridSize lat T x y g).1 in
  ((deltaE <= 0)%Z -> M = true) /\
  ((0 < deltaE)%Z -> M = JS.lt (JS.Fin u) w) /\
  ((deltaE < 0)%Z -> Mstar = true) /\
  (deltaE = 0%Z -> (Mstar = true <-> (u < 1 / 2)%R)) /\
  ((0 < deltaE)%Z -> Mstar = M) /\
  (MixAndMatch.updateSpin gridSize "M_rule" T (lat, g) x y).1
    = (if M then flip lat x y else lat) /\
  (MixAndMatch.updateSpin gridSize "M_star_rule" T (lat, g) x y).1
    = (if Mstar then flip lat x y else lat) /\
  (0 <= u < 1)%R.
Proof.
  intros deltaE w u M Mstar.
  assert (HM : M = M_decision deltaE w u) by apply MRuleFn_decision.
  assert (HS : Mstar = Mstar_decision deltaE w u) by apply MstarRuleFn_decision.
  destruct (M_decision_cases deltaE w u) as [M1 M2].
  destruct (Mstar_decision_cases deltaE w u) as (S1 & S2 & S3).
  rewrite HM, HS. repeat split; auto.
  - apply S2; assumption.
  - apply S2; assumption.
  - apply updateSpin_M_rule.
  - apply updateSpin_M_star_rule.
  - apply (draw_range g 0).
  - apply (draw_range g 0).
Qed.

(* ===================================================================== *)
(** * C6: the weight that is compared with the draw *)
(* ===================================================================== *)

(** C6.  In every acceptance decision (the M-, G- and M*-rule of the
    Microscope and of Mix and Match, [runMetro] and [runGlauber] of
    Program 1) the weight is
    [Math.min(Math.exp(-deltaE/temperature), Number.MAX_VALUE)]; for a
    positive temperature it is an ordinary number between 0 and
    [MAX_VALUE], neither NaN nor an infinity, and so is the threshold
    [w / (1 + w)] of the G-rule. *)
Theorem boltzmann_weight_clamped
    (lat : lattice) (T : JS.number) (x y : nat) (g : rng) :
  JS.positive T ->
  let deltaE := calcDeltaE gridSize lat x y in
  let w := JS.Math_min (JS.Math_exp (JS.div (JS.neg (JS.of_Z deltaE)) T))
                       (JS.Fin JS.MAX_VALUE) in
  let u := draw g 0 in
  (exists r, w = JS.Fin r /\ (0 <= r <= JS.MAX_VALUE)%R) /\
  (exists q, JS.div w (JS.add (JS.Fin 1) w) = JS.Fin q /\ (0 <= q <= 1)%R) /\
  (Microscope.MRuleFn gridSize lat T x y g).1 = M_decision deltaE w u /\
  (Microscope.GRuleFn gridSize lat T x y g).1 = G_decision w u /\
  (Microscope.MstarRuleFn gridSize lat T x y g).1 = Mstar_decision deltaE w u /\
  (MixAndMatch.updateSpin gridSize "M_rule" T (lat, g) x y).1
    = (if M_decision deltaE w u then flip lat x y else lat) /\
  (MixAndMatch.updateSpin gridSize "G_rule" T (lat, g) x y).1
    = (if G_decision w u then flip lat x y else lat) /\
  (MixAndMatch.updateSpin gridSize "M_star_rule" T (lat, g) x y).1
    = (if Mstar_decision deltaE w u then flip lat x y else lat) /\
  (metropolis_update gridSize T (lat, g) x y).1
    = (if M_decision deltaE w u then flip lat x y else lat) /\
  (glauber_update gridSize T (lat, g) x y).1
    = (if G_decision w u then flip lat x y else lat).
Proof.
  intros HT deltaE w u.
  destruct (boltzmann_weight_finite deltaE T HT) as (r & Hr & Hrange).
  change w with (boltzmann_weight deltaE T). split; [eauto|]. split.
  { rewrite Hr. apply JSFacts.glauber_threshold, Hrange. }
  split; [apply MRuleFn_decision|]. split; [apply GRuleFn_decision|].
  split; [apply MstarRuleFn_decision|]. split; [apply updateSpin_M_rule|].
  split; [apply updateSpin_G_rule|]. split; [apply updateSpin_M_star_rule|].
  split; [apply metropolis_update_decision|apply glauber_update_decision].
Qed.

End AcceptanceRules.

(** A random source whose every draw is 0, and a small lattice of up
    spins, for concrete instances. *)
Lemma zero_is_a_draw : forall n : nat, (0 <= (fun _ : nat => 0%R) n < 1)%R.
Proof. intros n. simpl. lra. Qed.

Definition rng_zero : rng := mk_rng (fun _ => 0%R) zero_is_a_draw.

Definition all_up (side : nat) : lattice := replicate side (replicate side 1%Z).

Lemma boltzmann_weight_clamped_witness :
  JS.positive (JS.Fin 1) /\
  exists r, boltzmann_weight (calcDeltaE 4 (all_up 4) 1 1) (JS.Fin 1) = JS.Fin r
            /\ (0 <= r <= JS.MAX_VALUE)%R.
Proof.
  assert (H : JS.positive (JS.Fin 1)).
  { unfold JS.positive. apply JSFacts.lt_Fin. lra. }
  split; [exact H|].
  exact (proj1 (boltzmann_weight_clamped 4 (all_up 4) (JS.Fin 1) 1 1 rng_zero H)).
Defined.

(* ===================================================================== *)
(** * Loops and draws *)
(* ===================================================================== *)

(** A loop invariant over the part of the list already processed. *)
Lemma foldl_invariant {A B : Type} (f : A -> B -> A) (I : list B -> A -> Prop)
    (l : list B) (a : A) :
  I [] a ->
  (forall done b a', I done a' -> I (done ++ [b]) (f a' b)) ->
  I l (foldl f a l).
Proof.
  intros H0 Hstep. induction l as [|b l IH] using rev_ind; [exact H0|].
  rewrite foldl_app. simpl. apply Hstep, IH.
Qed.

(** A property kept by every turn is kept by the loop. *)
Lemma foldl_preserves {A B : Type} (f : A -> B -> A) (P : A -> Prop)
    (l : list B) (a : A) :
  P a -> (forall b a', P a' -> P (f a' b)) -> P (foldl f a l).
Proof.
  intros H0 Hstep. apply (foldl_invariant f (fun _ => P)); auto.
Qed.

Lemma iter_preserves {A : Type} (f : A -> A) (P : A -> Prop) (n : nat) (a : A) :
  P a -> (forall a', P a' -> P (f a')) -> P (Nat.iter n f a).
Proof. intros H0 Hstep. induction n as [|n IH]; simpl; auto. Qed.

(** [Math.floor(Math.random() * n)] is an index below [n]. *)
Lemma random_index_lt (n : nat) (g : rng) : 0 < n -> (random_index n g).1 < n.
Proof.
  intros Hn. unfold random_index, Math_random, JS.Math_floor. simpl.
  destruct (draw_range g 0) as [H0 H1].
  destruct (base_Int_part (draw g 0 * INR n)) as [Hlo Hhi].
  assert (HnR : (0 < INR n)%R) by (apply lt_0_INR; lia).
  assert (Hk : (Int_part (draw g 0 * INR n) < Z.of_nat n)%Z).
  { apply lt_IZR. rewrite <- INR_IZR_INZ. nra. }
  assert (Hk0 : (0 <= Int_part (draw g 0 * INR n))%Z).
  { assert (-1 < Int_part (draw g 0 * INR n))%Z; [|lia].
    apply lt_IZR. nra. }
  lia.
Qed.

(** With draws that are all 0 the index is 0. *)
Lemma random_index_zero (n : nat) (g : rng) :
  draw g 0 = 0%R -> (random_index n g).1 = 0.
Proof.
  intros H. unfold random_index, Math_random, JS.Math_floor. simpl.
  rewrite H, Rmult_0_l.
  assert (Int_part 0 = 0%Z) as ->; [|reflexivity].
  destruct (base_Int_part 0) as [Hlo Hhi].
  assert (Int_part 0 <= 0)%Z by (apply le_IZR; lra).
  assert (-1 < Int_part 0)%Z by (apply lt_IZR; lra). lia.
Qed.

(* ===================================================================== *)
(** * C5: the values of deltaE *)
(* ===================================================================== *)

Definition spin (v : Z) : Prop := v = 1%Z \/ v = (-1)%Z.

(** A border cell may also hold 0. *)
Definition trit (v : Z) : Prop := v = (-1)%Z \/ v = 0%Z \/ v = 1%Z.

Lemma spin_trit (v : Z) : spin v -> trit v.
Proof. unfold spin, trit. lia. Qed.

Lemma spin_neg (v : Z) : spin v -> spin (v * -1).
Proof. unfold spin. lia. Qed.

Section ToroidalStates.

Variable gridSize : nat.

(** Every cell of the lattice holds a spin. *)
Definition all_spins (lat : lattice) : Prop :=
  dims gridSize lat /\
  forall x y, x < gridSize -> y < gridSize -> spin (get lat x y).

Lemma all_spins_put (lat : lattice) (x y : nat) (v : Z) :
  all_spins lat -> spin v -> all_spins (put lat x y v).
Proof.
  intros [Hd Hs] Hv. split; [by apply dims_put|].
  intros x' y' Hx Hy. rewrite get_put. case_decide; auto.
Qed.

Lemma all_spins_flip (lat : lattice) (x y : nat) :
  all_spins lat -> all_spins (flip lat x y).
Proof.
  intros H. unfold flip.
  destruct (decide (x < gridSize /\ y < gridSize)) as [[Hx Hy]|Hout].
  - apply all_spins_put; [assumption|]. apply spin_neg, H; assumption.
  - destruct H as [Hd Hs]. split; [by apply dims_put|].
    intros x' y' Hx' Hy'. rewrite get_put.
    pose proof (proj1 Hd) as Hlen.
    case_decide as Hc; [|auto].
    destruct Hc as (-> & Hxl & -> & Hyl).
    rewrite (dims_lookup gridSize) in Hyl by (auto; lia). exfalso. apply Hout. lia.
Qed.

(** The neighbours of a site on the torus, by modular arithmetic. *)
Definition north_of (y : nat) : nat := (y + gridSize - 1) mod gridSize.
Definition south_of (y : nat) : nat := (y + 1) mod gridSize.

Lemma wrap_down (y : nat) :
  y < gridSize -> (if 0 <? y then y - 1 else gridEdge gridSize) = north_of y.
Proof.
  intros Hy. unfold north_of, gridEdge. destruct (Nat.ltb_spec 0 y).
  - replace (y + gridSize - 1) with (y - 1 + 1 * gridSize) by lia.
    rewrite Nat.Div0.mod_add. symmetry. apply Nat.mod_small. lia.
  - replace (y + gridSize - 1) with (gridSize - 1) by lia.
    symmetry. apply Nat.mod_small. lia.
Qed.

Lemma wrap_up (y : nat) :
  y < gridSize -> (if y <? gridEdge gridSize then y + 1 else 0) = south_of y.
Proof.
  intros Hy. unfold south_of, gridEdge. destruct (Nat.ltb_spec y (gridSize - 1)).
  - symmetry. apply Nat.mod_small. lia.
  - replace (y + 1) with gridSize by lia. symmetry. apply Nat.Div0.mod_same.
Qed.

Lemma north_of_lt (y : nat) : 0 < gridSize -> north_of y < gridSize.
Proof. intros. apply Nat.mod_upper_bound. lia. Qed.

Lemma south_of_lt (y : nat) : 0 < gridSize -> south_of y < gridSize.
Proof. intros. apply Nat.mod_upper_bound. lia. Qed.

(** On the torus [calcDeltaE] is twice the spin times the sum of the four
    neighbours taken modulo [gridSize]. *)
Lemma calcDeltaE_torus (lat : lattice) (x y : nat) :
  x < gridSize -> y < gridSize ->
  calcDeltaE gridSize lat x y =
  (2 * get lat x y *
     (get lat x (north_of y) + get lat x (south_of y)
      + get lat (north_of x) y + get lat (south_of x) y))%Z.
Proof.
  intros Hx Hy. unfold calcDeltaE.
  rewrite !wrap_down, !wrap_up by assumption. reflexivity.
Qed.

(** Five spins give a value in {-8, -4, 0, 4, 8}. *)
Lemma five_spins (s n so e w : Z) :
  spin s -> spin n -> spin so -> spin e -> spin w ->
  (2 * s * (n + so + e + w))%Z ∈ [-8; -4; 0; 4; 8]%Z.
Proof.
  unfold spin. intros Hs Hn Hso He Hw. apply list_elem_of_In. simpl. lia.
Qed.

Lemma calcDeltaE_all_spins (lat : lattice) (x y : nat) :
  all_spins lat -> x < gridSize -> y < gridSize ->
  calcDeltaE gridSize lat x y ∈ [-8; -4; 0; 4; 8]%Z.
Proof.
  intros [Hd Hs] Hx Hy. rewrite calcDeltaE_torus by assumption.
  assert (0 < gridSize) by lia.
  apply five_spins; apply Hs; auto using north_of_lt, south_of_lt.
Qed.

End ToroidalStates.

(** ** Loops that write cells *)

Lemma foldl_invariant_mem {A B : Type} (f : A -> B -> A) (I : list B -> A -> Prop)
    (l : list B) (a : A) :
  I [] a ->
  (forall done b a', b ∈ l -> I done a' -> I (done ++ [b]) (f a' b)) ->
  I l (foldl f a l).
Proof.
  induction l as [|b l IH] using rev_ind; intros H0 Hstep; [exact H0|].
  rewrite foldl_app. simpl. apply Hstep.
  - apply elem_of_app. right. apply list_elem_of_singleton. reflexivity.
  - apply IH; [exact H0|]. intros done b' a' Hb'. apply Hstep.
    apply elem_of_app. by left.
Qed.

(** Nested loops are one loop over the list of pairs. *)
Lemma foldl_bind {A B C : Type} (f : A -> C -> A) (g : B -> list C) (l : list B) (a : A) :
  foldl f a (l ≫= g) = foldl (fun a b => foldl f a (g b)) a l.
Proof.
  revert a. induction l as [|b l IH]; intros a; [reflexivity|].
  change ((b :: l) ≫= g) with (g b ++ (l ≫= g)).
  rewrite foldl_app. apply IH.
Qed.

Lemma foldl_nested {A : Type} (f : A -> nat -> nat -> A) (outer inner : list nat) (a : A) :
  foldl (fun a i => foldl (fun a j => f a i j) a inner) a outer =
  foldl (fun a (c : nat * nat) => f a c.1 c.2) a (i ← outer; j ← inner; [(i, j)]).
Proof.
  revert a. induction outer as [|i outer IH]; intros a; [reflexivity|].
  change ((i :: outer) ≫= (fun i => j ← inner; [(i, j)]))
    with ((j ← inner; [(i, j)]) ++ (outer ≫= (fun i => j ← inner; [(i, j)]))).
  rewrite foldl_app, <- IH, foldl_bind. reflexivity.
Qed.

(** The same with the outer variable second in the pair. *)
Lemma foldl_nested_yx {A : Type} (f : A -> nat -> nat -> A) (outer inner : list nat) (a : A) :
  foldl (fun a y => foldl (fun a x => f a x y) a inner) a outer =
  foldl (fun a (c : nat * nat) => f a c.1 c.2) a (y ← outer; x ← inner; [(x, y)]).
Proof.
  revert a. induction outer as [|y outer IH]; intros a; [reflexivity|].
  change ((y :: outer) ≫= (fun y => x ← inner; [(x, y)]))
    with ((x ← inner; [(x, y)]) ++ (outer ≫= (fun y => x ← inner; [(x, y)]))).
  rewrite foldl_app, <- IH, foldl_bind. reflexivity.
Qed.

(** A loop whose every turn writes one cell of the lattice it carries,
    with a value that satisfies [P] for that cell as long as the state
    satisfies [J]: afterwards every cell on the list satisfies [P] and
    every other cell is as before. *)
Lemma foldl_writes_at {St : Type} (side : nat) (latof : St -> lattice)
    (step : St -> nat * nat -> St) (J : St -> Prop) (P : nat * nat -> Z -> Prop)
    (cs : list (nat * nat)) (s : St) :
  (forall s c, c ∈ cs -> J s -> dims side (latof s) ->
     J (step s c) /\ exists v, P c v /\ latof (step s c) = put (latof s) c.1 c.2 v) ->
  J s -> dims side (latof s) ->
  let s' := foldl step s cs in
  J s' /\ dims side (latof s') /\
  forall x y, x < side -> y < side ->
    ((x, y) ∈ cs -> P (x, y) (get (latof s') x y)) /\
    ((x, y) ∉ cs -> get (latof s') x y = get (latof s) x y).
Proof.
  intros Hstep HJ Hd.
  apply (foldl_invariant_mem step
    (fun done s' => J s' /\ dims side (latof s') /\
       forall x y, x < side -> y < side ->
         ((x, y) ∈ done -> P (x, y) (get (latof s') x y)) /\
         ((x, y) ∉ done -> get (latof s') x y = get (latof s) x y))).
  - split; [exact HJ|]. split; [exact Hd|]. intros x y _ _. split; [|reflexivity].
    intros H. by apply elem_of_nil in H.
  - intros done [cx cy] s' Hc (HJ' & Hd' & Hcells).
    destruct (Hstep s' (cx, cy) Hc HJ' Hd') as (HJ'' & v & Hv & Heq).
    split; [exact HJ''|]. rewrite Heq. simpl. split; [by apply dims_put|].
    intros x y Hx Hy. destruct (Hcells x y Hx Hy) as [Hin Hout].
    destruct (decide ((cx, cy) = (x, y))) as [E|NE].
    + injection E as -> ->. rewrite (get_put_same side) by assumption.
      split; [auto|]. intros Hn. exfalso. apply Hn.
      apply elem_of_app. right. apply list_elem_of_singleton. reflexivity.
    + rewrite get_put_other by assumption. split.
      * intros [H|H]%elem_of_app; [auto|]. apply list_elem_of_singleton in H. congruence.
      * intros Hn. apply Hout. intros Hd0. apply Hn. apply elem_of_app. by left.
Qed.

Lemma foldl_writes {St : Type} (side : nat) (latof : St -> lattice)
    (step : St -> nat * nat -> St) (J : St -> Prop) (P : Z -> Prop)
    (cs : list (nat * nat)) (s : St) :
  (forall s c, c ∈ cs -> J s -> dims side (latof s) ->
     J (step s c) /\ exists v, P v /\ latof (step s c) = put (latof s) c.1 c.2 v) ->
  J s -> dims side (latof s) ->
  let s' := foldl step s cs in
  J s' /\ dims side (latof s') /\
  forall x y, x < side -> y < side ->
    ((x, y) ∈ cs -> P (get (latof s') x y)) /\
    ((x, y) ∉ cs -> get (latof s') x y = get (latof s) x y).
Proof. apply (foldl_writes_at side latof step J (fun _ => P)). Qed.

(** The pairs of two ranges. *)
Lemma elem_of_pairs (outer inner : list nat) (i j : nat) :
  (i, j) ∈ (i ← outer; j ← inner; [(i, j)]) <-> i ∈ outer /\ j ∈ inner.
Proof.
  rewrite list_elem_of_bind. split.
  - intros (i' & H & Hi). apply list_elem_of_bind in H as (j' & H & Hj).
    apply list_elem_of_singleton in H. injection H as -> ->. auto.
  - intros [Hi Hj]. exists i. split; [|exact Hi].
    apply list_elem_of_bind. exists j. split; [|exact Hj].
    apply list_elem_of_singleton. reflexivity.
Qed.

Lemma elem_of_pairs_swap (outer inner : list nat) (i j : nat) :
  (i, j) ∈ (y ← outer; x ← inner; [(x, y)]) <-> j ∈ outer /\ i ∈ inner.
Proof.
  rewrite list_elem_of_bind. split.
  - intros (i' & H & Hi). apply list_elem_of_bind in H as (j' & H & Hj).
    apply list_elem_of_singleton in H. injection H as -> ->. auto.
  - intros [Hi Hj]. exists j. split; [|exact Hi].
    apply list_elem_of_bind. exists i. split; [|exact Hj].
    apply list_elem_of_singleton. reflexivity.
Qed.

Section ToroidalReachable.

Variable gridSize : nat.

Lemma scramble_ij_spins (lat : lattice) (g : rng) :
  dims gridSize lat -> all_spins gridSize (scramble_ij gridSize (lat, g)).1.
Proof.
  intros Hd. unfold scramble_ij.
  rewrite (foldl_nested
    (fun (st : lattice * rng) i j =>
       let (b, g) := coinFlip st.2 in (put st.1 i j (if b then 1 else -1)%Z, g))).
  destruct (foldl_writes gridSize fst
    (fun (st : lattice * rng) (c : nat * nat) =>
       let (b, g) := coinFlip st.2 in (put st.1 c.1 c.2 (if b then 1 else -1)%Z, g))
    (fun _ => True) spin (i ← seq 0 gridSize; j ← seq 0 gridSize; [(i, j)]) (lat, g))
    as (_ & Hd' & Hcells); auto.
  { intros s c _ _ _. split; [exact I|]. destruct (coinFlip s.2) as [b g'].
    exists (if b then 1 else -1)%Z. split; [|reflexivity].
    destruct b; [left|right]; reflexivity. }
  split; [exact Hd'|]. intros x y Hx Hy. apply Hcells; auto.
  apply elem_of_pairs. rewrite !elem_of_seq. lia.
Qed.

Lemma scramble_yx_spins (lat : lattice) (g : rng) :
  dims gridSize lat -> all_spins gridSize (scramble_yx gridSize (lat, g)).1.
Proof.
  intros Hd. unfold scramble_yx.
  rewrite (foldl_nested_yx
    (fun (st : lattice * rng) x y =>
       let (b, g) := coinFlip st.2 in (put st.1 x y (if b then 1 else -1)%Z, g))).
  destruct (foldl_writes gridSize fst
    (fun (st : lattice * rng) (c : nat * nat) =>
       let (b, g) := coinFlip st.2 in (put st.1 c.1 c.2 (if b then 1 else -1)%Z, g))
    (fun _ => True) spin (y ← seq 0 gridSize; x ← seq 0 gridSize; [(x, y)]) (lat, g))
    as (_ & Hd' & Hcells); auto.
  { intros s c _ _ _. split; [exact I|]. destruct (coinFlip s.2) as [b g'].
    exists (if b then 1 else -1)%Z. split; [|reflexivity].
    destruct b; [left|right]; reflexivity. }
  split; [exact Hd'|]. intros x y Hx Hy. apply Hcells; auto.
  apply elem_of_pairs_swap. rewrite !elem_of_seq. lia.
Qed.

Lemma fill_lattice_spins (v : Z) (lat : lattice) :
  spin v -> dims gridSize lat -> all_spins gridSize (fill_lattice gridSize v lat).
Proof.
  intros Hv Hd. unfold fill_lattice.
  rewrite (foldl_nested (fun (lat : lattice) i j => put lat i j v)).
  destruct (foldl_writes gridSize (fun l : lattice => l)
    (fun (lat : lattice) (c : nat * nat) => put lat c.1 c.2 v)
    (fun _ => True) spin (i ← seq 0 gridSize; j ← seq 0 gridSize; [(i, j)]) lat)
    as (_ & Hd' & Hcells); auto.
  { intros s c _ _ _. split; [exact I|]. exists v. auto. }
  split; [exact Hd'|]. intros x y Hx Hy. apply Hcells; auto.
  apply elem_of_pairs. rewrite !elem_of_seq. lia.
Qed.

Lemma metropolis_update_spins (T : JS.number) (st : lattice * rng) (x y : nat) :
  all_spins gridSize st.1 -> all_spins gridSize (metropolis_update gridSize T st x y).1.
Proof.
  destruct st as [lat g]. intros H. rewrite metropolis_update_decision.
  destruct (M_decision _ _ _); [by apply all_spins_flip|exact H].
Qed.

Lemma glauber_update_spins (T : JS.number) (st : lattice * rng) (x y : nat) :
  all_spins gridSize st.1 -> all_spins gridSize (glauber_update gridSize T st x y).1.
Proof.
  destruct st as [lat g]. intros H. rewrite glauber_update_decision.
  destruct (G_decision _ _); [by apply all_spins_flip|exact H].
Qed.

Lemma typewriter_sweep_spins (step : lattice * rng -> nat -> nat -> lattice * rng)
    (st : lattice * rng) :
  (forall st x y, all_spins gridSize st.1 -> all_spins gridSize (step st x y).1) ->
  all_spins gridSize st.1 -> all_spins gridSize (typewriter_sweep gridSize step st).1.
Proof.
  intros Hstep H. unfold typewriter_sweep.
  apply (foldl_preserves _ (fun st => all_spins gridSize st.1)); [exact H|].
  intros y st' H'.
  apply (foldl_preserves _ (fun st => all_spins gridSize st.1)); [exact H'|].
  intros x st'' H''. by apply Hstep.
Qed.

Lemma random_sweep_spins (step : lattice * rng -> nat -> nat -> lattice * rng)
    (st : lattice * rng) :
  (forall st x y, all_spins gridSize st.1 -> all_spins gridSize (step st x y).1) ->
  all_spins gridSize st.1 -> all_spins gridSize (random_sweep gridSize step st).1.
Proof.
  intros Hstep H. unfold random_sweep.
  apply (foldl_preserves _ (fun st => all_spins gridSize st.1)); [exact H|].
  intros _ st' H'.
  destruct (random_index gridSize st'.2) as [x g1].
  destruct (random_index gridSize g1) as [y g2]. by apply Hstep.
Qed.

(** The states Program 1 can reach: the arrays as allocated, the [init()]
    of the page load, and then any sequence of sweeps, resets, console
    calls of [init] and moves of the temperature slider. *)
Inductive reachable1 : MetroVGlauber.world -> Prop :=
  | reach1_load (w : MetroVGlauber.world) :
      dims gridSize (MetroVGlauber.lat w) ->
      reachable1 (MetroVGlauber.init gridSize "scrambled" w)
  | reach1_init (pattern : string) (w : MetroVGlauber.world) :
      reachable1 w -> reachable1 (MetroVGlauber.init gridSize pattern w)
  | reach1_runMetro (w : MetroVGlauber.world) :
      reachable1 w -> reachable1 (MetroVGlauber.runMetro gridSize w)
  | reach1_runGlauber (w : MetroVGlauber.world) :
      reachable1 w -> reachable1 (MetroVGlauber.runGlauber gridSize w)
  | reach1_temperature (T : JS.number) (w : MetroVGlauber.world) :
      reachable1 w -> reachable1 (MetroVGlauber.with_temperature w T).

Lemma init_spins (pattern : string) (w : MetroVGlauber.world) :
  dims gridSize (MetroVGlauber.lat w) ->
  (all_spins gridSize (MetroVGlauber.lat w) \/ pattern = "scrambled") ->
  all_spins gridSize (MetroVGlauber.lat (MetroVGlauber.init gridSize pattern w)).
Proof.
  intros Hd H. unfold MetroVGlauber.init.
  destruct (String.eqb_spec pattern "scrambled") as [->|Hne1].
  { simpl. by apply scramble_ij_spins. }
  destruct H as [H|H]; [|congruence].
  destruct (String.eqb pattern "plus").
  { simpl. apply fill_lattice_spins; [left; reflexivity|exact Hd]. }
  destruct (String.eqb pattern "minus").
  { simpl. apply fill_lattice_spins; [right; reflexivity|exact Hd]. }
  exact H.
Qed.

Lemma reachable1_spins (w : MetroVGlauber.world) :
  reachable1 w -> all_spins gridSize (MetroVGlauber.lat w).
Proof.
  induction 1 as [w Hd|p w _ IH|w _ IH|w _ IH|T w _ IH].
  - apply init_spins; auto.
  - apply init_spins; [apply IH|left; exact IH].
  - unfold MetroVGlauber.runMetro. simpl.
    apply typewriter_sweep_spins; [|exact IH].
    intros. by apply metropolis_update_spins.
  - unfold MetroVGlauber.runGlauber. simpl.
    apply random_sweep_spins; [|exact IH].
    intros. by apply glauber_update_spins.
  - exact IH.
Qed.

End ToroidalReachable.

(* ===================================================================== *)
(** * The haloed lattice of Program 4 *)
(* ===================================================================== *)

Section HaloFacts.

Variable gridSize : nat.
Hypothesis Hsize : 3 <= gridSize.

Local Abbreviation activeSize := (Boundaries.activeSize gridSize).
Local Abbreviation interior := (Boundaries.interior gridSize).
Local Abbreviation genBorderXYs := (Boundaries.genBorderXYs gridSize).

(** The [k]-th cell that [genBorderXYs] yields, in closed form. *)
Definition border_cell (k : nat) : nat * nat :=
  if k <? activeSize then (1 + k, 0)
  else if k <? 2 * activeSize then (gridSize - 1, 1 + (k - activeSize))
  else if k <? 3 * activeSize then (activeSize - (k - 2 * activeSize), gridSize - 1)
  else (0, activeSize - (k - 3 * activeSize)).

(** A border cell that is no corner. *)
Definition on_border (x y : nat) : Prop :=
  (y = 0 /\ 1 <= x <= gridSize - 2) \/
  (x = gridSize - 1 /\ 1 <= y <= gridSize - 2) \/
  (y = gridSize - 1 /\ 1 <= x <= gridSize - 2) \/
  (x = 0 /\ 1 <= y <= gridSize - 2).

Definition corner (x y : nat) : Prop :=
  (x = 0 \/ x = gridSize - 1) /\ (y = 0 \/ y = gridSize - 1).

Lemma interior_iff (x y : nat) :
  interior x y <-> 1 <= x <= gridSize - 2 /\ 1 <= y <= gridSize - 2.
Proof using Type.
  clear Hsize.
  unfold Boundaries.interior, Boundaries.activeLeft, Boundaries.activeRight,
    Boundaries.activeTop, Boundaries.activeBottom, Boundaries.gridLeft,
    Boundaries.gridRight, Boundaries.gridTop, Boundaries.gridBottom,
    Boundaries.gridSide. lia.
Qed.

(** Every cell of the grid is interior, on the border, or a corner. *)
Lemma cell_partition (x y : nat) :
  x < gridSize -> y < gridSize -> interior x y \/ on_border x y \/ corner x y.
Proof using Type. clear Hsize. rewrite interior_iff. unfold on_border, corner. lia. Qed.

Lemma on_border_not_interior (x y : nat) : on_border x y -> ~ interior x y.
Proof using Hsize. rewrite interior_iff. unfold on_border. lia. Qed.

Lemma on_border_in_grid (x y : nat) : on_border x y -> x < gridSize /\ y < gridSize.
Proof using Hsize. unfold on_border. lia. Qed.

Lemma border_next_cell (k : nat) :
  S k < 4 * activeSize ->
  Boundaries.border_next gridSize (S k) (border_cell k) = border_cell (S k).
Proof using Hsize.
  intros Hk. unfold Boundaries.border_next, border_cell,
    Boundaries.gridRight, Boundaries.gridBottom, Boundaries.gridLeft, Boundaries.gridSide.
  assert (Ha : activeSize = gridSize - 2) by reflexivity.
  repeat
    match goal with
    | |- context [?a <? ?b] => destruct (Nat.ltb_spec a b)
    end; try lia; f_equal; lia.
Qed.

Lemma border_loop_cells (turns k : nat) :
  k + turns <= 4 * activeSize ->
  Boundaries.border_loop gridSize turns k (border_cell k) = map border_cell (seq k turns).
Proof using Hsize.
  revert k. induction turns as [|turns IH]; intros k Hk; [reflexivity|].
  simpl. f_equal. destruct turns as [|turns']; [reflexivity|].
  rewrite border_next_cell by lia. apply IH. lia.
Qed.

Lemma genBorderXYs_cells : genBorderXYs = map border_cell (seq 0 (4 * activeSize)).
Proof using Hsize.
  unfold Boundaries.genBorderXYs.
  assert (H0 : border_cell 0 = (Boundaries.activeLeft, Boundaries.gridTop)).
  { unfold border_cell. assert (Ha : activeSize = gridSize - 2) by reflexivity.
    destruct (Nat.ltb_spec 0 activeSize); [reflexivity|lia]. }
  rewrite <- H0. apply border_loop_cells. lia.
Qed.

(** [genBorderXYs] yields exactly the border cells that are no corners. *)
Lemma elem_of_genBorderXYs (x y : nat) : (x, y) ∈ genBorderXYs <-> on_border x y.
Proof using Hsize.
  rewrite genBorderXYs_cells, list_elem_of_fmap.
  assert (Ha : activeSize = gridSize - 2) by reflexivity.
  unfold on_border. split.
  - intros (k & Hk & Hin). apply elem_of_seq in Hin. unfold border_cell in Hk.
    repeat
      match type of Hk with
      | context [?a <? ?b] => destruct (Nat.ltb_spec a b)
      end; injection Hk as -> ->; lia.
  - intros [[-> Hx]|[[-> Hy]|[[-> Hx]|[-> Hy]]]].
    + exists (x - 1). rewrite elem_of_seq. split; [|lia]. unfold border_cell.
      destruct (Nat.ltb_spec (x - 1) activeSize); [f_equal; lia|lia].
    + exists (activeSize + (y - 1)). rewrite elem_of_seq. split; [|lia].
      unfold border_cell.
      destruct (Nat.ltb_spec (activeSize + (y - 1)) activeSize); [lia|].
      destruct (Nat.ltb_spec (activeSize + (y - 1)) (2 * activeSize)); [f_equal; lia|lia].
    + exists (2 * activeSize + (activeSize - x)). rewrite elem_of_seq. split; [|lia].
      unfold border_cell.
      destruct (Nat.ltb_spec (2 * activeSize + (activeSize - x)) activeSize); [lia|].
      destruct (Nat.ltb_spec (2 * activeSize + (activeSize - x)) (2 * activeSize)); [lia|].
      destruct (Nat.ltb_spec (2 * activeSize + (activeSize - x)) (3 * activeSize));
        [f_equal; lia|lia].
    + exists (3 * activeSize + (activeSize - y)). rewrite elem_of_seq. split; [|lia].
      unfold border_cell.
      destruct (Nat.ltb_spec (3 * activeSize + (activeSize - y)) activeSize); [lia|].
      destruct (Nat.ltb_spec (3 * activeSize + (activeSize - y)) (2 * activeSize)); [lia|].
      destruct (Nat.ltb_spec (3 * activeSize + (activeSize - y)) (3 * activeSize)); [lia|].
      f_equal; lia.
Qed.

End HaloFacts.

Lemma foldl_preserves_mem {A B : Type} (f : A -> B -> A) (P : A -> Prop)
    (l : list B) (a : A) :
  P a -> (forall b a', b ∈ l -> P a' -> P (f a' b)) -> P (foldl f a l).
Proof.
  intros H0 Hstep. apply (foldl_invariant_mem f (fun _ => P)); auto.
Qed.

Lemma trit_neg (v : Z) : trit v -> trit (v * -1).
Proof. unfold trit. lia. Qed.

Section HaloStates.

Variable gridSize : nat.
Hypothesis Hsize : 3 <= gridSize.

Local Abbreviation activeSize := (Boundaries.activeSize gridSize).
Local Abbreviation interior := (Boundaries.interior gridSize).
Local Abbreviation genBorderXYs := (Boundaries.genBorderXYs gridSize).
Local Abbreviation on_border := (on_border gridSize).

Definition interior_spins (lat : lattice) : Prop :=
  forall x y, interior x y -> spin (get lat x y).

(** The state of a haloed lattice in use: interior cells hold spins,
    border and corner cells hold -1, 0 or +1. *)
Definition halo_ok (lat : lattice) : Prop :=
  dims gridSize lat /\ interior_spins lat /\
  forall x y, x < gridSize -> y < gridSize -> trit (get lat x y).

Lemma interior_in_grid (x y : nat) : interior x y -> x < gridSize /\ y < gridSize.
Proof using Hsize. rewrite interior_iff. lia. Qed.

Lemma interior_spins_put (lat : lattice) (x y : nat) (v : Z) :
  interior_spins lat -> (interior x y -> spin v) -> interior_spins (put lat x y v).
Proof.
  intros H Hv x' y' Hi. rewrite get_put. case_decide as Hc; [|auto].
  destruct Hc as (-> & _ & -> & _). auto.
Qed.

Lemma halo_ok_put (lat : lattice) (x y : nat) (v : Z) :
  halo_ok lat -> (interior x y -> spin v) -> (x < gridSize -> y < gridSize -> trit v) ->
  halo_ok (put lat x y v).
Proof.
  intros (Hd & Hi & Ht) Hs Hv. split; [by apply dims_put|].
  split; [by apply interior_spins_put|].
  intros x' y' Hx Hy. rewrite get_put. case_decide as Hc; [|auto].
  destruct Hc as (-> & _ & -> & _). auto.
Qed.

Lemma halo_ok_flip (lat : lattice) (x y : nat) : halo_ok lat -> halo_ok (flip lat x y).
Proof.
  intros H. pose proof H as (Hd & Hi & Ht). apply halo_ok_put; [exact H| |].
  - intros Hin. apply spin_neg, Hi, Hin.
  - intros Hx Hy. apply trit_neg, Ht; assumption.
Qed.

(** A loop over [genBorderXYs] that writes -1, 0 or +1 into each cell. *)
Lemma border_loop_spec {St : Type} (latof : St -> lattice)
    (step : St -> nat * nat -> St) (s : St) :
  (forall s c, on_border c.1 c.2 -> interior_spins (latof s) -> dims gridSize (latof s) ->
     exists v, trit v /\ latof (step s c) = put (latof s) c.1 c.2 v) ->
  interior_spins (latof s) -> dims gridSize (latof s) ->
  let s' := foldl step s genBorderXYs in
  dims gridSize (latof s') /\ interior_spins (latof s') /\
  (forall x y, on_border x y -> trit (get (latof s') x y)) /\
  (forall x y, x < gridSize -> y < gridSize -> ~ on_border x y ->
     get (latof s') x y = get (latof s) x y).
Proof.
  intros Hstep Hi Hd.
  destruct (foldl_writes gridSize latof step (fun s => interior_spins (latof s)) trit
              genBorderXYs s) as (Hi' & Hd' & Hcells); auto.
  { intros s0 [cx cy] Hc Hi0 Hd0. apply elem_of_genBorderXYs in Hc; [|exact Hsize].
    destruct (Hstep s0 (cx, cy) Hc Hi0 Hd0) as (v & Hv & Heq).
    split; [|eauto]. rewrite Heq. apply interior_spins_put; [exact Hi0|].
    intros Hin. exfalso. revert Hin. by apply on_border_not_interior. }
  split; [exact Hd'|]. split; [exact Hi'|]. split.
  - intros x y Hb. destruct (on_border_in_grid gridSize Hsize x y Hb) as [Hx Hy].
    apply Hcells; auto. by apply elem_of_genBorderXYs.
  - intros x y Hx Hy Hb. apply Hcells; auto.
    intros Hin. apply Hb. by apply elem_of_genBorderXYs in Hin.
Qed.

(** What a border constructor does to the lattice. *)
Definition border_spec (make : lattice * rng -> lattice * rng) : Prop :=
  forall st : lattice * rng,
    interior_spins st.1 -> dims gridSize st.1 ->
    dims gridSize (make st).1 /\ interior_spins (make st).1 /\
    (forall x y, on_border x y -> trit (get (make st).1 x y)) /\
    (forall x y, x < gridSize -> y < gridSize -> ~ on_border x y ->
       get (make st).1 x y = get st.1 x y).

Lemma constant_border_spec (v : Z) :
  trit v ->
  border_spec (fun st =>
    (foldl (fun lat (xy : nat * nat) => put lat xy.1 xy.2 v) st.1 genBorderXYs, st.2)).
Proof.
  intros Hv st Hi Hd. simpl.
  apply (border_loop_spec (fun l : lattice => l)
           (fun lat (xy : nat * nat) => put lat xy.1 xy.2 v)); auto.
  intros s c _ _ _. exists v. auto.
Qed.

Lemma makeRandomBorder_spec : border_spec (Boundaries.makeRandomBorder gridSize).
Proof.
  intros st Hi Hd. unfold Boundaries.makeRandomBorder.
  apply (border_loop_spec fst); auto.
  intros s c _ _ _. destruct (coinFlip s.2) as [b g'].
  exists (if b then 1 else -1)%Z. split; [|reflexivity].
  unfold trit. destruct b; lia.
Qed.

Lemma random_active_interior (g1 : rng) :
  let (x, g2) := Boundaries.random_active gridSize g1 in
  let (y, g3) := Boundaries.random_active gridSize g2 in
  interior x y.
Proof.
  unfold Boundaries.random_active.
  assert (Ha : 0 < activeSize) by (unfold Boundaries.activeSize; lia).
  pose proof (random_index_lt activeSize g1 Ha) as H1.
  destruct (random_index activeSize g1) as [k1 g2].
  pose proof (random_index_lt activeSize g2 Ha) as H2.
  destruct (random_index activeSize g2) as [k2 g3].
  simpl in *. apply interior_iff. unfold Boundaries.activeSize in *. lia.
Qed.

Lemma makeSampledBorder_spec : border_spec (Boundaries.makeSampledBorder gridSize).
Proof.
  intros st Hi Hd. unfold Boundaries.makeSampledBorder.
  apply (border_loop_spec fst); auto.
  intros s c _ Hi' _. pose proof (random_active_interior s.2) as Hin.
  destruct (Boundaries.random_active gridSize s.2) as [xS g1].
  destruct (Boundaries.random_active gridSize g1) as [yS g2].
  exists (get s.1 xS yS). split; [|reflexivity]. apply spin_trit, Hi', Hin.
Qed.

Lemma makeUnderdogBorder_spec : border_spec (Boundaries.makeUnderdogBorder gridSize).
Proof.
  intros st Hi Hd. unfold Boundaries.makeUnderdogBorder.
  apply (border_loop_spec fst); auto.
  intros s c _ Hi' _. pose proof (random_active_interior s.2) as Hin.
  destruct (Boundaries.random_active gridSize s.2) as [xS g1].
  destruct (Boundaries.random_active gridSize g1) as [yS g2].
  exists (- get s.1 xS yS)%Z. split; [|reflexivity].
  specialize (Hi' xS yS Hin). unfold spin, trit in *. lia.
Qed.

(** On a border cell exactly one of the four tests of the wraparound and
    twisted constructors holds, and it copies an interior cell. *)
Lemma wraparound_cell_copies (lat : lattice) (x y : nat) :
  on_border x y ->
  exists x' y', interior x' y' /\
    Boundaries.wraparound_cell gridSize lat (x, y) = put lat x y (get lat x' y').
Proof.
  intros Hb. unfold Boundaries.wraparound_cell, Boundaries.gridTop, Boundaries.gridLeft,
    Boundaries.gridRight, Boundaries.gridBottom, Boundaries.gridSide,
    Boundaries.activeTop, Boundaries.activeLeft, Boundaries.activeRight,
    Boundaries.activeBottom, Boundaries.gridTop, Boundaries.gridLeft,
    Boundaries.gridRight, Boundaries.gridBottom, Boundaries.gridSide.
  destruct Hb as [[-> Hx]|[[-> Hy]|[[-> Hx]|[-> Hy]]]];
    repeat
      match goal with
      | |- context [?a =? ?b] => destruct (Nat.eqb_spec a b); try lia
      end;
    eexists _, _; (split; [|reflexivity]); apply interior_iff; lia.
Qed.

Lemma twisted_cell_copies (lat : lattice) (x y : nat) :
  on_border x y ->
  exists x' y', interior x' y' /\
    Boundaries.twisted_cell gridSize lat (x, y) = put lat x y (get lat x' y').
Proof.
  intros Hb. unfold Boundaries.twisted_cell, Boundaries.gridTop, Boundaries.gridLeft,
    Boundaries.gridRight, Boundaries.gridBottom, Boundaries.gridSide,
    Boundaries.activeTop, Boundaries.activeLeft, Boundaries.activeRight,
    Boundaries.activeBottom, Boundaries.gridTop, Boundaries.gridLeft,
    Boundaries.gridRight, Boundaries.gridBottom, Boundaries.gridSide.
  destruct Hb as [[-> Hx]|[[-> Hy]|[[-> Hx]|[-> Hy]]]];
    repeat
      match goal with
      | |- context [?a =? ?b] => destruct (Nat.eqb_spec a b); try lia
      end;
    eexists _, _; (split; [|reflexivity]); apply interior_iff; lia.
Qed.

Lemma makeWraparoundBorder_spec : border_spec (Boundaries.makeWraparoundBorder gridSize).
Proof.
  intros st Hi Hd. unfold Boundaries.makeWraparoundBorder. simpl.
  apply (border_loop_spec (fun l : lattice => l)); auto.
  intros s [x y] Hb Hi' _.
  destruct (wraparound_cell_copies s x y Hb) as (x' & y' & Hin & Heq).
  exists (get s x' y'). split; [apply spin_trit, Hi', Hin|exact Heq].
Qed.

Lemma makeTwistedBorder_spec : border_spec (Boundaries.makeTwistedBorder gridSize).
Proof.
  intros st Hi Hd. unfold Boundaries.makeTwistedBorder. simpl.
  apply (border_loop_spec (fun l : lattice => l)); auto.
  intros s [x y] Hb Hi' _.
  destruct (twisted_cell_copies s x y Hb) as (x' & y' & Hin & Heq).
  exists (get s x' y'). split; [apply spin_trit, Hi', Hin|exact Heq].
Qed.

Lemma boundaryList_spec (rule : string) (make : lattice * rng -> lattice * rng) :
  Boundaries.boundaryList gridSize rule = Some make -> border_spec make.
Proof.
  unfold Boundaries.boundaryList.
  repeat
    match goal with
    | |- context [String.eqb ?a ?b] => destruct (String.eqb a b)
    end; intros H; try discriminate; injection H as <-.
  - apply makeWraparoundBorder_spec.
  - apply makeUnderdogBorder_spec.
  - apply makeTwistedBorder_spec.
  - apply (constant_border_spec 1). unfold trit; lia.
  - apply (constant_border_spec (-1)). unfold trit; lia.
  - apply makeRandomBorder_spec.
  - apply (constant_border_spec 0). unfold trit; lia.
  - apply makeSampledBorder_spec.
Qed.

Lemma border_spec_halo_ok (make : lattice * rng -> lattice * rng) (st : lattice * rng) :
  border_spec make -> halo_ok st.1 -> halo_ok (make st).1.
Proof.
  intros Hm (Hd & Hi & Ht). destruct (Hm st Hi Hd) as (Hd' & Hi' & Hb & Hrest).
  split; [exact Hd'|]. split; [exact Hi'|]. intros x y Hx Hy.
  destruct (decide (on_border x y)) as [Hon|Hoff]; [by apply Hb|].
  rewrite Hrest by assumption. by apply Ht.
Qed.

End HaloStates.

Section HaloReachable.

Variable gridSize : nat.
Hypothesis Hsize : 3 <= gridSize.

Local Abbreviation interior := (Boundaries.interior gridSize).
Local Abbreviation halo_ok := (halo_ok gridSize).
Local Abbreviation interior_spins := (interior_spins gridSize).

Lemma elem_of_active_range (v : nat) :
  v ∈ Boundaries.active_range gridSize <-> 1 <= v <= gridSize - 2.
Proof using Hsize.
  unfold Boundaries.active_range, Boundaries.activeTop, Boundaries.gridTop,
    Boundaries.activeSize. rewrite elem_of_seq. lia.
Qed.

(** The interior loop of [init] puts a spin into every interior cell and
    touches no other cell. *)
Lemma scramble_interior_spec (st : lattice * rng) :
  dims gridSize st.1 ->
  let lat' := (Boundaries.scramble_interior gridSize st).1 in
  dims gridSize lat' /\ interior_spins lat' /\
  forall x y, x < gridSize -> y < gridSize -> ~ interior x y -> get lat' x y = get st.1 x y.
Proof using Hsize.
  intros Hd. unfold Boundaries.scramble_interior.
  rewrite (foldl_nested_yx
    (fun (st : lattice * rng) x y =>
       let (b, g) := coinFlip st.2 in (put st.1 x y (if b then 1 else -1)%Z, g))).
  destruct (foldl_writes gridSize fst
    (fun (st : lattice * rng) (c : nat * nat) =>
       let (b, g) := coinFlip st.2 in (put st.1 c.1 c.2 (if b then 1 else -1)%Z, g))
    (fun _ => True) spin
    (y ← Boundaries.active_range gridSize; x ← Boundaries.active_range gridSize; [(x, y)])
    st) as (_ & Hd' & Hcells); auto.
  { intros s c _ _ _. split; [exact I|]. destruct (coinFlip s.2) as [b g'].
    exists (if b then 1 else -1)%Z. split; [|reflexivity].
    destruct b; [left|right]; reflexivity. }
  split; [exact Hd'|]. split.
  - intros x y Hin. destruct (interior_in_grid gridSize Hsize x y Hin) as [Hx Hy].
    apply Hcells; auto. apply elem_of_pairs_swap. rewrite !elem_of_active_range.
    apply interior_iff in Hin. lia.
  - intros x y Hx Hy Hout. apply Hcells; auto. intros Hin. apply Hout.
    apply elem_of_pairs_swap in Hin. rewrite !elem_of_active_range in Hin.
    apply interior_iff. lia.
Qed.

Lemma scramble_interior_halo_ok (st : lattice * rng) :
  halo_ok st.1 -> halo_ok (Boundaries.scramble_interior gridSize st).1.
Proof using Hsize.
  intros (Hd & Hi & Ht).
  destruct (scramble_interior_spec st Hd) as (Hd' & Hi' & Hrest).
  split; [exact Hd'|]. split; [exact Hi'|]. intros x y Hx Hy.
  destruct (decide (interior x y)) as [Hin|Hout].
  - apply spin_trit, Hi', Hin.
  - rewrite Hrest by assumption. by apply Ht.
Qed.

(** [makeZeroCorners] writes 0 into the four corners. *)
Lemma makeZeroCorners_spec (lat : lattice) :
  dims gridSize lat ->
  let lat' := Boundaries.makeZeroCorners gridSize lat in
  dims gridSize lat' /\
  forall x y, x < gridSize -> y < gridSize ->
    (corner gridSize x y -> get lat' x y = 0%Z) /\
    (~ corner gridSize x y -> get lat' x y = get lat x y).
Proof using Hsize.
  intros Hd. unfold Boundaries.makeZeroCorners.
  rewrite (foldl_nested (fun (lat : lattice) x y => put lat x y 0)).
  destruct (foldl_writes gridSize (fun l : lattice => l)
    (fun (lat : lattice) (c : nat * nat) => put lat c.1 c.2 0)
    (fun _ => True) (fun v => v = 0%Z)
    (x ← [Boundaries.gridLeft; Boundaries.gridRight gridSize];
     y ← [Boundaries.gridTop; Boundaries.gridBottom gridSize]; [(x, y)])
    lat) as (_ & Hd' & Hcells); auto.
  { intros s c _ _ _. split; [exact I|]. exists 0%Z. auto. }
  split; [exact Hd'|]. intros x y Hx Hy.
  assert (Hc : (x, y) ∈ (x ← [Boundaries.gridLeft; Boundaries.gridRight gridSize];
                         y ← [Boundaries.gridTop; Boundaries.gridBottom gridSize]; [(x, y)])
               <-> corner gridSize x y).
  { rewrite elem_of_pairs. unfold corner, Boundaries.gridLeft, Boundaries.gridRight,
      Boundaries.gridTop, Boundaries.gridBottom, Boundaries.gridSide.
    rewrite !elem_of_cons, !elem_of_nil. tauto. }
  split; intros H; apply Hcells; auto; by rewrite Hc.
Qed.

Lemma corner_not_interior (x y : nat) : corner gridSize x y -> ~ interior x y.
Proof using Hsize. rewrite interior_iff. unfold corner. lia. Qed.

Lemma makeZeroCorners_halo_ok (lat : lattice) :
  halo_ok lat -> halo_ok (Boundaries.makeZeroCorners gridSize lat).
Proof using Hsize.
  intros (Hd & Hi & Ht). destruct (makeZeroCorners_spec lat Hd) as (Hd' & Hcells).
  split; [exact Hd'|]. split.
  - intros x y Hin. destruct (interior_in_grid gridSize Hsize x y Hin) as [Hx Hy].
    destruct (Hcells x y Hx Hy) as [_ Hn]. rewrite Hn; [by apply Hi|].
    intros Hc. revert Hin. by apply corner_not_interior.
  - intros x y Hx Hy. destruct (Hcells x y Hx Hy) as [Hz Hn].
    destruct (decide (corner gridSize x y)) as [Hc|Hc].
    + rewrite Hz by exact Hc. unfold trit; lia.
    + rewrite Hn by exact Hc. by apply Ht.
Qed.

(** The first [init()], on the arrays as allocated, with a boundary rule
    of the list: afterwards the lattice is in order. *)
Lemma init_establishes (w : Boundaries.world) :
  dims gridSize (Boundaries.lat w) ->
  is_Some (Boundaries.boundaryList gridSize (Boundaries.boundaryRule w)) ->
  halo_ok (Boundaries.lat (Boundaries.init gridSize w).1).
Proof using Hsize.
  intros Hd [make Hmake]. unfold Boundaries.init, Boundaries.build_border.
  simpl. rewrite Hmake. simpl.
  destruct (scramble_interior_spec (Boundaries.lat w, Boundaries.rand w) Hd)
    as (Hd1 & Hi1 & _).
  destruct (Boundaries.scramble_interior gridSize (Boundaries.lat w, Boundaries.rand w))
    as [l1 g1]. simpl in *.
  destruct (boundaryList_spec gridSize Hsize _ _ Hmake (l1, g1) Hi1 Hd1)
    as (Hd2 & Hi2 & Hb2 & _).
  destruct (makeZeroCorners_spec (make (l1, g1)).1 Hd2) as (Hd3 & Hcells).
  split; [exact Hd3|]. split.
  - intros x y Hin. destruct (interior_in_grid gridSize Hsize x y Hin) as [Hx Hy].
    destruct (Hcells x y Hx Hy) as [_ Hn]. rewrite Hn; [by apply Hi2|].
    intros Hc. revert Hin. by apply corner_not_interior.
  - intros x y Hx Hy. destruct (Hcells x y Hx Hy) as [Hz Hn].
    destruct (decide (corner gridSize x y)) as [Hc|Hc].
    { rewrite Hz by exact Hc. unfold trit; lia. }
    rewrite Hn by exact Hc.
    destruct (cell_partition gridSize x y Hx Hy) as [Hin|[Hon|Hco]].
    + apply spin_trit, Hi2, Hin.
    + by apply Hb2.
    + contradiction.
Qed.

Lemma build_border_halo_ok (rule : string) (w : Boundaries.world) :
  halo_ok (Boundaries.lat w) ->
  halo_ok (Boundaries.lat (Boundaries.build_border gridSize rule w).1).
Proof using Hsize.
  intros H. unfold Boundaries.build_border.
  destruct (Boundaries.boundaryList gridSize rule) as [make|] eqn:Hmake; [|exact H].
  simpl. apply (border_spec_halo_ok gridSize make (Boundaries.lat w, Boundaries.rand w));
    [|exact H]. by eapply boundaryList_spec.
Qed.

Lemma init_halo_ok (w : Boundaries.world) :
  halo_ok (Boundaries.lat w) -> halo_ok (Boundaries.lat (Boundaries.init gridSize w).1).
Proof using Hsize.
  intros H. unfold Boundaries.init.
  set (w1 := Boundaries.with_lat_rand w _).
  assert (H1 : halo_ok (Boundaries.lat w1)).
  { apply (scramble_interior_halo_ok (Boundaries.lat w, Boundaries.rand w)), H. }
  pose proof (build_border_halo_ok (Boundaries.boundaryRule w1) w1 H1) as H2.
  destruct (Boundaries.build_border gridSize (Boundaries.boundaryRule w1) w1) as [w2 [[]|e]];
    simpl in *; [|exact H2].
  by apply makeZeroCorners_halo_ok.
Qed.

Lemma updateBorderMacrostep_halo_ok (rule : string) (st : lattice * rng) :
  halo_ok st.1 -> halo_ok (Boundaries.updateBorderMacrostep gridSize rule st).1.
Proof using Hsize.
  intros H. unfold Boundaries.updateBorderMacrostep.
  destruct (String.eqb rule "sampled");
    [apply border_spec_halo_ok; [by apply makeSampledBorder_spec|exact H]|].
  destruct (String.eqb rule "underdog");
    [apply border_spec_halo_ok; [by apply makeUnderdogBorder_spec|exact H]|].
  destruct (String.eqb rule "random");
    [apply border_spec_halo_ok; [by apply makeRandomBorder_spec|exact H]|].
  exact H.
Qed.

(** After a flip of an interior cell the incremental border update keeps
    the lattice in order. *)
Lemma updateBorderMicrostep_halo_ok (rule : string) (lat : lattice) (x y : nat) :
  interior x y -> halo_ok lat ->
  halo_ok (Boundaries.updateBorderMicrostep gridSize rule lat x y).
Proof using Hsize.
  intros Hin H. pose proof H as (Hd & Hi & Ht).
  destruct (interior_in_grid gridSize Hsize x y Hin) as [Hx Hy].
  apply interior_iff in Hin.
  assert (Hv : trit (get lat x y)) by (by apply Ht).
  unfold Boundaries.updateBorderMicrostep, Boundaries.gridTop, Boundaries.gridLeft,
    Boundaries.gridRight, Boundaries.gridBottom, Boundaries.gridSide,
    Boundaries.activeTop, Boundaries.activeLeft, Boundaries.activeRight,
    Boundaries.activeBottom, Boundaries.gridTop, Boundaries.gridLeft,
    Boundaries.gridRight, Boundaries.gridBottom, Boundaries.gridSide.
  destruct (String.eqb rule "wraparound"); [|destruct (String.eqb rule "twisted")];
    repeat
      match goal with
      | |- context [?a =? ?b] => destruct (Nat.eqb_spec a b)
      end; try exact H;
    (apply halo_ok_put; [exact H| |auto]);
    rewrite interior_iff; lia.
Qed.

Lemma commit_flip_halo_ok (rule : string) (lat : lattice) (x y : nat) :
  interior x y -> halo_ok lat -> halo_ok (Boundaries.commit_flip gridSize rule lat x y).
Proof using Hsize.
  intros Hin H. unfold Boundaries.commit_flip.
  apply updateBorderMicrostep_halo_ok; [exact Hin|]. by apply halo_ok_flip.
Qed.

Lemma metro_microstep_halo_ok (rule : string) (T : JS.number) (st : lattice * rng)
    (x y : nat) :
  interior x y -> halo_ok st.1 ->
  halo_ok (Boundaries.metro_microstep gridSize rule T st x y).1.
Proof using Hsize.
  destruct st as [lat g]. intros Hin H. unfold Boundaries.metro_microstep, Math_random.
  destruct (Boundaries.calcDeltaE lat x y <=? 0)%Z; [by apply commit_flip_halo_ok|].
  case_lt; [by apply commit_flip_halo_ok|exact H].
Qed.

Lemma glauber_microstep_halo_ok (rule : string) (T : JS.number) (st : lattice * rng)
    (x y : nat) :
  interior x y -> halo_ok st.1 ->
  halo_ok (Boundaries.glauber_microstep gridSize rule T st x y).1.
Proof using Hsize.
  destruct st as [lat g]. intros Hin H. unfold Boundaries.glauber_microstep, Math_random.
  case_lt; [by apply commit_flip_halo_ok|exact H].
Qed.

Lemma runMetro_halo_ok (w : Boundaries.world) :
  halo_ok (Boundaries.lat w) -> halo_ok (Boundaries.lat (Boundaries.runMetro gridSize w)).
Proof using Hsize.
  intros H. unfold Boundaries.runMetro, Boundaries.with_lat_rand.
  cbn [Boundaries.lat]. apply updateBorderMacrostep_halo_ok.
  apply (foldl_preserves_mem _ (fun st : lattice * rng => halo_ok st.1)); [exact H|].
  intros y st Hy Hst.
  apply (foldl_preserves_mem _ (fun st : lattice * rng => halo_ok st.1)); [exact Hst|].
  intros x st' Hx Hst'. apply metro_microstep_halo_ok; [|exact Hst'].
  apply elem_of_active_range in Hx, Hy. apply interior_iff. lia.
Qed.

Lemma runGlauber_halo_ok (w : Boundaries.world) :
  halo_ok (Boundaries.lat w) -> halo_ok (Boundaries.lat (Boundaries.runGlauber gridSize w)).
Proof using Hsize.
  intros H. unfold Boundaries.runGlauber, Boundaries.with_lat_rand.
  cbn [Boundaries.lat]. apply updateBorderMacrostep_halo_ok.
  apply (foldl_preserves _ (fun st : lattice * rng => halo_ok st.1)); [exact H|].
  intros _ st Hst. pose proof (random_active_interior gridSize Hsize st.2) as Hin.
  destruct (Boundaries.random_active gridSize st.2) as [x g1].
  destruct (Boundaries.random_active gridSize g1) as [y g2].
  by apply glauber_microstep_halo_ok.
Qed.

(** The states Program 4 can reach: the arrays as allocated and the
    [init()] of the page load under the initial rule 'wraparound', then
    any sequence of sweeps, resets, boundary choices and temperature
    changes. *)
Inductive reachable4 : Boundaries.world -> Prop :=
  | reach4_load (w : Boundaries.world) :
      dims gridSize (Boundaries.lat w) ->
      Boundaries.boundaryRule w = "wraparound" ->
      reachable4 (Boundaries.init gridSize w).1
  | reach4_init (w : Boundaries.world) :
      reachable4 w -> reachable4 (Boundaries.init gridSize w).1
  | reach4_runMetro (w : Boundaries.world) :
      reachable4 w -> reachable4 (Boundaries.runMetro gridSize w)
  | reach4_runGlauber (w : Boundaries.world) :
      reachable4 w -> reachable4 (Boundaries.runGlauber gridSize w)
  | reach4_chooseBoundary (rule : string) (w : Boundaries.world) :
      reachable4 w -> reachable4 (Boundaries.chooseBoundary gridSize rule w).1
  | reach4_temperature (T : JS.number) (w : Boundaries.world) :
      reachable4 w -> reachable4 (Boundaries.with_temperature w T).

Lemma reachable4_halo_ok (w : Boundaries.world) :
  reachable4 w -> halo_ok (Boundaries.lat w).
Proof using Hsize.
  induction 1 as [w Hd Hr|w _ IH|w _ IH|w _ IH|rule w _ IH|T w _ IH].
  - apply init_establishes; [exact Hd|]. rewrite Hr. eexists. reflexivity.
  - by apply init_halo_ok.
  - by apply runMetro_halo_ok.
  - by apply runGlauber_halo_ok.
  - unfold Boundaries.chooseBoundary. by apply build_border_halo_ok.
  - exact IH.
Qed.

End HaloReachable.

Section DeltaEValues.

Variable gridSize : nat.
Hypothesis Hsize : 3 <= gridSize.

Local Abbreviation interior := (Boundaries.interior gridSize).







End DeltaEValues.

(** The page of Program 4 as loaded, with an arbitrary content of the
    arrays, temperature 1 and the random source [rng_zero]. *)
Definition boundaries_start : Boundaries.world :=
  Boundaries.mk_world (all_up 102) (JS.Fin 1) "wraparound" "metropolis" rng_zero.

Lemma dims_all_up (side : nat) : dims side (all_up side).
Proof.
  unfold dims, all_up. rewrite length_replicate. split; [reflexivity|].
  apply Forall_replicate, length_replicate.
Qed.



(* ===================================================================== *)
(** * C2: the wraparound halo after a committed flip *)
(* ===================================================================== *)

Section WraparoundHalo.

Variable gridSize : nat.
Hypothesis Hsize : 3 <= gridSize.

Local Abbreviation gridRight := (Boundaries.gridRight gridSize).
Local Abbreviation gridBottom := (Boundaries.gridBottom gridSize).
Local Abbreviation activeRight := (Boundaries.activeRight gridSize).
Local Abbreviation activeBottom := (Boundaries.activeBottom gridSize).
Local Abbreviation gridLeft := (Boundaries.gridLeft).
Local Abbreviation gridTop := (Boundaries.gridTop).
Local Abbreviation activeLeft := (Boundaries.activeLeft).
Local Abbreviation activeTop := (Boundaries.activeTop).

(** Every halo cell equals the interior cell it mirrors under the
    wraparound rule, as [makeWraparoundBorder] sets them: the right halo
    column mirrors the leftmost interior column, and so on. *)
Definition wraparound_mirrors (lat : lattice) : Prop :=
  forall v, activeLeft <= v <= activeRight ->
    get lat gridRight v = get lat activeLeft v /\
    get lat gridLeft v = get lat activeRight v /\
    get lat v gridBottom = get lat v activeTop /\
    get lat v gridTop = get lat v activeBottom.

(** An interior cell in a corner of the interior: it lies on two edges. *)
Definition interior_corner (x y : nat) : Prop :=
  (x = activeLeft \/ x = activeRight) /\ (y = activeTop \/ y = activeBottom).

Ltac halo_constants :=
  unfold Boundaries.gridTop, Boundaries.gridLeft,
    Boundaries.gridRight, Boundaries.gridBottom, Boundaries.gridSide,
    Boundaries.activeTop, Boundaries.activeLeft, Boundaries.activeRight,
    Boundaries.activeBottom, Boundaries.gridTop, Boundaries.gridLeft,
    Boundaries.gridRight, Boundaries.gridBottom, Boundaries.gridSide in *.

(** [makeWraparoundBorder] establishes the mirror relation. *)
Lemma wraparound_cell_value (lat : lattice) (x y : nat) :
  on_border gridSize x y ->
  Boundaries.wraparound_cell gridSize lat (x, y) =
    put lat x y
      (if y =? gridTop then get lat x activeBottom
       else if x =? gridRight then get lat activeLeft y
       else if y =? gridBottom then get lat x activeTop
       else get lat activeRight y).
Proof using Hsize.
  intros Hb. unfold Boundaries.wraparound_cell. halo_constants.
  destruct Hb as [[-> Hx]|[[-> Hy]|[[-> Hx]|[-> Hy]]]];
    repeat
      match goal with
      | |- context [?a =? ?b] => destruct (Nat.eqb_spec a b); try lia
      end; reflexivity.
Qed.

(** Away from the interior corners a committed flip keeps every halo cell
    equal to the interior cell it mirrors. *)
Lemma commit_flip_keeps_mirrors (lat : lattice) (x y : nat) :
  dims gridSize lat -> Boundaries.interior gridSize x y -> ~ interior_corner x y ->
  wraparound_mirrors lat ->
  wraparound_mirrors (Boundaries.commit_flip gridSize "wraparound" lat x y).
Proof using Hsize.
  intros Hd Hin Hnc Hm. apply interior_iff in Hin.
  unfold interior_corner in Hnc.
  unfold Boundaries.commit_flip, Boundaries.updateBorderMicrostep.
  change (String.eqb "wraparound" "wraparound") with true. cbv iota.
  assert (Hflip : forall a b, get (flip lat x y) a b =
                    if decide ((a, b) = (x, y)) then (- get lat x y)%Z else get lat a b).
  { intros a b. case_decide as E.
    - injection E as -> ->. apply (get_flip_same gridSize); auto; lia.
    - apply get_flip_other. congruence. }
  assert (Hdf : dims gridSize (flip lat x y)) by (by apply dims_flip).
  assert (Hlen : forall a, a < gridSize -> length (flip lat x y !!! a) = gridSize).
  { intros a Ha. by apply (dims_lookup gridSize). }
  pose proof (proj1 Hdf) as Hlen0.
  intros v Hv. specialize (Hm v Hv). destruct Hm as (M1 & M2 & M3 & M4).
  halo_constants.
  repeat
    match goal with
    | |- context [?a =? ?b] => destruct (Nat.eqb_spec a b)
    end;
  rewrite ?get_put, ?Hflip, ?Hlen0;
  repeat split;
  repeat
    match goal with
    | |- context [length (flip lat x y !!! ?a)] => rewrite (Hlen a) by lia
    end;
  repeat case_decide; try congruence; try lia;
  try (exfalso;
       match goal with
       | H : (_, _) <> (_, _) |- _ => apply H; f_equal; lia
       end);
  try (exfalso;
       match goal with
       | H : ~ (_ /\ _ /\ _ /\ _) |- _ => apply H; repeat split; lia
       end);
  try (exfalso;
       match goal with
       | H : (_, _) = (_, _) |- _ => injection H as ? ?; lia
       end).
Qed.

End WraparoundHalo.

Section WraparoundBug.

Variable gridSize : nat.
Hypothesis Hsize : 3 <= gridSize.

Local Abbreviation gridRight := (Boundaries.gridRight gridSize).
Local Abbreviation gridBottom := (Boundaries.gridBottom gridSize).
Local Abbreviation activeRight := (Boundaries.activeRight gridSize).
Local Abbreviation activeBottom := (Boundaries.activeBottom gridSize).
Local Abbreviation gridLeft := (Boundaries.gridLeft).
Local Abbreviation gridTop := (Boundaries.gridTop).
Local Abbreviation activeLeft := (Boundaries.activeLeft).
Local Abbreviation activeTop := (Boundaries.activeTop).
Local Abbreviation interior := (Boundaries.interior gridSize).

Ltac halo_constants :=
  unfold Boundaries.gridTop, Boundaries.gridLeft,
    Boundaries.gridRight, Boundaries.gridBottom, Boundaries.gridSide,
    Boundaries.activeTop, Boundaries.activeLeft, Boundaries.activeRight,
    Boundaries.activeBottom, Boundaries.gridTop, Boundaries.gridLeft,
    Boundaries.gridRight, Boundaries.gridBottom, Boundaries.gridSide in *.

(** The sibling path: [makeWraparoundBorder] sets every halo cell,
    the four next to the interior corners included. *)
Lemma makeWraparoundBorder_mirrors (st : lattice * rng) :
  dims gridSize st.1 ->
  let lat' := (Boundaries.makeWraparoundBorder gridSize st).1 in
  dims gridSize lat' /\ wraparound_mirrors gridSize lat' /\
  forall x y, x < gridSize -> y < gridSize -> ~ on_border gridSize x y ->
    get lat' x y = get st.1 x y.
Proof using Hsize.
  intros Hd. unfold Boundaries.makeWraparoundBorder. cbn [fst].
  set (lat0 := st.1) in *.
  destruct (foldl_writes_at gridSize (fun l : lattice => l)
    (Boundaries.wraparound_cell gridSize)
    (fun s => forall a b, interior a b -> get s a b = get lat0 a b)
    (fun c v => v =
       if c.2 =? gridTop then get lat0 c.1 activeBottom
       else if c.1 =? gridRight then get lat0 activeLeft c.2
       else if c.2 =? gridBottom then get lat0 c.1 activeTop
       else get lat0 activeRight c.2)
    (Boundaries.genBorderXYs gridSize) lat0) as (HJ & Hd' & Hcells); auto.
  { intros s [x y] Hc HJ _. apply elem_of_genBorderXYs in Hc; [|exact Hsize].
    rewrite (wraparound_cell_value gridSize Hsize s x y Hc). split.
    - intros a b Hin. rewrite get_put_other; [by apply HJ|].
      intros E. injection E as -> ->. revert Hin. by apply on_border_not_interior.
    - eexists. split; [|reflexivity]. cbn [fst snd].
      unfold on_border in Hc. halo_constants.
      repeat
        match goal with
        | |- context [?a =? ?b] => destruct (Nat.eqb_spec a b)
        end; apply HJ, interior_iff; lia. }
  split; [exact Hd'|]. split.
  - assert (Hval : forall x y, x < gridSize -> y < gridSize -> on_border gridSize x y ->
              get (foldl (Boundaries.wraparound_cell gridSize) lat0
                     (Boundaries.genBorderXYs gridSize)) x y =
              if y =? gridTop then get lat0 x activeBottom
              else if x =? gridRight then get lat0 activeLeft y
              else if y =? gridBottom then get lat0 x activeTop
              else get lat0 activeRight y).
    { intros x y Hx Hy Hb. destruct (Hcells x y Hx Hy) as [Hc _].
      apply Hc. by apply elem_of_genBorderXYs. }
    intros v Hv. halo_constants.
    repeat split.
    + rewrite Hval; [|lia|lia|unfold on_border; lia].
      destruct (Nat.eqb_spec v 0); [lia|].
      destruct (Nat.eqb_spec (gridSize - 1) (gridSize - 1)); [|lia].
      symmetry. apply HJ, interior_iff. lia.
    + rewrite Hval; [|lia|lia|unfold on_border; lia].
      destruct (Nat.eqb_spec v 0); [lia|].
      destruct (Nat.eqb_spec 0 (gridSize - 1)); [lia|].
      destruct (Nat.eqb_spec v (gridSize - 1)); [lia|].
      symmetry. apply HJ, interior_iff. lia.
    + rewrite Hval; [|lia|lia|unfold on_border; lia].
      destruct (Nat.eqb_spec (gridSize - 1) 0); [lia|].
      destruct (Nat.eqb_spec v (gridSize - 1)); [lia|].
      destruct (Nat.eqb_spec (gridSize - 1) (gridSize - 1)); [|lia].
      symmetry. apply HJ, interior_iff. lia.
    + rewrite Hval; [|lia|lia|unfold on_border; lia].
      destruct (Nat.eqb_spec 0 0); [|lia].
      symmetry. apply HJ, interior_iff. lia.
  - intros x y Hx Hy Hb. apply Hcells; auto.
    intros Hin. apply Hb. by apply elem_of_genBorderXYs in Hin.
Qed.

(** After the page load (rule 'wraparound') every halo cell equals the
    interior cell it mirrors. *)
Lemma init_wraparound_mirrors (w : Boundaries.world) :
  dims gridSize (Boundaries.lat w) -> Boundaries.boundaryRule w = "wraparound" ->
  wraparound_mirrors gridSize (Boundaries.lat (Boundaries.init gridSize w).1).
Proof using Hsize.
  intros Hd Hr. unfold Boundaries.init, Boundaries.build_border.
  cbn [Boundaries.boundaryRule Boundaries.with_lat_rand]. rewrite Hr.
  change (Boundaries.boundaryList gridSize "wraparound")
    with (Some (Boundaries.makeWraparoundBorder gridSize)).
  cbn [fst snd Boundaries.lat Boundaries.rand Boundaries.with_lat_rand].
  destruct (scramble_interior_spec gridSize Hsize
              (Boundaries.lat w, Boundaries.rand w) Hd) as (Hd1 & _ & _).
  destruct (Boundaries.scramble_interior gridSize (Boundaries.lat w, Boundaries.rand w))
    as [l1 g1]. cbn [fst snd] in *.
  destruct (makeWraparoundBorder_mirrors (l1, g1) Hd1) as (Hd2 & Hm & _).
  destruct (makeZeroCorners_spec gridSize Hsize _ Hd2) as (_ & Hcells).
  intros v Hv. specialize (Hm v Hv). halo_constants.
  assert (Hget : forall x y, x < gridSize -> y < gridSize -> ~ corner gridSize x y ->
            get (Boundaries.makeZeroCorners gridSize
                   (Boundaries.makeWraparoundBorder gridSize (l1, g1)).1) x y
            = get (Boundaries.makeWraparoundBorder gridSize (l1, g1)).1 x y).
  { intros x y Hx Hy Hc. by apply Hcells. }
  rewrite !Hget; try lia; unfold corner; lia.
Qed.

(** C2 (where the code departs from it).  The flip of the interior
    corner cell (activeLeft, activeTop) under the wraparound rule: [updateBorderMicrostep] takes its first branch
    ([x === activeLeft]) and stops, so the halo cell below the column,
    (activeLeft, gridBottom), which mirrors the flipped cell, keeps the
    old value, the negation of the new interior value. *)
Theorem corner_flip_leaves_stale_halo (lat : lattice) :
  dims gridSize lat -> spin (get lat activeLeft activeTop) ->
  wraparound_mirrors gridSize lat ->
  let lat' := Boundaries.commit_flip gridSize "wraparound" lat activeLeft activeTop in
  get lat' gridRight activeTop = get lat' activeLeft activeTop /\
  get lat' activeLeft gridBottom = (- get lat' activeLeft activeTop)%Z /\
  get lat' activeLeft gridBottom <> get lat' activeLeft activeTop.
Proof using Hsize.
  intros Hd Hs Hm lat'.
  assert (Hm1 : get lat 1 (gridSize - 1) = get lat 1 1).
  { destruct (Hm 1) as (_ & _ & M3 & _); halo_constants; [lia|exact M3]. }
  assert (Hnew : get lat' 1 1 = (- get lat 1 1)%Z /\
                 get lat' (gridSize - 1) 1 = (- get lat 1 1)%Z /\
                 get lat' 1 (gridSize - 1) = get lat 1 (gridSize - 1)).
  { subst lat'. unfold Boundaries.commit_flip, Boundaries.updateBorderMicrostep.
    change (String.eqb "wraparound" "wraparound") with true. cbv iota.
    halo_constants. change (0 + 1 =? 0 + 1) with true. cbv iota.
    change (0 + 1) with 1.
    assert (Hdf : dims gridSize (flip lat 1 1)) by (by apply dims_flip).
    assert (Hf : get (flip lat 1 1) 1 1 = (- get lat 1 1)%Z).
    { apply (get_flip_same gridSize); auto; lia. }
    repeat split.
    - rewrite get_put_other; [exact Hf|]. intros E. injection E as E. lia.
    - rewrite (get_put_same gridSize); auto; lia.
    - rewrite get_put_other; [|intros E; injection E as E; lia].
      apply get_flip_other. intros E. injection E as E. lia. }
  destruct Hnew as (H11 & HR & HB). halo_constants. change (0 + 1) with 1 in *.
  unfold spin in Hs. repeat split; lia.
Qed.

End WraparoundBug.

Lemma corner_flip_leaves_stale_halo_witness :
  let lat := Boundaries.lat (Boundaries.init 102 boundaries_start).1 in
  let lat' := Boundaries.commit_flip 102 "wraparound" lat 1 1 in
  reachable4 102 (Boundaries.init 102 boundaries_start).1 /\
  wraparound_mirrors 102 lat /\
  get lat' 1 101 = (- get lat' 1 1)%Z.
Proof.
  assert (H : 3 <= 102) by lia.
  assert (Hload : reachable4 102 (Boundaries.init 102 boundaries_start).1).
  { apply reach4_load; [apply dims_all_up|reflexivity]. }
  assert (Hm : wraparound_mirrors 102 (Boundaries.lat (Boundaries.init 102 boundaries_start).1)).
  { apply init_wraparound_mirrors; [exact H|apply dims_all_up|reflexivity]. }
  pose proof (reachable4_halo_ok 102 H _ Hload) as (Hd & Hi & _).
  split; [exact Hload|]. split; [exact Hm|].
  refine (proj1 (proj2 (corner_flip_leaves_stale_halo 102 H _ Hd _ Hm))).
  apply Hi. apply (proj2 (interior_iff 102 1 1)). lia.
Defined.

(* ===================================================================== *)
(** * The visitation sequences cover the lattice *)
(* ===================================================================== *)

Lemma length_row (inner : list nat) (y : nat) :
  length (x ← inner; [(x, y)]) = length inner.
Proof.
  induction inner as [|x inner IH]; [reflexivity|].
  change ((x :: inner) ≫= (fun x => [(x, y)]))
    with ((x, y) :: (inner ≫= (fun x => [(x, y)]))).
  cbn [length]. by rewrite IH.
Qed.

Lemma length_pairs_swap (outer inner : list nat) :
  length (y ← outer; x ← inner; [(x, y)]) = length outer * length inner.
Proof.
  induction outer as [|y outer IH]; [reflexivity|].
  change ((y :: outer) ≫= (fun y => x ← inner; [(x, y)]))
    with ((x ← inner; [(x, y)]) ++ (outer ≫= (fun y => x ← inner; [(x, y)]))).
  rewrite length_app, IH, length_row. reflexivity.
Qed.

Lemma NoDup_row (inner : list nat) (y : nat) :
  NoDup inner -> NoDup (x ← inner; [(x, y)]).
Proof.
  intros Hn. apply NoDup_bind; [|intros; apply NoDup_singleton|exact Hn].
  intros x1 x2 c _ _ H1 H2.
  apply list_elem_of_singleton in H1, H2. congruence.
Qed.

Lemma elem_of_row (inner : list nat) (y : nat) (c : coord) :
  c ∈ (x ← inner; [(x, y)]) <-> c.1 ∈ inner /\ c.2 = y.
Proof.
  rewrite list_elem_of_bind. split.
  - intros (x & H & Hx). apply list_elem_of_singleton in H. by subst c.
  - intros [Hx Hy]. exists c.1. split; [|exact Hx].
    apply list_elem_of_singleton. destruct c. simpl in *. by subst.
Qed.

(** Rows of distinct [y], each without repetition, make a list without
    repetition. *)
Lemma NoDup_rows (outer : list nat) (row : nat -> list nat) :
  NoDup outer -> (forall y, y ∈ outer -> NoDup (row y)) ->
  NoDup (y ← outer; x ← row y; [(x, y)]).
Proof.
  intros Ho Hr. apply NoDup_bind; [| |exact Ho].
  - intros y1 y2 c _ _ H1 H2.
    apply elem_of_row in H1 as [_ <-], H2 as [_ <-]. reflexivity.
  - intros y Hy. apply NoDup_row. by apply Hr.
Qed.

Lemma elem_of_rows (outer : list nat) (row : nat -> list nat) (x y : nat) :
  (x, y) ∈ (y ← outer; x ← row y; [(x, y)]) <-> y ∈ outer /\ x ∈ row y.
Proof.
  rewrite list_elem_of_bind. split.
  - intros (y' & H & Hy). apply elem_of_row in H as [Hx E]. simpl in *. by subst.
  - intros [Hy Hx]. exists y. split; [|exact Hy]. by apply elem_of_row.
Qed.

Section Coverage.

Variable gridSize : nat.

Definition in_grid (c : coord) : Prop := c.1 < gridSize /\ c.2 < gridSize.

Lemma typewriterGen_covers : covers_once gridSize (typewriterGen gridSize 0 0).
Proof.
  unfold covers_once, typewriterGen. rewrite Nat.sub_0_r.
  split; [|split].
  - by rewrite length_pairs_swap, !length_seq.
  - apply (NoDup_rows _ (fun _ => seq 0 gridSize)); [apply NoDup_seq|].
    intros. apply NoDup_seq.
  - intros x y. rewrite elem_of_pairs_swap, !elem_of_seq. lia.
Qed.

(** A list without repetition holding exactly the sites of the grid
    covers it once. *)
Lemma covers_once_intro (cs : list coord) :
  NoDup cs -> (forall x y, (x, y) ∈ cs <-> x < gridSize /\ y < gridSize) ->
  covers_once gridSize cs.
Proof.
  intros Hn Hin. destruct typewriterGen_covers as (Hlen & Hn' & Hin').
  split; [|by split]. rewrite <- Hlen. apply Permutation_length.
  apply NoDup_Permutation; auto. intros [x y]. by rewrite Hin, Hin'.
Qed.

(** Pigeonhole: [N] sites of the grid without repetition are all of them. *)
Lemma covers_once_pigeonhole (cs : list coord) :
  length cs = (N gridSize) -> NoDup cs -> (forall c, c ∈ cs -> in_grid c) -> covers_once gridSize cs.
Proof.
  intros Hlen Hn Hin. destruct typewriterGen_covers as (Hlen' & Hn' & Hin').
  assert (Hp : cs ≡ₚ typewriterGen gridSize 0 0).
  { apply submseteq_length_Permutation; [|lia].
    apply NoDup_submseteq; [exact Hn|].
    intros [x y] Hc. apply Hin'. exact (Hin _ Hc). }
  split; [exact Hlen|]. split; [exact Hn|].
  intros x y. by rewrite Hp.
Qed.

Lemma covers_once_Permutation (cs cs' : list coord) :
  cs ≡ₚ cs' -> covers_once gridSize cs -> covers_once gridSize cs'.
Proof.
  intros Hp (Hlen & Hn & Hin). split; [|split].
  - by rewrite <- Hp.
  - by rewrite <- Hp.
  - intros x y. rewrite <- Hp. apply Hin.
Qed.

(** ** checkerboard *)

Lemma elem_of_every_other (fuel start x : nat) :
  x ∈ every_other gridSize fuel start <->
  exists k, k < fuel /\ x = start + 2 * k /\ x < gridSize.
Proof.
  revert start. induction fuel as [|fuel IH]; intros start; simpl.
  - split; [intros H; inversion H|intros (k & Hk & _); lia].
  - destruct (Nat.ltb_spec start gridSize) as [Hlt|Hge].
    + rewrite elem_of_cons, IH. split.
      * intros [->|(k & Hk & -> & Hx)]; [exists 0; lia|exists (S k); lia].
      * intros (k & Hk & -> & Hx). destruct k as [|k]; [left; lia|].
        right. exists k. lia.
    + split; [intros H; inversion H|intros (k & Hk & -> & Hx); lia].
Qed.

Lemma NoDup_every_other (fuel start : nat) : NoDup (every_other gridSize fuel start).
Proof.
  revert start. induction fuel as [|fuel IH]; intros start; simpl; [constructor|].
  destruct (start <? gridSize); [|constructor].
  apply NoDup_cons. split; [|apply IH].
  rewrite elem_of_every_other. intros (k & _ & E & _). lia.
Qed.

(** The cells of one colour in a row. *)
Lemma elem_of_colour (start x : nat) :
  start < 2 ->
  x ∈ every_other gridSize gridSize start <-> x < gridSize /\ x mod 2 = start.
Proof.
  intros Hs. rewrite elem_of_every_other. split.
  - intros (k & Hk & -> & Hx). split; [exact Hx|].
    replace (start + 2 * k) with (start + k * 2) by lia.
    rewrite Nat.Div0.mod_add. by apply Nat.mod_small.
  - intros [Hx Hm]. exists (x / 2).
    pose proof (Nat.div_mod_eq x 2). lia.
Qed.

Lemma checkerboardGen_covers : covers_once gridSize (checkerboardGen gridSize).
Proof.
  assert (Hm : forall y, y mod 2 < 2) by (intros; apply Nat.mod_upper_bound; lia).
  apply covers_once_intro.
  - unfold checkerboardGen. apply NoDup_app. repeat split.
    + apply (NoDup_rows _ (fun y => every_other gridSize gridSize (y mod 2)));
        [apply NoDup_seq|]. intros. apply NoDup_every_other.
    + intros [x y].
      rewrite (elem_of_rows _ (fun y => every_other gridSize gridSize (y mod 2))).
      rewrite (elem_of_rows _ (fun y => every_other gridSize gridSize ((y + 1) mod 2))).
      rewrite !elem_of_colour by apply Hm.
      intros (_ & _ & H1) (_ & _ & H2).
      pose proof (Nat.div_mod_eq y 2). pose proof (Nat.div_mod_eq (y + 1) 2).
      pose proof (Hm y). pose proof (Hm (y + 1)). lia.
    + apply (NoDup_rows _ (fun y => every_other gridSize gridSize ((y + 1) mod 2)));
        [apply NoDup_seq|]. intros. apply NoDup_every_other.
  - intros x y. unfold checkerboardGen. rewrite elem_of_app.
    rewrite (elem_of_rows _ (fun y => every_other gridSize gridSize (y mod 2))).
    rewrite (elem_of_rows _ (fun y => every_other gridSize gridSize ((y + 1) mod 2))).
    rewrite !elem_of_colour by apply Hm. rewrite !elem_of_seq.
    pose proof (Nat.div_mod_eq x 2). pose proof (Nat.div_mod_eq y 2).
    pose proof (Nat.div_mod_eq (y + 1) 2).
    pose proof (Hm x). pose proof (Hm y). pose proof (Hm (y + 1)). lia.
Qed.

(** ** diagonal *)

(** Twice the position of a cell in the diagonal order: the cells of the
    anti-diagonals before it, then the cells before it on its own. *)
Definition diagonal_rank2 (c : coord) : Z :=
  let x := Z.of_nat c.1 in
  let y := Z.of_nat c.2 in
  let e := (Z.of_nat gridSize - 1)%Z in
  let d := (x + y)%Z in
  if (d <=? e)%Z then (d * (d + 1) + 2 * x)%Z
  else (2 * (e + 1) * (e + 1) - (2 * e - d + 1) * (2 * e - d + 2) + 2 * (x - (d - e)))%Z.

Lemma diagonal_next_rank (c : coord) :
  in_grid c -> (diagonal_rank2 c + 2 < 2 * Z.of_nat (N gridSize))%Z ->
  in_grid (diagonal_next gridSize c) /\
  diagonal_rank2 (diagonal_next gridSize c) = (diagonal_rank2 c + 2)%Z.
Proof.
  destruct c as [x y]. unfold in_grid, diagonal_next, diagonal_rank2, N, gridEdge.
  cbn [fst snd]. intros [Hx Hy] Hr.
  rewrite Nat2Z.inj_mul in Hr.
  destruct (Nat.eqb_spec x (gridSize - 1)) as [Ex|Ex];
    [|destruct (Nat.eqb_spec y 0) as [Ey|Ey]]; cbn [fst snd].
  - assert (Hy' : y <> gridSize - 1).
    { intros ->. subst x. revert Hr.
      destruct (Z.leb_spec (Z.of_nat (gridSize - 1) + Z.of_nat (gridSize - 1))
                  (Z.of_nat gridSize - 1)); nia. }
    split; [lia|]. revert Hr.
    repeat match goal with
           | |- context [(?a <=? ?b)%Z] => destruct (Z.leb_spec a b)
           end; nia.
  - subst y. split; [lia|]. revert Hr.
    repeat match goal with
           | |- context [(?a <=? ?b)%Z] => destruct (Z.leb_spec a b)
           end; nia.
  - split; [lia|]. revert Hr.
    repeat match goal with
           | |- context [(?a <=? ?b)%Z] => destruct (Z.leb_spec a b)
           end; nia.
Qed.

Lemma diagonal_loop_spec (turns : nat) (c : coord) :
  in_grid c -> (diagonal_rank2 c + 2 * Z.of_nat turns <= 2 * Z.of_nat (N gridSize))%Z ->
  length (diagonal_loop gridSize turns c) = turns /\
  NoDup (diagonal_loop gridSize turns c) /\
  forall c', c' ∈ diagonal_loop gridSize turns c ->
    in_grid c' /\ (diagonal_rank2 c <= diagonal_rank2 c')%Z.
Proof.
  revert c. induction turns as [|turns IH]; intros c Hc Hr; simpl.
  - split; [reflexivity|]. split; [constructor|]. intros c' H. inversion H.
  - destruct turns as [|turns].
    { simpl. split; [reflexivity|]. split; [apply NoDup_singleton|].
      intros c' H. apply list_elem_of_singleton in H as ->. split; [exact Hc|lia]. }
    destruct (diagonal_next_rank c Hc) as [Hin Hrank]; [lia|].
    destruct (IH (diagonal_next gridSize c) Hin) as (Hlen & Hn & Hall); [lia|].
    split; [by rewrite Hlen|]. split.
    + apply NoDup_cons. split; [|exact Hn].
      intros H. apply Hall in H as [_ H]. lia.
    + intros c' H. apply elem_of_cons in H as [->|H]; [split; [exact Hc|lia]|].
      apply Hall in H as [H1 H2]. split; [exact H1|lia].
Qed.

Lemma diagonalGen_covers : covers_once gridSize (diagonalGen gridSize).
Proof.
  unfold diagonalGen. destruct (Nat.eq_dec gridSize 0) as [E|E].
  { unfold covers_once, N. rewrite E. simpl.
    split; [reflexivity|]. split; [constructor|].
    intros x y. split; [intros H; inversion H|lia]. }
  destruct (diagonal_loop_spec (N gridSize) (0, 0)) as (Hlen & Hn & Hall).
  - unfold in_grid. simpl. lia.
  - unfold diagonal_rank2. cbn [fst snd]. change (Z.of_nat 0) with 0%Z.
    destruct (Z.leb_spec (0 + 0) (Z.of_nat gridSize - 1)); lia.
  - apply covers_once_pigeonhole; auto. intros c Hc. by apply Hall.
Qed.

(** ** boustrophedon *)

(** The position of a cell in the ox-plough order. *)
Definition boustrophedon_rank (c : coord) : nat :=
  c.2 * gridSize + (if Nat.even c.2 then c.1 else gridSize - 1 - c.1).

Lemma even_next (y : nat) : Nat.even (y + 1) = negb (Nat.even y).
Proof. by rewrite Nat.add_1_r, Nat.even_succ, <- Nat.negb_even. Qed.

Lemma boustrophedon_rank_lt (c : coord) : in_grid c -> boustrophedon_rank c < (N gridSize).
Proof.
  destruct c as [x y]. unfold in_grid, boustrophedon_rank, N.
  cbn [fst snd]. intros [Hx Hy]. destruct (Nat.even y); nia.
Qed.

Lemma boustrophedon_next_rank (c : coord) :
  in_grid c ->
  (boustrophedon_next gridSize c).1 < gridSize /\
  (boustrophedon_next gridSize c).2 <= gridSize /\
  boustrophedon_rank (boustrophedon_next gridSize c) = boustrophedon_rank c + 1.
Proof.
  destruct c as [x y].
  unfold in_grid, boustrophedon_next, boustrophedon_rank, gridEdge.
  cbn [fst snd]. intros [Hx Hy].
  destruct (Nat.even y) eqn:Ey.
  - destruct (Nat.ltb_spec x (gridSize - 1)); cbn [fst snd].
    + rewrite Ey. lia.
    + rewrite even_next, Ey. simpl. lia.
  - destruct (Nat.ltb_spec 0 x); cbn [fst snd].
    + rewrite Ey. lia.
    + rewrite even_next, Ey. simpl. lia.
Qed.

(** With more fuel than cells are left, the loop ends and has yielded
    the cells from [c] on. *)
Lemma boustrophedon_loop_spec (fuel : nat) (c : coord) :
  c.1 < gridSize -> c.2 <= gridSize -> (N gridSize) - boustrophedon_rank c < fuel ->
  exists l, boustrophedon_loop gridSize fuel c = Some l /\
    length l = (N gridSize) - boustrophedon_rank c /\ NoDup l /\
    forall c', c' ∈ l -> in_grid c' /\ boustrophedon_rank c <= boustrophedon_rank c'.
Proof.
  revert c. induction fuel as [|fuel IH]; intros c Hx Hy Hf; [lia|].
  simpl. destruct (Nat.ltb_spec c.2 gridSize) as [Hlt|Hge].
  - assert (Hc : in_grid c) by (by split).
    pose proof (boustrophedon_rank_lt c Hc) as Hr.
    destruct (boustrophedon_next_rank c Hc) as (Hx' & Hy' & Hr').
    destruct (IH (boustrophedon_next gridSize c) Hx' Hy') as (l & -> & Hlen & Hn & Hall);
      [lia|].
    eexists. split; [reflexivity|]. split; [simpl; lia|]. split.
    + apply NoDup_cons. split; [|exact Hn].
      intros H. apply Hall in H as [_ H]. lia.
    + intros c' H. apply elem_of_cons in H as [->|H]; [split; [exact Hc|lia]|].
      apply Hall in H as [H1 H2]. split; [exact H1|lia].
  - exists []. split; [reflexivity|].
    assert (HN : (N gridSize) <= boustrophedon_rank c).
    { unfold boustrophedon_rank, N. nia. }
    split; [simpl; lia|]. split; [constructor|]. intros c' H. inversion H.
Qed.

Lemma boustrophedonCoords_covers (fuel : nat) :
  (N gridSize) < fuel -> exists l, boustrophedonCoords gridSize fuel = Some l /\ covers_once gridSize l.
Proof.
  intros Hf. unfold boustrophedonCoords.
  destruct (Nat.eq_dec gridSize 0) as [E|E].
  { destruct fuel as [|fuel]; [lia|]. exists []. simpl.
    destruct (Nat.ltb_spec 0 gridSize) as [Hlt|_]; [lia|]. split; [reflexivity|].
    unfold covers_once, N. rewrite E.
    split; [reflexivity|]. split; [constructor|].
    intros x y. split; [intros H; inversion H|lia]. }
  destruct (boustrophedon_loop_spec fuel (0, 0)) as (l & Hl & Hlen & Hn & Hall);
    cbn [fst snd]; try lia.
  exists l. split; [exact Hl|].
  apply covers_once_pigeonhole; auto.
  - rewrite Hlen. unfold boustrophedon_rank. simpl. lia.
  - intros c Hc. by apply Hall.
Qed.

(** ** permuted and re-permuted *)

Lemma swap_entries_Permutation (p : list nat) (i j : nat) :
  i < length p -> j < length p -> swap_entries p i j ≡ₚ p.
Proof.
  intros Hi Hj. apply Permutation_inj. unfold swap_entries.
  split; [by rewrite !length_insert|].
  exists (fun k => if decide (k = i) then j else if decide (k = j) then i else k).
  split.
  - intros a b. repeat case_decide; lia.
  - intros k. rewrite !list_lookup_insert, !length_insert.
    repeat case_decide; try lia; subst;
      try (symmetry; by apply list_lookup_lookup_total_lt); reflexivity.
Qed.

Lemma shuffle_from_Permutation (n i : nat) (st : list nat * rng) :
  length st.1 = n -> i < n -> (shuffle_from n i st).1 ≡ₚ st.1.
Proof.
  revert st. induction i as [|i IH]; intros st Hlen Hi; [reflexivity|].
  cbn [shuffle_from]. destruct (Nat.ltb_spec 1 (S i)); [|reflexivity].
  pose proof (random_index_lt n st.2 ltac:(lia)) as Hj.
  destruct (random_index n st.2) as [j g]. cbn [fst] in Hj.
  assert (Hs : swap_entries st.1 (S i) j ≡ₚ st.1)
    by (apply swap_entries_Permutation; lia).
  rewrite IH; cbn [fst]; [exact Hs| |lia].
  rewrite <- Hlen. by apply Permutation_length.
Qed.

(** Whatever the draws, [randomPermutation(n)] is a rearrangement of
    [0 .. n-1]. *)
Lemma randomPermutation_Permutation (n : nat) (g : rng) :
  (randomPermutation n g).1 ≡ₚ seq 0 n.
Proof.
  unfold randomPermutation. destruct n as [|n]; [reflexivity|].
  apply shuffle_from_Permutation; cbn [fst]; [apply length_seq|lia].
Qed.

Lemma coord_of_seq_covers : covers_once gridSize (map (coord_of gridSize) (seq 0 (N gridSize))).
Proof.
  destruct (Nat.eq_dec gridSize 0) as [E|E].
  { unfold covers_once, N. rewrite E. simpl.
    split; [reflexivity|]. split; [constructor|].
    intros x y. split; [intros H; inversion H|lia]. }
  change (map (coord_of gridSize) (seq 0 (N gridSize))) with (coord_of gridSize <$> seq 0 (N gridSize)).
  apply covers_once_intro.
  - apply NoDup_fmap_2; [|apply NoDup_seq].
    intros r1 r2 H. unfold coord_of in H. injection H as H1 H2.
    rewrite (Nat.div_mod_eq r1 gridSize), (Nat.div_mod_eq r2 gridSize). congruence.
  - intros x y. rewrite list_elem_of_fmap. unfold coord_of, N. split.
    + intros (r & H & Hr). injection H as -> ->. apply elem_of_seq in Hr. split.
      * apply Nat.Div0.div_lt_upper_bound. lia.
      * apply Nat.mod_upper_bound. exact E.
    + intros [Hx Hy]. exists (x * gridSize + y). split.
      * rewrite Nat.div_add_l, (Nat.div_small y), Nat.add_0_r by lia.
        rewrite Nat.add_comm, Nat.Div0.mod_add, Nat.mod_small by lia. reflexivity.
      * apply elem_of_seq. nia.
Qed.

Lemma permutedGen_covers (thePermutation : list nat) :
  thePermutation ≡ₚ seq 0 (N gridSize) -> covers_once gridSize (permutedGen gridSize thePermutation).
Proof.
  intros Hp. unfold permutedGen.
  apply (covers_once_Permutation (map (coord_of gridSize) (seq 0 (N gridSize))));
    [|apply coord_of_seq_covers].
  symmetry. by apply Permutation_map.
Qed.

Lemma re_permutedGen_covers (g : rng) : covers_once gridSize (re_permutedGen gridSize g).1.
Proof.
  unfold re_permutedGen.
  pose proof (randomPermutation_Permutation (N gridSize) g) as Hp.
  destruct (randomPermutation (N gridSize) g) as [p g']. cbn [fst] in *.
  by apply permutedGen_covers.
Qed.

(** ** random *)

Lemma random_coords_length (n : nat) (g : rng) :
  length (random_coords gridSize n g).1 = n.
Proof.
  revert g. induction n as [|n IH]; intros g; [reflexivity|].
  cbn [random_coords].
  destruct (random_index gridSize g) as [x g1].
  destruct (random_index gridSize g1) as [y g2].
  specialize (IH g2). destruct (random_coords gridSize n g2) as [rest g3].
  simpl in *. by rewrite IH.
Qed.

Lemma random_coords_in_grid (n : nat) (g : rng) (c : coord) :
  0 < gridSize -> c ∈ (random_coords gridSize n g).1 -> in_grid c.
Proof.
  intros Hg. revert g. induction n as [|n IH]; intros g; [intros H; inversion H|].
  cbn [random_coords].
  pose proof (random_index_lt gridSize g Hg) as Hx.
  destruct (random_index gridSize g) as [x g1].
  pose proof (random_index_lt gridSize g1 Hg) as Hy.
  destruct (random_index gridSize g1) as [y g2].
  specialize (IH g2). destruct (random_coords gridSize n g2) as [rest g3].
  cbn [fst] in *. intros H. apply elem_of_cons in H as [->|H]; [by split|auto].
Qed.

(** A stream of draws that are all 0 sends every visit to the site (0, 0). *)
Lemma random_coords_zero (n : nat) (g : rng) (c : coord) :
  (forall k, draw g k = 0%R) -> c ∈ (random_coords gridSize n g).1 -> c = (0, 0).
Proof.
  revert g. induction n as [|n IH]; intros g Hz; [intros H; inversion H|].
  cbn [random_coords].
  pose proof (random_index_zero gridSize g (Hz 0)) as Hx.
  assert (Hg1 : (random_index gridSize g).2 = rng_tail g) by reflexivity.
  destruct (random_index gridSize g) as [x g1]. cbn [fst snd] in *. subst g1 x.
  pose proof (random_index_zero gridSize (rng_tail g) (Hz 1)) as Hy.
  assert (Hg2 : (random_index gridSize (rng_tail g)).2 = rng_tail (rng_tail g))
    by reflexivity.
  destruct (random_index gridSize (rng_tail g)) as [y g2]. cbn [fst snd] in *.
  subst g2 y.
  specialize (IH (rng_tail (rng_tail g)) (fun k => Hz (S (S k)))).
  destruct (random_coords gridSize n (rng_tail (rng_tail g))) as [rest g3].
  cbn [fst] in *. intros H. apply elem_of_cons in H as [->|H]; auto.
Qed.

End Coverage.

(** C3. Run to completion, each of the typewriter, checkerboard,
    diagonal, boustrophedon, permuted and re-permuted sequences yields
    [N] coordinates, without repetition, that are exactly the sites of
    the lattice; this holds for every lattice size and every stream of
    random draws.  The random sequence yields [N] coordinates of the
    lattice too, but with a stream of draws that are all 0 every one of
    them is (0, 0): on a lattice of side 2 or more the sweep then
    neither avoids duplicates nor reaches every site. *)
Theorem visitation_sequences_cover (gridSize : nat) (g : rng) :
  covers_once gridSize (typewriterGen gridSize 0 0) /\
  covers_once gridSize (checkerboardGen gridSize) /\
  covers_once gridSize (diagonalGen gridSize) /\
  covers_once gridSize (diagonalCoords gridSize) /\
  (exists l, boustrophedonCoords gridSize (S (N gridSize)) = Some l /\
     covers_once gridSize l) /\
  covers_once gridSize (permutedGen gridSize (randomPermutation (N gridSize) g).1) /\
  covers_once gridSize (re_permutedGen gridSize g).1 /\
  length (randomGen gridSize g).1 = N gridSize /\
  (2 <= gridSize ->
     (~ NoDup (randomGen gridSize rng_zero).1) /\
     ((1, 1) ∉ (randomGen gridSize rng_zero).1) /\
     (~ covers_once gridSize (randomGen gridSize rng_zero).1)).
Proof.
  split; [apply typewriterGen_covers|].
  split; [apply checkerboardGen_covers|].
  split; [apply diagonalGen_covers|].
  split; [apply diagonalGen_covers|].
  split; [apply boustrophedonCoords_covers; lia|].
  split; [apply permutedGen_covers, randomPermutation_Permutation|].
  split; [apply re_permutedGen_covers|].
  split; [apply random_coords_length|].
  intros Hg.
  assert (Hz : forall c, c ∈ (randomGen gridSize rng_zero).1 -> c = (0, 0)).
  { intros c. apply random_coords_zero. reflexivity. }
  assert (H11 : (1, 1) ∉ (randomGen gridSize rng_zero).1).
  { intros H. apply Hz in H. discriminate. }
  split; [|split; [exact H11|]].
  - pose proof (random_coords_length gridSize (N gridSize) rng_zero) as Hlen.
    unfold randomGen in *.
    destruct (random_coords gridSize (N gridSize) rng_zero).1 as [|c1 [|c2 l]] eqn:E.
    + unfold N in Hlen. simpl in Hlen. nia.
    + unfold N in Hlen. simpl in Hlen. nia.
    + intros Hn. apply NoDup_cons in Hn as [Hn _]. apply Hn.
      rewrite (Hz c1), (Hz c2); [left| |]; rewrite ?elem_of_cons; auto.
  - intros (_ & _ & Hin). apply H11, Hin. lia.
Qed.

(* ===================================================================== *)
(** * The simultaneous visitation sequence *)
(* ===================================================================== *)

(** [g] is the stream [g0] after some number of draws. *)
Definition later_draws (g0 g : rng) : Prop := exists j, g = Nat.iter j rng_tail g0.

Lemma later_draws_refl (g : rng) : later_draws g g.
Proof. by exists 0. Qed.

Lemma later_draws_tail (g0 g : rng) : later_draws g0 g -> later_draws g0 (rng_tail g).
Proof. intros [j ->]. by exists (S j). Qed.



Lemma elem_of_column_major (gridSize x y : nat) :
  (x, y) ∈ Visitation.column_major gridSize <-> x < gridSize /\ y < gridSize.
Proof.
  unfold Visitation.column_major. rewrite elem_of_pairs, !elem_of_seq. lia.
Qed.

Section SimultaneousSweep.

Variable gridSize : nat.






End SimultaneousSweep.

(** ** Grids of flags *)

Definition flag_dims (side : nat) (f : flags) : Prop :=
  length f = side /\ Forall (fun col => length col = side) f.

Lemma flag_set_flag (f : flags) (x y x' y' : nat) (b : bool) :
  flag (set_flag f x y b) x' y' =
    if decide (x = x' /\ x < length f /\ y = y' /\ y < length (f !!! x))
    then b else flag f x' y'.
Proof.
  unfold flag, set_flag. rewrite list_lookup_total_alter.
  destruct (decide (x = x' /\ x < length f)) as [[-> Hx]|Hn].
  - rewrite list_lookup_total_insert.
    repeat case_decide; try reflexivity; exfalso; tauto.
  - case_decide; [exfalso; tauto|reflexivity].
Qed.

Lemma flag_set_flag_same (side : nat) (f : flags) (x y : nat) (b : bool) :
  flag_dims side f -> x < side -> y < side -> flag (set_flag f x y b) x y = b.
Proof.
  intros [Hlen Hall] Hx Hy. rewrite flag_set_flag.
  assert (length (f !!! x) = side).
  { apply (Forall_lookup_total_1 (fun col => length col = side)); [assumption|lia]. }
  case_decide as H'; [reflexivity|]. exfalso. apply H'. repeat split; lia.
Qed.

Lemma flag_set_flag_other (f : flags) (x y x' y' : nat) (b : bool) :
  (x, y) <> (x', y') -> flag (set_flag f x y b) x' y' = flag f x' y'.
Proof.
  intros Hne. rewrite flag_set_flag.
  case_decide as H; [|reflexivity].
  destruct H as (-> & _ & -> & _). congruence.
Qed.

Lemma flag_dims_set_flag (side : nat) (f : flags) (x y : nat) (b : bool) :
  flag_dims side f -> flag_dims side (set_flag f x y b).
Proof.
  intros [Hlen Hall]. split.
  - unfold set_flag. rewrite length_alter. exact Hlen.
  - unfold set_flag. apply Forall_alter; [assumption|].
    intros col _ Hc. rewrite length_insert. exact Hc.
Qed.

(** A loop over distinct cells whose turn at [c] changes the cell [c]
    only, to a value computed from what the cell holds: afterwards
    each listed cell holds the value computed from its first content. *)
Lemma foldl_updates_once (side : nat) (step : lattice -> coord -> lattice)
    (upd : coord -> Z -> Z) (cs : list coord) (lat : lattice) :
  NoDup cs ->
  (forall l c, c ∈ cs -> dims side l ->
     dims side (step l c) /\
     get (step l c) c.1 c.2 = upd c (get l c.1 c.2) /\
     forall x y, (x, y) <> c -> get (step l c) x y = get l x y) ->
  dims side lat ->
  dims side (foldl step lat cs) /\
  forall x y,
    ((x, y) ∈ cs -> get (foldl step lat cs) x y = upd (x, y) (get lat x y)) /\
    ((x, y) ∉ cs -> get (foldl step lat cs) x y = get lat x y).
Proof.
  revert lat. induction cs as [|c cs IH]; intros lat Hn Hstep Hd; simpl.
  - split; [exact Hd|]. intros x y. split; [intros H; inversion H|reflexivity].
  - apply NoDup_cons in Hn as [Hc Hn].
    destruct (Hstep lat c) as (Hd1 & Hsame & Hother); [left|exact Hd|].
    destruct (IH (step lat c) Hn) as [Hd' Hcells]; [|exact Hd1|].
    { intros l c' Hc'. apply Hstep. by right. }
    split; [exact Hd'|]. intros x y. destruct (Hcells x y) as [Hin Hout].
    destruct (decide ((x, y) = c)) as [E|NE].
    + subst c. split; [|intros H; exfalso; apply H; left].
      intros _. rewrite (Hout Hc). exact Hsame.
    + rewrite <- (Hother x y NE). split.
      * intros H. apply elem_of_cons in H as [H|H]; [congruence|auto].
      * intros H. apply Hout. intros H'. apply H. by right.
Qed.

Section MicroscopeSimultaneous.

Variable gridSize : nat.

Local Abbreviation world := Microscope.world.
Local Abbreviation macrostep := (Microscope.macrostep gridSize).

(** The decision of the acceptor [r] at [(x, y)] on the lattice [lat0]. *)
Definition rule_flips (r : Microscope.rule) (lat0 : lattice) (T : JS.number)
    (x y : nat) (g : rng) : bool :=
  (Microscope.apply_rule gridSize r lat0 T x y g).1.

Lemma apply_rule_rand (r : Microscope.rule) (lat0 : lattice) (T : JS.number)
    (x y : nat) (g : rng) :
  later_draws g (Microscope.apply_rule gridSize r lat0 T x y g).2.
Proof.
  destruct r; unfold Microscope.apply_rule, Microscope.MRuleFn, Microscope.GRuleFn,
    Microscope.MstarRuleFn, coinFlip, Math_random.
  - destruct (_ <=? 0)%Z; [apply later_draws_refl|].
    case_lt; apply later_draws_tail, later_draws_refl.
  - case_lt; apply later_draws_tail, later_draws_refl.
  - destruct (_ <? 0)%Z; [apply later_draws_refl|].
    destruct (_ =? 0)%Z; [apply later_draws_tail, later_draws_refl|].
    case_lt; apply later_draws_tail, later_draws_refl.
Qed.

(** In the 'simultaneous' sequence [updateSpin] writes flags only. *)
Lemma updateSpin_simultaneous (w : world) (x y : nat) :
  Microscope.visitSeq w = "simultaneous" ->
  let w' := Microscope.updateSpin gridSize w x y in
  Microscope.lat w' = Microscope.lat w /\
  Microscope.visitSeq w' = Microscope.visitSeq w /\
  Microscope.temperature w' = Microscope.temperature w /\
  Microscope.acceptor w' = Microscope.acceptor w /\
  Microscope.XYiterator w' = Microscope.XYiterator w /\
  later_draws (Microscope.rand w) (Microscope.rand w') /\
  Microscope.toBeFlippedArray w' =
    if rule_flips (Microscope.acceptor w) (Microscope.lat w) (Microscope.temperature w)
                  x y (Microscope.rand w)
    then set_flag (Microscope.toBeFlippedArray w) x y true
    else Microscope.toBeFlippedArray w.
Proof.
  intros Hseq. unfold Microscope.updateSpin, rule_flips.
  cbn [Microscope.acceptor Microscope.lat Microscope.temperature Microscope.rand
       Microscope.with_visited].
  pose proof (apply_rule_rand (Microscope.acceptor w) (Microscope.lat w)
                (Microscope.temperature w) x y (Microscope.rand w)) as Hg.
  destruct (Microscope.apply_rule gridSize (Microscope.acceptor w) (Microscope.lat w)
              (Microscope.temperature w) x y (Microscope.rand w)) as [[|] g];
    cbn [fst snd] in *.
  - cbn [Microscope.visitSeq Microscope.with_rand Microscope.with_visited].
    rewrite Hseq. change (String.eqb "simultaneous" "simultaneous") with true.
    cbv iota. repeat split; try reflexivity; assumption.
  - repeat split; try reflexivity; assumption.
Qed.







End MicroscopeSimultaneous.


Definition all_clear (side : nat) : flags := replicate side (replicate side false).

Lemma flag_dims_all_clear (side : nat) : flag_dims side (all_clear side).
Proof.
  unfold flag_dims, all_clear. rewrite length_replicate. split; [reflexivity|].
  apply Forall_replicate, length_replicate.
Qed.


(** Program 3 with every spin up, and the Microscope with every spin up
    and the 'simultaneous' sequence just chosen. *)
Definition visitation_start : Visitation.world :=
  Visitation.mk_world (all_up 20) (all_up 20) (JS.Fin 1) (seq 0 400) "simultaneous"
    "scrambled" None "Run" rng_zero.

Definition microscope_start : Microscope.world :=
  Microscope.mk_world (all_up 20) (all_clear 20) (all_clear 20) (JS.Fin 1)
    "simultaneous" Microscope.GenSimultaneous
    (Microscope.NotStarted Microscope.GenSimultaneous) Microscope.M_rule
    (seq 0 400) "idle" false rng_zero.


(* ===================================================================== *)
(** * The measurement harness of Program 1 *)
(* ===================================================================== *)

(** A value that arithmetic can produce: NaN, an infinity, or a finite
    value inside the range. *)
Definition representable (a : JS.number) : Prop :=
  match a with
  | JS.Fin r => (- JS.MAX_VALUE <= r <= JS.MAX_VALUE)%R
  | _ => True
  end.

Lemma representable_overflow (r : R) : representable (JS.overflow r).
Proof.
  destruct (JSFacts.overflow_cases r) as [[-> _]|[[-> _]|(r' & -> & H & _)]];
    simpl; auto.
Qed.

Lemma representable_zero : representable (JS.Fin 0).
Proof. pose proof JSFacts.MAX_VALUE_pos. simpl. lra. Qed.

Lemma representable_div (a b : JS.number) : representable (JS.div a b).
Proof.
  destruct a as [| |x|], b as [| |y|]; unfold JS.div; try exact I;
    try apply representable_zero.
  - destruct (Rlt_dec y 0); exact I.
  - destruct (Req_dec_T y 0); [|apply representable_overflow].
    destruct (Req_dec_T x 0); [exact I|]. destruct (Rlt_dec 0 x); exact I.
  - destruct (Rlt_dec y 0); exact I.
Qed.

Lemma overflow_zero : JS.overflow 0 = JS.Fin 0.
Proof. apply JSFacts.overflow_in_range, representable_zero. Qed.

(** With one recorded sweep the deviation from the mean is 0 (or NaN)
    and the divisor [steps - 1] is 0: the result is NaN. *)
Lemma sdev_of_single (x : JS.number) :
  representable x -> MetroVGlauber.sdev_of [x] 1 = Ok JS.NaN.
Proof.
  intros Hx. unfold MetroVGlauber.sdev_of, MetroVGlauber.mean_of, reduce_add0,
    reduce_add, square, JS.of_nat.
  cbn [map foldl INR]. f_equal.
  assert (Hdiv : JS.sub (JS.Fin 1) (JS.Fin 1) = JS.Fin 0).
  { unfold JS.sub, JS.add, JS.neg. replace (1 + - (1))%R with 0%R by lra.
    apply overflow_zero. }
  rewrite Hdiv.
  assert (Hinf : forall a, a = JS.PosInf \/ a = JS.NegInf ->
            JS.sub a (JS.div (JS.add (JS.Fin 0) a) (JS.Fin 1)) = JS.NaN).
  { intros a [-> | ->]; unfold JS.add, JS.div; destruct (Rlt_dec 1 0); try lra;
      reflexivity. }
  destruct x as [| |r|]; [reflexivity|rewrite Hinf by auto; reflexivity|
                          |rewrite Hinf by auto; reflexivity].
  - simpl in Hx.
    assert (Hmean : JS.div (JS.add (JS.Fin 0) (JS.Fin r)) (JS.Fin 1) = JS.Fin r).
    { unfold JS.add. rewrite Rplus_0_l, JSFacts.overflow_in_range by assumption.
      unfold JS.div. destruct (Req_dec_T 1 0); [lra|].
      replace (r / 1)%R with r by field. by apply JSFacts.overflow_in_range. }
    rewrite Hmean.
    assert (Hdev : JS.sub (JS.Fin r) (JS.Fin r) = JS.Fin 0).
    { unfold JS.sub, JS.add, JS.neg. replace (r + - r)%R with 0%R by lra.
      apply overflow_zero. }
    rewrite Hdev. unfold JS.mul. rewrite Rmult_0_l, overflow_zero.
    unfold JS.div. destruct (Req_dec_T 0 0); [|lra]. reflexivity.
Qed.

(** ** The sample standard deviation, over the reals *)

Definition Rsum (rs : list R) : R := foldl Rplus 0%R rs.

(** The sample standard deviation of [rs]: the square root of the sum
    of squared deviations from the mean over [n - 1]. *)
Definition sample_sdev (rs : list R) : R :=
  let n := INR (length rs) in
  let mean := (Rsum rs / n)%R in
  sqrt (Rsum (map (fun r : R => (r - mean) * (r - mean))%R rs) / (n - 1)).

Lemma foldl_Rplus (a : R) (rs : list R) : foldl Rplus a rs = (a + Rsum rs)%R.
Proof.
  unfold Rsum. revert a. induction rs as [|r rs IH]; intros a; simpl; [lra|].
  rewrite IH, (IH (0 + r)%R). lra.
Qed.

Lemma Rsum_cons (r : R) (rs : list R) : Rsum (r :: rs) = (r + Rsum rs)%R.
Proof. unfold Rsum. simpl. rewrite foldl_Rplus. unfold Rsum. lra. Qed.

Lemma Rsum_bounds (c : R) (rs : list R) :
  Forall (fun r => (0 <= r <= c)%R) rs -> (0 <= Rsum rs <= c * INR (length rs))%R.
Proof.
  induction 1 as [|r rs Hr _ IH].
  - unfold Rsum. simpl. lra.
  - rewrite Rsum_cons. change (length (r :: rs)) with (S (length rs)).
    rewrite S_INR. lra.
Qed.

Lemma Rsum_abs_bound (c : R) (rs : list R) :
  Forall (fun r => (Rabs r <= c)%R) rs -> (Rabs (Rsum rs) <= c * INR (length rs))%R.
Proof.
  induction 1 as [|r rs Hr _ IH].
  - unfold Rsum. simpl. rewrite Rabs_R0. lra.
  - rewrite Rsum_cons. change (length (r :: rs)) with (S (length rs)).
    rewrite S_INR. pose proof (Rabs_triang r (Rsum rs)). lra.
Qed.

(** Sums that stay inside the range are the sums of the reals. *)
Lemma foldl_add_Fin (c a : R) (rs : list R) :
  Forall (fun r => (Rabs r <= c)%R) rs ->
  (Rabs a + c * INR (length rs) <= JS.MAX_VALUE)%R ->
  foldl JS.add (JS.Fin a) (map JS.Fin rs) = JS.Fin (a + Rsum rs).
Proof.
  intros Hall. revert a. induction Hall as [|r rs Hr _ IH]; intros a Ha.
  - unfold Rsum. simpl. f_equal. lra.
  - change (length (r :: rs)) with (S (length rs)) in Ha. rewrite S_INR in Ha.
    assert (Hc : (0 <= c)%R) by (pose proof (Rabs_pos r); lra).
    assert (Hn : (0 <= INR (length rs))%R) by apply pos_INR.
    pose proof (Rabs_triang a r) as Htri.
    cbn [map foldl]. unfold JS.add at 2.
    rewrite JSFacts.overflow_in_range.
    + rewrite IH, Rsum_cons; [f_equal; lra|]. nra.
    + assert (Rabs (a + r) <= JS.MAX_VALUE)%R by nra.
      split; [|apply Rle_trans with (Rabs (a + r)); [apply Rle_abs|assumption]].
      pose proof (Rabs_pos (a + r)). pose proof (Rle_abs (- (a + r))).
      rewrite Rabs_Ropp in *. lra.
Qed.

Lemma array_length_in_range (n : nat) :
  (Z.of_nat n < 2 ^ 32)%Z -> (4 * INR n <= JS.MAX_VALUE)%R.
Proof.
  intros Hn. assert (Hle : (INR n <= 2 ^ 32)%R).
  { rewrite INR_IZR_INZ, (pow_IZR 2 32). apply IZR_le.
    change (Z.of_nat 32) with 32%Z. lia. }
  assert (H34 : (2 ^ 34 <= 2 ^ 1023)%R) by (apply Rle_pow; [lra|lia]).
  assert (Hinv : (/ 2 ^ 52 <= 1)%R).
  { rewrite <- Rinv_1. apply Rinv_le_contravar; [lra|]. apply pow_R1_Rle; lra. }
  assert (H0 : (0 < 2 ^ 1023)%R) by (apply pow_lt; lra).
  unfold JS.MAX_VALUE.
  assert (H4 : (4 * 2 ^ 32 = 2 ^ 34)%R) by (simpl; lra).
  nra.
Qed.

Lemma Rabs_bound (a b : R) : (Rabs a <= b)%R -> (- b <= a <= b)%R.
Proof.
  intros H. pose proof (Rle_abs a). pose proof (Rle_abs (- a)) as H'.
  rewrite Rabs_Ropp in H'. lra.
Qed.

(** On per-sweep results between -1 and 1 (as magnetizations and local
    correlations are) [sdev_of] is the sample standard deviation, with
    the divisor [steps - 1]. *)
Lemma sdev_of_sample (rs : list R) :
  Forall (fun r => (Rabs r <= 1)%R) rs -> 2 <= length rs ->
  (Z.of_nat (length rs) < 2 ^ 32)%Z ->
  MetroVGlauber.sdev_of (map JS.Fin rs) (length rs) = Ok (JS.Fin (sample_sdev rs)).
Proof.
  intros Hall Hlen Hmax.
  pose proof (array_length_in_range _ Hmax) as HM.
  pose proof JSFacts.MAX_VALUE_pos as HM1.
  set (n := INR (length rs)) in *.
  assert (Hn : (2 <= n)%R).
  { subst n. change 2%R with (INR 2). apply le_INR. exact Hlen. }
  pose proof (Rsum_abs_bound 1 rs Hall) as Hsum. fold n in Hsum.
  set (mu := (Rsum rs / n)%R).
  assert (Hmu : (Rabs mu <= 1)%R).
  { subst mu. unfold Rdiv. rewrite Rabs_mult, (Rabs_right (/ n)).
    - apply Rmult_le_reg_r with n; [lra|].
      rewrite Rmult_assoc, Rinv_l by lra. lra.
    - apply Rle_ge. left. apply Rinv_0_lt_compat. lra. }
  assert (Hmean : MetroVGlauber.mean_of (map JS.Fin rs) (length rs) = JS.Fin mu).
  { unfold MetroVGlauber.mean_of, reduce_add0, JS.of_nat. fold n.
    rewrite (foldl_add_Fin 1) by (auto; rewrite Rabs_R0; fold n; lra).
    unfold JS.div. destruct (Req_dec_T n 0); [lra|].
    rewrite Rplus_0_l. fold mu. apply JSFacts.overflow_in_range.
    apply Rabs_bound in Hmu. lra. }
  unfold MetroVGlauber.sdev_of. rewrite Hmean.
  set (dev := fun r : R => ((r - mu) * (r - mu))%R).
  assert (Hdev : map (fun x => square (JS.sub x (JS.Fin mu))) (map JS.Fin rs) =
                 map JS.Fin (map dev rs)).
  { rewrite !map_map. apply map_ext_Forall.
    eapply Forall_impl; [exact Hall|]. intros r Hr. cbn beta.
    apply Rabs_bound in Hr, Hmu.
    unfold square, JS.sub, JS.add, JS.neg.
    rewrite JSFacts.overflow_in_range by lra.
    unfold JS.mul. rewrite JSFacts.overflow_in_range by nra.
    unfold dev. f_equal. }
  rewrite Hdev.
  assert (Hdevs : Forall (fun d => (0 <= d <= 4)%R) (map dev rs)).
  { apply Forall_map. eapply Forall_impl; [exact Hall|]. intros r Hr. cbn beta.
    apply Rabs_bound in Hr, Hmu. unfold dev.
    assert (Ht : (-2 <= r - mu <= 2)%R) by lra.
    generalize dependent (r - mu)%R. intros t Ht. clear -Ht.
    pose proof (Rle_0_sqr t) as H0. unfold Rsqr in H0.
    pose proof (Rmult_le_pos (2 - t) (2 + t)). lra. }
  pose proof (Rsum_bounds 4 _ Hdevs) as HS. rewrite length_map in HS. fold n in HS.
  assert (Htotal : reduce_add (map JS.Fin (map dev rs)) =
                   Ok (JS.Fin (Rsum (map dev rs)))).
  { destruct (map dev rs) as [|d ds] eqn:E.
    - apply (f_equal length) in E. rewrite length_map in E. simpl in E. lia.
    - unfold reduce_add. cbn [map]. f_equal.
      apply Forall_cons in Hdevs as [Hd Hds].
      assert (Hlen' : (INR (length ds) + 1 = n)%R).
      { subst n. rewrite <- (length_map dev rs), E.
        change (length (d :: ds)) with (S (length ds)). by rewrite S_INR. }
      rewrite (foldl_add_Fin 4), Rsum_cons; [reflexivity| |].
      + eapply Forall_impl; [exact Hds|]. intros r Hr. cbn beta.
        rewrite Rabs_right; lra.
      + rewrite Rabs_right by lra. lra. }
  rewrite Htotal. f_equal.
  unfold JS.sub, JS.add, JS.neg, JS.of_nat. fold n.
  rewrite JSFacts.overflow_in_range by lra.
  unfold JS.div. destruct (Req_dec_T (n + - (1)) 0); [lra|].
  assert (Hq : (0 <= Rsum (map dev rs) / (n + - (1)) <= 4 * n)%R).
  { split.
    - apply Rle_mult_inv_pos; lra.
    - apply Rmult_le_reg_r with (n + - (1))%R; [lra|].
      unfold Rdiv. rewrite Rmult_assoc, Rinv_l by lra. nra. }
  rewrite JSFacts.overflow_in_range by lra.
  unfold JS.Math_sqrt. destruct (Rlt_dec _ 0); [lra|].
  reflexivity.
Qed.

(** ** The accumulators keep their length *)

Lemma add_at_length (a : list JS.number) (i : nat) (v : JS.number) :
  length (add_at a i v) = length a.
Proof. unfold add_at. destruct (a !! i); [apply length_insert|reflexivity]. Qed.

Section EquilibriumHarness.

Variable gridSize : nat.

Definition series_length (n : nat) (acc : MetroVGlauber.series) : Prop :=
  length (MetroVGlauber.Es acc) = n /\ length (MetroVGlauber.Rs acc) = n /\
  length (MetroVGlauber.Ms acc) = n.

Lemma equilibrium_run_length (algo initState : string) (T : JS.number)
    (burnin steps reps : nat) (w : MetroVGlauber.world) (zeros : list JS.number) :
  series_length (length zeros)
    (MetroVGlauber.equilibrium_run gridSize algo initState T burnin steps reps w zeros).2.
Proof.
  unfold MetroVGlauber.equilibrium_run.
  apply (iter_preserves _ (fun st => series_length (length zeros) st.2)).
  - repeat split.
  - intros st Hst. unfold MetroVGlauber.equilibrium_rep.
    apply (foldl_preserves _ (fun st => series_length (length zeros) st.2)).
    + exact Hst.
    + intros j [w' acc] (HE & HR & HM). unfold MetroVGlauber.record_step.
      cbn [fst snd MetroVGlauber.Es MetroVGlauber.Rs MetroVGlauber.Ms] in *.
      repeat split; cbn [MetroVGlauber.Es MetroVGlauber.Rs MetroVGlauber.Ms];
        rewrite add_at_length; assumption.
Qed.

Lemma per_sweep_means_length (acc : list JS.number) (reps : nat) :
  length (MetroVGlauber.per_sweep_means acc reps) = length acc.
Proof. unfold MetroVGlauber.per_sweep_means. apply length_map. Qed.

Lemma per_sweep_means_representable (acc : list JS.number) (reps : nat) :
  Forall representable (MetroVGlauber.per_sweep_means acc reps).
Proof.
  unfold MetroVGlauber.per_sweep_means. apply Forall_map, Forall_forall.
  intros x _. apply representable_div.
Qed.

Lemma singleton_of_length {A : Type} (l : list A) :
  length l = 1 -> exists x, l = [x].
Proof. destruct l as [|x [|y l]]; simpl; intros H; try lia. by exists x. Qed.

(** With [steps = 1] both standard deviations come out as NaN. *)
Lemma equilibriumProperties_one_step (algo initState : string) (T : JS.number)
    (burnin reps : nat) (w : MetroVGlauber.world) :
  exists w' st,
    MetroVGlauber.equilibriumProperties gridSize algo initState T burnin 1 reps w
      = (w', Ok st) /\
    MetroVGlauber.R_sdev st = JS.NaN /\ MetroVGlauber.M_sdev st = JS.NaN.
Proof.
  unfold MetroVGlauber.equilibriumProperties.
  change (new_Array_fill0 1) with (Ok [JS.Fin 0]).
  pose proof (equilibrium_run_length algo initState T burnin 1 reps w [JS.Fin 0])
    as (HE & HR & HM).
  destruct (MetroVGlauber.equilibrium_run gridSize algo initState T burnin 1 reps w
              [JS.Fin 0]) as [w1 acc].
  cbn [snd length] in HE, HR, HM.
  destruct (singleton_of_length (MetroVGlauber.per_sweep_means (MetroVGlauber.Es acc) reps))
    as [e He]; [by rewrite per_sweep_means_length|].
  destruct (singleton_of_length (MetroVGlauber.per_sweep_means (MetroVGlauber.Rs acc) reps))
    as [r Hr]; [by rewrite per_sweep_means_length|].
  destruct (singleton_of_length (MetroVGlauber.per_sweep_means (MetroVGlauber.Ms acc) reps))
    as [m Hm]; [by rewrite per_sweep_means_length|].
  pose proof (per_sweep_means_representable (MetroVGlauber.Rs acc) reps) as Hrr.
  pose proof (per_sweep_means_representable (MetroVGlauber.Ms acc) reps) as Hmr.
  rewrite He, Hr, Hm in *. cbn [last].
  apply Forall_inv in Hrr, Hmr.
  rewrite !sdev_of_single by assumption.
  eexists _, _. split; [reflexivity|]. split; reflexivity.
Qed.

(** With [steps = 0] the routine stops at the last element of an empty list. *)
Lemma equilibriumProperties_no_steps (algo initState : string) (T : JS.number)
    (burnin reps : nat) (w : MetroVGlauber.world) :
  exists w',
    MetroVGlauber.equilibriumProperties gridSize algo initState T burnin 0 reps w
      = (w', Throw TypeError).
Proof.
  unfold MetroVGlauber.equilibriumProperties.
  change (new_Array_fill0 0) with (Ok (@nil JS.number)).
  pose proof (equilibrium_run_length algo initState T burnin 0 reps w [])
    as (HE & _).
  destruct (MetroVGlauber.equilibrium_run gridSize algo initState T burnin 0 reps w [])
    as [w1 acc].
  cbn [snd length] in HE. apply nil_length_inv in HE. rewrite HE.
  eexists. reflexivity.
Qed.

End EquilibriumHarness.

(** C8 (as amended). The standard deviation that [equilibriumProperties]
    reports is the sample standard deviation with divisor [steps - 1]
    (here for per-sweep values between -1 and 1 and at least two of
    them).  Nothing guards the case of fewer than two recorded sweeps:
    with [steps = 1] both reported deviations are NaN, and with
    [steps = 0] the routine ends in a TypeError. *)
Theorem sdev_divisor_and_short_runs (gridSize : nat) (algo initState : string)
    (T : JS.number) (burnin reps : nat) (w : MetroVGlauber.world) (rs : list R) :
  (Forall (fun r => (Rabs r <= 1)%R) rs -> 2 <= length rs ->
   (Z.of_nat (length rs) < 2 ^ 32)%Z ->
   MetroVGlauber.sdev_of (map JS.Fin rs) (length rs) = Ok (JS.Fin (sample_sdev rs))) /\
  (exists w' st,
     MetroVGlauber.equilibriumProperties gridSize algo initState T burnin 1 reps w
       = (w', Ok st) /\
     MetroVGlauber.R_sdev st = JS.NaN /\ MetroVGlauber.M_sdev st = JS.NaN) /\
  (exists w',
     MetroVGlauber.equilibriumProperties gridSize algo initState T burnin 0 reps w
       = (w', Throw TypeError)).
Proof.
  split; [apply sdev_of_sample|].
  split; [apply equilibriumProperties_one_step|apply equilibriumProperties_no_steps].
Qed.

(** A state of the page of Program 1: every spin up, the slider at
    2.27, no run in progress. *)
Definition metro_start : MetroVGlauber.world :=
  MetroVGlauber.mk_world (all_up 100) (JS.Fin (227 / 100)) "paused" rng_zero [] [].

(** One recorded sweep: the reported standard deviation of the
    magnetization is NaN. *)
Lemma sdev_single_sweep_counterexample :
  exists w' st,
    MetroVGlauber.equilibriumProperties 100 "metro" "plus" (JS.Fin 1) 0 1 1 metro_start
      = (w', Ok st) /\
    MetroVGlauber.M_sdev st = JS.NaN.
Proof.
  destruct (equilibriumProperties_one_step 100 "metro" "plus" (JS.Fin 1) 0 1 metro_start)
    as (w' & st & H & _ & HM).
  by exists w', st.
Qed.

Lemma sdev_divisor_and_short_runs_witness :
  MetroVGlauber.sdev_of [JS.Fin 1; JS.Fin (-1)] 2 = Ok (JS.Fin (sample_sdev [1; -1]%R)).
Proof.
  apply (proj1 (sdev_divisor_and_short_runs 100 "metro" "plus" (JS.Fin 1) 0 1 metro_start
                  [1; -1]%R)).
  - constructor; [|constructor; [|constructor]].
    + unfold Rabs. destruct (Rcase_abs 1); lra.
    + unfold Rabs. destruct (Rcase_abs (-1)); lra.
  - simpl. lia.
  - simpl. lia.
Defined.

(** ** [decimate_array] *)

(** With a positive block size the loop ends within [length arr + 1]
    turns, and on a non-empty array it pushes at least one average. *)
Lemma decimate_loop_some (arr : list JS.number) (glom_size : nat) :
  1 <= glom_size ->
  forall fuel outer shortArray, length arr - outer < fuel ->
    exists rest,
      decimate_loop fuel arr glom_size outer shortArray = Some (shortArray ++ rest) /\
      (outer < length arr -> rest <> []).
Proof.
  intros Hg. induction fuel as [|fuel IH]; intros outer shortArray Hf; [lia|].
  simpl. destruct (Nat.ltb_spec outer (length arr)) as [Hlt|Hge].
  - destruct (IH (outer + glom_size)
                (shortArray ++ [JS.div (block_sum arr outer glom_size) (JS.of_nat glom_size)]))
      as (rest & -> & _); [lia|].
    eexists. rewrite <- app_assoc. split; [reflexivity|]. intros _. discriminate.
  - exists []. rewrite app_nil_r. split; [reflexivity|lia].
Qed.

Lemma decimate_array_some (fuel : nat) (arr : list JS.number) (glom_size : nat) :
  1 <= glom_size -> length arr < fuel ->
  exists l, decimate_array fuel arr glom_size = Some l /\
            (arr <> [] -> is_Some (last l)).
Proof.
  intros Hg Hf. unfold decimate_array.
  destruct (decimate_loop_some arr glom_size Hg fuel 0 []) as (rest & -> & Hne); [lia|].
  exists rest. split; [reflexivity|]. intros Harr. apply last_is_Some, Hne.
  destruct arr; [congruence|simpl; lia].
Qed.

(** With a block size of 0 the loop variable never advances. *)
Lemma decimate_loop_stuck (arr : list JS.number) (outer : nat) :
  outer < length arr ->
  forall fuel shortArray, decimate_loop fuel arr 0 outer shortArray = None.
Proof.
  intros Hlt. induction fuel as [|fuel IH]; intros shortArray; [reflexivity|].
  simpl. destruct (Nat.ltb_spec outer (length arr)); [|lia].
  rewrite Nat.add_0_r. apply IH.
Qed.

(** ** [temperatureStep] *)

Section TemperatureStep.

Variable gridSize : nat.

Lemma init_outputDiv (pattern : string) (w : MetroVGlauber.world) :
  MetroVGlauber.outputDiv (MetroVGlauber.init gridSize pattern w) = MetroVGlauber.outputDiv w.
Proof.
  unfold MetroVGlauber.init.
  repeat match goal with |- context [String.eqb ?a ?b] => destruct (String.eqb a b) end;
    reflexivity.
Qed.

Lemma select_fn_outputDiv (algo : string) (w : MetroVGlauber.world) :
  MetroVGlauber.outputDiv (MetroVGlauber.select_fn gridSize algo w) = MetroVGlauber.outputDiv w.
Proof.
  unfold MetroVGlauber.select_fn. destruct (String.eqb algo "metro"); reflexivity.
Qed.

(** The main loop of [temperatureStep] keeps the length of both
    accumulators and does not touch the output element. *)
Lemma temperatureStep_loop (algo initState : string) (T1 T2 : JS.number)
    (T1_steps T2_steps burnin reps : nat) (w : MetroVGlauber.world)
    (zeros : list JS.number) :
  let st := Nat.iter reps
              (MetroVGlauber.temperatureStep_rep gridSize
                 (MetroVGlauber.select_fn gridSize algo) initState T1 T2
                 T1_steps T2_steps burnin)
              (w, (zeros, zeros)) in
  MetroVGlauber.outputDiv st.1 = MetroVGlauber.outputDiv w /\
  length st.2.1 = length zeros /\ length st.2.2 = length zeros.
Proof.
  set (P := fun st : MetroVGlauber.world * (list JS.number * list JS.number) =>
              MetroVGlauber.outputDiv st.1 = MetroVGlauber.outputDiv w /\
              length st.2.1 = length zeros /\ length st.2.2 = length zeros).
  assert (Hrec : forall offset st j, P st ->
            P (MetroVGlauber.step_record gridSize (MetroVGlauber.select_fn gridSize algo)
                 offset st j)).
  { intros offset [w' [a b]] j (Ho & Ha & Hb). unfold P, MetroVGlauber.step_record.
    cbn [fst snd] in *. rewrite select_fn_outputDiv, !add_at_length. auto. }
  apply (iter_preserves _ P); [repeat split|].
  intros [w' [a b]] (Ho & Ha & Hb). unfold MetroVGlauber.temperatureStep_rep.
  apply (foldl_preserves _ P); [|intros; by apply Hrec].
  set (st1 := foldl _ _ (seq 0 T1_steps)).
  assert (H1 : P st1).
  { apply (foldl_preserves _ P); [|intros; by apply Hrec].
    unfold P. cbn [fst snd]. split; [|by split].
    apply (iter_preserves _
      (fun w'' => MetroVGlauber.outputDiv w'' = MetroVGlauber.outputDiv w)).
    - cbn [MetroVGlauber.outputDiv MetroVGlauber.with_temperature].
      rewrite init_outputDiv. exact Ho.
    - intros w'' Hw''. by rewrite select_fn_outputDiv. }
  destruct H1 as (Ho1 & Ha1 & Hb1). unfold P. cbn [fst snd]. auto.
Qed.

Lemma temperatureStep_fails (fuel : nat) (algo initState : string) (T1 T2 : JS.number)
    (T1_steps T2_steps glom burnin reps : nat) (w : MetroVGlauber.world) :
  1 <= T1_steps + T2_steps -> (Z.of_nat (T1_steps + T2_steps) < 2 ^ 32)%Z ->
  1 <= glom -> T1_steps + T2_steps < fuel ->
  exists w',
    MetroVGlauber.temperatureStep gridSize fuel algo initState T1 T2 T1_steps T2_steps
      glom burnin reps w = Some (w', Throw (ReferenceError "R")) /\
    MetroVGlauber.outputDiv w' = MetroVGlauber.outputDiv w.
Proof.
  intros Hsteps Hmax Hglom Hfuel. unfold MetroVGlauber.temperatureStep, new_Array_fill0.
  destruct (Z.ltb_spec (Z.of_nat (T1_steps + T2_steps)) (2 ^ 32)); [|lia].
  pose proof (temperatureStep_loop algo initState T1 T2 T1_steps T2_steps burnin reps w
                (replicate (T1_steps + T2_steps) (JS.Fin 0))) as (Ho & Ha & Hb).
  destruct (Nat.iter reps _ _) as [w1 acc]. cbn [fst snd] in *.
  rewrite length_replicate in Ha, Hb.
  destruct (decimate_array_some fuel (MetroVGlauber.per_sweep_means acc.1 reps) glom)
    as (R_short & -> & HR); [exact Hglom|rewrite per_sweep_means_length; lia|].
  destruct (decimate_array_some fuel (MetroVGlauber.per_sweep_means acc.2 reps) glom)
    as (M_short & -> & HM); [exact Hglom|rewrite per_sweep_means_length; lia|].
  destruct HR as [r ->].
  { intros E. apply (f_equal length) in E. rewrite per_sweep_means_length in E.
    simpl in E. lia. }
  change (MetroVGlauber.resolve "R") with (@Throw unit (ReferenceError "R")).
  cbv iota. exists w1. split; [reflexivity|exact Ho].
Qed.

(** No recorded sweep: the last element of an empty list is read. *)
Lemma temperatureStep_no_steps (fuel : nat) (algo initState : string) (T1 T2 : JS.number)
    (glom burnin reps : nat) (w : MetroVGlauber.world) :
  exists w',
    MetroVGlauber.temperatureStep gridSize (S fuel) algo initState T1 T2 0 0
      glom burnin reps w = Some (w', Throw TypeError).
Proof.
  unfold MetroVGlauber.temperatureStep.
  change (new_Array_fill0 (0 + 0)) with (Ok (@nil JS.number)).
  pose proof (temperatureStep_loop algo initState T1 T2 0 0 burnin reps w [])
    as (_ & Ha & Hb).
  destruct (Nat.iter reps _ _) as [w1 [a b]]. cbn [fst snd length] in *.
  apply nil_length_inv in Ha, Hb. subst a b.
  exists w1. reflexivity.
Qed.

(** A block size of 0 with at least one recorded sweep: the first
    [decimate_array] never returns, whatever the fuel. *)
Lemma temperatureStep_glom_zero (fuel : nat) (algo initState : string) (T1 T2 : JS.number)
    (T1_steps T2_steps burnin reps : nat) (w : MetroVGlauber.world) :
  1 <= T1_steps + T2_steps -> (Z.of_nat (T1_steps + T2_steps) < 2 ^ 32)%Z ->
  MetroVGlauber.temperatureStep gridSize fuel algo initState T1 T2 T1_steps T2_steps
    0 burnin reps w = None.
Proof.
  intros Hsteps Hmax. unfold MetroVGlauber.temperatureStep, new_Array_fill0.
  destruct (Z.ltb_spec (Z.of_nat (T1_steps + T2_steps)) (2 ^ 32)); [|lia].
  pose proof (temperatureStep_loop algo initState T1 T2 T1_steps T2_steps burnin reps w
                (replicate (T1_steps + T2_steps) (JS.Fin 0))) as (_ & Ha & _).
  destruct (Nat.iter reps _ _) as [w1 acc]. cbn [fst snd] in *.
  rewrite length_replicate in Ha.
  unfold decimate_array. rewrite decimate_loop_stuck; [reflexivity|].
  rewrite per_sweep_means_length. lia.
Qed.

End TemperatureStep.

(** C9 (as amended). A call of [temperatureStep] that records at least
    one sweep, with a positive block size [glom], ends in a
    ReferenceError for the identifier [R], raised by the statement
    [outputDiv.innerHTML = R-str]; nothing has been written to the
    output element.  (The loop of [decimate_array] is run on fuel: any
    fuel above the number of recorded sweeps lets it finish.) *)
Theorem temperatureStep_ends_in_ReferenceError (gridSize fuel : nat)
    (algo initState : string) (T1 T2 : JS.number)
    (T1_steps T2_steps glom burnin reps : nat) (w : MetroVGlauber.world) :
  1 <= T1_steps + T2_steps -> (Z.of_nat (T1_steps + T2_steps) < 2 ^ 32)%Z ->
  1 <= glom -> T1_steps + T2_steps < fuel ->
  exists w',
    MetroVGlauber.temperatureStep gridSize fuel algo initState T1 T2 T1_steps T2_steps
      glom burnin reps w = Some (w', Throw (ReferenceError "R")) /\
    MetroVGlauber.outputDiv w' = MetroVGlauber.outputDiv w.
Proof. apply temperatureStep_fails. Qed.

Lemma temperatureStep_ends_in_ReferenceError_witness :
  exists w',
    MetroVGlauber.temperatureStep 100 3 "metro" "plus" (JS.Fin 1) (JS.Fin 3) 1 1 1 0 1
      metro_start = Some (w', Throw (ReferenceError "R")) /\
    MetroVGlauber.outputDiv w' = [].
Proof.
  apply (temperatureStep_ends_in_ReferenceError 100 3 "metro" "plus" (JS.Fin 1) (JS.Fin 3)
           1 1 1 0 1 metro_start); simpl; lia.
Defined.

(** No recorded sweep: the call ends in a TypeError, not a ReferenceError. *)
Lemma temperatureStep_no_steps_counterexample :
  exists w',
    MetroVGlauber.temperatureStep 100 1 "metro" "plus" (JS.Fin 1) (JS.Fin 3) 0 0 1 0 1
      metro_start = Some (w', Throw TypeError).
Proof. apply temperatureStep_no_steps. Qed.

(* ===================================================================== *)
(** * Unknown mode selectors *)
(* ===================================================================== *)

Section UnknownSelectors.

Variable gridSize : nat.




End UnknownSelectors.





(* ===================================================================== *)
(** * The harnesses accumulate |magnetization| *)
(* ===================================================================== *)






Section AbsoluteMagnetization.

Variable gridSize : nat.    (* Programs 1 and 3 *)
Variable haloSize : nat.    (* Program 4, halo included *)
Hypothesis Hgrid : 0 < gridSize.
Hypothesis Hhalo : 2 < haloSize.






End AbsoluteMagnetization.






(* ===================================================================== *)
(** * Further properties of the engine *)
(* ===================================================================== *)

(** ** Sums over the sites of the lattice *)

Definition Zsum_over {A : Type} (f : A -> Z) (l : list A) : Z :=
  foldl (fun s a => (s + f a)%Z) 0%Z l.

Lemma foldl_pointwise {A B : Type} (f g : A -> B -> A) (l : list B) (a : A) :
  (forall a b, b ∈ l -> f a b = g a b) -> foldl f a l = foldl g a l.
Proof.
  revert a. induction l as [|b l IH]; intros a H; [reflexivity|].
  simpl. rewrite H by left. apply IH. intros a' b' Hb'. apply H. by right.
Qed.

Lemma foldl_Zadd {A : Type} (f : A -> Z) (l : list A) (a : Z) :
  foldl (fun s c => (s + f c)%Z) a l = (a + Zsum_over f l)%Z.
Proof.
  unfold Zsum_over. revert a. induction l as [|c l IH]; intros a; simpl; [lia|].
  rewrite IH, (IH (0 + f c)%Z). lia.
Qed.

Lemma Zsum_over_cons {A : Type} (f : A -> Z) (c : A) (l : list A) :
  Zsum_over f (c :: l) = (f c + Zsum_over f l)%Z.
Proof. unfold Zsum_over at 1. simpl. rewrite foldl_Zadd. lia. Qed.

Lemma Zsum_over_ext {A : Type} (f g : A -> Z) (l : list A) :
  (forall c, c ∈ l -> f c = g c) -> Zsum_over f l = Zsum_over g l.
Proof.
  intros H. apply foldl_pointwise. intros s c Hc. by rewrite H.
Qed.

Lemma Zsum_over_plus {A : Type} (f g : A -> Z) (l : list A) :
  Zsum_over (fun c => (f c + g c)%Z) l = (Zsum_over f l + Zsum_over g l)%Z.
Proof.
  induction l as [|c l IH]; [reflexivity|]. rewrite !Zsum_over_cons, IH. lia.
Qed.

Lemma Zsum_over_zero {A : Type} (f : A -> Z) (l : list A) :
  (forall c, c ∈ l -> f c = 0%Z) -> Zsum_over f l = 0%Z.
Proof.
  induction l as [|c l IH]; intros H; [reflexivity|].
  rewrite Zsum_over_cons, H by left. rewrite IH; [reflexivity|].
  intros c' Hc'. apply H. by right.
Qed.

(** A term that is non-zero at one site only. *)
Lemma Zsum_over_at {A : Type} `{EqDecision A} (q : A) (v : Z) (l : list A) :
  NoDup l -> q ∈ l ->
  Zsum_over (fun c => if decide (c = q) then v else 0%Z) l = v.
Proof.
  induction l as [|c l IH]; intros Hn Hq; [by apply elem_of_nil in Hq|].
  apply NoDup_cons in Hn as [Hc Hn]. rewrite Zsum_over_cons.
  destruct (decide (c = q)) as [->|Hne].
  - rewrite Zsum_over_zero; [lia|]. intros c' Hc'.
    destruct (decide (c' = q)); [congruence|reflexivity].
  - apply elem_of_cons in Hq as [Hq|Hq]; [congruence|]. rewrite IH by assumption. lia.
Qed.

Lemma Zsum_over_Permutation {A : Type} (f : A -> Z) (l k : list A) :
  l ≡ₚ k -> Zsum_over f l = Zsum_over f k.
Proof.
  induction 1 as [|c l k _ IH|c d l|l k m _ IH1 _ IH2].
  - reflexivity.
  - by rewrite !Zsum_over_cons, IH.
  - rewrite !Zsum_over_cons. lia.
  - by rewrite IH1.
Qed.

Lemma Zsum_over_map {A B : Type} (f : B -> Z) (h : A -> B) (l : list A) :
  Zsum_over f (map h l) = Zsum_over (fun c => f (h c)) l.
Proof.
  induction l as [|c l IH]; [reflexivity|]. simpl. by rewrite !Zsum_over_cons, IH.
Qed.

(** ** The energy of the lattice and the energy change of a flip *)

Section LatticeEnergy.

Variable gridSize : nat.

(** The sites in the order of the loops of [calc_lattice_energy]. *)
Definition sites : list coord := y ← seq 0 gridSize; x ← seq 0 gridSize; [(x, y)].

Lemma elem_of_sites (x y : nat) : (x, y) ∈ sites <-> x < gridSize /\ y < gridSize.
Proof. unfold sites. rewrite elem_of_pairs_swap, !elem_of_seq. lia. Qed.

Lemma NoDup_sites : NoDup sites.
Proof.
  apply (NoDup_rows _ (fun _ => seq 0 gridSize)); [apply NoDup_seq|].
  intros. apply NoDup_seq.
Qed.

Lemma length_sites : length sites = N gridSize.
Proof. unfold sites. by rewrite length_pairs_swap, !length_seq. Qed.

(** The contribution of a bond: -1 for a like pair, +1 for an unlike one. *)
Definition bond (a b : Z) : Z := if (a =? b)%Z then (-1)%Z else 1%Z.

Lemma bond_spins (a b : Z) : spin a -> spin b -> bond a b = (- (a * b))%Z.
Proof. unfold spin, bond. intros Ha Hb. destruct (Z.eqb_spec a b); lia. Qed.

(** What the body of the loops adds for the site [c]: its bond with the
    cell at [x - 1] and its bond with the cell at [y + 1]. *)
Definition site_energy (lat : lattice) (c : coord) : Z :=
  (bond (get lat c.1 c.2) (get lat (north_of gridSize c.1) c.2)
   + bond (get lat c.1 c.2) (get lat c.1 (south_of gridSize c.2)))%Z.

Lemma calc_lattice_energy_sum (lat : lattice) :
  calc_lattice_energy gridSize lat = Zsum_over (site_energy lat) sites.
Proof.
  unfold calc_lattice_energy.
  rewrite (foldl_nested_yx
    (fun (s : Z) x y =>
       let here := get lat x y in
       let east := get lat (if 0 <? x then x - 1 else gridEdge gridSize) y in
       let south := get lat x (if y <? gridEdge gridSize then y + 1 else 0) in
       let s := if (here =? east)%Z then (s - 1)%Z else (s + 1)%Z in
       if (here =? south)%Z then (s - 1)%Z else (s + 1)%Z)).
  apply foldl_pointwise. intros s [x y] Hc. apply elem_of_sites in Hc as [Hx Hy].
  cbn [fst snd]. unfold site_energy, bond. cbn [fst snd].
  rewrite wrap_down, wrap_up by assumption.
  destruct (_ =? _)%Z, (_ =? _)%Z; lia.
Qed.

Lemma north_south (x : nat) :
  x < gridSize -> north_of gridSize (south_of gridSize x) = x.
Proof.
  intros Hx. rewrite <- (wrap_up gridSize x Hx).
  unfold gridEdge. destruct (Nat.ltb_spec x (gridSize - 1)).
  - rewrite <- wrap_down by lia. destruct (Nat.ltb_spec 0 (x + 1)); lia.
  - rewrite <- wrap_down by lia. unfold gridEdge. simpl. lia.
Qed.

Lemma south_north (x : nat) :
  x < gridSize -> south_of gridSize (north_of gridSize x) = x.
Proof.
  intros Hx. rewrite <- (wrap_down gridSize x Hx).
  unfold gridEdge. destruct (Nat.ltb_spec 0 x).
  - rewrite <- wrap_up by lia. unfold gridEdge.
    destruct (Nat.ltb_spec (x - 1) (gridSize - 1)); lia.
  - rewrite <- wrap_up by lia. unfold gridEdge.
    destruct (Nat.ltb_spec (gridSize - 1) (gridSize - 1)); lia.
Qed.

Lemma north_of_ne (x : nat) : 2 <= gridSize -> x < gridSize -> north_of gridSize x <> x.
Proof.
  intros Hg Hx. rewrite <- (wrap_down gridSize x Hx). unfold gridEdge.
  destruct (Nat.ltb_spec 0 x); lia.
Qed.

Lemma south_of_ne (x : nat) : 2 <= gridSize -> x < gridSize -> south_of gridSize x <> x.
Proof.
  intros Hg Hx. rewrite <- (wrap_up gridSize x Hx). unfold gridEdge.
  destruct (Nat.ltb_spec x (gridSize - 1)); lia.
Qed.

End LatticeEnergy.

Section FlipEnergy.

Variable gridSize : nat.
Hypothesis Hsize : 2 <= gridSize.

Local Abbreviation nx := (north_of gridSize).
Local Abbreviation sx := (south_of gridSize).

(** How the term of a site changes when the spin at [(x, y)] flips. *)
Lemma site_energy_flip (lat : lattice) (x y : nat) (c : coord) :
  all_spins gridSize lat -> x < gridSize -> y < gridSize -> c ∈ sites gridSize ->
  site_energy gridSize (flip lat x y) c =
  (site_energy gridSize lat c
   + ((if decide (c = (x, y))
       then 2 * get lat x y * (get lat (nx x) y + get lat x (sx y)) else 0)
      + ((if decide (c = (sx x, y)) then 2 * get lat x y * get lat (sx x) y else 0)
         + (if decide (c = (x, nx y)) then 2 * get lat x y * get lat x (nx y) else 0))))%Z.
Proof using Hsize.
  intros [Hd Hs] Hx Hy Hc. destruct c as [cx cy].
  apply elem_of_sites in Hc as [Hcx Hcy].
  assert (Hg : 0 < gridSize) by lia.
  pose proof (north_of_lt gridSize cx Hg) as Hncx.
  pose proof (south_of_lt gridSize cy Hg) as Hscy.
  assert (Hflip : forall a b, a < gridSize -> b < gridSize ->
            get (flip lat x y) a b =
            if decide ((a, b) = (x, y)) then (- get lat x y)%Z else get lat a b).
  { intros a b Ha Hb. case_decide as E.
    - injection E as -> ->. by apply (get_flip_same gridSize).
    - apply get_flip_other. congruence. }
  assert (Hf : all_spins gridSize (flip lat x y)) by (by apply all_spins_flip).
  unfold site_energy. cbn [fst snd].
  rewrite !bond_spins
    by (first [apply Hs | apply Hf]; assumption).
  rewrite !Hflip by assumption.
  pose proof (north_of_ne gridSize cx Hsize Hcx).
  pose proof (south_of_ne gridSize cy Hsize Hcy).
  pose proof (north_south gridSize x Hx).
  pose proof (south_north gridSize y Hy).
  pose proof (south_north gridSize cx Hcx).
  pose proof (north_south gridSize cy Hcy).
  pose proof (Hs x y Hx Hy) as Hp. unfold spin in Hp.
  repeat case_decide; simplify_eq; try lia; try congruence;
    rewrite ?north_south, ?south_north by assumption; ring.
Qed.

End FlipEnergy.

Lemma get_all_up (side x y : nat) : x < side -> y < side -> get (all_up side) x y = 1%Z.
Proof.
  intros Hx Hy. unfold get, all_up.
  rewrite !lookup_total_replicate_2 by assumption. reflexivity.
Qed.

Lemma all_spins_all_up (side : nat) : all_spins side (all_up side).
Proof.
  split; [apply dims_all_up|]. intros x y Hx Hy. rewrite get_all_up by assumption.
  by left.
Qed.

(** X1. [calcDeltaE(x, y)] is the change of [calc_lattice_energy()] that
    the flip of the spin at [(x, y)] causes, on every lattice of spins
    of side 2 or more. *)
Theorem flip_changes_energy_by_deltaE (gridSize : nat) (lat : lattice) (x y : nat) :
  2 <= gridSize -> all_spins gridSize lat -> x < gridSize -> y < gridSize ->
  calc_lattice_energy gridSize (flip lat x y) =
  (calc_lattice_energy gridSize lat + calcDeltaE gridSize lat x y)%Z.
Proof.
  intros Hsize Hs Hx Hy. assert (Hg : 0 < gridSize) by lia.
  rewrite !calc_lattice_energy_sum.
  rewrite (Zsum_over_ext _ _ _ (fun c => site_energy_flip gridSize Hsize lat x y c Hs Hx Hy)).
  rewrite !Zsum_over_plus.
  rewrite !Zsum_over_at;
    try apply NoDup_sites; try (apply elem_of_sites; split);
    auto using north_of_lt, south_of_lt.
  rewrite calcDeltaE_torus by assumption. ring.
Qed.

Lemma flip_changes_energy_by_deltaE_witness :
  calc_lattice_energy 4 (flip (all_up 4) 1 1) =
  (calc_lattice_energy 4 (all_up 4) + calcDeltaE 4 (all_up 4) 1 1)%Z.
Proof.
  apply flip_changes_energy_by_deltaE; [lia|apply all_spins_all_up|lia|lia].
Defined.

(** ** Local correlation and energy *)

Lemma Zsum_over_opp {A : Type} (f : A -> Z) (l : list A) :
  Zsum_over (fun c => (- f c)%Z) l = (- Zsum_over f l)%Z.
Proof.
  induction l as [|c l IH]; [reflexivity|]. rewrite !Zsum_over_cons, IH. lia.
Qed.

Lemma Zsum_over_scale {A : Type} (k : Z) (f : A -> Z) (l : list A) :
  Zsum_over (fun c => (k * f c)%Z) l = (k * Zsum_over f l)%Z.
Proof.
  induction l as [|c l IH]; [unfold Zsum_over; simpl; lia|].
  rewrite !Zsum_over_cons, IH. lia.
Qed.

Section CorrelationEnergy.

Variable gridSize : nat.

Local Abbreviation nx := (north_of gridSize).
Local Abbreviation sx := (south_of gridSize).

(** Moving every site one row down, or one column right, rearranges
    the list of sites. *)
Lemma sites_shift_rows :
  map (fun c : coord => (c.1, sx c.2)) (sites gridSize) ≡ₚ sites gridSize.
Proof.
  change (map (fun c : coord => (c.1, sx c.2)) (sites gridSize))
    with ((fun c : coord => (c.1, sx c.2)) <$> sites gridSize).
  apply NoDup_Permutation; [|apply NoDup_sites|].
  - apply NoDup_fmap_2_strong; [|apply NoDup_sites].
    intros [x y] [x' y'] H H' E. apply elem_of_sites in H as [_ Hy], H' as [_ Hy'].
    cbn [fst snd] in E. injection E as -> E.
    apply (f_equal nx) in E. rewrite !north_south in E by assumption. by subst.
  - intros [x y]. rewrite list_elem_of_fmap, elem_of_sites. split.
    + intros ([x' y'] & E & H). apply elem_of_sites in H as [Hx Hy].
      cbn [fst snd] in E. injection E as -> ->. split; [exact Hx|].
      apply south_of_lt. lia.
    + intros [Hx Hy]. exists (x, nx y). cbn [fst snd].
      rewrite south_north by assumption. split; [reflexivity|].
      apply elem_of_sites. split; [exact Hx|]. apply north_of_lt. lia.
Qed.

Lemma sites_shift_columns :
  map (fun c : coord => (nx c.1, c.2)) (sites gridSize) ≡ₚ sites gridSize.
Proof.
  change (map (fun c : coord => (nx c.1, c.2)) (sites gridSize))
    with ((fun c : coord => (nx c.1, c.2)) <$> sites gridSize).
  apply NoDup_Permutation; [|apply NoDup_sites|].
  - apply NoDup_fmap_2_strong; [|apply NoDup_sites].
    intros [x y] [x' y'] H H' E. apply elem_of_sites in H as [Hx _], H' as [Hx' _].
    cbn [fst snd] in E. injection E as E ->.
    apply (f_equal sx) in E. rewrite !south_north in E by assumption. by subst.
  - intros [x y]. rewrite list_elem_of_fmap, elem_of_sites. split.
    + intros ([x' y'] & E & H). apply elem_of_sites in H as [Hx Hy].
      cbn [fst snd] in E. injection E as -> ->. split; [|exact Hy].
      apply north_of_lt. lia.
    + intros [Hx Hy]. exists (sx x, y). cbn [fst snd].
      rewrite north_south by assumption. split; [reflexivity|].
      apply elem_of_sites. split; [|exact Hy]. apply south_of_lt. lia.
Qed.

(** Summed over the lattice, [calcDeltaE] counts every bond four times,
    with the sign opposite to that of [calc_lattice_energy]. *)
Lemma sum_calcDeltaE (lat : lattice) :
  all_spins gridSize lat ->
  Zsum_over (fun c => calcDeltaE gridSize lat c.1 c.2) (sites gridSize)
  = (-4 * calc_lattice_energy gridSize lat)%Z.
Proof.
  intros [Hd Hs]. rewrite calc_lattice_energy_sum.
  set (S1 := Zsum_over (fun c : coord => get lat c.1 c.2 * get lat c.1 (sx c.2))%Z
               (sites gridSize)).
  set (S2 := Zsum_over (fun c : coord => get lat c.1 c.2 * get lat (nx c.1) c.2)%Z
               (sites gridSize)).
  assert (H1 : Zsum_over (fun c : coord => get lat c.1 c.2 * get lat c.1 (nx c.2))%Z
                 (sites gridSize) = S1).
  { rewrite <- (Zsum_over_Permutation _ _ _ sites_shift_rows), Zsum_over_map.
    apply Zsum_over_ext. intros [x y] Hc. apply elem_of_sites in Hc as [Hx Hy].
    cbn [fst snd]. rewrite north_south by assumption. ring. }
  assert (H2 : Zsum_over (fun c : coord => get lat c.1 c.2 * get lat (sx c.1) c.2)%Z
                 (sites gridSize) = S2).
  { unfold S2. rewrite <- (Zsum_over_Permutation _ _ _ sites_shift_columns), Zsum_over_map.
    apply Zsum_over_ext. intros [x y] Hc. apply elem_of_sites in Hc as [Hx Hy].
    cbn [fst snd]. rewrite south_north by assumption. ring. }
  assert (HE : Zsum_over (site_energy gridSize lat) (sites gridSize) = (- S2 - S1)%Z).
  { unfold S1, S2. rewrite <- Z.add_opp_r.
    replace (- Zsum_over (fun c : coord => get lat c.1 c.2 * get lat (nx c.1) c.2)%Z
                (sites gridSize) +
             - Zsum_over (fun c : coord => get lat c.1 c.2 * get lat c.1 (sx c.2))%Z
                 (sites gridSize))%Z
      with (Zsum_over (fun c : coord =>
              (- (get lat c.1 c.2 * get lat (nx c.1) c.2))
              + (- (get lat c.1 c.2 * get lat c.1 (sx c.2))))%Z (sites gridSize)).
    - apply Zsum_over_ext. intros [x y] Hc. apply elem_of_sites in Hc as [Hx Hy].
      unfold site_energy. cbn [fst snd].
      rewrite !bond_spins
        by (apply Hs;
            first [assumption | apply north_of_lt; lia | apply south_of_lt; lia]).
      reflexivity.
    - rewrite Zsum_over_plus.
      by rewrite !Zsum_over_opp. }
  rewrite HE.
  rewrite (Zsum_over_ext _
    (fun c : coord =>
       (2 * (get lat c.1 c.2 * get lat c.1 (nx c.2))
        + (2 * (get lat c.1 c.2 * get lat c.1 (sx c.2))
           + (2 * (get lat c.1 c.2 * get lat (nx c.1) c.2)
              + 2 * (get lat c.1 c.2 * get lat (sx c.1) c.2))))%Z)).
  2:{ intros [x y] Hc. apply elem_of_sites in Hc as [Hx Hy]. cbn [fst snd].
      rewrite calcDeltaE_torus by assumption. ring. }
  rewrite !Zsum_over_plus, !Zsum_over_scale, H1, H2. fold S1 S2. lia.
Qed.

End CorrelationEnergy.

Lemma foldl_add_map {A : Type} (g : A -> JS.number) (l : list A) (a : JS.number) :
  foldl (fun s c => JS.add s (g c)) a l = foldl JS.add a (map g l).
Proof. revert a. induction l as [|c l IH]; intros a; [reflexivity|]. simpl. apply IH. Qed.

Lemma Rsum_of_Zsum {A : Type} (h : A -> Z) (k : R) (l : list A) :
  Rsum (map (fun c => (IZR (h c) / k)%R) l) = (IZR (Zsum_over h l) / k)%R.
Proof.
  induction l as [|c l IH].
  - unfold Rsum, Zsum_over. simpl. lra.
  - cbn [map]. rewrite Rsum_cons, Zsum_over_cons, IH, plus_IZR. lra.
Qed.

Lemma Zsum_over_bound {A : Type} (h : A -> Z) (k : Z) (l : list A) :
  (forall c, c ∈ l -> (- k <= h c <= k)%Z) ->
  (- (k * Z.of_nat (length l)) <= Zsum_over h l <= k * Z.of_nat (length l))%Z.
Proof.
  induction l as [|c l IH]; intros H.
  - unfold Zsum_over. simpl. lia.
  - rewrite Zsum_over_cons. cbn [length].
    pose proof (H c ltac:(left)). 
    assert (forall c : A, c ∈ l -> (- k <= h c <= k)%Z) as H' by (intros; apply H; by right).
    specialize (IH H'). lia.
Qed.

Lemma NoDup_column_major (gridSize : nat) : NoDup (Visitation.column_major gridSize).
Proof.
  unfold Visitation.column_major. apply NoDup_bind; [| |apply NoDup_seq].
  - intros x1 x2 c _ _ H1 H2.
    apply list_elem_of_bind in H1 as (y1 & H1 & _), H2 as (y2 & H2 & _).
    apply list_elem_of_singleton in H1, H2. congruence.
  - intros x _. apply NoDup_bind; [| |apply NoDup_seq].
    + intros y1 y2 c _ _ H1 H2. apply list_elem_of_singleton in H1, H2. congruence.
    + intros; apply NoDup_singleton.
Qed.

Lemma column_major_sites (gridSize : nat) :
  Visitation.column_major gridSize ≡ₚ sites gridSize.
Proof.
  apply NoDup_Permutation; [apply NoDup_column_major|apply NoDup_sites|].
  intros [x y]. by rewrite elem_of_column_major, elem_of_sites.
Qed.

Section Readouts.

Variable gridSize : nat.
Hypothesis Hgrid : 0 < gridSize.
Hypothesis Hmax : (Z.of_nat (N gridSize) < 2 ^ 32)%Z.

Lemma N_in_range : (1 <= INR (N gridSize) /\ 4 * INR (N gridSize) <= JS.MAX_VALUE)%R.
Proof using Hgrid Hmax.
  split; [|by apply array_length_in_range].
  change 1%R with (INR 1). apply le_INR. unfold N. nia.
Qed.

(** The loop of [magnetization] is the sum over the sites. *)
Lemma spin_sum_sites (lat : lattice) :
  spin_sum gridSize lat = Zsum_over (fun c => get lat c.1 c.2) (sites gridSize).
Proof using Type.
  unfold spin_sum.
  rewrite (foldl_nested (fun (M : Z) x y => (M + get lat x y)%Z)).
  change (foldl _ 0%Z _) with
    (Zsum_over (fun c : coord => get lat c.1 c.2) (Visitation.column_major gridSize)).
  apply Zsum_over_Permutation, column_major_sites.
Qed.

Lemma spin_sum_bound (lat : lattice) :
  all_spins gridSize lat ->
  (- Z.of_nat (N gridSize) <= spin_sum gridSize lat <= Z.of_nat (N gridSize))%Z.
Proof using Type.
  clear Hgrid Hmax. intros [_ Hs]. rewrite spin_sum_sites.
  pose proof (Zsum_over_bound (fun c : coord => get lat c.1 c.2) 1 (sites gridSize)) as H.
  rewrite length_sites in H. 
  assert (forall c, c ∈ sites gridSize -> (- 1 <= get lat c.1 c.2 <= 1)%Z) as Hb.
  { intros [x y] Hc. apply elem_of_sites in Hc as [Hx Hy]. cbn [fst snd].
    destruct (Hs x y Hx Hy) as [-> | ->]; lia. }
  specialize (H Hb). lia.
Qed.

(** [magnetization()] on a lattice of spins: the mean spin, exactly. *)
Lemma magnetization_value (lat : lattice) :
  all_spins gridSize lat ->
  magnetization gridSize lat
    = JS.Fin (IZR (spin_sum gridSize lat) / INR (N gridSize)) /\
  (-1 <= IZR (spin_sum gridSize lat) / INR (N gridSize) <= 1)%R.
Proof using Hgrid Hmax.
  intros Hs. destruct N_in_range as [HN1 HM].
  assert (HN : (0 < INR (N gridSize))%R) by lra.
  pose proof (spin_sum_bound lat Hs) as [Hlo Hhi].
  apply IZR_le in Hlo, Hhi. rewrite opp_IZR in Hlo. rewrite <- !INR_IZR_INZ in *.
  assert (Hq : (-1 <= IZR (spin_sum gridSize lat) / INR (N gridSize) <= 1)%R).
  { split.
    - apply Rmult_le_reg_r with (INR (N gridSize)); [exact HN|].
      unfold Rdiv. rewrite Rmult_assoc, Rinv_l by lra. lra.
    - apply Rmult_le_reg_r with (INR (N gridSize)); [exact HN|].
      unfold Rdiv. rewrite Rmult_assoc, Rinv_l by lra. lra. }
  split; [|exact Hq].
  unfold magnetization, JS.div, JS.of_Z, JS.of_nat.
  destruct (Req_dec_T (INR (N gridSize)) 0); [lra|].
  apply JSFacts.overflow_in_range. lra.
Qed.

(** [local_correlations()] on a lattice of spins: minus the energy of
    [calc_lattice_energy()] over the number of bonds, [2 N]. *)
Lemma local_correlations_value (lat : lattice) :
  all_spins gridSize lat ->
  local_correlations gridSize lat
    = JS.Fin (- IZR (calc_lattice_energy gridSize lat) / (2 * INR (N gridSize))) /\
  (-1 <= - IZR (calc_lattice_energy gridSize lat) / (2 * INR (N gridSize)) <= 1)%R.
Proof using Hgrid Hmax.
  intros Hs. destruct N_in_range as [HN1 HM].
  assert (HN : (0 < INR (N gridSize))%R) by lra.
  unfold local_correlations.
  rewrite (foldl_nested
    (fun (R : JS.number) x y =>
       JS.add R (JS.div (JS.of_Z (calcDeltaE gridSize lat x y)) (JS.Fin 8)))).
  change (x ← seq 0 gridSize; y ← seq 0 gridSize; [(x, y)])
    with (Visitation.column_major gridSize).
  rewrite (foldl_add_map
    (fun c : coord => JS.div (JS.of_Z (calcDeltaE gridSize lat c.1 c.2)) (JS.Fin 8))).
  set (r := fun c : coord => (IZR (calcDeltaE gridSize lat c.1 c.2) / 8)%R).
  assert (Hr : forall c, c ∈ Visitation.column_major gridSize -> (Rabs (r c) <= 1)%R).
  { intros [x y] Hc. apply elem_of_column_major in Hc as [Hx Hy].
    pose proof (calcDeltaE_all_spins gridSize lat x y Hs Hx Hy) as Hd.
    apply list_elem_of_In in Hd. unfold r. cbn [fst snd].
    apply Rabs_le. simpl in Hd.
    destruct Hd as [<-|[<-|[<-|[<-|[<-|[]]]]]]; lra. }
  assert (Hmap : map (fun c : coord =>
                        JS.div (JS.of_Z (calcDeltaE gridSize lat c.1 c.2)) (JS.Fin 8))
                     (Visitation.column_major gridSize)
                 = map JS.Fin (map r (Visitation.column_major gridSize))).
  { rewrite map_map. apply map_ext_in. intros c Hc%list_elem_of_In.
    pose proof (Hr c Hc) as Hb. apply Rabs_bound in Hb.
    unfold JS.div, JS.of_Z. destruct (Req_dec_T 8 0); [lra|].
    apply JSFacts.overflow_in_range. lra. }
  rewrite Hmap.
  assert (Hall : Forall (fun q => (Rabs q <= 1)%R) (map r (Visitation.column_major gridSize))).
  { apply Forall_map, Forall_forall. intros c Hc. by apply Hr. }
  assert (Hlen : length (map r (Visitation.column_major gridSize)) = N gridSize).
  { rewrite length_map, (Permutation_length (column_major_sites gridSize)).
    apply length_sites. }
  rewrite (foldl_add_Fin 1) by (auto; rewrite Hlen, Rabs_R0; lra).
  pose proof (Rsum_abs_bound 1 _ Hall) as Hsum. rewrite Hlen in Hsum.
  unfold r in Hsum |- *. rewrite Rsum_of_Zsum in Hsum |- *.
  rewrite (Zsum_over_Permutation _ _ _ (column_major_sites gridSize)) in Hsum |- *.
  rewrite sum_calcDeltaE in Hsum |- * by assumption.
  rewrite mult_IZR in Hsum |- *.
  set (E := IZR (calc_lattice_energy gridSize lat)) in *.
  apply Rabs_bound in Hsum.
  assert (Heq : ((0 + -4 * E / 8) / INR (N gridSize) = - E / (2 * INR (N gridSize)))%R).
  { field. lra. }
  assert (Hq : (-1 <= - E / (2 * INR (N gridSize)) <= 1)%R).
  { rewrite <- Heq. split.
    - apply Rmult_le_reg_r with (INR (N gridSize)); [exact HN|].
      unfold Rdiv at 1. rewrite Rmult_assoc, Rinv_l by lra. lra.
    - apply Rmult_le_reg_r with (INR (N gridSize)); [exact HN|].
      unfold Rdiv at 1. rewrite Rmult_assoc, Rinv_l by lra. lra. }
  split; [|exact Hq].
  unfold JS.div, JS.of_nat. destruct (Req_dec_T (INR (N gridSize)) 0); [lra|].
  rewrite Heq. apply JSFacts.overflow_in_range. lra.
Qed.

End Readouts.

(** X2. On a lattice of spins the readout [local_correlations()] is the
    energy of [calc_lattice_energy()] with the sign reversed, divided by
    the number of bonds [2 N]: the two functions measure the same
    quantity. *)
Theorem local_correlations_is_energy_per_bond (gridSize : nat) (lat : lattice) :
  0 < gridSize -> (Z.of_nat (N gridSize) < 2 ^ 32)%Z -> all_spins gridSize lat ->
  local_correlations gridSize lat
  = JS.Fin (- IZR (calc_lattice_energy gridSize lat) / (2 * INR (N gridSize))).
Proof.
  intros Hgrid Hmax Hs.
  exact (proj1 (local_correlations_value gridSize Hgrid Hmax lat Hs)).
Qed.

Lemma local_correlations_is_energy_per_bond_witness :
  local_correlations 4 (all_up 4)
  = JS.Fin (- IZR (calc_lattice_energy 4 (all_up 4)) / (2 * INR (N 4))).
Proof.
  apply local_correlations_is_energy_per_bond;
    [lia|vm_compute; reflexivity|apply all_spins_all_up].
Defined.

(** X3. On a lattice of spins both readouts are numbers between -1 and 1,
    never NaN or infinite: [magnetization()] is the mean spin and
    [local_correlations()] lies in the same interval. *)
Theorem readouts_in_unit_interval (gridSize : nat) (lat : lattice) :
  0 < gridSize -> (Z.of_nat (N gridSize) < 2 ^ 32)%Z -> all_spins gridSize lat ->
  exists m r : R,
    magnetization gridSize lat = JS.Fin m /\
    local_correlations gridSize lat = JS.Fin r /\
    m = (IZR (spin_sum gridSize lat) / INR (N gridSize))%R /\
    (-1 <= m <= 1)%R /\ (-1 <= r <= 1)%R.
Proof.
  intros Hgrid Hmax Hs.
  destruct (magnetization_value gridSize Hgrid Hmax lat Hs) as [Hm Hmb].
  destruct (local_correlations_value gridSize Hgrid Hmax lat Hs) as [Hr Hrb].
  eexists _, _. split; [exact Hm|]. split; [exact Hr|]. split; [reflexivity|].
  split; assumption.
Qed.

Lemma readouts_in_unit_interval_witness :
  exists m r : R,
    magnetization 4 (all_up 4) = JS.Fin m /\
    local_correlations 4 (all_up 4) = JS.Fin r /\
    m = (IZR (spin_sum 4 (all_up 4)) / INR (N 4))%R /\
    (-1 <= m <= 1)%R /\ (-1 <= r <= 1)%R.
Proof.
  apply readouts_in_unit_interval;
    [lia|vm_compute; reflexivity|apply all_spins_all_up].
Defined.

(* ===================================================================== *)
(** * One sweep, five programs *)
(* ===================================================================== *)

(** Two loops whose bodies agree at every state and index. *)
Lemma foldl_ext_all {A B : Type} (f g : A -> B -> A) (l : list B) (a : A) :
  (forall a b, f a b = g a b) -> foldl f a l = foldl g a l.
Proof.
  intros H. revert a. induction l as [|b l IH]; intros a; [reflexivity|].
  simpl. rewrite H. apply IH.
Qed.

Section SharedSweep.

Variable gridSize : nat.

(** Under "M_rule" the [updateSpin] of Program 2 is the loop body of
    [runMetro] of Program 1, and under "G_rule" that of [runGlauber]. *)
Lemma updateSpin_is_metropolis (T : JS.number) (st : lattice * rng) (x y : nat) :
  MixAndMatch.updateSpin gridSize "M_rule" T st x y = metropolis_update gridSize T st x y.
Proof. destruct st as [lat g]. reflexivity. Qed.

Lemma updateSpin_is_glauber (T : JS.number) (st : lattice * rng) (x y : nat) :
  MixAndMatch.updateSpin gridSize "G_rule" T st x y = glauber_update gridSize T st x y.
Proof. destruct st as [lat g]. reflexivity. Qed.

(** What a run of [updateSpin] of Program 3 over a list of sites leaves:
    the lattice and the random source of the sweep with the M-rule, and
    every other variable untouched. *)
Lemma visitation_sweep (cs : list coord) (w : Visitation.world) :
  foldl (Visitation.updateSpin gridSize) w cs =
  Visitation.with_lat_rand w
    (sweep (metropolis_update gridSize (Visitation.temperature w)) cs
           (Visitation.lat w, Visitation.rand w)).
Proof.
  revert w. induction cs as [|c cs IH]; intros w.
  - destruct w; reflexivity.
  - cbn [foldl]. rewrite IH. unfold sweep. cbn [foldl].
    unfold Visitation.updateSpin at 2 3 4.
    cbn [Visitation.temperature Visitation.lat Visitation.rand Visitation.with_lat_rand].
    destruct (metropolis_update gridSize (Visitation.temperature w)
                (Visitation.lat w, Visitation.rand w) c.1 c.2) as [l g] eqn:E.
    unfold Visitation.updateSpin. rewrite E. reflexivity.
Qed.

Lemma typewriter_sweep_sweep (step : lattice * rng -> nat -> nat -> lattice * rng)
    (st : lattice * rng) :
  typewriter_sweep gridSize step st = sweep step (typewriterGen gridSize 0 0) st.
Proof.
  unfold typewriter_sweep, sweep, typewriterGen. rewrite !Nat.sub_0_r.
  apply (foldl_nested_yx (fun st x y => step st x y)).
Qed.

End SharedSweep.

(** X4. The sweeps of Programs 1, 2 and 3 are the same computation: from
    the same lattice, temperature and random source, [runBatch] of Program
    2 in "deterministic" order with "M_rule" produces the lattice and the
    random source of [runMetro] of Program 1 and of [runMetro_typewriter]
    of Program 3; in "random" order with "G_rule" it produces those of
    [runGlauber] of Program 1, and with "M_rule" those of [runMetro_random]
    of Program 3. *)
Theorem sweeps_agree_across_programs (gridSize : nat)
    (w1 : MetroVGlauber.world) (w3 : Visitation.world) :
  let st1 := (MetroVGlauber.lat w1, MetroVGlauber.rand w1) in
  let st3 := (Visitation.lat w3, Visitation.rand w3) in
  let out1 (w : MetroVGlauber.world) := (MetroVGlauber.lat w, MetroVGlauber.rand w) in
  let out3 (w : Visitation.world) := (Visitation.lat w, Visitation.rand w) in
  MixAndMatch.runBatch gridSize "deterministic" "M_rule" (MetroVGlauber.temperature w1) st1
    = out1 (MetroVGlauber.runMetro gridSize w1) /\
  MixAndMatch.runBatch gridSize "random" "G_rule" (MetroVGlauber.temperature w1) st1
    = out1 (MetroVGlauber.runGlauber gridSize w1) /\
  MixAndMatch.runBatch gridSize "deterministic" "M_rule" (Visitation.temperature w3) st3
    = out3 (Visitation.runMetro_typewriter gridSize w3) /\
  MixAndMatch.runBatch gridSize "random" "M_rule" (Visitation.temperature w3) st3
    = out3 (Visitation.runMetro_random gridSize w3).
Proof.
  intros st1 st3 out1 out3. unfold MixAndMatch.runBatch.
  change (String.eqb "deterministic" "deterministic") with true.
  change (String.eqb "random" "deterministic") with false.
  change (String.eqb "random" "random") with true. cbv iota.
  assert (HM : forall T st,
    typewriter_sweep gridSize (MixAndMatch.updateSpin gridSize "M_rule" T) st
    = typewriter_sweep gridSize (metropolis_update gridSize T) st).
  { intros T st. unfold typewriter_sweep. apply foldl_ext_all. intros a y.
    apply foldl_ext_all. intros b x. apply updateSpin_is_metropolis. }
  assert (HR : forall T st,
    random_sweep gridSize (MixAndMatch.updateSpin gridSize "M_rule" T) st
    = random_sweep gridSize (metropolis_update gridSize T) st).
  { intros T st. unfold random_sweep. apply foldl_ext_all. intros a _.
    destruct (random_index gridSize a.2) as [x g1].
    destruct (random_index gridSize g1) as [y g2]. apply updateSpin_is_metropolis. }
  assert (HG : forall T st,
    random_sweep gridSize (MixAndMatch.updateSpin gridSize "G_rule" T) st
    = random_sweep gridSize (glauber_update gridSize T) st).
  { intros T st. unfold random_sweep. apply foldl_ext_all. intros a _.
    destruct (random_index gridSize a.2) as [x g1].
    destruct (random_index gridSize g1) as [y g2]. apply updateSpin_is_glauber. }
  split; [|split; [|split]].
  - rewrite HM. unfold out1, MetroVGlauber.runMetro. cbn. by destruct (typewriter_sweep _ _ _).
  - rewrite HG. unfold out1, MetroVGlauber.runGlauber. cbn. by destruct (random_sweep _ _ _).
  - rewrite HM, typewriter_sweep_sweep. unfold out3, Visitation.runMetro_typewriter.
    rewrite (foldl_nested_yx (fun w x y => Visitation.updateSpin gridSize w (x, y))).
    change (foldl _ w3 _) with
      (foldl (Visitation.updateSpin gridSize) w3
         (y ← seq 0 gridSize; x ← seq 0 gridSize; [(x, y)])).
    rewrite visitation_sweep. unfold typewriterGen. rewrite !Nat.sub_0_r.
    cbn. by destruct (sweep _ _ _).
  - rewrite HR. unfold out3, Visitation.runMetro_random. cbn. by destruct (random_sweep _ _ _).
Qed.

(* ===================================================================== *)
(** * The Microscope, tick by tick *)
(* ===================================================================== *)

Section MicroscopeSequential.

Variable gridSize : nat.

Local Abbreviation world := Microscope.world.
Local Abbreviation macrostep := (Microscope.macrostep gridSize).

(** What an accepted or rejected proposal of the acceptor [r] makes of the
    lattice and the random source, outside the 'simultaneous' sequence. *)
Definition rule_update (r : Microscope.rule) (T : JS.number) (st : lattice * rng)
    (x y : nat) : lattice * rng :=
  let (flipSpin, g) := Microscope.apply_rule gridSize r st.1 T x y st.2 in
  (if flipSpin then flip st.1 x y else st.1, g).

(** The M-rule of the Microscope is the loop body of [runMetro]. *)
Lemma rule_update_M (T : JS.number) (st : lattice * rng) (x y : nat) :
  rule_update Microscope.M_rule T st x y = metropolis_update gridSize T st x y.
Proof.
  destruct st as [lat g].
  unfold rule_update, metropolis_update, Microscope.apply_rule, Microscope.MRuleFn.
  cbn [fst snd]. destruct (_ <=? 0)%Z; [reflexivity|].
  unfold Math_random. case_lt; reflexivity.
Qed.

Lemma rule_update_G (T : JS.number) (st : lattice * rng) (x y : nat) :
  rule_update Microscope.G_rule T st x y = glauber_update gridSize T st x y.
Proof.
  destruct st as [lat g].
  unfold rule_update, glauber_update, Microscope.apply_rule, Microscope.GRuleFn.
  cbn [fst snd]. unfold Math_random. case_lt; reflexivity.
Qed.

(** The variables a tick inside a sweep leaves alone. *)
Definition same_settings (w w' : world) : Prop :=
  Microscope.visitSeq w' = Microscope.visitSeq w /\
  Microscope.acceptor w' = Microscope.acceptor w /\
  Microscope.temperature w' = Microscope.temperature w /\
  Microscope.nextXYgen w' = Microscope.nextXYgen w /\
  Microscope.state w' = Microscope.state w /\
  Microscope.macrostepTimer w' = Microscope.macrostepTimer w /\
  Microscope.thePermutation w' = Microscope.thePermutation w /\
  Microscope.toBeFlippedArray w' = Microscope.toBeFlippedArray w.

Lemma same_settings_refl (w : world) : same_settings w w.
Proof. repeat split. Qed.

Lemma same_settings_trans (w1 w2 w3 : world) :
  same_settings w1 w2 -> same_settings w2 w3 -> same_settings w1 w3.
Proof. unfold same_settings. intros H1 H2. intuition congruence. Qed.

(** [updateSpin] outside the 'simultaneous' sequence. *)
Lemma updateSpin_sequential (w : world) (x y : nat) :
  Microscope.visitSeq w <> "simultaneous" ->
  let w' := Microscope.updateSpin gridSize w x y in
  (Microscope.lat w', Microscope.rand w') =
    rule_update (Microscope.acceptor w) (Microscope.temperature w)
                (Microscope.lat w, Microscope.rand w) x y /\
  Microscope.XYiterator w' = Microscope.XYiterator w /\
  Microscope.visitedArray w' = set_flag (Microscope.visitedArray w) x y true /\
  same_settings w w'.
Proof.
  intros Hseq. unfold Microscope.updateSpin, rule_update.
  cbn [Microscope.acceptor Microscope.lat Microscope.temperature Microscope.rand
       Microscope.with_visited fst snd].
  destruct (Microscope.apply_rule gridSize (Microscope.acceptor w) (Microscope.lat w)
              (Microscope.temperature w) x y (Microscope.rand w)) as [[|] g].
  - cbn [Microscope.visitSeq Microscope.with_rand Microscope.with_visited].
    apply String.eqb_neq in Hseq. rewrite Hseq. cbv zeta.
    repeat split.
  - cbv zeta. repeat split.
Qed.

(** One tick of the macrostep timer inside a sweep. *)
Lemma macrostep_sequential (w : world) (c : coord) (rest : list coord) :
  Microscope.XYiterator w = Microscope.Remaining (c :: rest) ->
  Microscope.visitSeq w <> "simultaneous" ->
  let w' := macrostep w in
  (Microscope.lat w', Microscope.rand w') =
    rule_update (Microscope.acceptor w) (Microscope.temperature w)
                (Microscope.lat w, Microscope.rand w) c.1 c.2 /\
  Microscope.XYiterator w' = Microscope.Remaining rest /\
  Microscope.visitedArray w' = set_flag (Microscope.visitedArray w) c.1 c.2 true /\
  same_settings w w'.
Proof.
  intros Hit Hseq. destruct c as [x y].
  unfold Microscope.macrostep, Microscope.iterator_next. rewrite Hit.
  set (w1 := Microscope.with_rand (Microscope.with_iterator w (Microscope.Remaining rest))
               (Microscope.rand w)).
  exact (updateSpin_sequential w1 x y Hseq).
Qed.

(** [k] ticks inside a sweep are the first [k] steps of the sweep. *)
Lemma macrostep_ticks (k : nat) :
  forall (w : world) (rest : list coord),
    Microscope.XYiterator w = Microscope.Remaining rest ->
    Microscope.visitSeq w <> "simultaneous" ->
    k <= length rest ->
    let w' := Nat.iter k macrostep w in
    (Microscope.lat w', Microscope.rand w') =
      sweep (rule_update (Microscope.acceptor w) (Microscope.temperature w))
            (take k rest) (Microscope.lat w, Microscope.rand w) /\
    Microscope.XYiterator w' = Microscope.Remaining (drop k rest) /\
    same_settings w w' /\
    (flag_dims gridSize (Microscope.visitedArray w) ->
     flag_dims gridSize (Microscope.visitedArray w')).
Proof.
  induction k as [|k IH]; intros w rest Hit Hseq Hk.
  - cbn. rewrite drop_0. split; [reflexivity|]. split; [exact Hit|].
    split; [apply same_settings_refl|auto].
  - destruct rest as [|c rest]; [simpl in Hk; lia|].
    cbv zeta. rewrite Nat.iter_succ_r.
    destruct (macrostep_sequential w c rest Hit Hseq) as (Hst & Hit' & Hvis & Hsame).
    assert (Hseq' : Microscope.visitSeq (macrostep w) <> "simultaneous").
    { destruct Hsame as (-> & _). exact Hseq. }
    destruct (IH (macrostep w) rest Hit' Hseq' ltac:(simpl in Hk; lia))
      as (Hst' & Hit'' & Hsame' & Hvis').
    split; [|split; [|split]].
    + rewrite Hst'. cbn [take]. unfold sweep. cbn [foldl]. rewrite <- Hst.
      destruct Hsame as (_ & -> & -> & _). reflexivity.
    + exact Hit''.
    + by apply (same_settings_trans _ _ _ Hsame).
    + intros Hd. apply Hvis'. rewrite Hvis. by apply flag_dims_set_flag.
Qed.

(** [clearLattice(grid, false)] leaves no flag set. *)
Lemma clearLattice_cells (f : flags) (b : bool) (x y : nat) :
  flag_dims gridSize f -> x < gridSize -> y < gridSize ->
  flag (Microscope.clearLattice gridSize f b) x y = b /\
  flag_dims gridSize (Microscope.clearLattice gridSize f b).
Proof.
  intros Hd Hx Hy. unfold Microscope.clearLattice.
  rewrite (foldl_nested_yx (fun (f : flags) x y => set_flag f x y b)).
  set (cs := y ← seq 0 gridSize; x ← seq 0 gridSize; [(x, y)]).
  assert (Hall : forall (l : list coord) (f0 : flags),
    flag_dims gridSize f0 ->
    (forall c, c ∈ l -> c.1 < gridSize /\ c.2 < gridSize) ->
    let f' := foldl (fun (f : flags) (c : coord) => set_flag f c.1 c.2 b) f0 l in
    flag_dims gridSize f' /\
    forall x y, x < gridSize -> y < gridSize ->
      flag f' x y = if bool_decide ((x, y) ∈ l) then b else flag f0 x y).
  { induction l as [|c l IHl] using rev_ind; intros f0 Hf0 Hin.
    - cbn. split; [exact Hf0|]. intros. reflexivity.
    - cbv zeta. rewrite foldl_app. cbn [foldl].
      destruct (IHl f0 Hf0) as [Hd' Hc'].
      { intros c' Hc0. apply Hin, elem_of_app. by left. }
      destruct (Hin c) as [Hcx Hcy]. { apply elem_of_app. right. by left. }
      split; [by apply flag_dims_set_flag|].
      intros x' y' Hx' Hy'.
      destruct (decide (c = (x', y'))) as [->|Hne].
      + cbn [fst snd]. rewrite (flag_set_flag_same gridSize) by assumption.
        rewrite bool_decide_eq_true_2; [reflexivity|].
        apply elem_of_app. right. by left.
      + destruct c as [cx cy]. cbn [fst snd].
        rewrite flag_set_flag_other by assumption.
        rewrite Hc' by assumption.
        destruct (bool_decide ((x', y') ∈ l)) eqn:Hb.
        * rewrite bool_decide_eq_true_2; [reflexivity|].
          apply elem_of_app. left. by apply bool_decide_eq_true_1 in Hb.
        * rewrite bool_decide_eq_false_2; [reflexivity|].
          apply bool_decide_eq_false_1 in Hb. intros [H|H]%elem_of_app; [done|].
          apply list_elem_of_singleton in H. congruence. }
  destruct (Hall cs f Hd) as [Hd' Hc'].
  { intros [cx cy] Hc. apply elem_of_pairs_swap in Hc. rewrite !elem_of_seq in Hc.
    cbn [fst snd]. lia. }
  split; [|exact Hd'].
  rewrite Hc' by assumption. rewrite bool_decide_eq_true_2; [reflexivity|].
  apply elem_of_pairs_swap. rewrite !elem_of_seq. lia.
Qed.

(** The coordinates a generator yields when its order does not depend
    on the random source. *)
Definition generator_coords (gen : Microscope.generator) (perm : list nat)
  : option (list coord) :=
  match gen with
  | Microscope.GenTypewriter => Some (typewriterGen gridSize 0 0)
  | Microscope.GenSimultaneous => Some (simultaneousGen gridSize 0 0)
  | Microscope.GenCheckerboard => Some (checkerboardGen gridSize)
  | Microscope.GenDiagonal => Some (diagonalGen gridSize)
  | Microscope.GenPermuted => Some (permutedGen gridSize perm)
  | Microscope.GenRepermuted | Microscope.GenRandom => None
  end.

(** The first tick starts the generator. *)
Lemma macrostep_begin (w : world) (gen : Microscope.generator) (cs : list coord) :
  Microscope.XYiterator w = Microscope.NotStarted gen ->
  generator_coords gen (Microscope.thePermutation w) = Some cs ->
  macrostep w = macrostep (Microscope.with_iterator w (Microscope.Remaining cs)).
Proof.
  intros Hit Hcs. unfold Microscope.macrostep, Microscope.iterator_next. rewrite Hit.
  cbn [Microscope.XYiterator Microscope.with_iterator Microscope.thePermutation
       Microscope.rand].
  destruct gen; cbn in Hcs; try discriminate; injection Hcs as <-;
    match goal with |- context [Microscope.Remaining ?l] => destruct l as [|[x y] l'] end;
    reflexivity.
Qed.

(** The tick after the last coordinate stops the timer and rewinds. *)
Lemma macrostep_done (w : world) :
  Microscope.XYiterator w = Microscope.Remaining [] ->
  Microscope.visitSeq w <> "simultaneous" ->
  macrostep w =
  Microscope.with_visited
    (Microscope.with_iterator (Microscope.with_idle w)
       (Microscope.NotStarted (Microscope.nextXYgen w)))
    (Microscope.clearLattice gridSize (Microscope.visitedArray w) false).
Proof.
  intros Hit Hseq. unfold Microscope.macrostep, Microscope.iterator_next. rewrite Hit.
  cbn [Microscope.visitSeq Microscope.with_visited Microscope.with_iterator
       Microscope.with_idle Microscope.with_rand].
  apply String.eqb_neq in Hseq. rewrite Hseq.
  destruct w; reflexivity.
Qed.

End MicroscopeSequential.

(** X5. A press of the Macrostep button of the Microscope performs one
    sweep and stops.  With a sequence other than 'simultaneous' whose
    generator yields the coordinates [cs] (typewriter, checkerboard,
    diagonal, permuted), the first [length cs] ticks of [macrostep] apply
    the acceptor to the sites of [cs] in order, each on the lattice the
    previous ones left; the next tick changes neither the lattice nor the
    random source, sets [state] to 'idle', stops the timer, rewinds the
    iterator and clears every visited mark.  With the typewriter sequence
    and the M-rule the sweep is [runMetro] of Program 1. *)
Theorem macrostep_run_is_one_sweep (gridSize : nat) (w : Microscope.world)
    (gen : Microscope.generator) (cs : list coord) :
  Microscope.XYiterator w = Microscope.NotStarted gen ->
  generator_coords gridSize gen (Microscope.thePermutation w) = Some cs ->
  Microscope.visitSeq w <> "simultaneous" ->
  flag_dims gridSize (Microscope.visitedArray w) ->
  let w' := Nat.iter (length cs) (Microscope.macrostep gridSize) w in
  let w'' := Microscope.macrostep gridSize w' in
  (Microscope.lat w', Microscope.rand w') =
    sweep (rule_update gridSize (Microscope.acceptor w) (Microscope.temperature w)) cs
          (Microscope.lat w, Microscope.rand w) /\
  (Microscope.acceptor w = Microscope.M_rule -> gen = Microscope.GenTypewriter ->
   (Microscope.lat w', Microscope.rand w') =
     typewriter_sweep gridSize (metropolis_update gridSize (Microscope.temperature w))
                      (Microscope.lat w, Microscope.rand w)) /\
  Microscope.lat w'' = Microscope.lat w' /\
  Microscope.rand w'' = Microscope.rand w' /\
  Microscope.state w'' = "idle" /\
  Microscope.macrostepTimer w'' = false /\
  Microscope.XYiterator w'' = Microscope.NotStarted (Microscope.nextXYgen w) /\
  (forall x y, x < gridSize -> y < gridSize ->
     flag (Microscope.visitedArray w'') x y = false).
Proof.
  intros Hit Hcs Hseq Hvis w' w''.
  set (w0 := Microscope.with_iterator w (Microscope.Remaining cs)).
  assert (Hstart : forall k,
    Microscope.macrostep gridSize (Nat.iter k (Microscope.macrostep gridSize) w) =
    Microscope.macrostep gridSize (Nat.iter k (Microscope.macrostep gridSize) w0) /\
    (Microscope.lat (Nat.iter k (Microscope.macrostep gridSize) w),
     Microscope.rand (Nat.iter k (Microscope.macrostep gridSize) w)) =
    (Microscope.lat (Nat.iter k (Microscope.macrostep gridSize) w0),
     Microscope.rand (Nat.iter k (Microscope.macrostep gridSize) w0))).
  { intros [|k].
    - split; [by apply (macrostep_begin gridSize w gen)|reflexivity].
    - rewrite !Nat.iter_succ_r, (macrostep_begin gridSize w gen cs Hit Hcs).
      split; reflexivity. }
  destruct (Hstart (length cs)) as [Hlast Hpair]. fold w' in Hlast, Hpair.
  destruct (macrostep_ticks gridSize (length cs) w0 cs eq_refl Hseq (le_n _))
    as (Hst & Hit' & Hsame & Hvis').
  rewrite firstn_all in Hst. rewrite drop_all in Hit'.
  set (w0' := Nat.iter (length cs) (Microscope.macrostep gridSize) w0) in *.
  assert (Hseq' : Microscope.visitSeq w0' <> "simultaneous").
  { destruct Hsame as (-> & _). exact Hseq. }
  assert (Hsweep : (Microscope.lat w', Microscope.rand w') =
    sweep (rule_update gridSize (Microscope.acceptor w) (Microscope.temperature w)) cs
          (Microscope.lat w, Microscope.rand w)).
  { rewrite Hpair. exact Hst. }
  split; [exact Hsweep|]. split.
  { intros Hacc ->. injection Hcs as <-. rewrite Hsweep, Hacc, typewriter_sweep_sweep.
    unfold sweep. apply foldl_ext_all. intros st c. apply rule_update_M. }
  unfold w''. rewrite Hlast, (macrostep_done gridSize w0' Hit' Hseq').
  injection Hpair as Hl Hr.
  cbn [Microscope.lat Microscope.rand Microscope.state Microscope.macrostepTimer
       Microscope.XYiterator Microscope.visitedArray Microscope.nextXYgen
       Microscope.with_visited Microscope.with_iterator Microscope.with_idle].
  split; [by rewrite Hl|]. split; [by rewrite Hr|]. split; [reflexivity|].
  split; [reflexivity|]. split.
  { destruct Hsame as (_ & _ & _ & -> & _). reflexivity. }
  intros x y Hx Hy. apply (clearLattice_cells gridSize); auto.
Qed.

(** The Microscope with every spin up and the typewriter sequence. *)
Definition microscope_typewriter : Microscope.world :=
  Microscope.mk_world (all_up 20) (all_clear 20) (all_clear 20) (JS.Fin 1)
    "typewriter" Microscope.GenTypewriter
    (Microscope.NotStarted Microscope.GenTypewriter) Microscope.M_rule
    (seq 0 400) "busy" true rng_zero.

Lemma macrostep_run_is_one_sweep_witness :
  let w' := Nat.iter (length (typewriterGen 20 0 0)) (Microscope.macrostep 20)
                     microscope_typewriter in
  (Microscope.lat w', Microscope.rand w') =
    typewriter_sweep 20 (metropolis_update 20 (JS.Fin 1)) (all_up 20, rng_zero) /\
  Microscope.state (Microscope.macrostep 20 w') = "idle".
Proof.
  pose proof (macrostep_run_is_one_sweep 20 microscope_typewriter
                Microscope.GenTypewriter (typewriterGen 20 0 0) eq_refl eq_refl
                ltac:(discriminate) (flag_dims_all_clear 20))
    as (_ & H2 & _ & _ & H5 & _).
  split; [exact (H2 eq_refl eq_refl)|exact H5].
Defined.

(* ===================================================================== *)
(** * Program 5: the page around the engine *)
(* ===================================================================== *)

Module MicroscopePage.

Section Program.

Variable gridSize : nat.   (* 20 in the source *)

(** The variables of the page beside those of the engine. *)
Record page : Type := mk_page {
  engine : Microscope.world;
  runTimer : bool;          (* whether the runForever interval is running *)
  runButton : string;       (* label of the Run/Stop button *)
  initPattern : string
}.

Definition with_engine (p : page) (w : Microscope.world) : page :=
  mk_page w (runTimer p) (runButton p) (initPattern p).

Definition with_permutation (w : Microscope.world) (perm : list nat) : Microscope.world :=
  Microscope.mk_world (Microscope.lat w) (Microscope.visitedArray w)
    (Microscope.toBeFlippedArray w) (Microscope.temperature w) (Microscope.visitSeq w)
    (Microscope.nextXYgen w) (Microscope.XYiterator w) (Microscope.acceptor w) perm
    (Microscope.state w) (Microscope.macrostepTimer w) (Microscope.rand w).

Definition with_sequence (w : Microscope.world) (name : string) (gen : Microscope.generator)
  : Microscope.world :=
  Microscope.mk_world (Microscope.lat w) (Microscope.visitedArray w)
    (Microscope.toBeFlippedArray w) (Microscope.temperature w) name
    gen (Microscope.NotStarted gen) (Microscope.acceptor w) (Microscope.thePermutation w)
    (Microscope.state w) (Microscope.macrostepTimer w) (Microscope.rand w).

(** [state = 'busy'; macrostepTimer = setInterval(macrostep, 50)]. *)
Definition with_busy (w : Microscope.world) (macro : bool) : Microscope.world :=
  Microscope.mk_world (Microscope.lat w) (Microscope.visitedArray w)
    (Microscope.toBeFlippedArray w) (Microscope.temperature w) (Microscope.visitSeq w)
    (Microscope.nextXYgen w) (Microscope.XYiterator w) (Microscope.acceptor w)
    (Microscope.thePermutation w) "busy" macro (Microscope.rand w).

(** The fill loops of [init]: [lattice[x][y] = v], [y] outermost. *)
Definition fill_yx (v : Z) (lat : lattice) : lattice :=
  foldl (fun lat y => foldl (fun lat x => put lat x y v) lat (seq 0 gridSize))
        lat (seq 0 gridSize).

(** [init()]. *)
Definition init (p : page) : page :=
  let w := engine p in
  let (perm, g) := randomPermutation (N gridSize) (Microscope.rand w) in
  let w := Microscope.with_rand (with_permutation w perm) g in
  let w := Microscope.with_iterator w (Microscope.NotStarted (Microscope.nextXYgen w)) in
  let st :=
    if String.eqb (initPattern p) "init-random" then
      scramble_yx gridSize (Microscope.lat w, Microscope.rand w)
    else if String.eqb (initPattern p) "init-up" then
      (fill_yx 1 (Microscope.lat w), Microscope.rand w)
    else if String.eqb (initPattern p) "init-down" then
      (fill_yx (-1) (Microscope.lat w), Microscope.rand w)
    else (Microscope.lat w, Microscope.rand w) in
  let w := Microscope.with_rand (Microscope.with_lat w st.1) st.2 in
  let w := Microscope.with_visited w
             (Microscope.clearLattice gridSize (Microscope.visitedArray w) false) in
  let w := Microscope.with_toBeFlipped w
             (Microscope.clearLattice gridSize (Microscope.toBeFlippedArray w) false) in
  mk_page w (runTimer p) "Run" (initPattern p).

(** [let nextCoords = XYiterator.next()], the iterator and the random
    source updated. *)
Definition next_coords (w : Microscope.world) : option coord * Microscope.world :=
  let '(nextCoords, it, g) :=
    Microscope.iterator_next gridSize (Microscope.thePermutation w)
      (Microscope.XYiterator w) (Microscope.rand w) in
  (nextCoords, Microscope.with_rand (Microscope.with_iterator w it) g).

(** [XYiterator = nextXYgen(); nextCoords = XYiterator.next()]. *)
Definition restart_coords (w : Microscope.world) : option coord * Microscope.world :=
  next_coords (Microscope.with_iterator w (Microscope.NotStarted (Microscope.nextXYgen w))).

(** [let {x: x, y: y} = nextCoords.value; updateSpin(x, y)]: the
    destructuring of [undefined] is a TypeError. *)
Definition update_at (nextCoords : option coord) (w : Microscope.world)
  : Microscope.world * result unit :=
  match nextCoords with
  | Some (x, y) => (Microscope.updateSpin gridSize w x y, Ok tt)
  | None => (w, Throw TypeError)
  end.

(** [runForever()]: one tick of the run timer. *)
Definition runForever (w : Microscope.world) : Microscope.world * result unit :=
  let (nextCoords, w) := next_coords w in
  match nextCoords with
  | Some c => update_at (Some c) w
  | None =>
      let (nextCoords, w) := restart_coords w in
      let w := Microscope.with_visited w
                 (Microscope.clearLattice gridSize (Microscope.visitedArray w) false) in
      let w := if String.eqb (Microscope.visitSeq w) "simultaneous"
               then Microscope.simultaneousUpdate gridSize w else w in
      update_at nextCoords w
  end.

(** [clearInterval(runTimer); clearInterval(macrostepTimer);
    theRunButton.innerHTML = "Run"; state = 'idle'], the common branch of
    the three buttons. *)
Definition stop (p : page) : page :=
  mk_page (Microscope.with_idle (engine p)) false "Run" (initPattern p).

(** [doMicroButton(e)]. *)
Definition doMicroButton (p : page) : page * result unit :=
  if String.eqb (Microscope.state (engine p)) "busy" then (stop p, Ok tt)
  else
    let (nextCoords, w) := next_coords (engine p) in
    match nextCoords with
    | Some c =>
        let (w, r) := update_at (Some c) w in (with_engine p w, r)
    | None =>
        let w := Microscope.with_visited w
                   (Microscope.clearLattice gridSize (Microscope.visitedArray w) false) in
        let w := Microscope.with_toBeFlipped w
                   (Microscope.clearLattice gridSize (Microscope.toBeFlippedArray w) false) in
        let (nextCoords, w) := restart_coords w in
        let (w, r) := update_at nextCoords w in (with_engine p w, r)
    end.

(** [doMacroButton(e)]. *)
Definition doMacroButton (p : page) : page :=
  if String.eqb (Microscope.state (engine p)) "busy" then stop p
  else with_engine p (with_busy (engine p) true).

(** [doRunButton(e)]. *)
Definition doRunButton (p : page) : page :=
  if String.eqb (Microscope.state (engine p)) "busy" then stop p
  else
    mk_page (with_busy (engine p) (Microscope.macrostepTimer (engine p)))
            true "Stop" (initPattern p).

(** [doResetButton(e)]. *)
Definition doResetButton (p : page) : page :=
  init (mk_page (Microscope.with_idle (engine p)) false (runButton p) (initPattern p)).

(** [chooseInitPattern(e)], for the value [pattern] of the radio button. *)
Definition chooseInitPattern (pattern : string) (p : page) : page :=
  let p := mk_page (engine p) (runTimer p) (runButton p) pattern in
  if String.eqb (Microscope.state (engine p)) "idle" then
    let w := engine p in
    init (mk_page
            (Microscope.mk_world (Microscope.lat w) (Microscope.visitedArray w)
               (Microscope.toBeFlippedArray w) (Microscope.temperature w)
               (Microscope.visitSeq w) (Microscope.nextXYgen w) (Microscope.XYiterator w)
               (Microscope.acceptor w) (Microscope.thePermutation w) (Microscope.state w)
               false (Microscope.rand w))
            false (runButton p) (initPattern p))
  else p.

(** [macroQuickstep()] of [statsNeutralCounts] and [lifetimes]: a fresh
    local iterator run until it is done, every accepted flip made at once.
    [None]: the fuel ran out first. *)
Fixpoint quick_loop (fuel : nat) (perm : list nat) (r : Microscope.rule) (T : JS.number)
    (it : Microscope.iterator) (st : lattice * rng) : option (lattice * rng) :=
  match fuel with
  | O => None
  | S fuel' =>
      let '(nextCoords, it', g) := Microscope.iterator_next gridSize perm it st.2 in
      match nextCoords with
      | None => Some (st.1, g)
      | Some (x, y) =>
          let (flipSpin, g') := Microscope.apply_rule gridSize r st.1 T x y g in
          quick_loop fuel' perm r T it' (if flipSpin then flip st.1 x y else st.1, g')
      end
  end.

Definition macroQuickstep (fuel : nat) (w : Microscope.world) : option Microscope.world :=
  match quick_loop fuel (Microscope.thePermutation w) (Microscope.acceptor w)
          (Microscope.temperature w) (Microscope.NotStarted (Microscope.nextXYgen w))
          (Microscope.lat w, Microscope.rand w) with
  | None => None
  | Some st => Some (Microscope.with_rand (Microscope.with_lat w st.1) st.2)
  end.

(** [tallyUpsDownsNeutrals()]: the four counters. *)
Record tally : Type := mk_tally { uc : nat; dc : nat; un : nat; dn : nat }.

Definition tally_cell (lat : lattice) (t : tally) (x y : nat) : tally :=
  if (get lat x y =? 1)%Z then
    let t := mk_tally (S (uc t)) (dc t) (un t) (dn t) in
    if (calcDeltaE gridSize lat x y =? 0)%Z
    then mk_tally (uc t) (dc t) (S (un t)) (dn t) else t
  else
    let t := mk_tally (uc t) (S (dc t)) (un t) (dn t) in
    if (calcDeltaE gridSize lat x y =? 0)%Z
    then mk_tally (uc t) (dc t) (un t) (S (dn t)) else t.

Definition tallyUpsDownsNeutrals (lat : lattice) : tally :=
  foldl (fun t y => foldl (fun t x => tally_cell lat t x y) t (seq 0 gridSize))
        (mk_tally 0 0 0 0) (seq 0 gridSize).

(** [countNeutralSites()]: the two numbers it prints, [upSum] first. *)
Definition countNeutralSites (lat : lattice) : nat * nat :=
  foldl (fun s y =>
           foldl (fun (s : nat * nat) x =>
                    if (calcDeltaE gridSize lat x y =? 0)%Z then
                      if (get lat x y =? 1)%Z then (S s.1, s.2) else (s.1, S s.2)
                    else s)
                 s (seq 0 gridSize))
        (0, 0) (seq 0 gridSize).

(** [makeCircle(radius)]: the cells within [radius] of the centre are
    set to 1. *)
Definition distanceToCenter (x y : nat) : JS.number :=
  let center := JS.div (JS.of_nat gridSize) (JS.Fin 2) in
  let dx := JS.sub (JS.of_nat x) center in
  let dy := JS.sub (JS.of_nat y) center in
  JS.Math_sqrt (JS.add (JS.mul dx dx) (JS.mul dy dy)).

Definition makeCircle (radius : JS.number) (lat : lattice) : lattice :=
  foldl (fun lat y =>
           foldl (fun lat x =>
                    if JS.le (distanceToCenter x y) radius then put lat x y 1 else lat)
                 lat (seq 0 gridSize))
        lat (seq 0 gridSize).

End Program.

End MicroscopePage.

Section MicroscopeControl.

Variable gridSize : nat.

Local Abbreviation world := Microscope.world.
Local Abbreviation page := MicroscopePage.page.

(** The variables that only the buttons and the end of a macrostep
    change. *)
Definition same_control (w w' : world) : Prop :=
  Microscope.state w' = Microscope.state w /\
  Microscope.macrostepTimer w' = Microscope.macrostepTimer w /\
  Microscope.visitSeq w' = Microscope.visitSeq w /\
  Microscope.nextXYgen w' = Microscope.nextXYgen w /\
  Microscope.acceptor w' = Microscope.acceptor w /\
  Microscope.temperature w' = Microscope.temperature w /\
  Microscope.thePermutation w' = Microscope.thePermutation w.

Lemma same_control_refl (w : world) : same_control w w.
Proof. repeat split. Qed.

Lemma same_control_trans (w1 w2 w3 : world) :
  same_control w1 w2 -> same_control w2 w3 -> same_control w1 w3.
Proof. unfold same_control. intros H1 H2. intuition congruence. Qed.

Lemma updateSpin_control (w : world) (x y : nat) :
  same_control w (Microscope.updateSpin gridSize w x y).
Proof.
  unfold Microscope.updateSpin.
  cbn [Microscope.acceptor Microscope.lat Microscope.temperature Microscope.rand
       Microscope.with_visited].
  destruct (Microscope.apply_rule _ _ _ _ _ _ _) as [[|] g].
  - cbn [Microscope.visitSeq Microscope.with_rand Microscope.with_visited].
    destruct (String.eqb _ _); repeat split.
  - repeat split.
Qed.

Lemma next_coords_control (w : world) :
  same_control w (MicroscopePage.next_coords gridSize w).2 /\
  Microscope.lat (MicroscopePage.next_coords gridSize w).2 = Microscope.lat w /\
  Microscope.toBeFlippedArray (MicroscopePage.next_coords gridSize w).2
    = Microscope.toBeFlippedArray w /\
  Microscope.visitedArray (MicroscopePage.next_coords gridSize w).2
    = Microscope.visitedArray w.
Proof.
  unfold MicroscopePage.next_coords.
  destruct (Microscope.iterator_next _ _ _ _) as [[nc it] g]. repeat split.
Qed.

Lemma restart_coords_control (w : world) :
  same_control w (MicroscopePage.restart_coords gridSize w).2 /\
  Microscope.lat (MicroscopePage.restart_coords gridSize w).2 = Microscope.lat w /\
  Microscope.toBeFlippedArray (MicroscopePage.restart_coords gridSize w).2
    = Microscope.toBeFlippedArray w /\
  Microscope.visitedArray (MicroscopePage.restart_coords gridSize w).2
    = Microscope.visitedArray w.
Proof.
  unfold MicroscopePage.restart_coords.
  exact (next_coords_control
           (Microscope.with_iterator w (Microscope.NotStarted (Microscope.nextXYgen w)))).
Qed.

Lemma update_at_control (nc : option coord) (w : world) :
  same_control w (MicroscopePage.update_at gridSize nc w).1.
Proof.
  destruct nc as [[x y]|]; cbn; [apply updateSpin_control|apply same_control_refl].
Qed.

Lemma update_at_simultaneous (nc : option coord) (w : world) :
  Microscope.visitSeq w = "simultaneous" ->
  Microscope.lat (MicroscopePage.update_at gridSize nc w).1 = Microscope.lat w.
Proof.
  intros Hseq. destruct nc as [[x y]|]; cbn; [|reflexivity].
  by destruct (updateSpin_simultaneous gridSize w x y Hseq) as (H & _).
Qed.

(** One press of the Microstep button under the 'simultaneous' sequence. *)
Lemma doMicroButton_simultaneous (p : page) :
  Microscope.visitSeq (MicroscopePage.engine p) = "simultaneous" ->
  let p' := (MicroscopePage.doMicroButton gridSize p).1 in
  Microscope.lat (MicroscopePage.engine p') = Microscope.lat (MicroscopePage.engine p) /\
  Microscope.visitSeq (MicroscopePage.engine p') = "simultaneous".
Proof.
  intros Hseq. unfold MicroscopePage.doMicroButton.
  destruct (String.eqb _ "busy"); [split; [reflexivity|exact Hseq]|].
  destruct (next_coords_control (MicroscopePage.engine p)) as (Hc & Hl & _).
  destruct (MicroscopePage.next_coords gridSize (MicroscopePage.engine p)) as [nc w1].
  cbn [fst snd] in Hc, Hl.
  assert (Hseq1 : Microscope.visitSeq w1 = "simultaneous").
  { destruct Hc as (_ & _ & -> & _). exact Hseq. }
  destruct nc as [c|].
  - pose proof (update_at_simultaneous (Some c) w1 Hseq1) as Hu.
    pose proof (update_at_control (Some c) w1) as (_ & _ & Hv & _).
    destruct (MicroscopePage.update_at gridSize (Some c) w1) as [w2 r].
    cbn [fst snd MicroscopePage.engine MicroscopePage.with_engine] in *.
    split; congruence.
  - set (w2 := Microscope.with_toBeFlipped _ _).
    assert (Hseq2 : Microscope.visitSeq w2 = "simultaneous") by exact Hseq1.
    assert (Hl2 : Microscope.lat w2 = Microscope.lat w1) by reflexivity.
    destruct (restart_coords_control w2) as (Hc3 & Hl3 & _).
    destruct (MicroscopePage.restart_coords gridSize w2) as [nc3 w3].
    cbn [fst snd] in Hc3, Hl3.
    assert (Hseq3 : Microscope.visitSeq w3 = "simultaneous").
    { destruct Hc3 as (_ & _ & -> & _). exact Hseq2. }
    pose proof (update_at_simultaneous nc3 w3 Hseq3) as Hu.
    pose proof (update_at_control nc3 w3) as (_ & _ & Hv & _).
    destruct (MicroscopePage.update_at gridSize nc3 w3) as [w4 r].
    cbn [fst snd MicroscopePage.engine MicroscopePage.with_engine] in *.
    split; congruence.
Qed.

(** A press on an exhausted iterator: the staged flips are cleared, and
    the first site of the next sweep is visited. *)
Lemma doMicroButton_discards (p : page) (x y : nat) :
  Microscope.visitSeq (MicroscopePage.engine p) = "simultaneous" ->
  Microscope.nextXYgen (MicroscopePage.engine p) = Microscope.GenSimultaneous ->
  Microscope.XYiterator (MicroscopePage.engine p) = Microscope.Remaining [] ->
  Microscope.state (MicroscopePage.engine p) <> "busy" ->
  flag_dims gridSize (Microscope.toBeFlippedArray (MicroscopePage.engine p)) ->
  x < gridSize -> y < gridSize -> (x, y) <> (0, 0) ->
  flag (Microscope.toBeFlippedArray
          (MicroscopePage.engine (MicroscopePage.doMicroButton gridSize p).1)) x y = false.
Proof.
  intros Hseq Hgen Hit Hst Hfd Hx Hy Hne.
  unfold MicroscopePage.doMicroButton.
  apply String.eqb_neq in Hst. rewrite Hst.
  unfold MicroscopePage.next_coords at 1. unfold Microscope.iterator_next. rewrite Hit.
  set (w2 := Microscope.with_toBeFlipped _ _).
  assert (Hf2 : flag (Microscope.toBeFlippedArray w2) x y = false /\
                flag_dims gridSize (Microscope.toBeFlippedArray w2)).
  { apply clearLattice_cells; assumption. }
  assert (Hseq2 : Microscope.visitSeq w2 = "simultaneous") by exact Hseq.
  unfold MicroscopePage.restart_coords, MicroscopePage.next_coords, Microscope.iterator_next.
  cbn [Microscope.XYiterator Microscope.with_iterator Microscope.thePermutation
       Microscope.rand Microscope.nextXYgen].
  change (Microscope.nextXYgen w2) with (Microscope.nextXYgen (MicroscopePage.engine p)).
  rewrite Hgen.
  destruct gridSize as [|n] eqn:Hn; [lia|].
  unfold simultaneousGen. rewrite !Nat.sub_0_r. cbn [seq mbind list_bind app].
  rewrite <- Hn in *.
  set (w3 := Microscope.with_rand (Microscope.with_iterator _ _) _).
  assert (Hseq3 : Microscope.visitSeq w3 = "simultaneous") by exact Hseq.
  unfold MicroscopePage.update_at.
  destruct (updateSpin_simultaneous gridSize w3 0 0 Hseq3) as (_ & _ & _ & _ & _ & _ & Hf).
  cbn [fst snd MicroscopePage.engine MicroscopePage.with_engine]. rewrite Hf.
  change (Microscope.toBeFlippedArray w3) with (Microscope.toBeFlippedArray w2).
  destruct (rule_flips _ _ _ _ _ _ _); [|exact (proj1 Hf2)].
  rewrite flag_set_flag_other by congruence. exact (proj1 Hf2).
Qed.

End MicroscopeControl.

(** X6. Under the 'simultaneous' sequence the Microstep button never
    changes the lattice, however often it is pressed: each press only
    stages a flip, and the press that follows the last site of a sweep
    clears the staged flips instead of applying them, so that afterwards
    no flag is set except possibly that of the site (0, 0) just visited
    ([simultaneousUpdate] is called by [macrostep] and [runForever]
    only). *)
Theorem microstep_never_applies_staged_flips (gridSize : nat)
    (p : MicroscopePage.page) (presses : nat) :
  Microscope.visitSeq (MicroscopePage.engine p) = "simultaneous" ->
  Microscope.lat
    (MicroscopePage.engine
       (Nat.iter presses (fun p => (MicroscopePage.doMicroButton gridSize p).1) p))
  = Microscope.lat (MicroscopePage.engine p) /\
  (Microscope.nextXYgen (MicroscopePage.engine p) = Microscope.GenSimultaneous ->
   Microscope.XYiterator (MicroscopePage.engine p) = Microscope.Remaining [] ->
   Microscope.state (MicroscopePage.engine p) <> "busy" ->
   flag_dims gridSize (Microscope.toBeFlippedArray (MicroscopePage.engine p)) ->
   forall x y, x < gridSize -> y < gridSize -> (x, y) <> (0, 0) ->
     flag (Microscope.toBeFlippedArray
             (MicroscopePage.engine (MicroscopePage.doMicroButton gridSize p).1)) x y
     = false).
Proof.
  intros Hseq. split.
  - assert (H : Microscope.lat
        (MicroscopePage.engine
           (Nat.iter presses (fun p => (MicroscopePage.doMicroButton gridSize p).1) p))
        = Microscope.lat (MicroscopePage.engine p) /\
      Microscope.visitSeq
        (MicroscopePage.engine
           (Nat.iter presses (fun p => (MicroscopePage.doMicroButton gridSize p).1) p))
        = "simultaneous").
    { induction presses as [|k [IHl IHs]]; [split; [reflexivity|exact Hseq]|].
      cbn [Nat.iter].
      destruct (doMicroButton_simultaneous gridSize _ IHs) as [Hl Hs].
      split; [etransitivity; [exact Hl|exact IHl]|exact Hs]. }
    exact (proj1 H).
  - intros Hgen Hit Hst Hfd x y Hx Hy Hne. by apply doMicroButton_discards.
Qed.

(** The page of the Microscope, idle, on the engine of
    [microscope_start]. *)
Definition microscope_page : MicroscopePage.page :=
  MicroscopePage.mk_page microscope_start false "Run" "init-up".

Lemma microstep_never_applies_staged_flips_witness :
  Microscope.lat
    (MicroscopePage.engine
       (Nat.iter 401 (fun p => (MicroscopePage.doMicroButton 20 p).1) microscope_page))
  = all_up 20.
Proof.
  exact (proj1 (microstep_never_applies_staged_flips 20 microscope_page 401 eq_refl)).
Defined.

Section RunForever.

Variable gridSize : nat.

Local Abbreviation world := Microscope.world.
Local Abbreviation macrostep := (Microscope.macrostep gridSize).
Local Abbreviation runForever := (MicroscopePage.runForever gridSize).

(** [k] ticks of the run timer, up to the first exception. *)
Fixpoint run_ticks (k : nat) (w : world) : world * result unit :=
  match k with
  | O => (w, Ok tt)
  | S k' =>
      match runForever w with
      | (w', Ok _) => run_ticks k' w'
      | (w', Throw e) => (w', Throw e)
      end
  end.

Lemma run_ticks_add (a b : nat) (w : world) :
  run_ticks (a + b) w =
  match run_ticks a w with
  | (w', Ok _) => run_ticks b w'
  | (w', Throw e) => (w', Throw e)
  end.
Proof.
  revert w. induction a as [|a IH]; intros w; [reflexivity|].
  cbn [Nat.add run_ticks]. destruct (runForever w) as [w' [[]|e]]; [apply IH|reflexivity].
Qed.

(** Inside a sweep a tick of the run timer is a tick of the macrostep
    timer. *)
Lemma runForever_inside (w : world) (c : coord) (rest : list coord) :
  Microscope.XYiterator w = Microscope.Remaining (c :: rest) ->
  runForever w = (macrostep w, Ok tt).
Proof.
  intros Hit.
  unfold MicroscopePage.runForever, MicroscopePage.next_coords, Microscope.macrostep,
    Microscope.iterator_next.
  rewrite Hit. destruct c as [x y]. reflexivity.
Qed.

Lemma run_ticks_inside (k : nat) :
  forall (w : world) (rest : list coord),
    Microscope.XYiterator w = Microscope.Remaining rest ->
    Microscope.visitSeq w <> "simultaneous" ->
    k <= length rest ->
    run_ticks k w = (Nat.iter k macrostep w, Ok tt).
Proof.
  induction k as [|k IH]; intros w rest Hit Hseq Hk; [reflexivity|].
  destruct rest as [|c rest]; [simpl in Hk; lia|].
  cbn [run_ticks]. rewrite (runForever_inside w c rest Hit), Nat.iter_succ_r.
  destruct (macrostep_sequential gridSize w c rest Hit Hseq) as (_ & Hit' & _ & Hsame).
  apply (IH _ rest Hit'); [|simpl in Hk; lia].
  destruct Hsame as (-> & _). exact Hseq.
Qed.

(** The first tick starts the generator. *)
Lemma runForever_begin (w : world) (gen : Microscope.generator) (cs : list coord) :
  Microscope.XYiterator w = Microscope.NotStarted gen ->
  generator_coords gridSize gen (Microscope.thePermutation w) = Some cs ->
  runForever w = runForever (Microscope.with_iterator w (Microscope.Remaining cs)).
Proof.
  intros Hit Hcs.
  unfold MicroscopePage.runForever, MicroscopePage.next_coords, Microscope.iterator_next.
  rewrite Hit.
  cbn [Microscope.XYiterator Microscope.with_iterator Microscope.thePermutation
       Microscope.rand].
  destruct gen; cbn in Hcs; try discriminate; injection Hcs as <-;
    match goal with |- context [Microscope.Remaining ?l] => destruct l as [|[x y] l'] end;
    reflexivity.
Qed.

(** The tick after the last site of a sweep: no pause, the first site of
    the next sweep is visited at once. *)
Lemma runForever_wrap (w : world) (c : coord) (rest : list coord) :
  Microscope.XYiterator w = Microscope.Remaining [] ->
  generator_coords gridSize (Microscope.nextXYgen w) (Microscope.thePermutation w)
    = Some (c :: rest) ->
  Microscope.visitSeq w <> "simultaneous" ->
  let w' := (runForever w).1 in
  (runForever w).2 = Ok tt /\
  (Microscope.lat w', Microscope.rand w') =
    rule_update gridSize (Microscope.acceptor w) (Microscope.temperature w)
                (Microscope.lat w, Microscope.rand w) c.1 c.2 /\
  Microscope.XYiterator w' = Microscope.Remaining rest /\
  same_settings w w'.
Proof.
  intros Hit Hcs Hseq. destruct c as [x y].
  set (w2 :=
    Microscope.with_visited
      (Microscope.with_rand
         (Microscope.with_iterator
            (Microscope.with_iterator
               (Microscope.with_rand
                  (Microscope.with_iterator w (Microscope.Remaining []))
                  (Microscope.rand w))
               (Microscope.NotStarted (Microscope.nextXYgen w)))
            (Microscope.Remaining rest))
         (Microscope.rand w))
      (Microscope.clearLattice gridSize (Microscope.visitedArray w) false)).
  assert (Heq : runForever w = (Microscope.updateSpin gridSize w2 x y, Ok tt)).
  { unfold MicroscopePage.runForever, MicroscopePage.next_coords at 1.
    unfold Microscope.iterator_next at 1. rewrite Hit.
    unfold MicroscopePage.restart_coords, MicroscopePage.next_coords,
      Microscope.iterator_next.
    cbn [Microscope.XYiterator Microscope.with_iterator Microscope.with_rand
         Microscope.thePermutation Microscope.rand Microscope.nextXYgen].
    assert (Hstart :
      match Microscope.nextXYgen w with
      | Microscope.GenTypewriter => (Microscope.Remaining (typewriterGen gridSize 0 0),
                                     Microscope.rand w)
      | Microscope.GenCheckerboard => (Microscope.Remaining (checkerboardGen gridSize),
                                       Microscope.rand w)
      | Microscope.GenDiagonal => (Microscope.Remaining (diagonalGen gridSize),
                                   Microscope.rand w)
      | Microscope.GenPermuted =>
          (Microscope.Remaining (permutedGen gridSize (Microscope.thePermutation w)),
           Microscope.rand w)
      | Microscope.GenRepermuted =>
          let (cs, g') := re_permutedGen gridSize (Microscope.rand w) in
          (Microscope.Remaining cs, g')
      | Microscope.GenRandom => (Microscope.RandomLeft (N gridSize), Microscope.rand w)
      | Microscope.GenSimultaneous => (Microscope.Remaining (simultaneousGen gridSize 0 0),
                                       Microscope.rand w)
      end = (Microscope.Remaining ((x, y) :: rest), Microscope.rand w)).
    { destruct (Microscope.nextXYgen w); cbn in Hcs; try discriminate;
        injection Hcs as ->; reflexivity. }
    rewrite Hstart.
    cbn [Microscope.visitSeq Microscope.with_visited Microscope.with_iterator
         Microscope.with_rand].
    apply String.eqb_neq in Hseq. rewrite Hseq. reflexivity. }
  assert (Hseq2 : Microscope.visitSeq w2 <> "simultaneous") by exact Hseq.
  destruct (updateSpin_sequential gridSize w2 x y Hseq2) as (Hst & Hit' & _ & Hsame).
  cbv zeta. rewrite Heq. cbn [fst snd].
  split; [reflexivity|]. split; [exact Hst|]. split; [exact Hit'|exact Hsame].
Qed.

End RunForever.

(** X7. The run timer chains sweeps without a pause.  With a sequence
    other than 'simultaneous' whose generator yields the coordinates
    [cs], at least one, [length cs] ticks of [runForever] on a fresh
    iterator perform one sweep, as the same number of ticks of [macrostep]
    do; but where [macrostep] spends its next tick on stopping,
    [runForever] starts over at once: [2 * length cs] ticks perform two
    sweeps, no tick raises an exception, and [state] and the macrostep
    timer are as before. *)
Theorem runForever_chains_sweeps (gridSize : nat) (w : Microscope.world)
    (cs : list coord) :
  Microscope.XYiterator w = Microscope.NotStarted (Microscope.nextXYgen w) ->
  generator_coords gridSize (Microscope.nextXYgen w) (Microscope.thePermutation w)
    = Some cs ->
  0 < length cs ->
  Microscope.visitSeq w <> "simultaneous" ->
  let upd := rule_update gridSize (Microscope.acceptor w) (Microscope.temperature w) in
  let st0 := (Microscope.lat w, Microscope.rand w) in
  exists w1 w2,
    run_ticks gridSize (length cs) w = (w1, Ok tt) /\
    w1 = Nat.iter (length cs) (Microscope.macrostep gridSize) w /\
    (Microscope.lat w1, Microscope.rand w1) = sweep upd cs st0 /\
    run_ticks gridSize (length cs + length cs) w = (w2, Ok tt) /\
    (Microscope.lat w2, Microscope.rand w2) = sweep upd cs (sweep upd cs st0) /\
    Microscope.state w2 = Microscope.state w /\
    Microscope.macrostepTimer w2 = Microscope.macrostepTimer w.
Proof.
  intros Hit Hcs Hlen Hseq upd st0.
  set (w0 := Microscope.with_iterator w (Microscope.Remaining cs)).
  assert (Hfirst : run_ticks gridSize (length cs) w = run_ticks gridSize (length cs) w0).
  { destruct (length cs) as [|k]; [lia|]. cbn [run_ticks].
    by rewrite (runForever_begin gridSize w _ cs Hit Hcs). }
  assert (Hiter : Nat.iter (length cs) (Microscope.macrostep gridSize) w =
                  Nat.iter (length cs) (Microscope.macrostep gridSize) w0).
  { destruct (length cs) as [|k]; [lia|]. rewrite !Nat.iter_succ_r.
    by rewrite (macrostep_begin gridSize w _ cs Hit Hcs). }
  pose proof (run_ticks_inside gridSize (length cs) w0 cs eq_refl Hseq (le_n _)) as Hrun1.
  destruct (macrostep_ticks gridSize (length cs) w0 cs eq_refl Hseq (le_n _))
    as (Hst1 & Hit1 & Hsame1 & _).
  rewrite firstn_all in Hst1. rewrite drop_all in Hit1.
  set (w1 := Nat.iter (length cs) (Microscope.macrostep gridSize) w0) in *.
  change (Microscope.acceptor w0) with (Microscope.acceptor w) in Hst1.
  change (Microscope.temperature w0) with (Microscope.temperature w) in Hst1.
  change (Microscope.lat w0, Microscope.rand w0) with st0 in Hst1. fold upd in Hst1.
  assert (Hsame01 : same_settings w w1) by exact Hsame1.
  destruct Hsame01 as (Hvs & Hacc & HT & Hgen & Hstate & Htimer & Hperm & _).
  destruct cs as [|c rest] eqn:Hcs_eq; [simpl in Hlen; lia|]. rewrite <- Hcs_eq in *.
  assert (Hcs1 : generator_coords gridSize (Microscope.nextXYgen w1)
                   (Microscope.thePermutation w1) = Some (c :: rest)).
  { rewrite Hgen, Hperm, Hcs. by rewrite Hcs_eq. }
  assert (Hseq1 : Microscope.visitSeq w1 <> "simultaneous") by (by rewrite Hvs).
  destruct (runForever_wrap gridSize w1 c rest Hit1 Hcs1 Hseq1)
    as (Hok & Hst2 & Hit2 & Hsame2).
  destruct (MicroscopePage.runForever gridSize w1) as [w1' r1] eqn:Hrf.
  cbn [fst snd] in Hok, Hst2, Hit2, Hsame2. subst r1.
  assert (Hseq2 : Microscope.visitSeq w1' <> "simultaneous").
  { destruct Hsame2 as (-> & _). exact Hseq1. }
  pose proof (run_ticks_inside gridSize (length rest) w1' rest Hit2 Hseq2 (le_n _)) as Hrun2.
  destruct (macrostep_ticks gridSize (length rest) w1' rest Hit2 Hseq2 (le_n _))
    as (Hst3 & _ & Hsame3 & _).
  rewrite firstn_all in Hst3.
  set (w2 := Nat.iter (length rest) (Microscope.macrostep gridSize) w1') in *.
  exists w1, w2.
  split; [by rewrite Hfirst|]. split; [by rewrite Hiter|]. split; [exact Hst1|].
  split.
  { rewrite run_ticks_add, Hfirst, Hrun1.
    rewrite Hcs_eq at 1. cbn [length run_ticks]. rewrite Hrf. exact Hrun2. }
  split.
  { rewrite Hst3, Hst2.
    destruct Hsame2 as (_ & -> & -> & _). rewrite Hacc, HT, Hst1. fold upd.
    rewrite Hcs_eq. reflexivity. }
  pose proof (same_settings_trans _ _ _ Hsame2 Hsame3) as (_ & _ & _ & _ & Hs & Ht & _).
  split; congruence.
Qed.

Lemma runForever_chains_sweeps_witness :
  exists w1 w2,
    run_ticks 20 (length (typewriterGen 20 0 0)) microscope_typewriter = (w1, Ok tt) /\
    w1 = Nat.iter (length (typewriterGen 20 0 0)) (Microscope.macrostep 20)
                  microscope_typewriter /\
    (Microscope.lat w1, Microscope.rand w1) =
      sweep (rule_update 20 Microscope.M_rule (JS.Fin 1)) (typewriterGen 20 0 0)
            (all_up 20, rng_zero) /\
    run_ticks 20 (length (typewriterGen 20 0 0) + length (typewriterGen 20 0 0))
              microscope_typewriter = (w2, Ok tt) /\
    (Microscope.lat w2, Microscope.rand w2) =
      sweep (rule_update 20 Microscope.M_rule (JS.Fin 1)) (typewriterGen 20 0 0)
        (sweep (rule_update 20 Microscope.M_rule (JS.Fin 1)) (typewriterGen 20 0 0)
           (all_up 20, rng_zero)) /\
    Microscope.state w2 = "busy" /\
    Microscope.macrostepTimer w2 = true.
Proof.
  apply (runForever_chains_sweeps 20 microscope_typewriter (typewriterGen 20 0 0));
    [reflexivity|reflexivity|vm_compute; lia|discriminate].
Defined.

Section QuickStep.

Variable gridSize : nat.

Lemma quick_loop_remaining (perm : list nat) (r : Microscope.rule) (T : JS.number)
    (cs : list coord) :
  forall (fuel : nat) (st : lattice * rng),
    length cs < fuel ->
    MicroscopePage.quick_loop gridSize fuel perm r T (Microscope.Remaining cs) st
    = Some (sweep (rule_update gridSize r T) cs st).
Proof.
  induction cs as [|[x y] cs IH]; intros fuel st Hfuel.
  - destruct fuel as [|fuel]; [lia|]. destruct st. reflexivity.
  - destruct fuel as [|fuel]; [simpl in Hfuel; lia|].
    cbn [MicroscopePage.quick_loop Microscope.iterator_next].
    unfold sweep. cbn [foldl fst snd]. unfold rule_update at 2.
    destruct (Microscope.apply_rule gridSize r st.1 T x y st.2) as [b g].
    apply IH. simpl in Hfuel. lia.
Qed.

Lemma quick_loop_short (perm : list nat) (r : Microscope.rule) (T : JS.number)
    (cs : list coord) :
  forall (fuel : nat) (st : lattice * rng),
    fuel <= length cs ->
    MicroscopePage.quick_loop gridSize fuel perm r T (Microscope.Remaining cs) st = None.
Proof.
  induction cs as [|[x y] cs IH]; intros fuel st Hfuel.
  - destruct fuel; [reflexivity|simpl in Hfuel; lia].
  - destruct fuel as [|fuel]; [reflexivity|].
    cbn [MicroscopePage.quick_loop Microscope.iterator_next].
    destruct (Microscope.apply_rule gridSize r st.1 T x y st.2) as [b g].
    apply IH. simpl in Hfuel. lia.
Qed.

Lemma quick_loop_start (perm : list nat) (r : Microscope.rule) (T : JS.number)
    (gen : Microscope.generator) (cs : list coord) (fuel : nat) (st : lattice * rng) :
  generator_coords gridSize gen perm = Some cs ->
  MicroscopePage.quick_loop gridSize fuel perm r T (Microscope.NotStarted gen) st
  = MicroscopePage.quick_loop gridSize fuel perm r T (Microscope.Remaining cs) st.
Proof.
  intros Hcs. destruct fuel as [|fuel]; [reflexivity|].
  cbn [MicroscopePage.quick_loop]. unfold Microscope.iterator_next.
  destruct gen; cbn in Hcs; try discriminate; injection Hcs as <-;
    match goal with |- context [Microscope.Remaining ?l] => destruct l as [|[x y] l'] end;
    reflexivity.
Qed.

End QuickStep.

(** X8. [macroQuickstep] of [statsNeutralCounts] and [lifetimes] runs a
    whole sweep in one call, and makes every accepted flip at once,
    whatever [visitSeq] is: with a generator that yields the coordinates
    [cs] the loop ends after [length cs + 1] calls of [next()] (with less
    fuel the model runs out), the lattice and the random source are those
    of the in-place sweep over [cs], and the iterator of the page and the
    two grids of flags are left alone.  Under the 'simultaneous' generator
    and the M-rule the result is therefore the typewriter sweep of
    [runMetro], not the staged update. *)
Theorem macroQuickstep_flips_in_place (gridSize : nat) (w : Microscope.world)
    (cs : list coord) :
  generator_coords gridSize (Microscope.nextXYgen w) (Microscope.thePermutation w)
    = Some cs ->
  let upd := rule_update gridSize (Microscope.acceptor w) (Microscope.temperature w) in
  (forall fuel, length cs < fuel ->
     exists w', MicroscopePage.macroQuickstep gridSize fuel w = Some w' /\
       (Microscope.lat w', Microscope.rand w') =
         sweep upd cs (Microscope.lat w, Microscope.rand w) /\
       Microscope.XYiterator w' = Microscope.XYiterator w /\
       Microscope.visitedArray w' = Microscope.visitedArray w /\
       Microscope.toBeFlippedArray w' = Microscope.toBeFlippedArray w) /\
  (forall fuel, fuel <= length cs ->
     MicroscopePage.macroQuickstep gridSize fuel w = None) /\
  (Microscope.nextXYgen w = Microscope.GenSimultaneous ->
   Microscope.acceptor w = Microscope.M_rule ->
   sweep upd cs (Microscope.lat w, Microscope.rand w) =
   typewriter_sweep gridSize (metropolis_update gridSize (Microscope.temperature w))
                    (Microscope.lat w, Microscope.rand w)).
Proof.
  intros Hcs upd. split; [|split].
  - intros fuel Hfuel. unfold MicroscopePage.macroQuickstep.
    rewrite (quick_loop_start gridSize _ _ _ _ cs fuel _ Hcs).
    rewrite quick_loop_remaining by assumption. fold upd.
    eexists. split; [reflexivity|].
    destruct (sweep upd cs (Microscope.lat w, Microscope.rand w)) as [l g].
    repeat split.
  - intros fuel Hfuel. unfold MicroscopePage.macroQuickstep.
    rewrite (quick_loop_start gridSize _ _ _ _ cs fuel _ Hcs).
    by rewrite quick_loop_short.
  - intros Hgen Hacc. rewrite Hgen in Hcs. injection Hcs as <-.
    unfold upd. rewrite Hacc, typewriter_sweep_sweep.
    unfold sweep. apply foldl_ext_all. intros st c. apply rule_update_M.
Qed.

Lemma macroQuickstep_flips_in_place_witness :
  (forall fuel, length (simultaneousGen 20 0 0) < fuel ->
     exists w', MicroscopePage.macroQuickstep 20 fuel microscope_start = Some w' /\
       (Microscope.lat w', Microscope.rand w') =
         sweep (rule_update 20 Microscope.M_rule (JS.Fin 1)) (simultaneousGen 20 0 0)
               (all_up 20, rng_zero) /\
       Microscope.XYiterator w' = Microscope.XYiterator microscope_start /\
       Microscope.visitedArray w' = Microscope.visitedArray microscope_start /\
       Microscope.toBeFlippedArray w' = Microscope.toBeFlippedArray microscope_start) /\
  sweep (rule_update 20 Microscope.M_rule (JS.Fin 1)) (simultaneousGen 20 0 0)
        (all_up 20, rng_zero) =
  typewriter_sweep 20 (metropolis_update 20 (JS.Fin 1)) (all_up 20, rng_zero).
Proof.
  pose proof (macroQuickstep_flips_in_place 20 microscope_start (simultaneousGen 20 0 0)
                eq_refl) as (H1 & _ & H3).
  split; [exact H1|exact (H3 eq_refl eq_refl)].
Defined.

Section Tally.

Variable gridSize : nat.

Local Abbreviation tally_cell := (MicroscopePage.tally_cell gridSize).

(** The loop of [tallyUpsDownsNeutrals] over a list of sites, from the
    counters [t0]. *)
Lemma tally_loop (lat : lattice) (l : list coord) :
  forall t0 : MicroscopePage.tally,
    let t := foldl (fun t (c : coord) => tally_cell lat t c.1 c.2) t0 l in
    MicroscopePage.uc t + MicroscopePage.dc t
      = MicroscopePage.uc t0 + MicroscopePage.dc t0 + length l /\
    MicroscopePage.uc t0 <= MicroscopePage.uc t /\
    MicroscopePage.dc t0 <= MicroscopePage.dc t /\
    MicroscopePage.un t0 <= MicroscopePage.un t /\
    MicroscopePage.dn t0 <= MicroscopePage.dn t /\
    MicroscopePage.un t - MicroscopePage.un t0 <= MicroscopePage.uc t - MicroscopePage.uc t0 /\
    MicroscopePage.dn t - MicroscopePage.dn t0 <= MicroscopePage.dc t - MicroscopePage.dc t0 /\
    foldl (fun (s : nat * nat) (c : coord) =>
             if (calcDeltaE gridSize lat c.1 c.2 =? 0)%Z then
               if (get lat c.1 c.2 =? 1)%Z then (S s.1, s.2) else (s.1, S s.2)
             else s)
          (MicroscopePage.un t0, MicroscopePage.dn t0) l
      = (MicroscopePage.un t, MicroscopePage.dn t) /\
    ((forall c, c ∈ l -> spin (get lat c.1 c.2)) ->
     (Z.of_nat (MicroscopePage.uc t) - Z.of_nat (MicroscopePage.dc t)
      = Z.of_nat (MicroscopePage.uc t0) - Z.of_nat (MicroscopePage.dc t0)
        + Zsum_over (fun c : coord => get lat c.1 c.2) l)%Z).
Proof.
  induction l as [|c l IH]; intros t0.
  - cbn. repeat split; try lia; intros _; unfold Zsum_over; simpl; lia.
  - cbn [foldl]. cbv zeta.
    specialize (IH (tally_cell lat t0 c.1 c.2)). cbv zeta in IH.
    set (t := foldl _ (tally_cell lat t0 c.1 c.2) l) in *.
    destruct IH as (H1 & H2 & H3 & H4 & H5 & H6 & H7 & H8 & H9).
    cbn [length]. rewrite Zsum_over_cons.
    assert (Hs : (forall c0, c0 ∈ c :: l -> spin (get lat c0.1 c0.2)) ->
                 spin (get lat c.1 c.2) /\ forall c0, c0 ∈ l -> spin (get lat c0.1 c0.2)).
    { intros H. split; [apply H; left|intros c0 Hc0; apply H; by right]. }
    unfold MicroscopePage.tally_cell in *.
    destruct (get lat c.1 c.2 =? 1)%Z eqn:Hup;
      destruct (calcDeltaE gridSize lat c.1 c.2 =? 0)%Z eqn:Hne;
      cbn [MicroscopePage.uc MicroscopePage.dc MicroscopePage.un MicroscopePage.dn
           fst snd] in *;
      (split; [lia|]); (split; [lia|]); (split; [lia|]); (split; [lia|]);
      (split; [lia|]); (split; [lia|]); (split; [lia|]); (split; [exact H8|]);
      intros Hall; destruct (Hs Hall) as [Hc Hl]; specialize (H9 Hl);
      [apply Z.eqb_eq in Hup|apply Z.eqb_eq in Hup
      |apply Z.eqb_neq in Hup|apply Z.eqb_neq in Hup];
      destruct Hc as [Hc|Hc]; lia.
Qed.

End Tally.

(** X9. [tallyUpsDownsNeutrals()] accounts for every cell once: the up
    and down cells add up to [N], the neutral cells of each kind are among
    the cells of that kind, and the two neutral counts are the numbers
    that [countNeutralSites()] prints.  On a lattice of spins the
    difference [uc - dc] is the sum of the spins, the numerator of
    [magnetization()]. *)
Theorem tally_accounts_for_every_cell (gridSize : nat) (lat : lattice) :
  let t := MicroscopePage.tallyUpsDownsNeutrals gridSize lat in
  MicroscopePage.uc t + MicroscopePage.dc t = N gridSize /\
  MicroscopePage.un t <= MicroscopePage.uc t /\
  MicroscopePage.dn t <= MicroscopePage.dc t /\
  MicroscopePage.countNeutralSites gridSize lat = (MicroscopePage.un t, MicroscopePage.dn t) /\
  (all_spins gridSize lat ->
   spin_sum gridSize lat
   = (Z.of_nat (MicroscopePage.uc t) - Z.of_nat (MicroscopePage.dc t))%Z).
Proof.
  intros t.
  pose proof (tally_loop gridSize lat (sites gridSize)
                (MicroscopePage.mk_tally 0 0 0 0)) as H.
  cbv zeta in H.
  assert (Ht : foldl (fun t (c : coord) => MicroscopePage.tally_cell gridSize lat t c.1 c.2)
                     (MicroscopePage.mk_tally 0 0 0 0) (sites gridSize) = t).
  { unfold t, MicroscopePage.tallyUpsDownsNeutrals, sites.
    symmetry.
    apply (foldl_nested_yx (fun t x y => MicroscopePage.tally_cell gridSize lat t x y)). }
  rewrite Ht in H. destruct H as (H1 & _ & _ & _ & _ & H6 & H7 & H8 & H9).
  cbn [MicroscopePage.uc MicroscopePage.dc MicroscopePage.un MicroscopePage.dn] in *.
  rewrite length_sites in H1.
  split; [lia|]. split; [lia|]. split; [lia|]. split.
  - rewrite <- H8. unfold MicroscopePage.countNeutralSites, sites.
    apply (foldl_nested_yx
      (fun (s : nat * nat) x y =>
         if (calcDeltaE gridSize lat x y =? 0)%Z then
           if (get lat x y =? 1)%Z then (S s.1, s.2) else (s.1, S s.2)
         else s)).
  - intros [_ Hs]. rewrite spin_sum_sites, H9; [lia|].
    intros [x y] Hc. apply elem_of_sites in Hc as [Hx Hy]. by apply Hs.
Qed.

Section MicroscopeInit.

Variable gridSize : nat.

Lemma fill_yx_cells (v : Z) (lat : lattice) :
  dims gridSize lat ->
  dims gridSize (MicroscopePage.fill_yx gridSize v lat) /\
  forall x y, x < gridSize -> y < gridSize ->
    get (MicroscopePage.fill_yx gridSize v lat) x y = v.
Proof.
  intros Hd. unfold MicroscopePage.fill_yx.
  rewrite (foldl_nested_yx (fun (lat : lattice) x y => put lat x y v)).
  destruct (foldl_writes gridSize (fun l : lattice => l)
    (fun (lat : lattice) (c : nat * nat) => put lat c.1 c.2 v)
    (fun _ => True) (fun z => z = v) (y ← seq 0 gridSize; x ← seq 0 gridSize; [(x, y)]) lat)
    as (_ & Hd' & Hcells); auto.
  { intros s c _ _ _. split; [exact I|]. exists v. auto. }
  split; [exact Hd'|]. intros x y Hx Hy. apply Hcells; auto.
  apply elem_of_pairs_swap. rewrite !elem_of_seq. lia.
Qed.

End MicroscopeInit.

(** X10. [init()] of the Microscope, on grids of the allocated size:
    afterwards the iterator is a fresh one of the selected generator,
    [thePermutation] is a permutation of [0 .. N-1], no site is marked
    visited or staged for a flip, and the Run button reads "Run"; the
    lattice is a lattice of spins under 'init-random', all 1 under
    'init-up', all -1 under 'init-down', and under any other pattern it
    is left as it was, without a message.  [init()] itself stops no timer
    and leaves [state] alone; [doResetButton] does both before it calls
    [init()]. *)
Theorem microscope_init_resets (gridSize : nat) (p : MicroscopePage.page) :
  dims gridSize (Microscope.lat (MicroscopePage.engine p)) ->
  flag_dims gridSize (Microscope.visitedArray (MicroscopePage.engine p)) ->
  flag_dims gridSize (Microscope.toBeFlippedArray (MicroscopePage.engine p)) ->
  let w := MicroscopePage.engine p in
  let p' := MicroscopePage.init gridSize p in
  let w' := MicroscopePage.engine p' in
  let r := MicroscopePage.doResetButton gridSize p in
  Microscope.XYiterator w' = Microscope.NotStarted (Microscope.nextXYgen w) /\
  Microscope.thePermutation w' ≡ₚ seq 0 (N gridSize) /\
  (forall x y, x < gridSize -> y < gridSize ->
     flag (Microscope.visitedArray w') x y = false /\
     flag (Microscope.toBeFlippedArray w') x y = false) /\
  MicroscopePage.runButton p' = "Run" /\
  (MicroscopePage.initPattern p = "init-random" -> all_spins gridSize (Microscope.lat w')) /\
  (MicroscopePage.initPattern p = "init-up" ->
     forall x y, x < gridSize -> y < gridSize -> get (Microscope.lat w') x y = 1%Z) /\
  (MicroscopePage.initPattern p = "init-down" ->
     forall x y, x < gridSize -> y < gridSize -> get (Microscope.lat w') x y = (-1)%Z) /\
  (MicroscopePage.initPattern p <> "init-random" ->
   MicroscopePage.initPattern p <> "init-up" ->
   MicroscopePage.initPattern p <> "init-down" ->
     Microscope.lat w' = Microscope.lat w) /\
  (Microscope.state w' = Microscope.state w /\
   Microscope.macrostepTimer w' = Microscope.macrostepTimer w /\
   MicroscopePage.runTimer p' = MicroscopePage.runTimer p) /\
  (Microscope.state (MicroscopePage.engine r) = "idle" /\
   Microscope.macrostepTimer (MicroscopePage.engine r) = false /\
   MicroscopePage.runTimer r = false /\
   Microscope.lat (MicroscopePage.engine r) = Microscope.lat w').
Proof.
  intros Hd Hv Hf w p' w' r.
  pose proof (randomPermutation_Permutation (N gridSize) (Microscope.rand w)) as Hperm.
  unfold r, MicroscopePage.doResetButton.
  unfold w', p', MicroscopePage.init.
  cbn [MicroscopePage.engine MicroscopePage.runTimer MicroscopePage.runButton
       MicroscopePage.initPattern].
  cbn [MicroscopePage.engine Microscope.rand Microscope.with_idle].
  fold w.
  destruct (randomPermutation (N gridSize) (Microscope.rand w)) as [perm g].
  cbn [fst] in Hperm.
  cbn [MicroscopePage.engine MicroscopePage.runTimer MicroscopePage.runButton
       MicroscopePage.initPattern
       Microscope.lat Microscope.rand Microscope.XYiterator Microscope.thePermutation
       Microscope.visitedArray Microscope.toBeFlippedArray Microscope.state
       Microscope.macrostepTimer Microscope.nextXYgen
       Microscope.with_rand Microscope.with_lat Microscope.with_iterator
       Microscope.with_visited Microscope.with_toBeFlipped Microscope.with_idle
       MicroscopePage.with_permutation].
  split; [reflexivity|]. split; [exact Hperm|]. split.
  { intros x y Hx Hy. split; by apply clearLattice_cells. }
  split; [reflexivity|].
  split.
  { intros ->. change (String.eqb "init-random" "init-random") with true. cbv iota.
    by apply scramble_yx_spins. }
  split.
  { intros ->. change (String.eqb "init-up" "init-random") with false.
    change (String.eqb "init-up" "init-up") with true. cbv iota. cbn [fst].
    by apply fill_yx_cells. }
  split.
  { intros ->. change (String.eqb "init-down" "init-random") with false.
    change (String.eqb "init-down" "init-up") with false.
    change (String.eqb "init-down" "init-down") with true. cbv iota. cbn [fst].
    by apply fill_yx_cells. }
  split.
  { intros H1 H2 H3. apply String.eqb_neq in H1, H2, H3. by rewrite H1, H2, H3. }
  split; [repeat split|]. repeat split.
Qed.

Lemma microscope_init_resets_witness :
  let p' := MicroscopePage.init 20 microscope_page in
  Microscope.XYiterator (MicroscopePage.engine p')
    = Microscope.NotStarted Microscope.GenSimultaneous /\
  Microscope.thePermutation (MicroscopePage.engine p') ≡ₚ seq 0 (N 20) /\
  (forall x y, x < 20 -> y < 20 ->
     flag (Microscope.visitedArray (MicroscopePage.engine p')) x y = false /\
     flag (Microscope.toBeFlippedArray (MicroscopePage.engine p')) x y = false).
Proof.
  pose proof (microscope_init_resets 20 microscope_page (dims_all_up 20)
                (flag_dims_all_clear 20) (flag_dims_all_clear 20))
    as (H1 & H2 & H3 & _).
  split; [exact H1|]. split; [exact H2|exact H3].
Defined.

Section MicroscopeStateMachine.

Variable gridSize : nat.

Local Abbreviation world := Microscope.world.
Local Abbreviation page := MicroscopePage.page.

(** What can happen to the page: a button, a new init pattern, or a tick
    of one of the two timers. *)
Inductive event : Type :=
  | Micro | Macro | Run | Reset
  | Pattern (value : string)
  | TickMacro | TickRun.

(** The handler of an event; a timer that is not running does not tick. *)
Definition handle (e : event) (p : page) : option page :=
  match e with
  | Micro => Some (MicroscopePage.doMicroButton gridSize p).1
  | Macro => Some (MicroscopePage.doMacroButton p)
  | Run => Some (MicroscopePage.doRunButton p)
  | Reset => Some (MicroscopePage.doResetButton gridSize p)
  | Pattern value => Some (MicroscopePage.chooseInitPattern gridSize value p)
  | TickMacro =>
      if Microscope.macrostepTimer (MicroscopePage.engine p)
      then Some (MicroscopePage.with_engine p
                   (Microscope.macrostep gridSize (MicroscopePage.engine p)))
      else None
  | TickRun =>
      if MicroscopePage.runTimer p
      then Some (MicroscopePage.with_engine p
                   (MicroscopePage.runForever gridSize (MicroscopePage.engine p)).1)
      else None
  end.

Fixpoint handle_all (es : list event) (p : page) : option page :=
  match es with
  | [] => Some p
  | e :: es' =>
      match handle e p with
      | Some p' => handle_all es' p'
      | None => None
      end
  end.

(** Idle with no timer, or busy with exactly one. *)
Definition consistent (p : page) : Prop :=
  (Microscope.state (MicroscopePage.engine p) = "idle" /\
   MicroscopePage.runTimer p = false /\
   Microscope.macrostepTimer (MicroscopePage.engine p) = false) \/
  (Microscope.state (MicroscopePage.engine p) = "busy" /\
   xorb (MicroscopePage.runTimer p)
        (Microscope.macrostepTimer (MicroscopePage.engine p)) = true).

Lemma consistent_same (p p' : page) :
  same_control (MicroscopePage.engine p) (MicroscopePage.engine p') ->
  MicroscopePage.runTimer p' = MicroscopePage.runTimer p ->
  consistent p -> consistent p'.
Proof.
  intros (Hs & Ht & _) Hr. unfold consistent. rewrite Hs, Ht, Hr. auto.
Qed.

Lemma simultaneousUpdate_control (w : world) :
  same_control w (Microscope.simultaneousUpdate gridSize w).
Proof. repeat split. Qed.

Lemma init_timers (p : page) :
  let p' := MicroscopePage.init gridSize p in
  Microscope.state (MicroscopePage.engine p') = Microscope.state (MicroscopePage.engine p) /\
  Microscope.macrostepTimer (MicroscopePage.engine p')
    = Microscope.macrostepTimer (MicroscopePage.engine p) /\
  MicroscopePage.runTimer p' = MicroscopePage.runTimer p.
Proof.
  unfold MicroscopePage.init.
  destruct (randomPermutation _ _) as [perm g]. repeat split.
Qed.

Lemma doMicroButton_control (p : page) :
  Microscope.state (MicroscopePage.engine p) <> "busy" ->
  let p' := (MicroscopePage.doMicroButton gridSize p).1 in
  same_control (MicroscopePage.engine p) (MicroscopePage.engine p') /\
  MicroscopePage.runTimer p' = MicroscopePage.runTimer p.
Proof.
  intros Hst. unfold MicroscopePage.doMicroButton.
  apply String.eqb_neq in Hst. rewrite Hst.
  destruct (next_coords_control gridSize (MicroscopePage.engine p)) as (Hc & _).
  destruct (MicroscopePage.next_coords gridSize (MicroscopePage.engine p)) as [nc w1].
  cbn [fst snd] in Hc.
  destruct nc as [c|].
  - pose proof (update_at_control gridSize (Some c) w1) as Hu.
    destruct (MicroscopePage.update_at gridSize (Some c) w1) as [w2 r].
    cbn [fst snd MicroscopePage.engine MicroscopePage.with_engine
         MicroscopePage.runTimer] in *.
    split; [by apply (same_control_trans _ _ _ Hc)|reflexivity].
  - set (w2 := Microscope.with_toBeFlipped _ _).
    assert (Hc2 : same_control w1 w2) by (repeat split).
    destruct (restart_coords_control gridSize w2) as (Hc3 & _).
    destruct (MicroscopePage.restart_coords gridSize w2) as [nc3 w3].
    cbn [fst snd] in Hc3.
    pose proof (update_at_control gridSize nc3 w3) as Hu.
    destruct (MicroscopePage.update_at gridSize nc3 w3) as [w4 r].
    cbn [fst snd MicroscopePage.engine MicroscopePage.with_engine
         MicroscopePage.runTimer] in *.
    split; [|reflexivity].
    apply (same_control_trans _ _ _ Hc), (same_control_trans _ _ _ Hc2),
      (same_control_trans _ _ _ Hc3), Hu.
Qed.

Lemma macrostep_control (w : world) :
  let w' := Microscope.macrostep gridSize w in
  same_control w w' \/
  (Microscope.state w' = "idle" /\ Microscope.macrostepTimer w' = false).
Proof.
  unfold Microscope.macrostep.
  pose proof (next_coords_control gridSize w) as (Hc & _).
  unfold MicroscopePage.next_coords in Hc.
  destruct (Microscope.iterator_next _ _ _ _) as [[nc it] g]. cbn [snd] in Hc.
  destruct nc as [[x y]|].
  - left. apply (same_control_trans _ _ _ Hc), updateSpin_control.
  - right. cbn [Microscope.visitSeq Microscope.with_visited Microscope.with_iterator
                Microscope.with_idle Microscope.with_rand].
    destruct (String.eqb _ _); split; reflexivity.
Qed.

Lemma runForever_control (w : world) :
  same_control w (MicroscopePage.runForever gridSize w).1.
Proof.
  unfold MicroscopePage.runForever.
  destruct (next_coords_control gridSize w) as (Hc & _).
  destruct (MicroscopePage.next_coords gridSize w) as [nc w1]. cbn [snd] in Hc.
  destruct nc as [c|].
  - apply (same_control_trans _ _ _ Hc), update_at_control.
  - destruct (restart_coords_control gridSize w1) as (Hc2 & _).
    destruct (MicroscopePage.restart_coords gridSize w1) as [nc2 w2]. cbn [snd] in Hc2.
    set (w3 := Microscope.with_visited w2 _).
    assert (Hc3 : same_control w2 w3) by (repeat split).
    set (w4 := if String.eqb _ _ then _ else _).
    assert (Hc4 : same_control w3 w4).
    { unfold w4. destruct (String.eqb _ _);
        [apply simultaneousUpdate_control|apply same_control_refl]. }
    apply (same_control_trans _ _ _ Hc), (same_control_trans _ _ _ Hc2),
      (same_control_trans _ _ _ Hc3), (same_control_trans _ _ _ Hc4), update_at_control.
Qed.

Lemma handle_consistent (e : event) (p p' : page) :
  consistent p -> handle e p = Some p' -> consistent p'.
Proof.
  intros Hc He.
  assert (Hstop : consistent (MicroscopePage.stop p)) by (left; repeat split).
  destruct e; cbn [handle] in He.
  - injection He as <-.
    destruct (String.eqb_spec (Microscope.state (MicroscopePage.engine p)) "busy") as [Hb|Hb].
    + unfold MicroscopePage.doMicroButton.
      apply String.eqb_eq in Hb. rewrite Hb. exact Hstop.
    + destruct (doMicroButton_control p Hb) as [H1 H2].
      by apply (consistent_same p).
  - injection He as <-. unfold MicroscopePage.doMacroButton.
    destruct (String.eqb_spec (Microscope.state (MicroscopePage.engine p)) "busy") as [Hb|Hb];
      [exact Hstop|].
    destruct Hc as [(_ & Hr & _)|(Hs & _)]; [|congruence].
    right. cbn. rewrite Hr. split; reflexivity.
  - injection He as <-. unfold MicroscopePage.doRunButton.
    destruct (String.eqb_spec (Microscope.state (MicroscopePage.engine p)) "busy") as [Hb|Hb];
      [exact Hstop|].
    destruct Hc as [(_ & _ & Hm)|(Hs & _)]; [|congruence].
    right. cbn. rewrite Hm. split; reflexivity.
  - injection He as <-. unfold MicroscopePage.doResetButton.
    destruct (init_timers
      (MicroscopePage.mk_page (Microscope.with_idle (MicroscopePage.engine p)) false
         (MicroscopePage.runButton p) (MicroscopePage.initPattern p))) as (H1 & H2 & H3).
    left. rewrite H1, H2, H3. repeat split.
  - injection He as <-. unfold MicroscopePage.chooseInitPattern.
    cbn [MicroscopePage.engine MicroscopePage.runTimer MicroscopePage.runButton
         MicroscopePage.initPattern].
    destruct (String.eqb_spec (Microscope.state (MicroscopePage.engine p)) "idle") as [Hi|Hi].
    + match goal with |- consistent (MicroscopePage.init _ ?q) =>
        destruct (init_timers q) as (H1 & H2 & H3) end.
      left. rewrite H1, H2, H3. repeat split. exact Hi.
    + destruct Hc as [H|H]; [left|right]; exact H.
  - destruct (Microscope.macrostepTimer (MicroscopePage.engine p)) eqn:Hm; [|discriminate].
    injection He as <-.
    destruct Hc as [(_ & _ & Hm')|(Hs & Hx)]; [congruence|].
    rewrite Hm in Hx. destruct (MicroscopePage.runTimer p) eqn:Hr; [discriminate|].
    destruct (macrostep_control (MicroscopePage.engine p)) as [Hsame|[Hi Ht]].
    + apply (consistent_same p); [exact Hsame|reflexivity|].
      right. rewrite Hs, Hr, Hm. split; reflexivity.
    + left. cbn [MicroscopePage.engine MicroscopePage.with_engine MicroscopePage.runTimer].
      auto.
  - destruct (MicroscopePage.runTimer p) eqn:Hr; [|discriminate].
    injection He as <-.
    apply (consistent_same p); [apply runForever_control|reflexivity|exact Hc].
Qed.

End MicroscopeStateMachine.

(** X11. The state machine of the Microscope.  Starting idle with no
    timer, after any sequence of presses of the four buttons, changes of
    the init pattern and ticks of a running timer, the page is either
    'idle' with neither timer running or 'busy' with exactly one of
    [runTimer] and [macrostepTimer] running. *)
Theorem microscope_busy_iff_one_timer (gridSize : nat)
    (es : list (event)) (p p' : MicroscopePage.page) :
  Microscope.state (MicroscopePage.engine p) = "idle" ->
  MicroscopePage.runTimer p = false ->
  Microscope.macrostepTimer (MicroscopePage.engine p) = false ->
  handle_all gridSize es p = Some p' ->
  (Microscope.state (MicroscopePage.engine p') = "idle" /\
   MicroscopePage.runTimer p' = false /\
   Microscope.macrostepTimer (MicroscopePage.engine p') = false) \/
  (Microscope.state (MicroscopePage.engine p') = "busy" /\
   xorb (MicroscopePage.runTimer p')
        (Microscope.macrostepTimer (MicroscopePage.engine p')) = true).
Proof.
  intros Hs Hr Hm.
  assert (Hc : consistent p) by (left; auto).
  clear Hs Hr Hm. revert p Hc.
  induction es as [|e es IH]; intros p Hc Hrun.
  - injection Hrun as <-. exact Hc.
  - cbn [handle_all] in Hrun.
    destruct (handle gridSize e p) as [p1|] eqn:He; [|discriminate].
    apply (IH p1); [|exact Hrun].
    by apply (handle_consistent gridSize e p).
Qed.

Lemma microscope_busy_iff_one_timer_witness :
  let p' := MicroscopePage.doMicroButton 20
              (MicroscopePage.doRunButton (MicroscopePage.doMacroButton microscope_page)) in
  (Microscope.state (MicroscopePage.engine p'.1) = "idle" /\
   MicroscopePage.runTimer p'.1 = false /\
   Microscope.macrostepTimer (MicroscopePage.engine p'.1) = false) \/
  (Microscope.state (MicroscopePage.engine p'.1) = "busy" /\
   xorb (MicroscopePage.runTimer p'.1)
        (Microscope.macrostepTimer (MicroscopePage.engine p'.1)) = true).
Proof.
  exact (microscope_busy_iff_one_timer 20 [Macro; Run; Micro] microscope_page _
           eq_refl eq_refl eq_refl eq_refl).
Defined.

(* ===================================================================== *)
(** * The console tools of Program 1 *)
(* ===================================================================== *)

(** ** [decimate_array]: what the blocks are *)







(** ** [convergence_time_histogram] and [makeCircle] *)

Module MetroVGlauberTools.

Section Program.

Variable gridSize : nat.   (* 100 in the source *)

(** [while ((Math.abs(M) < threshold) && (stepcount < 10000))
    { fn(); stepcount++; M = magnetization(); }], with [left] the number
    of steps still allowed by the second test. *)
Fixpoint converge (left : nat) (fn : MetroVGlauber.world -> MetroVGlauber.world)
    (threshold : JS.number) (w : MetroVGlauber.world) (stepcount : nat)
  : MetroVGlauber.world * nat :=
  match left with
  | O => (w, stepcount)
  | S left' =>
      if JS.lt (JS.Math_abs (magnetization gridSize (MetroVGlauber.lat w))) threshold
      then converge left' fn threshold (fn w) (S stepcount)
      else (w, stepcount)
  end.

(** The cap on [stepcount]: 10000. *)
Definition stepcount_limit : nat := 100 * 100.

(** One turn of the main loop. *)
Definition convergence_rep (fn : MetroVGlauber.world -> MetroVGlauber.world)
    (threshold : JS.number) (st : MetroVGlauber.world * list nat)
  : MetroVGlauber.world * list nat :=
  let w := MetroVGlauber.init gridSize "scrambled" st.1 in
  let w := MetroVGlauber.with_temperature w (JS.Fin 10) in
  let w := Nat.iter 200 fn w in
  let w := MetroVGlauber.with_temperature w (JS.Fin 2) in
  let (w, stepcount) := converge stepcount_limit fn threshold w 0 in
  (w, st.2 ++ [stepcount]).

(** [convergence_time_histogram(algo, threshold, reps)]: the list of step
    counts that is printed.  [histo_data[histo_data.length - 1].toString()]
    is a TypeError on the empty list. *)
Definition convergence_time_histogram (algo : string) (threshold : JS.number) (reps : nat)
    (w : MetroVGlauber.world) : MetroVGlauber.world * result (list nat) :=
  let w := MetroVGlauber.with_outputDiv w [] in
  let (w, histo_data) :=
    Nat.iter reps (convergence_rep (MetroVGlauber.select_fn gridSize algo) threshold)
             (w, []) in
  let w := MetroVGlauber.with_outputDiv w [("convergencetime"%string, [])] in
  match last histo_data with
  | None => (w, Throw TypeError)
  | Some _ =>
      (MetroVGlauber.with_outputDiv w
         [("convergencetime"%string, map JS.of_nat histo_data)],
       Ok histo_data)
  end.

(** [makeCircle(radius, center_x, center_y)]: the distance is taken
    around the edges of the lattice. *)
Definition distanceToCenter (center_x center_y : JS.number) (x y : nat) : JS.number :=
  let dx := JS.Math_min (JS.sub (JS.of_nat x) center_x)
                        (JS.sub center_x (JS.sub (JS.of_nat x) (JS.of_nat gridSize))) in
  let dy := JS.Math_min (JS.sub (JS.of_nat y) center_y)
                        (JS.sub center_y (JS.sub (JS.of_nat y) (JS.of_nat gridSize))) in
  JS.Math_sqrt (JS.add (JS.mul dx dx) (JS.mul dy dy)).

Definition makeCircle (radius center_x center_y : JS.number) (lat : lattice) : lattice :=
  foldl (fun lat y =>
           foldl (fun lat x =>
                    if JS.le (distanceToCenter center_x center_y x y) radius
                    then put lat x y 1 else lat)
                 lat (seq 0 gridSize))
        lat (seq 0 gridSize).

End Program.

End MetroVGlauberTools.

Section ConvergenceHistogram.

Variable gridSize : nat.

Local Abbreviation world := MetroVGlauber.world.
Local Abbreviation converge := (MetroVGlauberTools.converge gridSize).

Lemma converge_bounds (fn : world -> world) (thr : JS.number) (left : nat) :
  forall (w : world) (n : nat),
    n <= (converge left fn thr w n).2 <= n + left.
Proof.
  induction left as [|left IH]; intros w n; cbn [MetroVGlauberTools.converge].
  - cbn. lia.
  - destruct (JS.lt _ thr); [|cbn; lia].
    specialize (IH (fn w) (S n)). lia.
Qed.

Lemma converge_invariant (J : world -> Prop) (fn : world -> world) (thr : JS.number)
    (left : nat) :
  (forall w, J w -> J (fn w)) ->
  forall (w : world) (n : nat), J w -> J (converge left fn thr w n).1.
Proof.
  intros HJ. induction left as [|left IH]; intros w n Hw;
    cbn [MetroVGlauberTools.converge]; [exact Hw|].
  destruct (JS.lt _ thr); [|exact Hw]. apply IH, HJ, Hw.
Qed.

(** A threshold that compares false stops the loop at once. *)
Lemma converge_stops (fn : world -> world) (thr : JS.number) (left : nat)
    (w : world) (n : nat) :
  JS.lt (JS.Math_abs (magnetization gridSize (MetroVGlauber.lat w))) thr = false ->
  converge left fn thr w n = (w, n).
Proof.
  intros H. destruct left; cbn [MetroVGlauberTools.converge]; [reflexivity|].
  by rewrite H.
Qed.

(** A threshold that no state of [J] reaches runs the loop to the cap. *)
Lemma converge_runs_out (J : world -> Prop) (fn : world -> world) (thr : JS.number)
    (left : nat) :
  (forall w, J w -> J (fn w)) ->
  (forall w, J w ->
     JS.lt (JS.Math_abs (magnetization gridSize (MetroVGlauber.lat w))) thr = true) ->
  forall (w : world) (n : nat), J w -> (converge left fn thr w n).2 = n + left.
Proof.
  intros HJ Hlt. induction left as [|left IH]; intros w n Hw;
    cbn [MetroVGlauberTools.converge]; [cbn; lia|].
  rewrite (Hlt w Hw), IH by (by apply HJ). lia.
Qed.

Lemma select_fn_reachable (algo : string) (w : world) :
  reachable1 gridSize w -> reachable1 gridSize (MetroVGlauber.select_fn gridSize algo w).
Proof.
  intros H. unfold MetroVGlauber.select_fn.
  destruct (String.eqb algo "metro"); by constructor.
Qed.

Lemma select_fn_temperature (algo : string) (w : world) :
  MetroVGlauber.temperature (MetroVGlauber.select_fn gridSize algo w)
  = MetroVGlauber.temperature w.
Proof.
  unfold MetroVGlauber.select_fn. destruct (String.eqb algo "metro"); reflexivity.
Qed.

(** The state in which the counting loop of a turn starts. *)
Lemma convergence_rep_start (algo : string) (w : world) :
  dims gridSize (MetroVGlauber.lat w) ->
  let w1 :=
    MetroVGlauber.with_temperature
      (Nat.iter 200 (MetroVGlauber.select_fn gridSize algo)
         (MetroVGlauber.with_temperature (MetroVGlauber.init gridSize "scrambled" w)
            (JS.Fin 10)))
      (JS.Fin 2) in
  reachable1 gridSize w1 /\ MetroVGlauber.temperature w1 = JS.Fin 2.
Proof.
  intros Hd. split; [|reflexivity].
  constructor. apply iter_preserves.
  - constructor. by constructor.
  - intros w'. apply select_fn_reachable.
Qed.

(** Magnetization below a threshold above 1, on every lattice of spins. *)
Lemma magnetization_below (thr : JS.number) (lat : lattice) :
  0 < gridSize -> (Z.of_nat (N gridSize) < 2 ^ 32)%Z ->
  JS.lt (JS.Fin 1) thr = true -> all_spins gridSize lat ->
  JS.lt (JS.Math_abs (magnetization gridSize lat)) thr = true.
Proof.
  intros Hg Hmax Hthr Hs.
  destruct (magnetization_value gridSize Hg Hmax lat Hs) as [-> Hm].
  unfold JS.Math_abs. destruct thr as [| |t|]; try discriminate; [|reflexivity].
  apply JSFacts.lt_Fin in Hthr. apply JSFacts.lt_Fin.
  assert (Rabs (IZR (spin_sum gridSize lat) / INR (N gridSize)) <= 1)%R; [|lra].
  apply Rabs_le. lra.
Qed.

(** The main loop, turn by turn. *)
Lemma convergence_loop (algo : string) (thr : JS.number) (reps : nat) (w : world) :
  dims gridSize (MetroVGlauber.lat w) ->
  let st := Nat.iter reps
              (MetroVGlauberTools.convergence_rep gridSize
                 (MetroVGlauber.select_fn gridSize algo) thr) (w, []) in
  dims gridSize (MetroVGlauber.lat st.1) /\
  length st.2 = reps /\
  Forall (fun n => n <= MetroVGlauberTools.stepcount_limit) st.2 /\
  (0 < reps -> reachable1 gridSize st.1 /\ MetroVGlauber.temperature st.1 = JS.Fin 2) /\
  (thr = JS.NaN -> st.2 = replicate reps 0) /\
  (0 < gridSize -> (Z.of_nat (N gridSize) < 2 ^ 32)%Z -> JS.lt (JS.Fin 1) thr = true ->
   st.2 = replicate reps MetroVGlauberTools.stepcount_limit).
Proof.
  intros Hd. induction reps as [|reps IH].
  - cbv zeta. cbn [Nat.iter fst snd length replicate].
    split; [exact Hd|]. split; [reflexivity|]. split; [constructor|].
    split; [lia|]. split; intros; reflexivity.
  - cbv zeta in *. rewrite Nat.iter_succ.
    set (st := Nat.iter reps _ (w, [])) in *.
    destruct IH as (Hd' & Hlen & Hall & _ & Hnan & Hbig).
    unfold MetroVGlauberTools.convergence_rep.
    destruct (convergence_rep_start algo st.1 Hd') as [Hreach HT].
    set (w1 := MetroVGlauber.with_temperature _ (JS.Fin 2)) in *.
    pose proof (converge_bounds (MetroVGlauber.select_fn gridSize algo) thr
                  MetroVGlauberTools.stepcount_limit w1 0) as Hb.
    pose proof (converge_invariant
                  (fun w => reachable1 gridSize w /\ MetroVGlauber.temperature w = JS.Fin 2)
                  (MetroVGlauber.select_fn gridSize algo) thr
                  MetroVGlauberTools.stepcount_limit) as Hinv.
    specialize (Hinv ltac:(intros w' [H1 H2]; split;
                           [by apply select_fn_reachable|by rewrite select_fn_temperature])
                     w1 0 (conj Hreach HT)).
    assert (Hnan' : thr = JS.NaN ->
              MetroVGlauberTools.converge gridSize MetroVGlauberTools.stepcount_limit
                (MetroVGlauber.select_fn gridSize algo) thr w1 0 = (w1, 0)).
    { intros ->. apply converge_stops. by destruct (JS.Math_abs _). }
    assert (Hbig' : 0 < gridSize -> (Z.of_nat (N gridSize) < 2 ^ 32)%Z ->
              JS.lt (JS.Fin 1) thr = true ->
              (MetroVGlauberTools.converge gridSize MetroVGlauberTools.stepcount_limit
                 (MetroVGlauber.select_fn gridSize algo) thr w1 0).2
              = MetroVGlauberTools.stepcount_limit).
    { intros Hg Hmax Hthr.
      rewrite (converge_runs_out (reachable1 gridSize)); [reflexivity| | |exact Hreach].
      - intros w'. apply select_fn_reachable.
      - intros w' Hw'. apply magnetization_below; auto. by apply reachable1_spins. }
    destruct (MetroVGlauberTools.converge gridSize MetroVGlauberTools.stepcount_limit
                (MetroVGlauber.select_fn gridSize algo) thr w1 0) as [w2 n] eqn:Hconv.
    cbn [fst snd] in *.
    split; [exact (proj1 (reachable1_spins gridSize w2 (proj1 Hinv)))|].
    split; [rewrite length_app, Hlen; simpl; lia|].
    split; [apply Forall_app; split; [exact Hall|constructor; [lia|constructor]]|].
    split; [intros _; exact Hinv|].
    split.
    + intros Hthr. rewrite (Hnan Hthr). specialize (Hnan' Hthr).
      injection Hnan' as _ ->. by rewrite replicate_S_end.
    + intros Hg Hmax Hthr. rewrite (Hbig Hg Hmax Hthr), (Hbig' Hg Hmax Hthr).
      by rewrite replicate_S_end.
Qed.

End ConvergenceHistogram.

(** X13. [convergence_time_histogram(algo, threshold, reps)] from the
    console, on a lattice of the allocated size.  With [reps = 0] it ends
    in a TypeError, after the prefix has been written to the output
    element.  Otherwise it records [reps] step counts, none above the cap
    of 10000, and leaves the global [temperature] at 2.  A threshold of
    NaN makes every count 0, and a threshold above 1 (which no
    magnetization of a lattice of spins reaches) makes every count the
    cap. *)
Theorem convergence_counts_capped (gridSize : nat) (algo : string) (threshold : JS.number)
    (reps : nat) (w : MetroVGlauber.world) :
  dims gridSize (MetroVGlauber.lat w) ->
  let out := MetroVGlauberTools.convergence_time_histogram gridSize algo threshold reps w in
  (reps = 0 ->
     out.2 = Throw TypeError /\
     MetroVGlauber.outputDiv out.1 = [("convergencetime"%string, [])]) /\
  (0 < reps ->
     exists histo_data,
       out.2 = Ok histo_data /\ length histo_data = reps /\
       Forall (fun n => n <= 100 * 100) histo_data /\
       MetroVGlauber.temperature out.1 = JS.Fin 2 /\
       (threshold = JS.NaN -> histo_data = replicate reps 0) /\
       (0 < gridSize -> (Z.of_nat (N gridSize) < 2 ^ 32)%Z ->
        JS.lt (JS.Fin 1) threshold = true ->
        histo_data = replicate reps (100 * 100))).
Proof.
  intros Hd out. unfold out, MetroVGlauberTools.convergence_time_histogram.
  pose proof (convergence_loop gridSize algo threshold reps
                (MetroVGlauber.with_outputDiv w []) Hd) as H.
  cbv zeta in H.
  destruct (Nat.iter reps _ _) as [w' histo] eqn:Hiter.
  cbn [fst snd] in H. destruct H as (_ & Hlen & Hall & HT & Hnan & Hbig).
  split.
  - intros ->. destruct histo; [|discriminate]. cbn. split; reflexivity.
  - intros Hreps. destruct (last histo) eqn:Hlast.
    + exists histo. cbn [fst snd MetroVGlauber.temperature MetroVGlauber.with_outputDiv].
      split; [reflexivity|]. split; [exact Hlen|]. split; [exact Hall|].
      split; [exact (proj2 (HT Hreps))|]. split; [exact Hnan|exact Hbig].
    + apply last_None in Hlast. subst histo. simpl in Hlen. lia.
Qed.

Lemma convergence_counts_capped_witness :
  let out := MetroVGlauberTools.convergence_time_histogram 100 "metro" JS.NaN 0 metro_start in
  out.2 = Throw TypeError /\
  MetroVGlauber.outputDiv out.1 = [("convergencetime"%string, [])].
Proof.
  exact (proj1 (convergence_counts_capped 100 "metro" JS.NaN 0 metro_start
                  (dims_all_up 100)) eq_refl).
Defined.

Section MakeCircle.

Variable gridSize : nat.

(** A loop over all sites that sets the sites selected by [inside] to 1. *)
Lemma raise_loop_cells (inside : nat -> nat -> bool) (lat : lattice) :
  dims gridSize lat ->
  let lat' :=
    foldl (fun lat y =>
             foldl (fun lat x => if inside x y then put lat x y 1 else lat)
                   lat (seq 0 gridSize))
          lat (seq 0 gridSize) in
  dims gridSize lat' /\
  forall x y, x < gridSize -> y < gridSize ->
    get lat' x y = if inside x y then 1%Z else get lat x y.
Proof.
  intros Hd. cbv zeta.
  rewrite (foldl_nested_yx
    (fun (l : lattice) x y => if inside x y then put l x y 1 else l)).
  destruct (foldl_updates_once gridSize
    (fun (l : lattice) (c : coord) => if inside c.1 c.2 then put l c.1 c.2 1 else l)
    (fun c v => if inside c.1 c.2 then 1%Z else v)
    (y ← seq 0 gridSize; x ← seq 0 gridSize; [(x, y)]) lat) as [Hd' Hcells].
  - apply (NoDup_rows _ (fun _ => seq 0 gridSize)); [apply NoDup_seq|].
    intros. apply NoDup_seq.
  - intros l [cx cy] Hc Hdl. cbn [fst snd].
    apply elem_of_pairs_swap in Hc. rewrite !elem_of_seq in Hc.
    destruct (inside cx cy).
    + split; [by apply dims_put|]. split.
      * apply (get_put_same gridSize); [exact Hdl|lia|lia].
      * intros x' y' Hne. apply get_put_other. congruence.
    + split; [exact Hdl|]. split; reflexivity.
  - exact Hd.
  - split; [exact Hd'|]. intros x y Hx Hy.
    destruct (Hcells x y) as [Hin _]. apply Hin.
    apply elem_of_pairs_swap. rewrite !elem_of_seq. lia.
Qed.

(** A square root is never below a radius that is not at least 0. *)
Lemma sqrt_above_negative (a radius : JS.number) :
  JS.le (JS.Fin 0) radius = false -> JS.le (JS.Math_sqrt a) radius = false.
Proof.
  intros Hr. unfold JS.Math_sqrt.
  destruct a as [| |r|]; try (destruct radius; try reflexivity; discriminate).
  destruct (Rlt_dec r 0); [by destruct radius|].
  destruct radius as [| |t|]; try reflexivity; try discriminate.
  unfold JS.le in *. destruct (Rle_dec 0 t); [discriminate|].
  pose proof (sqrt_pos r). destruct (Rle_dec (sqrt r) t); [lra|reflexivity].
Qed.

End MakeCircle.

(** X14. [makeCircle] of Program 1 and of the Microscope, on a lattice of
    the allocated size: a cell whose distance from the centre is at most
    [radius] ends at 1 and every other cell keeps its value, so the
    routine never lowers a spin and a lattice of spins stays one; with a
    radius that is negative or NaN no cell changes. *)
Theorem makeCircle_only_raises (gridSize : nat) (radius center_x center_y : JS.number)
    (lat : lattice) :
  dims gridSize lat ->
  let lat1 := MetroVGlauberTools.makeCircle gridSize radius center_x center_y lat in
  let lat5 := MicroscopePage.makeCircle gridSize radius lat in
  (forall x y, x < gridSize -> y < gridSize ->
     get lat1 x y =
       (if JS.le (MetroVGlauberTools.distanceToCenter gridSize center_x center_y x y) radius
        then 1%Z else get lat x y) /\
     get lat5 x y =
       (if JS.le (MicroscopePage.distanceToCenter gridSize x y) radius
        then 1%Z else get lat x y)) /\
  (all_spins gridSize lat -> all_spins gridSize lat1 /\ all_spins gridSize lat5) /\
  (JS.le (JS.Fin 0) radius = false ->
   forall x y, x < gridSize -> y < gridSize ->
     get lat1 x y = get lat x y /\ get lat5 x y = get lat x y).
Proof.
  intros Hd lat1 lat5.
  destruct (raise_loop_cells gridSize
    (fun x y => JS.le (MetroVGlauberTools.distanceToCenter gridSize center_x center_y x y)
                      radius) lat Hd) as [Hd1 H1].
  destruct (raise_loop_cells gridSize
    (fun x y => JS.le (MicroscopePage.distanceToCenter gridSize x y) radius) lat Hd)
    as [Hd5 H5].
  fold lat1 in Hd1, H1. fold lat5 in Hd5, H5.
  split; [|split].
  - intros x y Hx Hy. split; [by apply H1|by apply H5].
  - intros [_ Hs]. split; (split; [assumption|]); intros x y Hx Hy.
    + rewrite H1 by assumption. destruct (JS.le _ _); [by left|by apply Hs].
    + rewrite H5 by assumption. destruct (JS.le _ _); [by left|by apply Hs].
  - intros Hr x y Hx Hy. rewrite H1, H5 by assumption.
    unfold MetroVGlauberTools.distanceToCenter, MicroscopePage.distanceToCenter.
    by rewrite !sqrt_above_negative.
Qed.

Lemma makeCircle_only_raises_witness :
  all_spins 4 (MetroVGlauberTools.makeCircle 4 (JS.Fin 1) (JS.Fin 2) (JS.Fin 2) (all_up 4)) /\
  all_spins 4 (MicroscopePage.makeCircle 4 (JS.Fin 1) (all_up 4)).
Proof.
  exact (proj1 (proj2 (makeCircle_only_raises 4 (JS.Fin 1) (JS.Fin 2) (JS.Fin 2) (all_up 4)
                         (dims_all_up 4))) (all_spins_all_up 4)).
Defined.

(* ===================================================================== *)
(** * The halo of Program 4 *)
(* ===================================================================== *)

Section BorderWalk.

Variable gridSize : nat.
Hypothesis Hsize : 3 <= gridSize.

Lemma border_loop_length (turns count : nat) (c : coord) :
  length (Boundaries.border_loop gridSize turns count c) = turns.
Proof using Type.
  clear Hsize. revert count c. induction turns as [|turns IH]; intros count c; [reflexivity|].
  cbn [Boundaries.border_loop length]. by rewrite IH.
Qed.

(** The walk visits no cell twice. *)
Lemma border_cell_inj (j k : nat) :
  j < 4 * Boundaries.activeSize gridSize -> k < 4 * Boundaries.activeSize gridSize ->
  border_cell gridSize j = border_cell gridSize k -> j = k.
Proof using Hsize.
  intros Hj Hk. unfold border_cell.
  assert (Ha : Boundaries.activeSize gridSize = gridSize - 2) by reflexivity.
  repeat
    match goal with
    | |- context [?a <? ?b] => destruct (Nat.ltb_spec a b)
    end; intros Heq; injection Heq; intros; lia.
Qed.

Lemma NoDup_genBorderXYs : NoDup (Boundaries.genBorderXYs gridSize).
Proof using Hsize.
  rewrite genBorderXYs_cells by assumption.
  apply NoDup_fmap_2_strong; [|apply NoDup_seq].
  intros j k Hj%elem_of_seq Hk%elem_of_seq. apply border_cell_inj; lia.
Qed.

End BorderWalk.

(** X15. [genBorderXYs] walks the halo once: it yields [4 * activeSize]
    cells, clockwise from the cell right of the top left corner, no cell
    twice, and the cells it yields are exactly the cells of the outermost
    rows and columns other than the four corners.  So every border
    constructor that loops over it writes each of these cells once, and
    neither a corner nor an interior site. *)
Theorem genBorderXYs_walks_the_halo_once (gridSize : nat) :
  3 <= gridSize ->
  length (Boundaries.genBorderXYs gridSize) = 4 * (gridSize - 2) /\
  NoDup (Boundaries.genBorderXYs gridSize) /\
  (forall x y, (x, y) ∈ Boundaries.genBorderXYs gridSize <->
     (y = 0 /\ 1 <= x <= gridSize - 2) \/
     (x = gridSize - 1 /\ 1 <= y <= gridSize - 2) \/
     (y = gridSize - 1 /\ 1 <= x <= gridSize - 2) \/
     (x = 0 /\ 1 <= y <= gridSize - 2)) /\
  (forall k, k < gridSize - 2 ->
     Boundaries.genBorderXYs gridSize !! k = Some (1 + k, 0) /\
     Boundaries.genBorderXYs gridSize !! (gridSize - 2 + k) = Some (gridSize - 1, 1 + k) /\
     Boundaries.genBorderXYs gridSize !! (2 * (gridSize - 2) + k)
       = Some (gridSize - 2 - k, gridSize - 1) /\
     Boundaries.genBorderXYs gridSize !! (3 * (gridSize - 2) + k)
       = Some (0, gridSize - 2 - k)).
Proof.
  intros Hsize. split; [|split; [|split]].
  - unfold Boundaries.genBorderXYs. by rewrite border_loop_length.
  - by apply NoDup_genBorderXYs.
  - intros x y. by apply elem_of_genBorderXYs.
  - intros k Hk. rewrite genBorderXYs_cells by assumption.
    assert (Ha : Boundaries.activeSize gridSize = gridSize - 2) by reflexivity.
    rewrite !list_lookup_fmap, !lookup_seq_lt by lia. cbn [fmap option_fmap option_map].
    unfold border_cell. rewrite !Ha.
    repeat
      match goal with
      | |- context [?a <? ?b] => destruct (Nat.ltb_spec a b); try lia
      end.
    repeat split; do 2 f_equal; lia.
Qed.

Lemma genBorderXYs_walks_the_halo_once_witness :
  length (Boundaries.genBorderXYs 102) = 4 * (102 - 2) /\
  NoDup (Boundaries.genBorderXYs 102).
Proof.
  destruct (genBorderXYs_walks_the_halo_once 102 ltac:(lia)) as (H1 & H2 & _).
  split; [exact H1|exact H2].
Defined.

(** The interior of a haloed lattice, as a lattice of its own: the halo
    rows and columns are cut off. *)
Definition interior_of (gridSize : nat) (lat : lattice) : lattice :=
  (fun col => take (gridSize - 2) (drop 1 col)) <$> take (gridSize - 2) (drop 1 lat).

Section HaloIsTorus.

Variable gridSize : nat.
Hypothesis Hsize : 3 <= gridSize.

Lemma get_interior_of (lat : lattice) (x y : nat) :
  dims gridSize lat -> x < gridSize - 2 -> y < gridSize - 2 ->
  get (interior_of gridSize lat) x y = get lat (1 + x) (1 + y).
Proof using Type.
  clear Hsize. intros [Hlen _] Hx Hy. unfold get, interior_of.
  rewrite (list_lookup_total_fmap (fun col : list Z => take (gridSize - 2) (drop 1 col))
             (take (gridSize - 2) (drop 1 lat)) x)
    by (rewrite length_take, length_drop; lia).
  rewrite lookup_total_take_lt, lookup_total_drop by assumption.
  rewrite lookup_total_take_lt, lookup_total_drop by assumption. reflexivity.
Qed.

Lemma dims_interior_of (lat : lattice) :
  dims gridSize lat -> dims (gridSize - 2) (interior_of gridSize lat).
Proof using Type.
  clear Hsize. intros [Hlen Hall]. unfold interior_of. split.
  - rewrite length_fmap, length_take, length_drop. lia.
  - apply Forall_fmap, Forall_take, Forall_drop.
    eapply Forall_impl; [exact Hall|]. intros col Hc.
    unfold compose. cbn beta in *.
    rewrite length_take, length_drop, Hc. lia.
Qed.

(** With the halo in step, the energy change at an interior site is the
    one the toroidal engine computes on the interior alone. *)
Lemma halo_calcDeltaE_torus (lat : lattice) (x y : nat) :
  dims gridSize lat -> wraparound_mirrors gridSize lat ->
  x < gridSize - 2 -> y < gridSize - 2 ->
  Boundaries.calcDeltaE lat (1 + x) (1 + y)
  = calcDeltaE (gridSize - 2) (interior_of gridSize lat) x y.
Proof using Hsize.
  intros Hd Hm Hx Hy. unfold Boundaries.calcDeltaE, calcDeltaE, gridEdge.
  destruct (Hm (1 + x)) as (_ & _ & X3 & X4).
  { unfold Boundaries.activeLeft, Boundaries.activeRight, Boundaries.gridLeft,
      Boundaries.gridRight, Boundaries.gridSide. lia. }
  destruct (Hm (1 + y)) as (Y1 & Y2 & _ & _).
  { unfold Boundaries.activeLeft, Boundaries.activeRight, Boundaries.gridLeft,
      Boundaries.gridRight, Boundaries.gridSide. lia. }
  unfold Boundaries.activeLeft, Boundaries.activeRight, Boundaries.gridLeft,
    Boundaries.gridRight, Boundaries.gridSide, Boundaries.activeTop,
    Boundaries.activeBottom, Boundaries.gridTop, Boundaries.gridBottom,
    Boundaries.gridSide in *.
  assert (Hn : get lat (1 + x) (1 + y - 1)
               = get (interior_of gridSize lat) x
                   (if 0 <? y then y - 1 else gridSize - 2 - 1)).
  { destruct (Nat.ltb_spec 0 y); rewrite get_interior_of by (auto; lia).
    - f_equal; lia.
    - replace (1 + y - 1) with 0 by lia. rewrite X4. f_equal; lia. }
  assert (Hs : get lat (1 + x) (1 + y + 1)
               = get (interior_of gridSize lat) x
                   (if y <? gridSize - 2 - 1 then y + 1 else 0)).
  { destruct (Nat.ltb_spec y (gridSize - 2 - 1)); rewrite get_interior_of by (auto; lia).
    - f_equal; lia.
    - replace (1 + y + 1) with (gridSize - 1) by lia. rewrite X3. f_equal; lia. }
  assert (He : get lat (1 + x + 1) (1 + y)
               = get (interior_of gridSize lat)
                   (if x <? gridSize - 2 - 1 then x + 1 else 0) y).
  { destruct (Nat.ltb_spec x (gridSize - 2 - 1)); rewrite get_interior_of by (auto; lia).
    - f_equal; lia.
    - replace (1 + x + 1) with (gridSize - 1) by lia. rewrite Y1. f_equal; lia. }
  assert (Hw : get lat (1 + x - 1) (1 + y)
               = get (interior_of gridSize lat)
                   (if 0 <? x then x - 1 else gridSize - 2 - 1) y).
  { destruct (Nat.ltb_spec 0 x); rewrite get_interior_of by (auto; lia).
    - f_equal; lia.
    - replace (1 + x - 1) with 0 by lia. rewrite Y2. f_equal; lia. }
  rewrite Hn, Hs, He, Hw, (get_interior_of lat x y Hd Hx Hy). ring.
Qed.

(** A loop over the active range is a loop over [0 .. activeSize - 1],
    shifted by one. *)
Lemma foldl_active_range {A : Type} (f : A -> nat -> A) (a : A) :
  foldl f a (Boundaries.active_range gridSize)
  = foldl (fun a k => f a (1 + k)) a (seq 0 (gridSize - 2)).
Proof using Type.
  clear Hsize. unfold Boundaries.active_range, Boundaries.activeTop, Boundaries.gridTop,
    Boundaries.activeSize.
  change (0 + 1) with 1. rewrite <- fmap_S_seq.
  generalize (seq 0 (gridSize - 2)). intros l. revert a.
  induction l as [|k l IH]; intros a; [reflexivity|]. cbn. apply IH.
Qed.

End HaloIsTorus.

(** X16. Under the wraparound rule the halo of Program 4 implements the
    periodic boundary of the other programs.  On a lattice whose halo
    cells equal the interior cells they mirror (as after [init()]),
    [calcDeltaE] at an interior site is what the toroidal [calcDeltaE]
    of Program 1 gives on the interior taken alone, and so are the two
    readouts; a committed flip at an interior site that is no corner of
    the interior keeps the halo in step. *)
Theorem wraparound_halo_is_torus (gridSize : nat) (lat : lattice) :
  3 <= gridSize -> dims gridSize lat -> wraparound_mirrors gridSize lat ->
  let torus := interior_of gridSize lat in
  dims (gridSize - 2) torus /\
  (forall x y, x < gridSize - 2 -> y < gridSize - 2 ->
     get torus x y = get lat (1 + x) (1 + y) /\
     Boundaries.calcDeltaE lat (1 + x) (1 + y) = calcDeltaE (gridSize - 2) torus x y) /\
  Boundaries.magnetization gridSize lat = magnetization (gridSize - 2) torus /\
  Boundaries.local_correlations gridSize lat = local_correlations (gridSize - 2) torus /\
  (forall x y, Boundaries.interior gridSize x y -> ~ interior_corner gridSize x y ->
     wraparound_mirrors gridSize (Boundaries.commit_flip gridSize "wraparound" lat x y)).
Proof.
  intros Hsize Hd Hm torus.
  split; [by apply dims_interior_of|].
  split.
  { intros x y Hx Hy. split; [by apply get_interior_of|by apply halo_calcDeltaE_torus]. }
  split; [|split].
  - unfold Boundaries.magnetization, magnetization. f_equal. f_equal.
    unfold Boundaries.spin_sum, spin_sum.
    rewrite foldl_active_range.
    apply foldl_pointwise. intros M x Hx%elem_of_seq.
    rewrite foldl_active_range.
    apply foldl_pointwise. intros M' y Hy%elem_of_seq.
    unfold torus. rewrite (get_interior_of gridSize) by (auto; lia). reflexivity.
  - unfold Boundaries.local_correlations, local_correlations. f_equal.
    rewrite foldl_active_range.
    apply foldl_pointwise. intros R x Hx%elem_of_seq.
    rewrite foldl_active_range.
    apply foldl_pointwise. intros R' y Hy%elem_of_seq.
    unfold torus. rewrite (halo_calcDeltaE_torus gridSize Hsize) by (auto; lia).
    reflexivity.
  - intros x y Hin Hnc. by apply commit_flip_keeps_mirrors.
Qed.

Lemma wraparound_halo_is_torus_witness :
  let lat := Boundaries.lat (Boundaries.init 102 boundaries_start).1 in
  Boundaries.local_correlations 102 lat
  = local_correlations (102 - 2) (interior_of 102 lat).
Proof.
  assert (H3 : 3 <= 102) by lia.
  assert (Hload : reachable4 102 (Boundaries.init 102 boundaries_start).1).
  { apply reach4_load; [apply dims_all_up|reflexivity]. }
  pose proof (reachable4_halo_ok 102 H3 _ Hload) as (Hd & _).
  pose proof (init_wraparound_mirrors 102 H3 boundaries_start (dims_all_up 102) eq_refl)
    as Hm.
  exact (proj1 (proj2 (proj2 (proj2
           (wraparound_halo_is_torus 102 _ H3 Hd Hm))))).
Defined.

(* ===================================================================== *)
(** * The weight, by the sign of [deltaE] *)
(* ===================================================================== *)

(** [Math.min(Math.exp(a), MAX_VALUE)] for an exponent that is at most 0,
    and for one that is at least 0. *)
Lemma weight_of_exponent (a : JS.number) :
  ((a = JS.NegInf \/ exists r, a = JS.Fin r /\ (r <= 0)%R) ->
   exists w, JS.Math_min (JS.Math_exp a) (JS.Fin JS.MAX_VALUE) = JS.Fin w /\ (0 <= w <= 1)%R) /\
  ((a = JS.PosInf \/ exists r, a = JS.Fin r /\ (0 <= r)%R) ->
   exists w, JS.Math_min (JS.Math_exp a) (JS.Fin JS.MAX_VALUE) = JS.Fin w /\
             (1 <= w <= JS.MAX_VALUE)%R).
Proof.
  pose proof JSFacts.MAX_VALUE_pos as HM. split.
  - intros [->|(r & -> & Hr)]; unfold JS.Math_exp, JS.Math_min.
    + exists 0%R. split; [f_equal; apply Rmin_left|]; lra.
    + pose proof (exp_pos r) as Hp.
      assert (Hle : (exp r <= 1)%R).
      { destruct (Req_dec r 0) as [->|Hne]; [rewrite exp_0; lra|].
        rewrite <- exp_0. left. apply exp_increasing. lra. }
      rewrite JSFacts.overflow_in_range by lra.
      exists (exp r). split; [f_equal; apply Rmin_left|]; lra.
  - intros [->|(r & -> & Hr)]; unfold JS.Math_exp, JS.Math_min.
    + exists JS.MAX_VALUE. split; [reflexivity|lra].
    + assert (Hge : (1 <= exp r)%R).
      { destruct (Req_dec r 0) as [->|Hne]; [rewrite exp_0; lra|].
        rewrite <- exp_0. left. apply exp_increasing. lra. }
      destruct (JSFacts.overflow_cases (exp r))
        as [[-> _]|[[_ H]|(r' & Hov & Hr' & Hp & _)]].
      * exists JS.MAX_VALUE. split; [reflexivity|lra].
      * lra.
      * rewrite Hov. specialize (Hp ltac:(lra)).
        assert (H1 : (1 <= r')%R).
        { pose proof JSFacts.MAX_VALUE_lt_OVERFLOW.
          unfold JS.overflow in Hov.
          destruct (Rle_dec JS.OVERFLOW (exp r)); [discriminate|].
          destruct (Rle_dec (exp r) (- JS.OVERFLOW)); [discriminate|].
          destruct (Rlt_dec JS.MAX_VALUE (exp r)); [injection Hov as <-; lra|].
          destruct (Rlt_dec (exp r) (- JS.MAX_VALUE)); [lra|].
          injection Hov as <-. lra. }
        exists r'. split; [f_equal; apply Rmin_left; lra|lra].
Qed.

(** The sign of the exponent [-deltaE / temperature]. *)
Lemma exponent_sign (deltaE : Z) (T : JS.number) :
  JS.positive T ->
  let a := JS.div (JS.neg (JS.of_Z deltaE)) T in
  ((0 <= deltaE)%Z -> a = JS.NegInf \/ exists r, a = JS.Fin r /\ (r <= 0)%R) /\
  ((deltaE <= 0)%Z -> a = JS.PosInf \/ exists r, a = JS.Fin r /\ (0 <= r)%R).
Proof.
  intros HT. pose proof JSFacts.MAX_VALUE_pos as HM.
  apply JSFacts.positive_cases in HT as [->|(t & -> & Ht)];
    unfold JS.div, JS.neg, JS.of_Z; cbv zeta.
  - split; intros _; right; exists 0%R; split; (reflexivity || lra).
  - destruct (Req_dec_T t 0); [lra|].
    assert (Hinv : (0 < / t)%R) by (by apply Rinv_0_lt_compat).
    split; intros Hd; apply IZR_le in Hd.
    + assert (Ha : (- IZR deltaE / t <= 0)%R) by (unfold Rdiv; nra).
      destruct (JSFacts.overflow_cases (- IZR deltaE / t))
        as [[_ H]|[[-> _]|(r' & -> & _ & _ & Hn)]]; [lra|by left|].
      right. exists r'. split; [reflexivity|]. specialize (Hn Ha). lra.
    + assert (Ha : (0 <= - IZR deltaE / t)%R) by (unfold Rdiv; nra).
      destruct (JSFacts.overflow_cases (- IZR deltaE / t))
        as [[-> _]|[[_ H]|(r' & -> & _ & Hp & _)]]; [by left|lra|].
      right. exists r'. split; [reflexivity|]. specialize (Hp Ha). lra.
Qed.

(** The threshold [w / (1 + w)] of the G-rule, on either side of
    [w = 1]. *)
Lemma glauber_threshold_half (w : R) :
  (0 <= w <= JS.MAX_VALUE)%R ->
  exists q, JS.div (JS.Fin w) (JS.add (JS.Fin 1) (JS.Fin w)) = JS.Fin q /\
    ((w <= 1)%R -> (0 <= q <= 1 / 2)%R) /\
    ((1 <= w)%R -> (1 / 2 <= q <= 1)%R) /\
    (w = 1%R -> q = (1 / 2)%R).
Proof.
  intros Hw. pose proof JSFacts.MAX_VALUE_pos as HM.
  pose proof JSFacts.MAX_VALUE_lt_OVERFLOW as HO.
  assert (H3 : (3 <= JS.MAX_VALUE)%R).
  { unfold JS.MAX_VALUE.
    assert (Hinv : (/ 2 ^ 52 <= 1 / 2)%R).
    { replace (1 / 2)%R with (/ 2)%R by lra.
      apply Rinv_le_contravar; [lra|].
      replace 2%R with (2 ^ 1)%R at 1 by lra. apply Rle_pow; [lra|lia]. }
    assert (Hp : (2 <= 2 ^ 1023)%R).
    { replace 2%R with (2 ^ 1)%R at 1 by lra. apply Rle_pow; [lra|lia]. }
    nra. }
  assert (Hs : exists s, JS.add (JS.Fin 1) (JS.Fin w) = JS.Fin s /\
                 (s = 1 + w \/ (s = JS.MAX_VALUE /\ JS.MAX_VALUE < 1 + w))%R).
  { unfold JS.add, JS.overflow.
    destruct (Rle_dec JS.OVERFLOW (1 + w)).
    - exfalso.
      assert (2 <= JS.OVERFLOW - JS.MAX_VALUE)%R; [|lra].
      unfold JS.OVERFLOW, JS.MAX_VALUE.
      assert (H53 : (/ 2 ^ 52 = 2 * / 2 ^ 53)%R).
      { change 53 with (S 52). simpl pow. field. }
      rewrite H53.
      assert (H1023 : (2 ^ 1023 = 2 ^ 54 * 2 ^ 969)%R).
      { rewrite <- pow_add. reflexivity. }
      assert (H54 : (2 ^ 54 * / 2 ^ 53 = 2)%R).
      { change 54 with (S 53). simpl pow. field. }
      assert (H969 : (1 <= 2 ^ 969)%R) by (apply pow_R1_Rle; lra).
      replace ((2 - / 2 ^ 53) * 2 ^ 1023 - (2 - 2 * / 2 ^ 53) * 2 ^ 1023)%R
        with ((2 ^ 54 * / 2 ^ 53) * 2 ^ 969)%R by (rewrite H1023; ring).
      rewrite H54. lra.
    - destruct (Rle_dec (1 + w) (- JS.OVERFLOW)); [lra|].
      destruct (Rlt_dec JS.MAX_VALUE (1 + w)).
      + exists JS.MAX_VALUE. split; [reflexivity|]. right. lra.
      + destruct (Rlt_dec (1 + w) (- JS.MAX_VALUE)); [lra|].
        exists (1 + w)%R. split; [reflexivity|]. by left. }
  destruct Hs as (s & -> & Hs).
  assert (Hs1 : (1 <= s)%R) by (destruct Hs as [->|[-> _]]; lra).
  unfold JS.div. destruct (Req_dec_T s 0); [lra|].
  assert (Hinv : (0 < / s)%R) by (apply Rinv_0_lt_compat; lra).
  assert (Hq : (0 <= w / s <= 1)%R).
  { split.
    - apply Rle_mult_inv_pos; lra.
    - apply (Rmult_le_reg_r s); [lra|].
      unfold Rdiv. rewrite Rmult_assoc, Rinv_l by lra.
      destruct Hs as [->|[-> _]]; lra. }
  exists (w / s)%R. split; [apply JSFacts.overflow_in_range; lra|].
  split; [|split].
  - intros Hle. split; [lra|]. destruct Hs as [->|[-> Hbig]]; [|lra].
    apply (Rmult_le_reg_r (1 + w)); [lra|].
    unfold Rdiv. rewrite Rmult_assoc, Rinv_l by lra. lra.
  - intros Hge. split; [|lra].
    apply (Rmult_le_reg_r s); [lra|].
    unfold Rdiv at 2. rewrite Rmult_assoc, Rinv_l by lra.
    destruct Hs as [->|[-> Hbig]]; lra.
  - intros ->. destruct Hs as [->|[-> Hbig]]; [lra|lra].
Qed.

(** X17. The weight that the acceptance rules compare with the draw, for
    a positive temperature.  When [deltaE] is above 0 (the only case in
    which the M-rule consults it) the weight is at most 1, so the rule
    rejects some proposals, and the threshold [w / (1 + w)] of the G-rule
    is at most 1/2; when [deltaE] is 0 or below the weight is at least 1
    and the threshold at least 1/2; at [deltaE = 0] the weight is exactly
    1 and the threshold exactly 1/2, so the G-rule flips a neutral spin
    on half of the draws where the M-rule always flips it. *)
Theorem boltzmann_weight_by_sign (deltaE : Z) (T : JS.number) :
  JS.positive T ->
  exists w q : R,
    boltzmann_weight deltaE T = JS.Fin w /\
    JS.div (boltzmann_weight deltaE T) (JS.add (JS.Fin 1) (boltzmann_weight deltaE T))
      = JS.Fin q /\
    ((0 < deltaE)%Z -> (0 <= w <= 1)%R /\ (0 <= q <= 1 / 2)%R) /\
    ((deltaE <= 0)%Z -> (1 <= w <= JS.MAX_VALUE)%R /\ (1 / 2 <= q <= 1)%R) /\
    (deltaE = 0%Z -> w = 1%R /\ q = (1 / 2)%R).
Proof.
  intros HT. pose proof JSFacts.MAX_VALUE_pos as HM.
  destruct (exponent_sign deltaE T HT) as [Hpos Hneg]. cbv zeta in Hpos, Hneg.
  destruct (weight_of_exponent (JS.div (JS.neg (JS.of_Z deltaE)) T)) as [Hlow Hhigh].
  fold (boltzmann_weight deltaE T) in Hlow, Hhigh.
  destruct (Z_lt_le_dec 0 deltaE) as [Hd|Hd].
  - destruct (Hlow (Hpos ltac:(lia))) as (w & Hw & Hrange).
    destruct (glauber_threshold_half w ltac:(lra)) as (q & Hq & Hq1 & _ & _).
    exists w, q. rewrite Hw. split; [reflexivity|]. split; [exact Hq|].
    split; [intros _; split; [exact Hrange|apply Hq1; lra]|].
    split; intros; lia.
  - destruct (Hhigh (Hneg Hd)) as (w & Hw & Hrange).
    destruct (glauber_threshold_half w ltac:(lra)) as (q & Hq & Hq1 & Hq2 & Hq3).
    exists w, q. rewrite Hw. split; [reflexivity|]. split; [exact Hq|].
    split; [intros; lia|]. split; [intros _; split; [exact Hrange|apply Hq2; lra]|].
    intros ->.
    destruct (Hlow (Hpos ltac:(lia))) as (w' & Hw' & Hrange').
    rewrite Hw in Hw'. injection Hw' as <-.
    assert (w = 1%R) by lra. auto.
Qed.

Lemma boltzmann_weight_by_sign_witness :
  exists w q : R,
    boltzmann_weight 4 (JS.Fin 1) = JS.Fin w /\
    JS.div (boltzmann_weight 4 (JS.Fin 1)) (JS.add (JS.Fin 1) (boltzmann_weight 4 (JS.Fin 1)))
      = JS.Fin q /\
    (0 <= w <= 1)%R /\ (0 <= q <= 1 / 2)%R.
Proof.
  assert (H : JS.positive (JS.Fin 1)).
  { unfold JS.positive. apply JSFacts.lt_Fin. lra. }
  destruct (boltzmann_weight_by_sign 4 (JS.Fin 1) H) as (w & q & H1 & H2 & H3 & _).
  exists w, q. split; [exact H1|]. split; [exact H2|]. apply H3. lia.
Defined.

(* ===================================================================== *)
(** * Program 3: the buttons *)
(* ===================================================================== *)

Module VisitationPage.

Section Program.

Variable gridSize : nat.   (* 100 in the source *)

Definition with_algorithm (w : Visitation.world) (name : string) : Visitation.world :=
  Visitation.mk_world (Visitation.lat w) (Visitation.shadowLattice w)
    (Visitation.temperature w) (Visitation.thePermutation w) name
    (Visitation.state w) (Visitation.timer w) (Visitation.runButton w) (Visitation.rand w).

(** [doStepButton(e)]. *)
Definition doStepButton (w : Visitation.world) : Visitation.world * result unit :=
  if String.eqb (Visitation.state w) "running" then
    let w := Visitation.with_state w "paused" in
    let w := Visitation.with_timer w None in
    (Visitation.with_runButton w "Run", Ok tt)
  else
    match Visitation.algoList gridSize (Visitation.algorithm w) with
    | None => (w, Throw TypeError)            (* alg.fn with alg undefined *)
    | Some (fn, _) => (fn w, Ok tt)
    end.

(** [doResetButton(e)]. *)
Definition doResetButton (w : Visitation.world) : Visitation.world :=
  let w := Visitation.with_state w "paused" in
  let w := Visitation.with_runButton w "Run" in
  let w := Visitation.with_timer w None in
  let w := Visitation.with_permutation w
             (randomPermutation (N gridSize) (Visitation.rand w)) in
  Visitation.init gridSize w.

(** [doRunButton()] as [chooseAlgorithm] calls it: [this] is not the
    button there, so the label of the button is not written. *)
Definition restart_timer (w : Visitation.world) : Visitation.world * result unit :=
  if String.eqb (Visitation.state w) "running" then
    let w := Visitation.with_state w "paused" in
    (Visitation.with_timer w None, Ok tt)
  else
    let w := Visitation.with_state w "running" in
    match Visitation.algoList gridSize (Visitation.algorithm w) with
    | None => (w, Throw TypeError)
    | Some (_, speed) =>
        (Visitation.with_timer w (Some (Visitation.algorithm w, speed)), Ok tt)
    end.

(** [chooseAlgorithm(e)], for the value [name] of the radio button. *)
Definition chooseAlgorithm (name : string) (w : Visitation.world)
  : Visitation.world * result unit :=
  let w := with_algorithm w name in
  if String.eqb (Visitation.state w) "running" then
    let w := Visitation.with_state w "switchingAlgorithms" in
    let w := Visitation.with_timer w None in
    restart_timer w
  else (w, Ok tt).

(** A tick of the interval: the function handed to [setInterval]. *)
Definition tick (w : Visitation.world) : option Visitation.world :=
  match Visitation.timer w with
  | None => None
  | Some (name, _) =>
      match Visitation.algoList gridSize name with
      | None => None
      | Some (fn, _) => Some (fn w)
      end
  end.

End Program.

End VisitationPage.

Section VisitationStateMachine.

Variable gridSize : nat.

Local Abbreviation world := Visitation.world.

(** The variables that only the handlers change. *)
Definition same_buttons (w w' : world) : Prop :=
  Visitation.algorithm w' = Visitation.algorithm w /\
  Visitation.state w' = Visitation.state w /\
  Visitation.timer w' = Visitation.timer w /\
  Visitation.runButton w' = Visitation.runButton w.

Lemma same_buttons_foldl {B : Type} (f : world -> B -> world) (l : list B) (w : world) :
  (forall w' b, same_buttons w' (f w' b)) -> same_buttons w (foldl f w l).
Proof.
  intros Hf. apply (foldl_preserves f (fun w' => same_buttons w w')).
  - repeat split.
  - intros b w' H. specialize (Hf w' b). unfold same_buttons in *. intuition congruence.
Qed.

Lemma same_buttons_trans (w1 w2 w3 : world) :
  same_buttons w1 w2 -> same_buttons w2 w3 -> same_buttons w1 w3.
Proof. unfold same_buttons. intuition congruence. Qed.

Lemma updateSpin_buttons (w : world) (c : coord) :
  same_buttons w (Visitation.updateSpin gridSize w c).
Proof. repeat split. Qed.

Lemma stage_buttons (w : world) (c : coord) :
  same_buttons w (Visitation.stage gridSize w c).
Proof.
  destruct c as [x y]. unfold Visitation.stage.
  cbn [Visitation.lat Visitation.with_shadow Visitation.temperature].
  destruct (_ <=? 0)%Z; [repeat split|].
  unfold Math_random.
  cbn [Visitation.rand Visitation.with_shadow Visitation.with_rand].
  case_lt; repeat split.
Qed.

(** A sweep of any of the eight algorithms leaves the buttons alone. *)
Lemma algoList_buttons (name : string) (fn : world -> world) (speed : nat) (w : world) :
  Visitation.algoList gridSize name = Some (fn, speed) -> same_buttons w (fn w).
Proof.
  unfold Visitation.algoList.
  repeat (destruct (String.eqb name _);
          [intros H; injection H as <- <-|]); [..|discriminate].
  - unfold Visitation.runMetro_typewriter. apply same_buttons_foldl. intros w' y.
    apply same_buttons_foldl. intros w'' x. apply updateSpin_buttons.
  - unfold Visitation.runMetro_checkerboard. cbv zeta.
    match goal with
    | |- same_buttons _ (foldl _ ?mid _) => apply (same_buttons_trans _ mid)
    end; apply same_buttons_foldl; intros w' x;
      apply same_buttons_foldl; intros w'' y; apply updateSpin_buttons.
  - unfold Visitation.runMetro_diagonal. apply same_buttons_foldl. intros w' c.
    apply updateSpin_buttons.
  - unfold Visitation.runMetro_boustrophedon.
    destruct (boustrophedonCoords _ _); [|repeat split].
    apply same_buttons_foldl. intros w' c. apply updateSpin_buttons.
  - unfold Visitation.runMetro_permuted. apply same_buttons_foldl. intros w' c.
    apply updateSpin_buttons.
  - unfold Visitation.runMetro_re_permuted.
    destruct (randomPermutation _ _) as [p g].
    match goal with
    | |- same_buttons _ (foldl _ ?mid _) => apply (same_buttons_trans _ mid)
    end; [repeat split|].
    apply same_buttons_foldl. intros w' c. apply updateSpin_buttons.
  - unfold Visitation.runMetro_random. repeat split.
  - unfold Visitation.runMetro_simultaneous.
    match goal with
    | |- same_buttons _ (foldl _ ?mid _) => apply (same_buttons_trans _ mid)
    end; apply same_buttons_foldl; intros w' c; [apply stage_buttons|repeat split].
Qed.

(** What can happen to the page of Program 3. *)
Inductive button : Type :=
  | PressRun | PressStep | PressReset
  | Choose (name : string)
  | Tick.

Definition press (b : button) (w : world) : option (world * result unit) :=
  match b with
  | PressRun => Some (Visitation.doRunButton gridSize w)
  | PressStep => Some (VisitationPage.doStepButton gridSize w)
  | PressReset => Some (VisitationPage.doResetButton gridSize w, Ok tt)
  | Choose name => Some (VisitationPage.chooseAlgorithm gridSize name w)
  | Tick =>
      match VisitationPage.tick gridSize w with
      | Some w' => Some (w', Ok tt)
      | None => None
      end
  end.

(** The timer runs the selected algorithm at its speed exactly while
    [state] is 'running', and the button says so. *)
Definition timer_in_step (w : world) : Prop :=
  (exists fn speed,
     Visitation.algoList gridSize (Visitation.algorithm w) = Some (fn, speed) /\
     ((Visitation.state w = "running" /\
       Visitation.timer w = Some (Visitation.algorithm w, speed) /\
       Visitation.runButton w = "Stop") \/
      (Visitation.state w <> "running" /\
       Visitation.timer w = None /\
       Visitation.runButton w = "Run"))).

Definition known_choice (b : button) : Prop :=
  match b with
  | Choose name => is_Some (Visitation.algoList gridSize name)
  | _ => True
  end.

Lemma press_in_step (b : button) (w w' : world) (r : result unit) :
  timer_in_step w -> known_choice b -> press b w = Some (w', r) ->
  timer_in_step w' /\ r = Ok tt.
Proof.
  intros (fn & speed & Halg & Hst) Hknown Hpress.
  destruct b; cbn [press known_choice] in *.
  - injection Hpress as Hp. unfold Visitation.doRunButton in Hp.
    destruct (String.eqb_spec (Visitation.state w) "running") as [Hr|Hr].
    + injection Hp as <- <-. split; [|reflexivity].
      exists fn, speed. split; [exact Halg|]. right. repeat split. discriminate.
    + cbn [Visitation.algorithm Visitation.with_state Visitation.with_runButton] in Hp.
      rewrite Halg in Hp. injection Hp as <- <-. split; [|reflexivity].
      exists fn, speed. split; [exact Halg|]. left. repeat split.
  - injection Hpress as Hp. unfold VisitationPage.doStepButton in Hp.
    destruct (String.eqb_spec (Visitation.state w) "running") as [Hr|Hr].
    + injection Hp as <- <-. split; [|reflexivity].
      exists fn, speed. split; [exact Halg|]. right. repeat split. discriminate.
    + rewrite Halg in Hp. injection Hp as <- <-. split; [|reflexivity].
      destruct (algoList_buttons _ fn speed w Halg) as (Ha & Hs & Ht & Hb).
      exists fn, speed. rewrite Ha, Hs, Ht, Hb. split; [exact Halg|].
      destruct Hst as [(H1 & _)|H]; [congruence|]. right. exact H.
  - injection Hpress as <- <-. split; [|reflexivity].
    exists fn, speed. split; [exact Halg|]. right. repeat split. discriminate.
  - injection Hpress as Hp. unfold VisitationPage.chooseAlgorithm in Hp.
    destruct Hknown as [[fn' speed'] Hnew].
    cbn [Visitation.state VisitationPage.with_algorithm] in Hp.
    destruct (String.eqb_spec (Visitation.state w) "running") as [Hr|Hr].
    + unfold VisitationPage.restart_timer in Hp.
      cbn [Visitation.state Visitation.algorithm Visitation.with_state
           Visitation.with_timer VisitationPage.with_algorithm] in Hp.
      change (String.eqb "switchingAlgorithms" "running") with false in Hp.
      rewrite Hnew in Hp. injection Hp as <- <-. split; [|reflexivity].
      exists fn', speed'. split; [exact Hnew|]. left.
      destruct Hst as [(_ & _ & Hb)|(H1 & _)]; [|congruence].
      repeat split. exact Hb.
    + injection Hp as <- <-. split; [|reflexivity].
      exists fn', speed'. split; [exact Hnew|]. right.
      destruct Hst as [(H1 & _)|H]; [congruence|]. exact H.
  - unfold VisitationPage.tick in Hpress.
    destruct Hst as [(H1 & H2 & H3)|(_ & H2 & _)]; rewrite H2 in Hpress;
      [|discriminate].
    rewrite Halg in Hpress. injection Hpress as <- <-. split; [|reflexivity].
    destruct (algoList_buttons _ fn speed w Halg) as (Ha & Hs & Ht & Hb).
    exists fn, speed. rewrite Ha, Hs, Ht, Hb. split; [exact Halg|]. left. auto.
Qed.

Fixpoint press_all (bs : list button) (w : world) : option (world * result unit) :=
  match bs with
  | [] => Some (w, Ok tt)
  | b :: bs' =>
      match press b w with
      | Some (w', Ok _) => press_all bs' w'
      | other => other
      end
  end.

End VisitationStateMachine.

(** X18. The buttons of Program 3.  From a page whose algorithm is one of
    the eight of [algoList], with the timer stopped and the button
    reading "Run", any sequence of presses of Run, Step and Reset,
    choices of one of the eight algorithms and timer ticks raises no
    exception and keeps the timer in step with [state]: while [state] is
    'running' the interval runs the algorithm now selected, at that
    algorithm's speed, and the button reads "Stop"; otherwise no interval
    runs and the button reads "Run".  In particular a change of algorithm
    during a run restarts the timer with the new function and speed. *)
Theorem visitation_timer_follows_state (gridSize : nat) (bs : list button)
    (w w' : Visitation.world) (r : result unit) :
  is_Some (Visitation.algoList gridSize (Visitation.algorithm w)) ->
  Visitation.state w <> "running" -> Visitation.timer w = None ->
  Visitation.runButton w = "Run" ->
  Forall (known_choice gridSize) bs ->
  press_all gridSize bs w = Some (w', r) ->
  r = Ok tt /\
  exists fn speed,
    Visitation.algoList gridSize (Visitation.algorithm w') = Some (fn, speed) /\
    ((Visitation.state w' = "running" /\
      Visitation.timer w' = Some (Visitation.algorithm w', speed) /\
      Visitation.runButton w' = "Stop") \/
     (Visitation.state w' <> "running" /\
      Visitation.timer w' = None /\
      Visitation.runButton w' = "Run")).
Proof.
  intros [[fn speed] Halg] Hst Ht Hb Hknown.
  assert (Hinv : timer_in_step gridSize w).
  { exists fn, speed. split; [exact Halg|]. right. auto. }
  clear fn speed Halg Hst Ht Hb. revert w Hinv.
  induction Hknown as [|b bs Hb _ IH]; intros w Hinv Hrun.
  - injection Hrun as <- <-. split; [reflexivity|exact Hinv].
  - cbn [press_all] in Hrun.
    destruct (press gridSize b w) as [[w1 r1]|] eqn:Hpress; [|discriminate].
    destruct (press_in_step gridSize b w w1 r1 Hinv Hb Hpress) as [Hinv1 ->].
    by apply (IH w1).
Qed.

Lemma visitation_timer_follows_state_witness :
  let out := VisitationPage.chooseAlgorithm 20 "simultaneous"
               (Visitation.doRunButton 20
                  (VisitationPage.with_algorithm visitation_start "typewriter")).1 in
  out.2 = Ok tt /\
  Visitation.state out.1 = "running" /\
  Visitation.timer out.1 = Some ("simultaneous"%string, 200).
Proof.
  destruct (visitation_timer_follows_state 20 [PressRun; Choose "simultaneous"]
              (VisitationPage.with_algorithm visitation_start "typewriter") _ _
              ltac:(eexists; reflexivity) ltac:(discriminate) eq_refl eq_refl
              ltac:(repeat constructor; eexists; reflexivity) eq_refl)
    as (H1 & _).
  split; [exact H1|]. split; reflexivity.
Defined.

Section FixedBorders.

Variable gridSize : nat.
Hypothesis Hsize : 3 <= gridSize.

(** A boundary rule under which neither a flip nor the end of a sweep
    rewrites the halo: 'up', 'down', 'zero', and any unknown name. *)
Definition fixed_rule (rule : string) : Prop :=
  rule <> "wraparound" /\ rule <> "twisted" /\
  rule <> "sampled" /\ rule <> "underdog" /\ rule <> "random".

(** The cells outside the interior are as in [lat0]. *)
Definition halo_as_in (lat0 : lattice) (st : lattice * rng) : Prop :=
  forall a b, ~ Boundaries.interior gridSize a b -> get st.1 a b = get lat0 a b.

Lemma commit_flip_fixed (rule : string) (lat : lattice) (x y : nat) :
  fixed_rule rule -> Boundaries.commit_flip gridSize rule lat x y = flip lat x y.
Proof using Type.
  clear Hsize. intros (H1 & H2 & _).
  unfold Boundaries.commit_flip, Boundaries.updateBorderMicrostep.
  apply String.eqb_neq in H1, H2. by rewrite H1, H2.
Qed.

Lemma updateBorderMacrostep_fixed (rule : string) (st : lattice * rng) :
  fixed_rule rule -> Boundaries.updateBorderMacrostep gridSize rule st = st.
Proof using Type.
  clear Hsize. intros (_ & _ & H3 & H4 & H5).
  unfold Boundaries.updateBorderMacrostep.
  apply String.eqb_neq in H3, H4, H5. by rewrite H3, H4, H5.
Qed.

Lemma metro_microstep_halo (rule : string) (T : JS.number) (lat0 : lattice)
    (st : lattice * rng) (x y : nat) :
  fixed_rule rule -> Boundaries.interior gridSize x y ->
  halo_as_in lat0 st ->
  halo_as_in lat0 (Boundaries.metro_microstep gridSize rule T st x y).
Proof using Type.
  clear Hsize. intros Hr Hin Hh. destruct st as [lat g].
  unfold Boundaries.metro_microstep. rewrite commit_flip_fixed by assumption.
  assert (Hf : halo_as_in lat0 (flip lat x y, g)).
  { intros a b Hab. cbn [fst]. rewrite get_flip_other; [by apply Hh|].
    intros E. injection E as -> ->. contradiction. }
  destruct (_ <=? 0)%Z.
  - intros a b Hab. by apply Hf.
  - unfold Math_random. case_lt; intros a b Hab; [by apply Hf|by apply Hh].
Qed.

Lemma glauber_microstep_halo (rule : string) (T : JS.number) (lat0 : lattice)
    (st : lattice * rng) (x y : nat) :
  fixed_rule rule -> Boundaries.interior gridSize x y ->
  halo_as_in lat0 st ->
  halo_as_in lat0 (Boundaries.glauber_microstep gridSize rule T st x y).
Proof using Type.
  clear Hsize. intros Hr Hin Hh. destruct st as [lat g].
  unfold Boundaries.glauber_microstep. rewrite commit_flip_fixed by assumption.
  assert (Hf : halo_as_in lat0 (flip lat x y, g)).
  { intros a b Hab. cbn [fst]. rewrite get_flip_other; [by apply Hh|].
    intros E. injection E as -> ->. contradiction. }
  unfold Math_random. case_lt; intros a b Hab; [by apply Hf|by apply Hh].
Qed.

Lemma runMetro_halo (w : Boundaries.world) :
  fixed_rule (Boundaries.boundaryRule w) ->
  halo_as_in (Boundaries.lat w)
    (Boundaries.lat (Boundaries.runMetro gridSize w),
     Boundaries.rand (Boundaries.runMetro gridSize w)).
Proof using Hsize.
  intros Hr. unfold Boundaries.runMetro.
  rewrite updateBorderMacrostep_fixed by assumption.
  cbn [Boundaries.lat Boundaries.rand Boundaries.with_lat_rand].
  match goal with |- halo_as_in _ (?a.1, ?a.2) => assert (H : halo_as_in (Boundaries.lat w) a) end.
  { apply (foldl_preserves_mem _ (halo_as_in (Boundaries.lat w))).
    - intros a b _. reflexivity.
    - intros y st Hy Hst.
      apply (foldl_preserves_mem _ (halo_as_in (Boundaries.lat w))); [exact Hst|].
      intros x st' Hx Hst'. apply metro_microstep_halo; auto.
      apply interior_iff. apply elem_of_active_range in Hx, Hy; [lia|assumption..]. }
  exact H.
Qed.

Lemma runGlauber_halo (w : Boundaries.world) :
  fixed_rule (Boundaries.boundaryRule w) ->
  halo_as_in (Boundaries.lat w)
    (Boundaries.lat (Boundaries.runGlauber gridSize w),
     Boundaries.rand (Boundaries.runGlauber gridSize w)).
Proof using Hsize.
  intros Hr. unfold Boundaries.runGlauber.
  rewrite updateBorderMacrostep_fixed by assumption.
  cbn [Boundaries.lat Boundaries.rand Boundaries.with_lat_rand].
  match goal with |- halo_as_in _ (?a.1, ?a.2) => assert (H : halo_as_in (Boundaries.lat w) a) end.
  { apply (foldl_preserves _ (halo_as_in (Boundaries.lat w))).
    - intros a b _. reflexivity.
    - intros i st Hst.
      pose proof (random_active_interior gridSize Hsize st.2) as Hin.
      destruct (Boundaries.random_active gridSize st.2) as [x g1].
      destruct (Boundaries.random_active gridSize g1) as [y g2].
      apply glauber_microstep_halo; auto. }
  exact H.
Qed.

End FixedBorders.

(** X19. Fixed borders stay fixed.  Under a boundary rule other than
    'wraparound', 'twisted', 'sampled', 'underdog' and 'random' (that is
    under 'up', 'down' and 'zero') a sweep of [runMetro] or of
    [runGlauber] changes no cell outside the interior: neither the flips
    nor [updateBorderMacrostep] at the end of the sweep write to the
    halo or to a corner. *)
Theorem fixed_borders_stay_fixed (gridSize : nat) (w : Boundaries.world) (a b : nat) :
  3 <= gridSize ->
  Boundaries.boundaryRule w <> "wraparound" -> Boundaries.boundaryRule w <> "twisted" ->
  Boundaries.boundaryRule w <> "sampled" -> Boundaries.boundaryRule w <> "underdog" ->
  Boundaries.boundaryRule w <> "random" ->
  ~ Boundaries.interior gridSize a b ->
  get (Boundaries.lat (Boundaries.runMetro gridSize w)) a b = get (Boundaries.lat w) a b /\
  get (Boundaries.lat (Boundaries.runGlauber gridSize w)) a b = get (Boundaries.lat w) a b.
Proof.
  intros Hsize H1 H2 H3 H4 H5 Hab.
  assert (Hr : fixed_rule (Boundaries.boundaryRule w)) by (repeat split; assumption).
  split.
  - exact (runMetro_halo gridSize Hsize w Hr a b Hab).
  - exact (runGlauber_halo gridSize Hsize w Hr a b Hab).
Qed.

Lemma fixed_borders_stay_fixed_witness :
  let w := Boundaries.mk_world (all_up 102) (JS.Fin 1) "zero" "metropolis" rng_zero in
  get (Boundaries.lat (Boundaries.runMetro 102 w)) 0 5 = get (Boundaries.lat w) 0 5 /\
  get (Boundaries.lat (Boundaries.runGlauber 102 w)) 0 5 = get (Boundaries.lat w) 0 5.
Proof.
  apply fixed_borders_stay_fixed; try discriminate; [lia|].
  intros H. apply (proj1 (interior_iff 102 0 5)) in H. lia.
Defined.
